(** * GLSLPostProcessor: text utilities, struct-field minifier, optimizer
      profiles and the [process] pipeline of libs/filamat.

    The development embeds [libs/filamat/src/GLSLPostProcessor.cpp].
    [std::string] and [std::string_view] are [string]; [size_t] cursors are
    [nat]; [std::string::npos] is [None] in the result of a search. *)

From Stdlib Require Import Strings.String Strings.Ascii.
From Stdlib Require Import Lists.List Arith.PeanoNat Arith.Arith Bool.Bool NArith.BinNat.
From Stdlib Require Import micromega.Lia Sorting.Permutation Lists.Finite.
From Stdlib Require Import Numbers.DecimalString.
Import ListNotations.

Local Open Scope list_scope.
Local Open Scope string_scope.

(** ** std::string primitives *)

Module Str.

Definition newline : ascii := "010"%char.
Definition tab : ascii := "009"%char.
Definition nul : ascii := "000"%char.
Definition nl : string := String newline EmptyString.

(** [s[i]] on a [std::string]: the character at [i] below [s.size()], the
    terminating null character at [i = s.size()], and no defined value
    beyond. *)
Definition at_ (s : string) (i : nat) : option ascii :=
  match get i s with
  | Some c => Some c
  | None => if (i =? String.length s)%nat then Some nul else None
  end.

(** [s.find(pat, pos)]. *)
Definition find (s pat : string) (pos : nat) : option nat := index pos pat s.

(** [s.substr(pos, count)] for [pos <= s.size()]. *)
Definition substr (s : string) (pos count : nat) : string := substring pos count s.

(** [s.substr(pos)]: the rest of the string from [pos]. *)
Definition substr_from (s : string) (pos : nat) : string :=
  substring pos (String.length s - pos) s.

(** [s.replace(pos, count, to)]. *)
Definition replace (s : string) (pos count : nat) (to : string) : string :=
  substring 0 pos s ++ to ++ substr_from s (pos + count).

(** Membership of a character in a set given as a string. *)
Fixpoint mem (c : ascii) (set : string) : bool :=
  match set with
  | EmptyString => false
  | String d set' => Ascii.eqb c d || mem c set'
  end.

(** [s.find_first_not_of(set, pos)]. *)
Fixpoint find_first_not_of (s set : string) (pos : nat) : option nat :=
  match s with
  | EmptyString => None
  | String c s' =>
      match pos with
      | 0 => if mem c set then option_map S (find_first_not_of s' set 0) else Some 0
      | S p => option_map S (find_first_not_of s' set p)
      end
  end.

(** [s.find_first_of(c, pos)] for a single character. *)
Fixpoint find_first_of (s : string) (c : ascii) (pos : nat) : option nat :=
  match s with
  | EmptyString => None
  | String d s' =>
      match pos with
      | 0 => if Ascii.eqb d c then Some 0 else option_map S (find_first_of s' c 0)
      | S p => option_map S (find_first_of s' c p)
      end
  end.

(** The last character of a text. *)
Fixpoint last_char (s : string) : option ascii :=
  match s with
  | EmptyString => None
  | String c EmptyString => Some c
  | String _ s' => last_char s'
  end.

(** Text made of lines, each followed by a newline. *)
Fixpoint unlines (ls : list string) : string :=
  match ls with
  | [] => EmptyString
  | l :: ls' => l ++ nl ++ unlines ls'
  end.

End Str.

(** ** Outcome of a loop that may read outside its string *)

Inductive outcome (A : Type) : Type :=
| Done (a : A)        (* the code returns [a] *)
| PastEnd             (* the code reads [s[i]] with [i > s.size()] *)
| NoFuel.             (* the model's iteration bound was too small *)
Arguments Done {A} a.
Arguments PastEnd {A}.
Arguments NoFuel {A}.

(** ** shrinkString *)

Module Shrink.
Import Str.

(** [while (s[cur] != '\n') { cur++; len++; }] *)
Fixpoint scan_line (fuel : nat) (s : string) (cur len : nat) : outcome (nat * nat) :=
  match fuel with
  | 0 => NoFuel
  | S fuel' =>
      match at_ s cur with
      | None => PastEnd
      | Some c =>
          if Ascii.eqb c newline then Done (cur, len)
          else scan_line fuel' s (S cur) (S len)
      end
  end.

(** [while (s[cur] == '\n') { cur++; }] *)
Fixpoint skip_newlines (fuel : nat) (s : string) (cur : nat) : outcome nat :=
  match fuel with
  | 0 => NoFuel
  | S fuel' =>
      match at_ s cur with
      | None => PastEnd
      | Some c =>
          if Ascii.eqb c newline then skip_newlines fuel' s (S cur)
          else Done cur
      end
  end.

(** The body of [while (cur < s.length())], iterated. Both inner loops
    get [length s + 2] steps: a cursor is at most [length s + 1] when a read
    is still attempted. In [len - (newPos - pos)] nothing wraps around: the
    scan stopped at a newline at [pos + len], which is neither a space nor a
    tab, so [newPos <= pos + len]. *)
Fixpoint shrink_loop (fuel : nat) (s : string) (cur : nat) (r : string)
  : outcome string :=
  match fuel with
  | 0 => if (cur <? String.length s)%nat then NoFuel else Done r
  | S fuel' =>
      if (cur <? String.length s)%nat then
        let pos := cur in
        match scan_line (String.length s + 2) s cur 0 with
        | Done (cur1, len) =>
            let newPos :=
              match find_first_not_of s (String " " (String tab "")) pos with
              | Some n => n
              | None => pos
              end in
            let r1 := (r ++ substr s newPos (len - (newPos - pos))) ++ nl in
            match skip_newlines (String.length s + 2) s cur1 with
            | Done cur2 => shrink_loop fuel' s cur2 r1
            | PastEnd => PastEnd
            | NoFuel => NoFuel
            end
        | PastEnd => PastEnd
        | NoFuel => NoFuel
        end
      else Done r
  end.

Definition shrinkString (s : string) : outcome string :=
  shrink_loop (String.length s) s 0 EmptyString.

(** *** A text seen as the loop sees it

    A text that ends in a newline is a sequence of segments: a line (without
    newline) followed by a run of one or more newlines. [(l, k)] is the line
    [l] followed by [S k] newlines. *)
Fixpoint newlines (k : nat) : string :=
  match k with
  | 0 => EmptyString
  | S k' => String newline (newlines k')
  end.

Fixpoint text (segs : list (string * nat)) : string :=
  match segs with
  | [] => EmptyString
  | (l, k) :: segs' => l ++ newlines (S k) ++ text segs'
  end.

(** The number of leading spaces and tabs of a line, and the line without
    them. *)
Fixpoint leading (l : string) : nat :=
  match l with
  | String c l' => if mem c (String " " (String tab "")) then S (leading l') else 0
  | EmptyString => 0
  end.

Fixpoint stripLeading (l : string) : string :=
  match l with
  | String c l' => if mem c (String " " (String tab "")) then stripLeading l' else l
  | EmptyString => EmptyString
  end.

(** What the loop writes for a sequence of segments: every line without its
    leading spaces and tabs, followed by one newline. *)
Fixpoint shrunk (segs : list (string * nat)) : string :=
  match segs with
  | [] => EmptyString
  | (l, _) :: segs' => stripLeading l ++ nl ++ shrunk segs'
  end.

(** The text does not begin with a newline. *)
Definition starts_clean (t : string) : Prop :=
  match t with
  | String c _ => c <> newline
  | EmptyString => True
  end.

(** The segments are the ones the loop finds in [text segs ++ tail]: no line
    holds a newline, and every run of newlines is complete. *)
Fixpoint segmented (segs : list (string * nat)) (tail : string) : Prop :=
  match segs with
  | [] => True
  | (l, _) :: segs' =>
      mem newline l = false /\ starts_clean (text segs' ++ tail) /\ segmented segs' tail
  end.

(** A text that is empty or ends in a newline. *)
Definition terminated (s : string) : Prop := s = "" \/ last_char s = Some newline.

End Shrink.

(** ** Identifier-aware line scanner *)

Module Scanner.
Import Str.

Definition isIdCharNondigit (c : ascii) : bool :=
  let n := nat_of_ascii c in
  Ascii.eqb c "_" || ((97 <=? n)%nat && (n <=? 122)%nat) || ((65 <=? n)%nat && (n <=? 90)%nat).

Definition isIdChar (c : ascii) : bool :=
  let n := nat_of_ascii c in
  isIdCharNondigit c || ((48 <=? n)%nat && (n <=? 57)%nat).

(** [while (index < codeline.size() && isIdChar(codeline[index])) ++index;]
    The loop advances by one character at a time, so [fuel] counts the
    characters that are left. *)
Fixpoint skipIdChars (fuel : nat) (codeline : string) (index : nat) : nat :=
  match fuel with
  | 0 => index
  | S fuel' =>
      match get index codeline with
      | Some c => if isIdChar c then skipIdChars fuel' codeline (S index) else index
      | None => index
      end
  end.

(** [consumeIdentifier(codeline, pindex, id)]: [None] is [false] (index and
    id untouched), [Some (id, index)] is [true] with the new index. *)
Definition consumeIdentifier (codeline : string) (pindex : nat)
  : option (string * nat) :=
  match get pindex codeline with
  | None => None                       (* index >= codeline.size() *)
  | Some c =>
      if negb (isIdCharNondigit c) then None
      else
        let index := skipIdChars (String.length codeline - S pindex) codeline (S pindex) in
        Some (substr codeline pindex (index - pindex), index)
  end.

(** [consumeString(codeline, pindex, s)]: the search is [find], so the
    string may start anywhere at or after the index. *)
Definition consumeString (codeline : string) (pindex : nat) (s : string)
  : option nat :=
  match find codeline s pindex with
  | None => None
  | Some index => Some (index + String.length s)
  end.

(** [while (index < codeline.size() && codeline[index] != ']') ++index;] *)
Fixpoint skipToBracket (fuel : nat) (codeline : string) (index : nat) : nat :=
  match fuel with
  | 0 => index
  | S fuel' =>
      match get index codeline with
      | Some c => if Ascii.eqb c "]" then index else skipToBracket fuel' codeline (S index)
      | None => index
      end
  end.

(** [consumeArraySize(codeline, pindex)]: returns the new index. *)
Definition consumeArraySize (codeline : string) (pindex : nat) : nat :=
  match get pindex codeline with
  | None => pindex
  | Some c =>
      if negb (Ascii.eqb c "[") then pindex
      else
        let index := skipToBracket (String.length codeline - S pindex) codeline (S pindex) in
        if (index =? String.length codeline)%nat then index else S index
  end.

(** [replaceAll]'s loop
    [while ((n = result.find(from, n)) != npos) { result.replace(n, from.size(), to); n += to.size(); }]
    With a non-empty [from] every round shortens the text after the cursor,
    so [S (length result)] rounds are enough ([replaceAll_loop_more_fuel]).
    With an empty [from] the loop of the code never ends: [replaceAll] below
    is the function of the code for a non-empty [from] only, and what it
    gives for an empty one stands for no run of the code. The minifier never
    calls it with an empty [from] ([minifier_patterns_are_not_empty]). *)
Fixpoint replaceAll_loop (fuel : nat) (result from to : string) (n : nat) : string :=
  match fuel with
  | 0 => result
  | S fuel' =>
      match find result from n with
      | None => result
      | Some m =>
          replaceAll_loop fuel' (replace result m (String.length from) to) from to
            (m + String.length to)
      end
  end.

Definition replaceAll (result from to : string) : string :=
  replaceAll_loop (S (String.length result)) result from to 0.

(** *** GLSL identifiers, as [consumeIdentifier] reads them *)

Fixpoint allIdChars (s : string) : bool :=
  match s with
  | EmptyString => true
  | String c s' => isIdChar c && allIdChars s'
  end.

Definition isIdentifier (id : string) : bool :=
  match id with
  | EmptyString => false
  | String c rest => isIdCharNondigit c && allIdChars rest
  end.

(** The text does not go on with an identifier character. *)
Definition endsIdentifier (b : string) : bool :=
  match b with
  | EmptyString => true
  | String c _ => negb (isIdChar c)
  end.

(** A line of the text outside any struct, as far as the minifier needs to
    know it: not empty, without newline, and its last character is not an
    identifier character (a semicolon, a brace, a parenthesis). *)
Definition isStatementLine (l : string) : bool :=
  negb (mem newline l) &&
  match last_char l with
  | Some c => negb (isIdChar c)
  | None => false
  end.

End Scanner.

(** ** Struct-field minifier *)

Module Minifier.
Import Str Scanner.

(** [enum {OUTSIDE, STRUCT_OPEN, STRUCT_DEFN}] *)
Inductive State : Type := OUTSIDE | STRUCT_OPEN | STRUCT_DEFN.

(** [std::unordered_map<std::string, std::string>]: the entries in the order
    in which their keys were first inserted. The order in which the container
    is iterated is a separate matter, see [iteration] below. *)
Definition table : Type := list (string * string).

Fixpoint table_get (m : table) (k : string) : option string :=
  match m with
  | [] => None
  | (k', v) :: m' => if String.eqb k k' then Some v else table_get m' k
  end.

(** [m[k] = v] *)
Fixpoint table_set (m : table) (k v : string) : table :=
  match m with
  | [] => [(k, v)]
  | (k', v') :: m' =>
      if String.eqb k k' then (k', v) :: m' else (k', v') :: table_set m' k v
  end.

(** [m[k]] read: a missing key is inserted with the empty string. *)
Definition table_index (m : table) (k : string) : string * table :=
  match table_get m k with
  | Some v => (v, m)
  | None => (EmptyString, table_set m k EmptyString)
  end.

(** The splitting loop of [minifyStructFields]: one view per non-empty
    line. [first] grows in every round, so [length sv] rounds are enough. *)
Fixpoint splitLines_loop (fuel : nat) (sv : string) (first : nat)
    (codelines : list string) : list string :=
  match fuel with
  | 0 => codelines
  | S fuel' =>
      if (first <? String.length sv)%nat then
        match find_first_of sv newline first with
        | None =>
            (* second == npos: first != second, substr runs to the end, break *)
            (codelines ++ [substr_from sv first])%list
        | Some second =>
            let codelines' :=
              if negb (first =? second)%nat
              then (codelines ++ [substr sv first (second - first)])%list
              else codelines in
            splitLines_loop fuel' sv (S second) codelines'
        end
      else codelines
  end.

Definition splitLines (source : string) : list string :=
  splitLines_loop (String.length source) source 0 [].

(** The test of the OUTSIDE case, the same in both passes: "uniform " is
    found, an identifier follows it and ends the line. *)
Definition parseStructOpen (codeline : string) : option string :=
  match consumeString codeline 0 "uniform " with
  | None => None
  | Some index =>
      match consumeIdentifier codeline index with
      | None => None
      | Some (typeId, index) =>
          if (index =? String.length codeline)%nat then Some typeId else None
      end
  end.

(** [codeline[0] == '{' && codeline.size() == 1] *)
Definition isOpenBrace (codeline : string) : bool :=
  match get 0 codeline with
  | Some c => Ascii.eqb c "{" && (String.length codeline =? 1)%nat
  | None => false
  end.

Definition nextState_STRUCT_OPEN (codeline : string) : State :=
  if isOpenBrace codeline then STRUCT_DEFN else OUTSIDE.

(** The closing test of the STRUCT_DEFN case, the same in both passes. *)
Inductive close_line : Type :=
| NotClose                      (* "} " not found: go on to the field test *)
| BadClose                      (* "} " found, the rest does not fit: break *)
| Close (structName : string).

Definition parseStructClose (codeline : string) : close_line :=
  match consumeString codeline 0 "} " with
  | None => NotClose
  | Some index =>
      match consumeIdentifier codeline index with
      | None => BadClose
      | Some (structName, index) =>
          match consumeString codeline index ";" with
          | None => BadClose
          | Some index =>
              if (index =? String.length codeline)%nat then Close structName else BadClose
          end
      end
  end.

(** [codeline[index++] != c] on the view. At [index = codeline.size()] the
    view is read one past its end, where the source holds the line's newline
    or the terminating null: neither is a space or a semicolon. *)
Definition view_is (codeline : string) (index : nat) (c : ascii) : bool :=
  match get index codeline with
  | Some d => Ascii.eqb d c
  | None => false
  end.

(** The field test of the STRUCT_DEFN case, the same in both passes:
    identifier, one space, identifier, semicolon, end of line. *)
Definition parseFieldDecl (codeline : string) : option (string * string) :=
  match consumeIdentifier codeline 0 with
  | None => None
  | Some (typeId, index) =>
      if negb (view_is codeline index " ") then None
      else
        match consumeIdentifier codeline (S index) with
        | None => None
        | Some (fieldId, index) =>
            if negb (view_is codeline index ";") then None
            else if negb (S index =? String.length codeline)%nat then None
            else Some (typeId, fieldId)
        end
  end.

(** [if (generatedFieldName[0] == 'z') generatedFieldName = "a" + generatedFieldName;
     else generatedFieldName[0]++;]
    The name starts as "a" and is never empty. *)
Definition nextFieldName (generatedFieldName : string) : string :=
  match generatedFieldName with
  | String c rest =>
      if Ascii.eqb c "z" then String "a" generatedFieldName
      else String (ascii_of_nat (S (nat_of_ascii c))) rest
  | EmptyString => EmptyString
  end.

(** [for (auto field : fields) { ... fieldMapping[key] = val; ... }] *)
Fixpoint assignFieldNames (structNameS : string) (fields : list string)
    (generatedFieldName : string) (fieldMapping : table) : table :=
  match fields with
  | [] => fieldMapping
  | field :: fields' =>
      let key := structNameS ++ "." ++ field in
      let val := structNameS ++ "." ++ generatedFieldName in
      assignFieldNames structNameS fields' (nextFieldName generatedFieldName)
        (table_set fieldMapping key val)
  end.

(** *** First pass: build the remapping table *)

Record scan_state : Type := mkScan {
  sc_state : State;
  sc_currentStruct : string;
  sc_fields : list string;
  sc_fieldMapping : table;
  sc_currentStructToName : table
}.

Definition scan_init : scan_state := mkScan OUTSIDE "" [] [] [].

Definition scan_step (st : scan_state) (codeline : string) : scan_state :=
  match sc_state st with
  | OUTSIDE =>
      match parseStructOpen codeline with
      | Some typeId =>
          mkScan STRUCT_OPEN typeId (sc_fields st) (sc_fieldMapping st)
            (sc_currentStructToName st)
      | None => st
      end
  | STRUCT_OPEN =>
      mkScan (nextState_STRUCT_OPEN codeline) (sc_currentStruct st) (sc_fields st)
        (sc_fieldMapping st) (sc_currentStructToName st)
  | STRUCT_DEFN =>
      match parseStructClose codeline with
      | Close structNameS =>
          mkScan OUTSIDE (sc_currentStruct st) []
            (assignFieldNames structNameS (sc_fields st) "a" (sc_fieldMapping st))
            (table_set (sc_currentStructToName st) (sc_currentStruct st) structNameS)
      | BadClose => st
      | NotClose =>
          match parseFieldDecl codeline with
          | Some (_, fieldId) =>
              mkScan STRUCT_DEFN (sc_currentStruct st) (sc_fields st ++ [fieldId])%list
                (sc_fieldMapping st) (sc_currentStructToName st)
          | None => st
          end
      end
  end.

Definition scan (codelines : list string) : scan_state :=
  fold_left scan_step codelines scan_init.

(** *** Second pass: apply the remapping table *)

Section Rewrite.

(** The order in which [for (const auto& key : fieldMapping)] visits the
    entries of the unordered map: some arrangement of the entries, fixed by
    the container and not by the program. *)
Variable iteration : table -> table.

(** [for (const auto& key : fieldMapping) replaceAll(newline, key.first, key.second);] *)
Definition applyMapping (fieldMapping : table) (newline : string) : string :=
  fold_left (fun line kv => replaceAll line (fst kv) (snd kv))
    (iteration fieldMapping) newline.

Record rewrite_state : Type := mkRewrite {
  rw_state : State;
  rw_currentStruct : string;
  rw_fieldMapping : table;
  rw_currentStructToName : table;
  rw_result : string
}.

(** [val.substr(val.find(".") + 1)]: when there is no dot, [npos + 1] wraps
    around to 0 and the whole of [val] is kept. *)
Definition afterDot (val : string) : string :=
  match find val "." 0 with
  | Some n => substr_from val (S n)
  | None => substr_from val 0
  end.

Definition emit (st : rewrite_state) (state : State) (currentStruct : string)
    (fieldMapping currentStructToName : table) (newline : string) : rewrite_state :=
  mkRewrite state currentStruct fieldMapping currentStructToName
    (rw_result st ++ (newline ++ nl)).

Definition rewrite_step (st : rewrite_state) (codeline : string) : rewrite_state :=
  let keep state := emit st state (rw_currentStruct st) (rw_fieldMapping st)
                      (rw_currentStructToName st) codeline in
  match rw_state st with
  | OUTSIDE =>
      match parseStructOpen codeline with
      | Some typeId =>
          emit st STRUCT_OPEN typeId (rw_fieldMapping st) (rw_currentStructToName st)
            codeline
      | None =>
          emit st OUTSIDE (rw_currentStruct st) (rw_fieldMapping st)
            (rw_currentStructToName st) (applyMapping (rw_fieldMapping st) codeline)
      end
  | STRUCT_OPEN => keep (nextState_STRUCT_OPEN codeline)
  | STRUCT_DEFN =>
      match parseStructClose codeline with
      | Close _ => keep OUTSIDE
      | BadClose => keep STRUCT_DEFN
      | NotClose =>
          match parseFieldDecl codeline with
          | None => keep STRUCT_DEFN
          | Some (typeId, fieldId) =>
              let (structName, names) :=
                table_index (rw_currentStructToName st) (rw_currentStruct st) in
              let key := structName ++ "." ++ fieldId in
              let (val, mapping) := table_index (rw_fieldMapping st) key in
              let fieldName := afterDot val in
              emit st STRUCT_DEFN (rw_currentStruct st) mapping names
                (typeId ++ " " ++ fieldName ++ ";")
          end
      end
  end.

Definition minifyStructFields (source : string) : string :=
  let codelines := splitLines source in
  let sc := scan codelines in
  rw_result
    (fold_left rewrite_step codelines
       (mkRewrite OUTSIDE (sc_currentStruct sc) (sc_fieldMapping sc)
          (sc_currentStructToName sc) EmptyString)).

End Rewrite.

(** The generated names in the order in which the loop of
    [assignFieldNames] produces them. *)
Fixpoint generatedNames (n : nat) (generatedFieldName : string) : list string :=
  match n with
  | 0 => []
  | S n' => generatedFieldName :: generatedNames n' (nextFieldName generatedFieldName)
  end.

(** The same sequence in closed form: name number [k] (from 0) is the
    letter number [k mod 26] followed by [k / 26] letters z. *)
Definition letter (i : nat) : ascii := ascii_of_nat (97 + i).

Fixpoint zs (n : nat) : string :=
  match n with
  | 0 => EmptyString
  | S n' => String "z" (zs n')
  end.

Definition nameOf (k : nat) : string := String (letter (k mod 26)) (zs (k / 26)).

(** The sequence as the specification words it: the single letters a to z,
    then the doubled letters aa, bb and so on. *)
Definition specName (k : nat) : string :=
  if (k <? 26)%nat then String (letter k) EmptyString
  else String (letter (k - 26)) (String (letter (k - 26)) EmptyString).

(** A line as the splitting loop produces them: not empty, no newline. *)
Definition isLine (l : string) : Prop := l <> "" /\ mem newline l = false.

(** *** Sources of the shape the minifier is written for

    A uniform block is the line [uniform T], the line of the opening brace,
    one line [type field;] per field and the line [} instance;]. *)
Definition openLine (typeId : string) : string := "uniform " ++ typeId.

Definition fieldLine (typeId fieldId : string) : string :=
  typeId ++ " " ++ fieldId ++ ";".

Definition closeLine (structName : string) : string := "} " ++ structName ++ ";".

Definition fieldLines (fields : list (string * string)) : list string :=
  map (fun tf => fieldLine (fst tf) (snd tf)) fields.

Definition blockLines (typeId : string) (fields : list (string * string))
    (structName : string) : list string :=
  openLine typeId :: "{" :: (fieldLines fields ++ [closeLine structName])%list.

(** The fields with their names replaced by the generated names, the first
    of them by name number [k]. *)
Fixpoint renameFrom (k : nat) (fields : list (string * string))
  : list (string * string) :=
  match fields with
  | [] => []
  | (typeId, _) :: fields' => (typeId, nameOf k) :: renameFrom (S k) fields'
  end.

(** The remapping table of one block whose field names are all different:
    an entry per field, in the order of the fields. *)
Fixpoint tableFrom (k : nat) (structName : string) (fieldIds : list string) : table :=
  match fieldIds with
  | [] => []
  | fieldId :: fieldIds' =>
      (structName ++ "." ++ fieldId, structName ++ "." ++ nameOf k)
        :: tableFrom (S k) structName fieldIds'
  end.

Definition blockTable (structName : string) (fields : list (string * string)) : table :=
  tableFrom 0 structName (map snd fields).

(** The block is of the shape above: its type, its instance and the type
    and the name of every field are identifiers. *)
Definition isBlock (typeId : string) (fields : list (string * string))
    (structName : string) : bool :=
  isIdentifier typeId && isIdentifier structName &&
  forallb (fun tf => isIdentifier (fst tf) && isIdentifier (snd tf)) fields.

(** A line with one reference to a field (or to whatever [X] is) of the
    instance: the text [a], the instance name, a dot, [X], the text [b]. *)
Definition referenceLine (a structName X b : string) : string :=
  a ++ (structName ++ "." ++ X) ++ b.

(** *** Sample sources *)

(** The example of the specification and the text it names as the result. *)
Definition lightUsage : string :=
  "void main(){ x = lightBlock.intensity * lightBlock.color.r; }".

Definition lightSource : string :=
  unlines ["uniform Light"; "{"; "float intensity;"; "vec3 color;"; "} lightBlock;";
           lightUsage].

Definition lightMinified : string :=
  unlines ["uniform Light"; "{"; "float a;"; "vec3 b;"; "} lightBlock;";
           "void main(){ x = lightBlock.a * lightBlock.b.r; }"].

(** A block whose type identifier is MaterialParams, and a use of its field. *)
Definition materialParamsSource : string :=
  unlines ["uniform MaterialParams"; "{"; "float intensity;"; "} materialParams;";
           "x = materialParams.intensity;"].

Definition materialParamsMinified : string :=
  unlines ["uniform MaterialParams"; "{"; "float a;"; "} materialParams;";
           "x = materialParams.a;"].

(** A block whose two fields are called like each other's generated name,
    and what renaming every reference would give. *)
Definition swappedSource : string :=
  unlines ["uniform Light"; "{"; "float b;"; "float a;"; "} s;"; "x = s.b + s.a;"].

Definition swappedRenamed : string :=
  unlines ["uniform Light"; "{"; "float a;"; "float b;"; "} s;"; "x = s.a + s.b;"].

(** Two blocks of the same type identifier with different instances. *)
Definition twoBlocksSource : string :=
  unlines ["uniform T"; "{"; "float x;"; "} s1;";
           "uniform T"; "{"; "float y;"; "float x;"; "} s2;";
           "v = s1.b;"].

(** Field names to run examples with: f0, f1 and so on, numbered by the
    letters of [nameOf]. *)
Definition sampleFields (n : nat) : list string :=
  map (fun k => "f_" ++ nameOf k) (seq 0 n).

(** *** Lines outside the shape above *)

(** A field line with an array size, the [OptionalArraySize] of the comment
    above [minifyStructFields]: [type field[size];]. *)
Definition arrayFieldLine (typeId fieldId size : string) : string :=
  typeId ++ " " ++ fieldId ++ "[" ++ size ++ "];".

Definition arrayFieldLines (fields : list (string * string * string)) : list string :=
  map (fun tfs => arrayFieldLine (fst (fst tfs)) (snd (fst tfs)) (snd tfs)) fields.

(** What the second pass writes for a line of a struct whose closing line
    was not seen in the first pass: both tables are empty, so the name that
    the lookups give for a field is the empty string. *)
Definition unnamed (codeline : string) : string :=
  match parseStructClose codeline, parseFieldDecl codeline with
  | NotClose, Some (typeId, _) => typeId ++ " ;"
  | _, _ => codeline
  end.

(** *** The pieces of a text

    The pieces of a text between its newlines, the empty ones included: the
    text is its pieces joined by newlines. This is the description of the
    splitting, written without the loop of [splitLines]. *)
Fixpoint pieces (s : string) : list string :=
  match s with
  | EmptyString => [EmptyString]
  | String c s' =>
      if Ascii.eqb c newline then EmptyString :: pieces s'
      else
        match pieces s' with
        | p :: ps => String c p :: ps
        | [] => [String c EmptyString]
        end
  end.

Definition nonEmptyPieces (s : string) : list string :=
  filter (fun p => negb (String.eqb p "")) (pieces s).

(** *** Sources made of lines and uniform blocks

    A source as the two passes read it: lines outside any block, blocks, and
    opening lines that are not followed by the line of the opening brace. A
    block is its opening line (the test of the OUTSIDE case accepts it and
    reads the type identifier), the line of the opening brace, the lines of
    its body and its closing line (the closing test accepts it and reads the
    instance name). A line of the body is a field declaration [type field;],
    or a line that neither the closing test nor the field test accepts (a
    field with an array size, a comment): both passes leave such a line as it
    is. The source may end inside a block: after an opening line, or in a
    body that is not closed. *)
Inductive bodyLine : Type :=
| Field (typeId fieldId : string)
| Other (codeline : string).

Inductive item : Type :=
| Line (codeline : string)
| Block (open typeId : string) (body : list bodyLine) (close structName : string)
| Aborted (open typeId next : string).

Inductive ending : Type :=
| Ended
| Opening (open typeId : string)
| Unclosed (open typeId : string) (body : list bodyLine).

Definition bodyText (b : bodyLine) : string :=
  match b with
  | Field typeId fieldId => fieldLine typeId fieldId
  | Other codeline => codeline
  end.

Definition fieldsOf (body : list bodyLine) : list string :=
  flat_map (fun b => match b with Field _ fieldId => [fieldId] | Other _ => [] end) body.

Definition itemLines (it : item) : list string :=
  match it with
  | Line codeline => [codeline]
  | Block open _ body close _ => open :: "{" :: (map bodyText body ++ [close])%list
  | Aborted open _ next => [open; next]
  end.

Definition sourceLines (items : list item) : list string := flat_map itemLines items.

Definition endingLines (e : ending) : list string :=
  match e with
  | Ended => []
  | Opening open _ => [open]
  | Unclosed open _ body => open :: "{" :: map bodyText body
  end.

(** The type identifiers of the blocks whose body the passes enter. *)
Definition typesOf (items : list item) : list string :=
  flat_map (fun it => match it with Block _ typeId _ _ _ => [typeId] | _ => [] end) items.

Definition endingTypes (e : ending) : list string :=
  match e with
  | Unclosed _ typeId _ => [typeId]
  | _ => []
  end.

(** [isLine] as a test. *)
Definition isLineb (l : string) : bool := negb (String.eqb l "") && negb (mem newline l).

(** The test of the OUTSIDE case accepts the line. *)
Definition opens (codeline : string) : bool :=
  match parseStructOpen codeline with Some _ => true | None => false end.

Definition isOther (codeline : string) : bool :=
  isLineb codeline &&
  match parseStructClose codeline with
  | Close _ => false
  | BadClose => true
  | NotClose => match parseFieldDecl codeline with Some _ => false | None => true end
  end.

Definition wfBodyLine (b : bodyLine) : bool :=
  match b with
  | Field typeId fieldId => isIdentifier typeId && isIdentifier fieldId
  | Other codeline => isOther codeline
  end.

(** The line opens a block of this type identifier. *)
Definition opensType (open typeId : string) : bool :=
  isLineb open
  && match parseStructOpen open with
     | Some t => String.eqb t typeId
     | None => false
     end.

Definition wfItem (it : item) : bool :=
  match it with
  | Line codeline => isLineb codeline && negb (opens codeline)
  | Block open typeId body close structName =>
      opensType open typeId
      && forallb wfBodyLine body
      && isLineb close
      && match parseStructClose close with
         | Close s => String.eqb s structName
         | _ => false
         end
  | Aborted open typeId next =>
      opensType open typeId && isLineb next && negb (isOpenBrace next)
  end.

Definition wfEnding (e : ending) : bool :=
  match e with
  | Ended => true
  | Opening open typeId => opensType open typeId
  | Unclosed open typeId body => opensType open typeId && forallb wfBodyLine body
  end.

(** No text occurs twice in the list. *)
Fixpoint distinct (l : list string) : bool :=
  match l with
  | [] => true
  | x :: l' => negb (existsb (String.eqb x) l') && distinct l'
  end.

(** The table that the first pass builds from the items: the assignments of
    [assignFieldNames] for every block, in the order of the blocks. *)
Definition assignItem (m : table) (it : item) : table :=
  match it with
  | Block _ _ body _ structName => assignFieldNames structName (fieldsOf body) "a" m
  | _ => m
  end.

Definition tableOf (items : list item) : table := fold_left assignItem items [].

(** [currentStructToName[currentStruct] = structName] for every block. *)
Definition nameItem (c : table) (it : item) : table :=
  match it with
  | Block _ typeId _ _ structName => table_set c typeId structName
  | _ => c
  end.

Definition namesOf (items : list item) : table := fold_left nameItem items [].

(** The assignments [fieldMapping[key] = val] that the first pass makes for
    the items, in the order in which it makes them, and a table after a list
    of assignments. *)
Definition assignments (items : list item) : list (string * string) :=
  flat_map
    (fun it =>
       match it with
       | Block _ _ body _ structName => tableFrom 0 structName (fieldsOf body)
       | _ => []
       end)
    items.

Definition table_set_all (m : table) (kvs : list (string * string)) : table :=
  fold_left (fun m kv => table_set m (fst kv) (snd kv)) kvs m.

(** The name that the second pass writes for a field of the instance:
    [fieldMapping[key]] from the dot on. *)
Definition shortName (m : table) (structName fieldId : string) : string :=
  match table_get m (structName ++ "." ++ fieldId) with
  | Some val => afterDot val
  | None => ""
  end.

(** The items as the second pass writes them with the table [m]: a line
    outside the blocks goes through the table, a field declaration gets the
    name that the table gives for it, every other line stays. In a body that
    is not closed a field declaration loses its name. *)
Definition renameBody (m : table) (structName : string) (body : list bodyLine)
  : list bodyLine :=
  map (fun b =>
         match b with
         | Field typeId fieldId => Field typeId (shortName m structName fieldId)
         | Other codeline => Other codeline
         end)
    body.

Definition renameItem (iteration : table -> table) (m : table) (it : item) : item :=
  match it with
  | Line codeline => Line (applyMapping iteration m codeline)
  | Block open typeId body close structName =>
      Block open typeId (renameBody m structName body) close structName
  | Aborted open typeId next => Aborted open typeId next
  end.

Definition blankBody (body : list bodyLine) : list bodyLine :=
  map (fun b =>
         match b with
         | Field typeId _ => Other (typeId ++ " ;")
         | Other codeline => Other codeline
         end)
    body.

Definition blankEnding (e : ending) : ending :=
  match e with
  | Unclosed open typeId body => Unclosed open typeId (blankBody body)
  | _ => e
  end.

(** The line does not read as the opening line of a block after it has gone
    through the table. *)
Definition staysOutside (iteration : table -> table) (m : table) (it : item) : bool :=
  match it with
  | Line codeline => negb (opens (applyMapping iteration m codeline))
  | _ => true
  end.

(** Reading a list of lines as items, the way the state machine of the two
    passes goes through them: outside a block, behind an opening line, and
    in a body with the lines read so far. *)
Inductive reading : Type :=
| ROutside
| ROpen (open typeId : string)
| RBody (open typeId : string) (body : list bodyLine).

Fixpoint readItems (st : reading) (codelines : list string) : list item * ending :=
  match codelines with
  | [] =>
      ([], match st with
           | ROutside => Ended
           | ROpen open typeId => Opening open typeId
           | RBody open typeId body => Unclosed open typeId body
           end)
  | codeline :: codelines' =>
      match st with
      | ROutside =>
          match parseStructOpen codeline with
          | Some typeId => readItems (ROpen codeline typeId) codelines'
          | None =>
              let (items, e) := readItems ROutside codelines' in
              (Line codeline :: items, e)
          end
      | ROpen open typeId =>
          if isOpenBrace codeline then readItems (RBody open typeId []) codelines'
          else
            let (items, e) := readItems ROutside codelines' in
            (Aborted open typeId codeline :: items, e)
      | RBody open typeId body =>
          match parseStructClose codeline with
          | Close structName =>
              let (items, e) := readItems ROutside codelines' in
              (Block open typeId body codeline structName :: items, e)
          | BadClose => readItems (RBody open typeId (body ++ [Other codeline])) codelines'
          | NotClose =>
              match parseFieldDecl codeline with
              | Some (typeId', fieldId) =>
                  readItems (RBody open typeId (body ++ [Field typeId' fieldId])) codelines'
              | None => readItems (RBody open typeId (body ++ [Other codeline])) codelines'
              end
          end
      end
  end.

Definition readSource (source : string) : list item * ending :=
  readItems ROutside (nonEmptyPieces source).

(** The lines that the reader holds back in a state, and the conditions on
    them. *)
Definition pending (st : reading) : list string :=
  match st with
  | ROutside => []
  | ROpen open _ => [open]
  | RBody open _ body => open :: "{" :: map bodyText body
  end.

Definition wfReading (st : reading) : bool :=
  match st with
  | ROutside => true
  | ROpen open typeId => opensType open typeId
  | RBody open typeId body => opensType open typeId && forallb wfBodyLine body
  end.

(** Two complete blocks, the first closed by a line that the closing test
    does not accept, and a source with a qualified opening line, a field with
    an array size and lines that do not end in a semicolon. *)
Definition unclosedThenBlock : list string :=
  ["uniform A"; "{"; "float x;"; "};"; "uniform B"; "{"; "float y;"; "} b;"].

Definition frameItems : list item :=
  [Line "#version 300 es";
   Block "layout(std140) uniform FrameUniforms" "FrameUniforms"
     [Field "mat4" "viewFromWorldMatrix"; Other "vec4 cascadeSplits[4];";
      Field "float" "time"]
     "} frameUniforms;" "frameUniforms";
   Block "layout(std140) uniform ObjectUniforms" "ObjectUniforms"
     [Field "mat4" "worldFromModelMatrix"]
     "} objectUniforms;" "objectUniforms";
   Line "void main()";
   Line "{";
   Line "gl_Position = frameUniforms.viewFromWorldMatrix * objectUniforms.worldFromModelMatrix * p;";
   Line "}"].

(** A source with an opening line that is not followed by a brace, which
    ends in a block that is not closed. *)
Definition unfinishedSource : string :=
  unlines ["uniform X"; "y;"; "z = 1;"; "uniform A"; "{"; "float x;"; "};"].

(** A source in which a line outside the blocks reads as the opening line
    of a block once the reference in it is rewritten: the field last is the
    21st of its block and gets the name u. *)
Definition openingSource : string :=
  unlines (["uniform P"; "{"]
           ++ map (fun f => ("float " ++ f ++ ";")%string) (sampleFields 20)
           ++ ["float last;"; "} s;"; "s.lastniform T"; "{"; "float x;"; "} t;"])%list.

End Minifier.

(** ** Optimizer profiles *)

Module Profiles.

(** [filament::backend::ShaderModel] *)
Inductive ShaderModel : Type := UNKNOWN | GL_ES_30 | GL_CORE_41.

Definition ShaderModel_eqb (a b : ShaderModel) : bool :=
  match a, b with
  | UNKNOWN, UNKNOWN | GL_ES_30, GL_ES_30 | GL_CORE_41, GL_CORE_41 => true
  | _, _ => false
  end.

(** The passes of [spvtools] that the two profiles register, named after
    their [Create...Pass] constructors, with the arguments the calls give. *)
Inductive Pass : Type :=
| WrapOpKill
| DeadBranchElim
| MergeReturn
| InlineExhaustive
| AggressiveDCE
| PrivateToLocal
| LocalSingleBlockLoadStoreElim
| LocalSingleStoreElim
| ScalarReplacement (size_limit : option nat)   (* [None]: the default argument *)
| LocalAccessChainConvert
| LocalMultiStoreElim
| CCP
| RedundancyElimination
| CombineAccessChains
| Simplification
| VectorDCE
| DeadInsertElim
| IfConversion
| CopyPropagateArrays
| ReduceLoadSize
| BlockMerge
| EliminateDeadFunctions
| LoopUnroll (fully_unroll : bool)
| CFGCleanup.

(** [spvtools::Optimizer]: the passes registered so far, in order. *)
Definition Optimizer : Type := list Pass.

Definition RegisterPass (optimizer : Optimizer) (p : Pass) : Optimizer :=
  (optimizer ++ [p])%list.

Definition RegisterPasses (optimizer : Optimizer) (ps : list Pass) : Optimizer :=
  fold_left RegisterPass ps optimizer.

Definition registerPerformancePasses (optimizer : Optimizer) (shaderModel : ShaderModel)
  : Optimizer :=
  let optimizer := RegisterPasses optimizer [WrapOpKill; DeadBranchElim] in
  let optimizer :=
    if negb (ShaderModel_eqb shaderModel GL_CORE_41)
    then RegisterPass optimizer MergeReturn
    else optimizer in
  RegisterPasses optimizer
    [ InlineExhaustive; AggressiveDCE; PrivateToLocal;
      LocalSingleBlockLoadStoreElim; LocalSingleStoreElim; AggressiveDCE;
      ScalarReplacement None; LocalAccessChainConvert;
      LocalSingleBlockLoadStoreElim; LocalSingleStoreElim; AggressiveDCE;
      LocalMultiStoreElim; AggressiveDCE; CCP; AggressiveDCE;
      RedundancyElimination; CombineAccessChains; Simplification; VectorDCE;
      DeadInsertElim; DeadBranchElim; Simplification; IfConversion;
      CopyPropagateArrays; ReduceLoadSize; AggressiveDCE; BlockMerge;
      RedundancyElimination; DeadBranchElim; BlockMerge; Simplification ].

Definition registerSizePasses (optimizer : Optimizer) (shaderModel : ShaderModel)
  : Optimizer :=
  let optimizer := RegisterPasses optimizer [WrapOpKill; DeadBranchElim] in
  let optimizer :=
    if negb (ShaderModel_eqb shaderModel GL_CORE_41)
    then RegisterPass optimizer MergeReturn
    else optimizer in
  RegisterPasses optimizer
    [ InlineExhaustive; EliminateDeadFunctions; PrivateToLocal;
      ScalarReplacement (Some 0); LocalMultiStoreElim; CCP; LoopUnroll true;
      DeadBranchElim; Simplification; ScalarReplacement (Some 0);
      LocalSingleStoreElim; IfConversion; Simplification; AggressiveDCE;
      DeadBranchElim; BlockMerge; LocalAccessChainConvert;
      LocalSingleBlockLoadStoreElim; AggressiveDCE; CopyPropagateArrays;
      VectorDCE; DeadInsertElim;
      LocalSingleStoreElim; BlockMerge; LocalMultiStoreElim;
      RedundancyElimination; Simplification; AggressiveDCE; CFGCleanup ].

Definition Pass_is_MergeReturn (p : Pass) : bool :=
  match p with MergeReturn => true | _ => false end.

End Profiles.

(** ** Messages of the SPIR-V optimizer *)

Module Messages.

(** [spv_message_level_t] and [spv_position_t] of the SPIR-V tools. *)
Inductive spv_message_level_t : Type :=
| SPV_MSG_FATAL
| SPV_MSG_INTERNAL_ERROR
| SPV_MSG_ERROR
| SPV_MSG_WARNING
| SPV_MSG_INFO
| SPV_MSG_DEBUG.

Record spv_position_t : Type := mkPosition {
  line : N;
  column : N;
  index : N
}.

(** [filterSpvOptimizerMessage(level)]; [NDEBUG] tells whether the macro is
    defined, that is, whether the build is a release build. *)
Definition filterSpvOptimizerMessage (NDEBUG : bool) (level : spv_message_level_t) : bool :=
  if NDEBUG then
    match level with
    | SPV_MSG_WARNING | SPV_MSG_INFO | SPV_MSG_DEBUG => false
    | _ => true
    end
  else true.

Definition levelString (level : spv_message_level_t) : string :=
  match level with
  | SPV_MSG_FATAL => "FATAL"
  | SPV_MSG_INTERNAL_ERROR => "INTERNAL ERROR"
  | SPV_MSG_ERROR => "ERROR"
  | SPV_MSG_WARNING => "WARNING"
  | SPV_MSG_INFO => "INFO"
  | SPV_MSG_DEBUG => "DEBUG"
  end.

(** [oss << n] for a [size_t]: the decimal digits of [n]. *)
Definition decimal (n : N) : string := NilEmpty.string_of_uint (N.to_uint n).

(** [stringifySpvOptimizerMessage(level, source, position, message)]; a null
    [source] or [message] is [None]. *)
Definition stringifySpvOptimizerMessage (level : spv_message_level_t)
    (source : option string) (position : spv_position_t) (message : option string)
  : string :=
  levelString level ++ ": "
  ++ match source with Some s => s ++ ":" | None => "" end
  ++ decimal (line position) ++ ":" ++ decimal (column position) ++ ":"
  ++ decimal (index position) ++ ": "
  ++ match message with Some m => m | None => "" end.

(** The message consumer that [createOptimizer] installs: the line it
    writes to the error log, if any. *)
Definition messageConsumer (NDEBUG : bool) (level : spv_message_level_t)
    (source : option string) (position : spv_position_t) (message : option string)
  : option string :=
  if negb (filterSpvOptimizerMessage NDEBUG level) then None
  else Some (stringifySpvOptimizerMessage level source position message).

End Messages.

(** ** The [process] pipeline *)

Module Pipeline.
Import Str Profiles.

(** [MaterialBuilder::Optimization] and [MaterialBuilder::TargetApi] *)
Inductive Optimization : Type := NONE | PREPROCESSOR | SIZE | PERFORMANCE.
Inductive TargetApi : Type := OPENGL | VULKAN.

(** [filament::backend::ShaderType], and glslang's [EShLanguage] as far as
    [process] sets it. *)
Inductive ShaderType : Type := VERTEX | FRAGMENT.
Inductive EShLanguage : Type := EShLangVertex | EShLangFragment.

(** [SpirvBlob]: a vector of 32-bit words. *)
Definition SpirvBlob : Type := list N.

(** [GLSLPostProcessor::Config] *)
Record Config : Type := mkConfig {
  shaderType : ShaderType;
  shaderModel : ShaderModel;
  subpassInputToColorLocation : list (nat * nat)
}.

(** What a [glslang::TShader] was set up with before it is parsed. *)
Record TShader : Type := mkTShader {
  sh_strings : string;
  sh_stage : EShLanguage;
  sh_version : nat;
  sh_optimization : Optimization
}.

(** The options [fullOptimization] hands to [CompilerGLSL]. *)
Inductive Precision : Type := Mediump | Highp.
Record GlslOptions : Type := mkGlslOptions {
  es : bool;
  version : nat;
  enable_420pack_extension : bool;
  default_float_precision : Precision;
  default_int_precision : Precision
}.

(** The options [SpvToMsl] hands to [CompilerMSL]. *)
Inductive MslPlatform : Type := iOS | macOS.
Record MslOptions : Type := mkMslOptions {
  platform : MslPlatform;
  use_framebuffer_fetch_subpasses : bool
}.

(** A message of the optimizer as its message consumer receives it: level,
    source (null or a text), position and message (null or a text). *)
Definition message : Type :=
  Messages.spv_message_level_t * option string * Messages.spv_position_t * option string.

(** The collaborators outside this file: glslang's front end, the SPIR-V
    optimizer and remapper, SPIRV-Cross, [GLSLTools], and the order in which
    the standard library iterates an unordered map; and whether the build
    defines [NDEBUG]. A run of the optimizer hands its messages to the message
    consumer that [createOptimizer] installs, and the remapper hands its
    errors to [errorHandler]. *)
Record Toolchain : Type := mkToolchain {
  glslangVersionFromShaderModel : ShaderModel -> nat;
  (* [tShader.parse(...)]: success and the info log *)
  parse : TShader -> TargetApi -> bool * string;
  (* [program.link(msg)] *)
  link : TShader -> TargetApi -> bool;
  (* [tShader.preprocess(...)]: success, the preprocessed text, the info log *)
  preprocess : TShader -> TargetApi -> bool * string * string;
  (* [GlslangToSpv(intermediate, spirv, &options)], by the debug-info flag *)
  GlslangToSpv : TShader -> bool -> SpirvBlob;
  (* [optimizer->Run(spirv.data(), spirv.size(), &spirv)]: success, the
     contents of [spirv] after the call, and the messages that the run sends
     to the message consumer, in order *)
  Run : Optimizer -> SpirvBlob -> bool * SpirvBlob * list message;
  (* [remapper.remap(spirv, DCE_ALL)]: the contents of [spirv] after the call
     and the texts that the remapper passes to its error handler, in order *)
  remap : SpirvBlob -> SpirvBlob * list string;
  (* [mslCompiler.compile()] *)
  CompilerMSL_compile : SpirvBlob -> MslOptions -> string;
  (* [glslCompiler.compile()], after the remaps of framebuffer fetches *)
  CompilerGLSL_compile : SpirvBlob -> GlslOptions -> list (nat * nat) -> string;
  iteration : Minifier.table -> Minifier.table;
  (* the macro [NDEBUG] is defined: a release build *)
  NDEBUG : bool
}.

(** What a call leaves behind besides its outputs: lines on the error and
    information logs, and the calls made to the collaborators. *)
Inductive event : Type :=
| slog_e (text : string)
| slog_i (text : string)
| call_parse (sh : TShader)
| call_link (sh : TShader)
| call_preprocess (sh : TShader)
| call_GlslangToSpv (sh : TShader)
| call_Run (passes : Optimizer)
| call_remap
| call_CompilerMSL
| call_CompilerGLSL.

Definition is_call (e : event) : bool :=
  match e with
  | slog_e _ | slog_i _ => false
  | _ => true
  end.

(** The object and the caller's three output objects. An output pointer is
    [None] when null and [Some v] when it points to an object holding [v]. *)
Record GLSLPostProcessor : Type := mkPP {
  mOptimization : Optimization;
  mPrintShaders : bool;
  mGenerateDebugInfo : bool;
  mGlslOutput : option string;
  mSpirvOutput : option SpirvBlob;
  mMslOutput : option string;
  mShLang : EShLanguage;
  mLangVersion : nat;
  log : list event
}.

(** How a run of the code ends. *)
Inductive run (A : Type) : Type :=
| Returns (a : A) (self : GLSLPostProcessor)
| NullDereference                      (* a null output pointer is written or read *)
| ReadsPastEnd                         (* [shrinkString] leaves its string *)
| OutOfFuel.
Arguments Returns {A} a self.
Arguments NullDereference {A}.
Arguments ReadsPastEnd {A}.
Arguments OutOfFuel {A}.

Definition M (A : Type) : Type := GLSLPostProcessor -> run A.

Definition ret {A} (a : A) : M A := fun self => Returns a self.

Definition bind {A B} (m : M A) (k : A -> M B) : M B :=
  fun self =>
    match m self with
    | Returns a self' => k a self'
    | NullDereference => NullDereference
    | ReadsPastEnd => ReadsPastEnd
    | OutOfFuel => OutOfFuel
    end.

Notation "x <- m ;; k" := (bind m (fun x => k))
  (at level 61, m at next level, right associativity).
Notation "m ;;; k" := (bind m (fun _ => k))
  (at level 61, right associativity).

Definition get : M GLSLPostProcessor := fun self => Returns self self.
Definition emit (e : event) : M unit :=
  fun self =>
    Returns tt (mkPP (mOptimization self) (mPrintShaders self) (mGenerateDebugInfo self)
                  (mGlslOutput self) (mSpirvOutput self) (mMslOutput self)
                  (mShLang self) (mLangVersion self) (log self ++ [e])%list).
Definition emit_all (es : list event) : M unit :=
  fun self =>
    Returns tt (mkPP (mOptimization self) (mPrintShaders self) (mGenerateDebugInfo self)
                  (mGlslOutput self) (mSpirvOutput self) (mMslOutput self)
                  (mShLang self) (mLangVersion self) (log self ++ es)%list).
Definition when (b : bool) (m : M unit) : M unit := if b then m else ret tt.
Definition isSome {A} (o : option A) : bool :=
  match o with Some _ => true | None => false end.

(** [*mGlslOutput = v], [*mSpirvOutput = v], [*mMslOutput = v] *)
Definition store_glsl (v : string) : M unit :=
  fun self =>
    match mGlslOutput self with
    | None => NullDereference
    | Some _ =>
        Returns tt (mkPP (mOptimization self) (mPrintShaders self) (mGenerateDebugInfo self)
                      (Some v) (mSpirvOutput self) (mMslOutput self)
                      (mShLang self) (mLangVersion self) (log self))
    end.
Definition store_spirv (v : SpirvBlob) : M unit :=
  fun self =>
    match mSpirvOutput self with
    | None => NullDereference
    | Some _ =>
        Returns tt (mkPP (mOptimization self) (mPrintShaders self) (mGenerateDebugInfo self)
                      (mGlslOutput self) (Some v) (mMslOutput self)
                      (mShLang self) (mLangVersion self) (log self))
    end.
Definition store_msl (v : string) : M unit :=
  fun self =>
    match mMslOutput self with
    | None => NullDereference
    | Some _ =>
        Returns tt (mkPP (mOptimization self) (mPrintShaders self) (mGenerateDebugInfo self)
                      (mGlslOutput self) (mSpirvOutput self) (Some v)
                      (mShLang self) (mLangVersion self) (log self))
    end.
Definition load_glsl : M string :=
  fun self => match mGlslOutput self with
              | None => NullDereference | Some v => Returns v self end.
Definition load_spirv : M SpirvBlob :=
  fun self => match mSpirvOutput self with
              | None => NullDereference | Some v => Returns v self end.

(** [mShLang = ...; mLangVersion = ...] *)
Definition set_lang (lang : EShLanguage) (ver : nat) : M unit :=
  fun self =>
    Returns tt (mkPP (mOptimization self) (mPrintShaders self) (mGenerateDebugInfo self)
                  (mGlslOutput self) (mSpirvOutput self) (mMslOutput self)
                  lang ver (log self)).

Definition shrinkString (s : string) : M string :=
  fun self =>
    match Shrink.shrinkString s with
    | Done r => Returns r self
    | PastEnd => ReadsPastEnd
    | NoFuel => OutOfFuel
    end.

Definition shaderVersionFromModel (model : ShaderModel) : nat :=
  match model with
  | UNKNOWN | GL_ES_30 => 300
  | GL_CORE_41 => 410
  end.

(** The options that [SpvToMsl] builds from the configuration. *)
Definition mslOptionsOf (config : Config) : MslOptions :=
  let platform :=
    if ShaderModel_eqb (shaderModel config) GL_ES_30 then iOS else macOS in
  mkMslOptions platform (ShaderModel_eqb (shaderModel config) GL_ES_30).

(** The options that [fullOptimization] builds from the configuration. *)
Definition glslOptionsOf (config : Config) : GlslOptions :=
  let es := ShaderModel_eqb (shaderModel config) GL_ES_30 in
  let version := shaderVersionFromModel (shaderModel config) in
  let precision := if es then Mediump else Highp in
  mkGlslOptions es version (420 <=? version)%nat precision precision.

(** The framebuffer-fetch remaps that [fullOptimization] applies: those of
    the configuration for a fragment shader on ES, none otherwise. *)
Definition remapsOf (stage : EShLanguage) (config : Config) : list (nat * nat) :=
  match stage with
  | EShLangFragment =>
      if es (glslOptionsOf config) then subpassInputToColorLocation config else []
  | EShLangVertex => []
  end.

Section WithToolchain.
Variable tc : Toolchain.

(** [SpvToMsl(spirv, outMsl, config)] with [outMsl = mMslOutput] *)
Definition SpvToMsl (spirv : SpirvBlob) (config : Config) : M unit :=
  emit call_CompilerMSL ;;;
  store_msl (CompilerMSL_compile tc spirv (mslOptionsOf config)) ;;;
  self <- get ;;
  match mMslOutput self with
  | Some outMsl => r <- shrinkString outMsl ;; store_msl r
  | None => fun _ => NullDereference
  end.

Definition targetApiOf (self : GLSLPostProcessor) : TargetApi :=
  if isSome (mSpirvOutput self) then VULKAN else OPENGL.

Definition preprocessOptimization (tShader : TShader) (config : Config) : M unit :=
  self <- get ;;
  let version := glslangVersionFromShaderModel tc (shaderModel config) in
  let targetApi := targetApiOf self in
  let sh := mkTShader (sh_strings tShader) (sh_stage tShader) version
              (sh_optimization tShader) in
  emit (call_preprocess sh) ;;;
  let '(ok, glsl, infoLog) := preprocess tc sh targetApi in
  when (negb ok) (emit (slog_e infoLog)) ;;;
  when (isSome (mSpirvOutput self))
    (let spirvShader :=
       mkTShader glsl (mShLang self) (mLangVersion self) (mOptimization self) in
     emit (call_parse spirvShader) ;;;
     let (ok, infoLog) := parse tc spirvShader targetApi in
     emit (call_link spirvShader) ;;;
     let linkOk := link tc spirvShader targetApi in
     if negb ok || negb linkOk then emit (slog_e infoLog)
     else
       emit (call_GlslangToSpv spirvShader) ;;;
       store_spirv (GlslangToSpv tc spirvShader (mGenerateDebugInfo self))) ;;;
  when (isSome (mMslOutput self))
    (spirv <- load_spirv ;; SpvToMsl spirv config) ;;;
  when (isSome (mGlslOutput self)) (store_glsl glsl).

Definition createOptimizer (optimization : Optimization) (config : Config) : Optimizer :=
  match optimization with
  | SIZE => registerSizePasses [] (shaderModel config)
  | PERFORMANCE => registerPerformancePasses [] (shaderModel config)
  | _ => []
  end.

(** The message consumer of [createOptimizer] on the messages of a run: a
    line on the error log for every message that passes the filter. *)
Definition consumerLines (messages : list message) : list event :=
  flat_map
    (fun m : message =>
       let '(level, source, position, text) := m in
       match Messages.messageConsumer (NDEBUG tc) level source position text with
       | Some line => [slog_e line]
       | None => []
       end)
    messages.

(** [errorHandler] on the errors of the remapper: a line on the error log
    for each. *)
Definition errorHandlerLines (errors : list string) : list event := map slog_e errors.

(** [optimizeSpirv(optimizer, spirv)]: returns the contents of [spirv]. *)
Definition optimizeSpirv (optimizer : Optimizer) (spirv : SpirvBlob) : M SpirvBlob :=
  emit (call_Run optimizer) ;;;
  let '(ok, spirv, messages) := Run tc optimizer spirv in
  emit_all (consumerLines messages) ;;;
  if negb ok then
    emit (slog_e "SPIR-V optimizer pass failed") ;;; ret spirv
  else
    emit call_remap ;;;
    let (spirv, errors) := remap tc spirv in
    emit_all (errorHandlerLines errors) ;;; ret spirv.

Definition fullOptimization (tShader : TShader) (config : Config) : M unit :=
  self <- get ;;
  emit (call_GlslangToSpv tShader) ;;;
  let spirv := GlslangToSpv tc tShader (mGenerateDebugInfo self) in
  let optimizer := createOptimizer (mOptimization self) config in
  spirv <- optimizeSpirv optimizer spirv ;;
  when (isSome (mSpirvOutput self)) (store_spirv spirv) ;;;
  when (isSome (mMslOutput self)) (SpvToMsl spirv config) ;;;
  when (isSome (mGlslOutput self))
    (emit call_CompilerGLSL ;;;
     store_glsl (CompilerGLSL_compile tc spirv (glslOptionsOf config)
                   (remapsOf (sh_stage tShader) config))).

(** [mShLang] as [process] sets it from the configuration. *)
Definition langOf (config : Config) : EShLanguage :=
  match shaderType config with
  | VERTEX => EShLangVertex
  | FRAGMENT => EShLangFragment
  end.

(** The [TShader] that [process] sets up and parses. *)
Definition shaderOf (optimization : Optimization) (inputShader : string)
    (config : Config) : TShader :=
  mkTShader inputShader (langOf config)
    (glslangVersionFromShaderModel tc (shaderModel config)) optimization.

(** Lines 434 to 497 of [process]: everything after the fast exit and the
    three assignments to [mGlslOutput], [mSpirvOutput] and [mMslOutput]. It
    reads the output pointers from the object. *)
Definition compile (inputShader : string) (config : Config) : M bool :=
  self <- get ;;
  let targetApi := targetApiOf self in
  let lang := langOf config in
  let ver := glslangVersionFromShaderModel tc (shaderModel config) in
  set_lang lang ver ;;;
  let tShader := shaderOf (mOptimization self) inputShader config in
  emit (call_parse tShader) ;;;
  let (ok, infoLog) := parse tc tShader targetApi in
  if negb ok then emit (slog_e infoLog) ;;; ret false
  else
    emit (call_link tShader) ;;;
    if negb (link tc tShader targetApi) then emit (slog_e infoLog) ;;; ret false
    else
      match mOptimization self with
      | NONE =>
          if isSome (mSpirvOutput self) then
            emit (call_GlslangToSpv tShader) ;;;
            let spirv := GlslangToSpv tc tShader (mGenerateDebugInfo self) in
            store_spirv spirv ;;;
            when (isSome (mMslOutput self)) (SpvToMsl spirv config)
          else
            emit (slog_e "GLSL post-processor invoked with optimization level NONE")
      | PREPROCESSOR => preprocessOptimization tShader config
      | SIZE | PERFORMANCE => fullOptimization tShader config
      end ;;;
      when (isSome (mGlslOutput self))
        (g <- load_glsl ;;
         g <- shrinkString g ;;
         store_glsl (Minifier.minifyStructFields (iteration tc) g) ;;;
         when (mPrintShaders self)
           (g <- load_glsl ;; emit (slog_i g))) ;;;
      ret true.

(** What the caller sees after [process]: the value returned and the
    contents of its three output objects ([None] for a null pointer). *)
Record result : Type := mkResult {
  returned : bool;
  outputGlsl_after : option string;
  outputSpirv_after : option SpirvBlob;
  outputMsl_after : option string
}.

(** [GLSLPostProcessor::process]. The object comes in as constructed (its
    output pointers not yet set); [outputGlsl], [outputSpirv] and [outputMsl]
    are the caller's pointers. *)
Definition process (inputShader : string) (config : Config)
    (outputGlsl : option string) (outputSpirv : option SpirvBlob)
    (outputMsl : option string) : M result :=
  fun self =>
    let targetApi := if isSome outputSpirv then VULKAN else OPENGL in
    match targetApi, mOptimization self with
    | OPENGL, NONE =>
        (* [*outputGlsl = inputShader] through the caller's pointer *)
        match outputGlsl with
        | None => NullDereference
        | Some _ =>
            let self' :=
              mkPP (mOptimization self) (mPrintShaders self) (mGenerateDebugInfo self)
                (mGlslOutput self) (mSpirvOutput self) (mMslOutput self)
                (mShLang self) (mLangVersion self)
                (if mPrintShaders self then (log self ++ [slog_i inputShader])%list
                 else log self) in
            Returns (mkResult true (Some inputShader) outputSpirv outputMsl) self'
        end
    | _, _ =>
        let self' :=
          mkPP (mOptimization self) (mPrintShaders self) (mGenerateDebugInfo self)
            outputGlsl outputSpirv outputMsl
            (mShLang self) (mLangVersion self) (log self) in
        match compile inputShader config self' with
        | Returns b self'' =>
            Returns (mkResult b (mGlslOutput self'') (mSpirvOutput self'')
                       (mMslOutput self'')) self''
        | NullDereference => NullDereference
        | ReadsPastEnd => ReadsPastEnd
        | OutOfFuel => OutOfFuel
        end
    end.

End WithToolchain.

(** The result of a run that returns. *)
Definition returns {A} (r : run A) : option A :=
  match r with Returns a _ => Some a | _ => None end.

Definition log_after {A} (r : run A) : list event :=
  match r with Returns _ self => log self | _ => [] end.

(** A configuration to run examples with. *)
Definition sample_config : Config := mkConfig FRAGMENT GL_ES_30 [].

(** A toolchain of canned answers: the front end accepts everything, the
    optimizer run reports [runOk] and leaves the blob as it was handed in,
    and the two cross compilers return one fixed line each. *)
Definition canned (runOk : bool) : Toolchain :=
  mkToolchain
    (fun _ => 300)
    (fun _ _ => (true, ""))
    (fun _ _ => true)
    (fun sh _ => (true, sh_strings sh, ""))
    (fun _ _ => [119734787; 65536; 7]%N)
    (fun _ spirv => (runOk, spirv, []))
    (fun spirv => (spirv, []))
    (fun _ _ => "kernel void k() {}" ++ nl)
    (fun _ _ _ => "void main() {}" ++ nl)
    (fun m => m)
    true.

(** [GLSLPostProcessor::GLSLPostProcessor(optimization, flags)] with the two
    flags already tested. *)
Definition construct (optimization : Optimization) (printShaders generateDebugInfo : bool)
  : GLSLPostProcessor :=
  mkPP optimization printShaders generateDebugInfo None None None EShLangVertex 0 [].

(** A toolchain of canned answers like [canned], with the answers of the
    front end, of the optimizer run and of the cross compiler to the shading
    language given: the front end reports [parseOk] with a fixed info log and
    [linkOk], and the cross compiler returns [glsl]. *)
Definition answering (parseOk linkOk runOk : bool) (glsl : string) : Toolchain :=
  mkToolchain
    (fun _ => 300)
    (fun _ _ => (parseOk, "ERROR: 0:1: syntax error"))
    (fun _ _ => linkOk)
    (fun sh _ => (true, sh_strings sh, ""))
    (fun _ _ => [119734787; 65536; 7]%N)
    (fun _ spirv => (runOk, spirv, []))
    (fun spirv => (spirv, []))
    (fun _ _ => "kernel void k() {}" ++ nl)
    (fun _ _ _ => glsl)
    (fun m => m)
    true.

(** A toolchain like [canned] in a debug build, whose optimizer run sends
    a warning to the message consumer and whose remapper reports an error. *)
Definition talkative (runOk : bool) : Toolchain :=
  mkToolchain
    (fun _ => 300)
    (fun _ _ => (true, ""))
    (fun _ _ => true)
    (fun sh _ => (true, sh_strings sh, ""))
    (fun _ _ => [119734787; 65536; 7]%N)
    (fun _ spirv =>
       (runOk, spirv,
        [(Messages.SPV_MSG_WARNING, Some "shader", Messages.mkPosition 3 1 17,
          Some "unused variable")]))
    (fun spirv => (spirv, ["ID not found"]))
    (fun _ _ => "kernel void k() {}" ++ nl)
    (fun _ _ _ => "void main() {}" ++ nl)
    (fun m => m)
    false.

End Pipeline.

(** * Properties *)

(** ** The optimizer profiles *)

Module ProfilesFacts.
Import Profiles.

Lemma ShaderModel_eqb_spec (a b : ShaderModel) :
  ShaderModel_eqb a b = true <-> a = b.
Proof. destruct a, b; simpl; split; intro H; try reflexivity; discriminate. Qed.

(** C4. Whatever the shader model, both profiles start with the
    kill-wrapping pass and the dead-branch elimination; the pass that comes
    next is the merge-return pass exactly when the shader model is not
    GL_CORE_41, and for GL_CORE_41 the merge-return pass is in neither
    profile. *)
Theorem profiles_prefix_and_merge_return (model : ShaderModel) :
  (firstn 2 (registerPerformancePasses [] model) = [WrapOpKill; DeadBranchElim]
   /\ firstn 2 (registerSizePasses [] model) = [WrapOpKill; DeadBranchElim])
  /\ ((nth_error (registerPerformancePasses [] model) 2 = Some MergeReturn
       <-> model <> GL_CORE_41)
      /\ (nth_error (registerSizePasses [] model) 2 = Some MergeReturn
          <-> model <> GL_CORE_41))
  /\ ((In MergeReturn (registerPerformancePasses [] model) <-> model <> GL_CORE_41)
      /\ (In MergeReturn (registerSizePasses [] model) <-> model <> GL_CORE_41)).
Proof.
  destruct model; cbv [registerPerformancePasses registerSizePasses RegisterPasses
                       RegisterPass fold_left app ShaderModel_eqb negb firstn nth_error];
    (repeat split; try reflexivity; try discriminate; try congruence; intros H);
    try (exfalso; apply H; reflexivity);
    try (simpl; tauto);
    try (simpl in H;
         repeat match goal with
                | H : _ \/ _ |- _ => destruct H as [H | H]
                end; try discriminate; contradiction).
Qed.

End ProfilesFacts.

(** ** The pipeline *)

Module PipelineFacts.
Import Str Profiles Pipeline.

(** C3. With optimization level NONE, a shading-language output object and
    null IR and secondary-language pointers, [process] returns true, the
    output object holds the input text unchanged, and the call adds nothing to
    the log but the echo of the text when shaders are printed: no call to the
    front end or to any later stage is made. *)
Theorem process_NONE_glsl_only_is_identity
    (tc : Toolchain) (self : GLSLPostProcessor) (inputShader : string)
    (config : Config) (old : string) :
  mOptimization self = NONE ->
  exists self' added,
    process tc inputShader config (Some old) None None self
      = Returns (mkResult true (Some inputShader) None None) self'
    /\ log self' = (log self ++ added)%list
    /\ added = (if mPrintShaders self then [slog_i inputShader] else [])
    /\ existsb is_call added = false.
Proof.
  intros Hopt. unfold process. rewrite Hopt. simpl.
  eexists. exists (if mPrintShaders self then [slog_i inputShader] else []).
  split; [reflexivity|]. simpl.
  destruct (mPrintShaders self); simpl; repeat split; auto using app_nil_r.
Qed.

Lemma process_NONE_glsl_only_is_identity_witness :
  mOptimization (construct NONE true false) = NONE
  /\ exists self' added,
       process (canned true) "void main() {}" sample_config (Some "") None None
         (construct NONE true false)
         = Returns (mkResult true (Some "void main() {}") None None) self'
       /\ log self' = (log (construct NONE true false) ++ added)%list
       /\ added = [slog_i "void main() {}"]
       /\ existsb is_call added = false.
Proof.
  split; [reflexivity|].
  apply (process_NONE_glsl_only_is_identity (canned true) (construct NONE true false)
           "void main() {}" sample_config ""). reflexivity.
Defined.

(** C5, as the claim states it, fails: with a failing optimizer run at level
    SIZE the caller's IR object and secondary-language object are both
    written, and the call returns true. *)
Lemma optimizer_failure_outputs_written :
  returns (process (canned false) "void main() {}" sample_config
             None (Some []) (Some "") (construct SIZE false false))
  = Some (mkResult true None (Some [119734787; 65536; 7]%N)
            (Some ("kernel void k() {}" ++ nl))).
Proof. vm_compute. reflexivity. Qed.

End PipelineFacts.

(** ** Strings: lengths, positions and searches across a concatenation *)

Module StrFacts.
Import Str.

Lemma append_nil_r (s : string) : s ++ "" = s.
Proof. induction s; simpl; congruence. Qed.

Lemma append_assoc (a b c : string) : (a ++ b) ++ c = a ++ (b ++ c).
Proof. induction a; simpl; congruence. Qed.

Lemma length_append (a b : string) :
  String.length (a ++ b) = String.length a + String.length b.
Proof. induction a; simpl; auto. Qed.

Lemma append_snoc (a : string) (c : ascii) (b : string) :
  a ++ String c b = (a ++ String c "") ++ b.
Proof. rewrite append_assoc. reflexivity. Qed.

Lemma length_snoc (a : string) (c : ascii) :
  String.length (a ++ String c "") = S (String.length a).
Proof. rewrite length_append. simpl. lia. Qed.

Lemma append_inv_head (a b c : string) : a ++ b = a ++ c -> b = c.
Proof. induction a; simpl; intros H; [assumption|]. injection H. auto. Qed.

Lemma get_app_r (a b : string) (n : nat) :
  get (String.length a + n) (a ++ b) = get n b.
Proof. induction a; simpl; auto. Qed.

Lemma get_app_r0 (a b : string) : get (String.length a) (a ++ b) = get 0 b.
Proof. rewrite <- (get_app_r a b 0). f_equal. lia. Qed.

Lemma get_app_l (a b : string) (n : nat) :
  n < String.length a -> get n (a ++ b) = get n a.
Proof.
  revert n. induction a as [|c a IH]; simpl; intros n H; [lia|].
  destruct n; [reflexivity|]. apply IH. lia.
Qed.

Lemma get_none (s : string) (n : nat) : String.length s <= n -> get n s = None.
Proof.
  revert n. induction s as [|c s IH]; simpl; intros n H; [reflexivity|].
  destruct n; [lia|]. apply IH. lia.
Qed.

Lemma get_some (s : string) (n : nat) :
  n < String.length s -> exists c, get n s = Some c.
Proof.
  revert n. induction s as [|c s IH]; simpl; intros n H; [lia|].
  destruct n; [eauto|]. apply IH. lia.
Qed.

Lemma get_lt (s : string) (n : nat) (c : ascii) :
  get n s = Some c -> n < String.length s.
Proof.
  intros H. destruct (Nat.lt_ge_cases n (String.length s)) as [|Hge]; [assumption|].
  rewrite (get_none _ _ Hge) in H. discriminate.
Qed.

Lemma substring_app_r (a b : string) (n m : nat) :
  substring (String.length a + n) m (a ++ b) = substring n m b.
Proof. induction a; simpl; auto. Qed.

Lemma substring_0_app (a b : string) : substring 0 (String.length a) (a ++ b) = a.
Proof.
  induction a as [|c a IH]; simpl; [destruct b; reflexivity|]. congruence.
Qed.

Lemma substring_0_all (s : string) : substring 0 (String.length s) s = s.
Proof. induction s; simpl; congruence. Qed.

Lemma substring_n_0 (s : string) (n : nat) : substring n 0 s = "".
Proof.
  revert n. induction s as [|c s IH]; intros [|n]; simpl; auto.
Qed.

Lemma substring_app_mid (a b c : string) :
  substring (String.length a) (String.length b) (a ++ b ++ c) = b.
Proof.
  rewrite <- (Nat.add_0_r (String.length a)), substring_app_r.
  apply substring_0_app.
Qed.

Lemma substr_from_app (a b : string) : substr_from (a ++ b) (String.length a) = b.
Proof.
  unfold substr_from. rewrite length_append.
  replace (String.length a + String.length b - String.length a) with (String.length b) by lia.
  rewrite <- (Nat.add_0_r (String.length a)) at 1.
  rewrite substring_app_r. apply substring_0_all.
Qed.

Lemma substr_from_0 (s : string) : substr_from s 0 = s.
Proof. unfold substr_from. rewrite Nat.sub_0_r. apply substring_0_all. Qed.

Lemma prefix_app (p s : string) : prefix p (p ++ s) = true.
Proof.
  induction p as [|c p IH]; simpl; [destruct s; reflexivity|].
  destruct (ascii_dec c c); [assumption|contradiction].
Qed.

Lemma prefix_inv (p s : string) : prefix p s = true -> exists t, s = p ++ t.
Proof.
  revert s. induction p as [|c p IH]; intros s H; [exists s; reflexivity|].
  destruct s as [|d s]; simpl in H; [discriminate|].
  destruct (ascii_dec c d); [|discriminate]. subst d.
  destruct (IH _ H) as [t ->]. exists t. reflexivity.
Qed.

Lemma index_app_r (a b p : string) (n : nat) :
  index (String.length a + n) p (a ++ b)
  = option_map (Nat.add (String.length a)) (index n p b).
Proof.
  induction a as [|c a IH]; simpl.
  - destruct (index n p b); reflexivity.
  - rewrite IH. destruct (index n p b); reflexivity.
Qed.

Lemma index_0_of_prefix (p s : string) : prefix p s = true -> index 0 p s = Some 0.
Proof.
  intros H. destruct s as [|c t].
  - destruct p; [reflexivity|discriminate].
  - cbn [index]. rewrite H. reflexivity.
Qed.

Lemma index_0_prefix (p s : string) : index 0 p (p ++ s) = Some 0.
Proof. apply index_0_of_prefix, prefix_app. Qed.

Lemma index_at_app (a p s : string) :
  index (String.length a) p (a ++ p ++ s) = Some (String.length a).
Proof.
  rewrite <- (Nat.add_0_r (String.length a)) at 1.
  rewrite index_app_r, index_0_prefix. simpl. f_equal. lia.
Qed.

(** A pattern with a character that the text does not have is not found. *)
Lemma mem_append (c : ascii) (a b : string) : mem c (a ++ b) = mem c a || mem c b.
Proof. induction a; simpl; [reflexivity|]. rewrite IHa, orb_assoc. reflexivity. Qed.

Lemma mem_cons_false (c d : ascii) (s : string) :
  mem c (String d s) = false -> Ascii.eqb c d = false /\ mem c s = false.
Proof. cbn [mem]. apply orb_false_iff. Qed.

Lemma prefix_mem (c : ascii) (p s : string) :
  prefix p s = true -> mem c p = true -> mem c s = true.
Proof.
  intros H Hm. destruct (prefix_inv _ _ H) as [t ->].
  rewrite mem_append, Hm. reflexivity.
Qed.

Lemma index_nil_pos (p : string) (n : nat) :
  index n p "" = match n, p with 0, "" => Some 0 | _, _ => None end.
Proof. destruct n, p; reflexivity. Qed.

Lemma index_cons_0 (p : string) (d : ascii) (s : string) :
  index 0 p (String d s)
  = if prefix p (String d s) then Some 0 else option_map S (index 0 p s).
Proof. cbn [index]. destruct (prefix p (String d s)), (index 0 p s); reflexivity. Qed.

Lemma index_cons_S (p : string) (d : ascii) (s : string) (n : nat) :
  index (S n) p (String d s) = option_map S (index n p s).
Proof. cbn [index]. destruct (index n p s); reflexivity. Qed.

Lemma index_no_char (c : ascii) (p s : string) (n : nat) :
  mem c p = true -> mem c s = false -> index n p s = None.
Proof.
  intros Hp. revert n. induction s as [|d s IH]; intros n Hs.
  - rewrite index_nil_pos. destruct n; [|reflexivity]. destruct p; [discriminate|reflexivity].
  - simpl in Hs. apply orb_false_iff in Hs. destruct Hs as [Hd Hs].
    destruct n.
    + rewrite index_cons_0. destruct (prefix p (String d s)) eqn:E.
      * pose proof (prefix_mem c _ _ E Hp) as Hc. simpl in Hc.
        rewrite Hd, Hs in Hc. discriminate.
      * rewrite (IH 0 Hs). reflexivity.
    + rewrite index_cons_S, (IH n Hs). reflexivity.
Qed.

Lemma index_split (p s : string) (n m : nat) :
  index n p s = Some m ->
  exists a b, s = a ++ p ++ b /\ String.length a = m /\ n <= m.
Proof.
  revert n m. induction s as [|d s IH]; intros n m H.
  - rewrite index_nil_pos in H. destruct n; [|discriminate].
    destruct p; [|discriminate]. injection H as <-. exists "", "". auto.
  - destruct n.
    + rewrite index_cons_0 in H. destruct (prefix p (String d s)) eqn:E.
      * injection H as <-. destruct (prefix_inv _ _ E) as [t Ht].
        exists "", t. auto.
      * destruct (index 0 p s) as [k|] eqn:Ei; [|discriminate].
        injection H as <-. destruct (IH _ _ Ei) as (a & b & -> & <- & _).
        exists (String d a), b. simpl. auto with arith.
    + rewrite index_cons_S in H.
      destruct (index n p s) as [k|] eqn:Ei; [|discriminate].
      injection H as <-. destruct (IH _ _ Ei) as (a & b & -> & <- & Hle).
      exists (String d a), b. simpl. auto with arith.
Qed.

Lemma index_bound (p s : string) (n m : nat) :
  index n p s = Some m -> n <= m /\ m + String.length p <= String.length s.
Proof.
  intros H. destruct (index_split _ _ _ _ H) as (a & b & -> & <- & Hle).
  rewrite !length_append. split; [assumption|lia].
Qed.

(** [find_first_of] over a concatenation. *)
Lemma find_first_of_app_r (a b : string) (c : ascii) (n : nat) :
  find_first_of (a ++ b) c (String.length a + n)
  = option_map (Nat.add (String.length a)) (find_first_of b c n).
Proof.
  induction a as [|d a IH]; simpl.
  - destruct (find_first_of b c n); reflexivity.
  - rewrite IH. destruct (find_first_of b c n); reflexivity.
Qed.

Lemma find_first_of_skip (l rest : string) (c : ascii) :
  mem c l = false ->
  find_first_of (l ++ String c rest) c 0 = Some (String.length l).
Proof.
  induction l as [|d l IH]; simpl; intros H.
  - rewrite Ascii.eqb_refl. reflexivity.
  - apply orb_false_iff in H. destruct H as [Hd Hl].
    rewrite Ascii.eqb_sym, Hd, (IH Hl). reflexivity.
Qed.

Lemma find_first_of_none (l : string) (c : ascii) (n : nat) :
  mem c l = false -> find_first_of l c n = None.
Proof.
  revert n. induction l as [|d l IH]; simpl; intros n H; [reflexivity|].
  apply orb_false_iff in H. destruct H as [Hd Hl].
  destruct n; [rewrite Ascii.eqb_sym, Hd|]; rewrite (IH _ Hl); reflexivity.
Qed.

Lemma last_char_app (a b : string) : b <> "" -> last_char (a ++ b) = last_char b.
Proof.
  intros Hb. induction a as [|c a IH]; [reflexivity|].
  cbn [append last_char]. rewrite IH.
  destruct (a ++ b) eqn:E; [|reflexivity].
  destruct a; [cbn [append] in E; contradiction|discriminate].
Qed.

Lemma last_char_get (s : string) : last_char s = get (pred (String.length s)) s.
Proof.
  induction s as [|c s IH]; [reflexivity|].
  destruct s as [|d s]; [reflexivity|].
  cbn [last_char] in *. rewrite IH. reflexivity.
Qed.

(** The first occurrence of a character fixes how a text splits around it. *)
Lemma split_at_first_char (c : ascii) (u w p q : string) :
  mem c u = false -> mem c w = false ->
  u ++ String c w = p ++ String c q -> p = u /\ q = w.
Proof.
  intros Hu Hw. revert p. induction u as [|e u IH]; intros p H.
  - destruct p as [|d p]; cbn [append] in H.
    + injection H as ->. auto.
    + injection H as <- ->. rewrite mem_append in Hw. cbn [mem] in Hw.
      rewrite Ascii.eqb_refl, orb_true_r in Hw. discriminate.
  - apply mem_cons_false in Hu. destruct Hu as [He Hu].
    destruct p as [|d p]; cbn [append] in H.
    + injection H as -> _. rewrite Ascii.eqb_refl in He. discriminate.
    + injection H as <- H. destruct (IH Hu _ H) as [-> ->]. auto.
Qed.

(** A pattern that occurs is found. *)
Lemma index_finds (a p b : string) (n : nat) :
  p <> "" -> n <= String.length a -> index n p (a ++ p ++ b) <> None.
Proof.
  intros Hp Hn H.
  apply (index_correct3 n (String.length a) p (a ++ p ++ b) H Hp Hn).
  apply substring_app_mid.
Qed.

(** [replace] on an occurrence. *)
Lemma replace_split (a k b v : string) :
  replace (a ++ k ++ b) (String.length a) (String.length k) v = a ++ v ++ b.
Proof.
  unfold replace. rewrite substring_0_app.
  replace (a ++ k ++ b) with ((a ++ k) ++ b) by apply append_assoc.
  rewrite <- length_append, substr_from_app. reflexivity.
Qed.

(** [at_]: inside, at the end and one past the end. *)
Lemma at_inside (a : string) (c : ascii) (b : string) :
  at_ (a ++ String c b) (String.length a) = Some c.
Proof. unfold at_. rewrite get_app_r0. reflexivity. Qed.

Lemma at_end (s : string) : at_ s (String.length s) = Some nul.
Proof. unfold at_. rewrite get_none by lia. rewrite Nat.eqb_refl. reflexivity. Qed.

Lemma at_past_end (s : string) (n : nat) : String.length s < n -> at_ s n = None.
Proof.
  intros H. unfold at_. rewrite get_none by lia.
  destruct (Nat.eqb_spec n (String.length s)); [lia|reflexivity].
Qed.

End StrFacts.

(** ** shrinkString *)

Module ShrinkFacts.
Import Str Shrink StrFacts.

Lemma newline_not_blank : mem newline (String " " (String tab "")) = false.
Proof. reflexivity. Qed.

Lemma length_newlines (k : nat) : String.length (newlines k) = k.
Proof. induction k; simpl; auto. Qed.

Lemma scan_line_line (l : string) :
  forall (pre rest : string) (len fuel : nat),
    mem newline l = false ->
    String.length l < fuel ->
    scan_line fuel (pre ++ l ++ String newline rest) (String.length pre) len
    = Done (String.length pre + String.length l, len + String.length l).
Proof.
  induction l as [|c l IH]; intros pre rest len fuel Hl Hf;
    (destruct fuel as [|fuel]; [simpl in Hf; lia|]); cbn [scan_line].
  - cbn [append]. rewrite at_inside. rewrite Ascii.eqb_refl.
    cbn [String.length]. rewrite !Nat.add_0_r. reflexivity.
  - cbn [append]. rewrite at_inside.
    apply mem_cons_false in Hl. destruct Hl as [Hc Hl].
    rewrite Ascii.eqb_sym, Hc.
    rewrite (append_snoc pre c), <- (length_snoc pre c).
    rewrite IH by (simpl in Hf; auto; lia).
    rewrite length_snoc. cbn [String.length]. f_equal. f_equal; lia.
Qed.

Lemma scan_line_past_end (tail : string) :
  forall (pre : string) (len fuel : nat),
    mem newline tail = false ->
    String.length tail + 2 <= fuel ->
    scan_line fuel (pre ++ tail) (String.length pre) len = PastEnd.
Proof.
  induction tail as [|c tail IH]; intros pre len fuel Hl Hf.
  - destruct fuel as [|[|fuel]]; [simpl in Hf; lia ..|].
    cbn [scan_line]. rewrite append_nil_r, at_end.
    change (Ascii.eqb nul newline) with false. cbv iota.
    rewrite at_past_end by lia. reflexivity.
  - destruct fuel as [|fuel]; [simpl in Hf; lia|]. cbn [scan_line].
    rewrite at_inside.
    apply mem_cons_false in Hl. destruct Hl as [Hc Hl].
    rewrite Ascii.eqb_sym, Hc.
    rewrite (append_snoc pre c), <- (length_snoc pre c).
    apply IH; [assumption|]. simpl in Hf. lia.
Qed.

Lemma skip_newlines_run (k : nat) :
  forall (pre rest : string) (fuel : nat),
    starts_clean rest ->
    k < fuel ->
    skip_newlines fuel (pre ++ newlines k ++ rest) (String.length pre)
    = Done (String.length pre + k).
Proof.
  induction k as [|k IH]; intros pre rest fuel Hr Hf;
    (destruct fuel as [|fuel]; [lia|]); cbn [skip_newlines newlines append].
  - rewrite Nat.add_0_r. destruct rest as [|c rest].
    + rewrite append_nil_r, at_end. reflexivity.
    + rewrite at_inside. simpl in Hr.
      destruct (Ascii.eqb_spec c newline); [contradiction|reflexivity].
  - rewrite at_inside, Ascii.eqb_refl.
    rewrite (append_snoc pre newline), <- (length_snoc pre newline).
    rewrite IH by (auto; lia). rewrite length_snoc. f_equal. lia.
Qed.

Lemma find_first_not_of_app_r (a b set : string) (n : nat) :
  find_first_not_of (a ++ b) set (String.length a + n)
  = option_map (Nat.add (String.length a)) (find_first_not_of b set n).
Proof.
  induction a as [|d a IH]; simpl.
  - destruct (find_first_not_of b set n); reflexivity.
  - rewrite IH. destruct (find_first_not_of b set n); reflexivity.
Qed.

Lemma find_first_not_of_line (l rest : string) :
  find_first_not_of (l ++ String newline rest) (String " " (String tab "")) 0
  = Some (leading l).
Proof.
  induction l as [|c l IH]; cbn [append find_first_not_of leading].
  - rewrite newline_not_blank. reflexivity.
  - destruct (mem c (String " " (String tab ""))); [rewrite IH|]; reflexivity.
Qed.

Lemma leading_le (l : string) : leading l <= String.length l.
Proof.
  induction l as [|c l IH]; simpl; [lia|].
  destruct (Ascii.eqb c " " || (Ascii.eqb c tab || false)); lia.
Qed.

Lemma substring_strip (l rest : string) :
  substring (leading l) (String.length l - leading l) (l ++ rest) = stripLeading l.
Proof.
  induction l as [|c l IH]; cbn [append leading stripLeading String.length].
  - apply substring_n_0.
  - destruct (mem c (String " " (String tab ""))).
    + cbn [substring Nat.sub]. exact IH.
    + cbn [substring Nat.sub]. f_equal. apply substring_0_app.
Qed.

(** One round of the loop for every segment. *)
Lemma shrink_loop_segments (segs : list (string * nat)) :
  forall (pre tail r : string) (fuel : nat),
    segmented segs tail ->
    shrink_loop (List.length segs + fuel) (pre ++ text segs ++ tail) (String.length pre) r
    = shrink_loop fuel (pre ++ text segs ++ tail)
        (String.length pre + String.length (text segs)) (r ++ shrunk segs).
Proof.
  induction segs as [|[l k] segs IH]; intros pre tail r fuel Hseg.
  - cbn [List.length text shrunk Nat.add String.length].
    rewrite Nat.add_0_r, append_nil_r. reflexivity.
  - destruct Hseg as (Hl & Hclean & Hseg).
    cbn [List.length Nat.add shrink_loop].
    set (s := pre ++ text ((l, k) :: segs) ++ tail).
    assert (Es : s = pre ++ l ++ String newline (newlines k ++ text segs ++ tail)).
    { unfold s. cbn [text newlines]. rewrite !append_assoc. cbn [append].
      rewrite ?append_assoc. reflexivity. }
    assert (Es2 : s = (pre ++ l) ++ newlines (S k) ++ (text segs ++ tail)).
    { rewrite Es. cbn [newlines append]. rewrite !append_assoc. reflexivity. }
    assert (Es3 : s = (pre ++ l ++ newlines (S k)) ++ text segs ++ tail).
    { rewrite Es2. rewrite !append_assoc. reflexivity. }
    assert (Hlen : String.length s
                   = String.length pre + String.length l + S k
                     + String.length (text segs ++ tail)).
    { rewrite Es2, !length_append, length_newlines. lia. }
    destruct (Nat.ltb_spec (String.length pre) (String.length s)) as [_|Hge]; [|lia].
    assert (Hscan : scan_line (String.length s + 2) s (String.length pre) 0
                    = Done (String.length pre + String.length l, String.length l)).
    { rewrite Es at 2. apply scan_line_line; [assumption|lia]. }
    assert (Hfind : find_first_not_of s (String " " (String tab "")) (String.length pre)
                    = Some (String.length pre + leading l)).
    { rewrite Es. rewrite <- (Nat.add_0_r (String.length pre)) at 1.
      rewrite find_first_not_of_app_r, find_first_not_of_line. reflexivity. }
    assert (Hskip : skip_newlines (String.length s + 2) s
                      (String.length pre + String.length l)
                    = Done (String.length pre + String.length l + S k)).
    { rewrite Es2 at 2. rewrite <- (length_append pre l).
      apply skip_newlines_run; [assumption|lia]. }
    assert (Hsub : substr s (String.length pre + leading l)
                     (String.length l - (String.length pre + leading l - String.length pre))
                   = stripLeading l).
    { unfold substr. rewrite Es, substring_app_r.
      replace (String.length l - (String.length pre + leading l - String.length pre))
        with (String.length l - leading l) by lia.
      apply substring_strip. }
    rewrite Hscan, Hfind, Hskip, Hsub.
    replace (String.length pre + String.length l + S k)
      with (String.length (pre ++ l ++ newlines (S k)))
      by (rewrite !length_append, length_newlines; lia).
    rewrite Es3. rewrite IH by assumption. f_equal.
    + cbn [text]. rewrite !length_append, length_newlines. lia.
    + cbn [shrunk]. rewrite !append_assoc. reflexivity.
Qed.

Lemma shrink_loop_at_end (fuel : nat) (s r : string) :
  shrink_loop fuel s (String.length s) r = Done r.
Proof. destruct fuel; cbn [shrink_loop]; rewrite Nat.ltb_irrefl; reflexivity. Qed.

Lemma length_text_ge (segs : list (string * nat)) :
  List.length segs <= String.length (text segs).
Proof.
  induction segs as [|[l k] segs IH]; cbn [List.length text]; [lia|].
  rewrite !length_append, length_newlines. lia.
Qed.

(** On a text that is a sequence of segments the loop ends, and the result
    is the sequence of stripped lines. *)
Lemma shrinkString_text (segs : list (string * nat)) :
  segmented segs "" -> shrinkString (text segs) = Done (shrunk segs).
Proof.
  intros Hseg. unfold shrinkString.
  pose proof (length_text_ge segs) as Hle.
  replace (String.length (text segs))
    with (List.length segs + (String.length (text segs) - List.length segs)) at 1 by lia.
  pose proof (shrink_loop_segments segs "" "" ""
                (String.length (text segs) - List.length segs) Hseg) as H.
  cbn [append String.length Nat.add] in H. rewrite append_nil_r in H.
  rewrite H. apply shrink_loop_at_end.
Qed.

(** On segments followed by a last line without newline the loop leaves the
    string. *)
Lemma shrinkString_unterminated (segs : list (string * nat)) (tail : string) :
  segmented segs tail ->
  tail <> "" ->
  mem newline tail = false ->
  shrinkString (text segs ++ tail) = PastEnd.
Proof.
  intros Hseg Hne Hnl. unfold shrinkString.
  pose proof (length_text_ge segs) as Hle.
  assert (Ht : 1 <= String.length tail) by (destruct tail; [congruence|simpl; lia]).
  rewrite length_append.
  replace (String.length (text segs) + String.length tail)
    with (List.length segs
          + S (String.length (text segs) + String.length tail - List.length segs - 1))
    by lia.
  pose proof (shrink_loop_segments segs "" tail ""
                (S (String.length (text segs) + String.length tail - List.length segs - 1))
                Hseg) as H.
  cbn [append String.length Nat.add] in H. rewrite H.
  cbn [shrink_loop]. rewrite length_append.
  destruct (Nat.ltb_spec (String.length (text segs))
              (String.length (text segs) + String.length tail)) as [_|]; [|lia].
  rewrite <- length_append.
  rewrite scan_line_past_end by (auto; rewrite length_append; lia).
  reflexivity.
Qed.

Lemma starts_clean_of_mem (t : string) : mem newline t = false -> starts_clean t.
Proof.
  destruct t as [|c t]; [exact (fun _ => I)|]. intros H.
  apply mem_cons_false in H. destruct H as [Hc _]. cbn [starts_clean].
  intros ->. rewrite Ascii.eqb_refl in Hc. discriminate.
Qed.

Lemma last_char_text (l : string) (k : nat) (segs : list (string * nat)) :
  last_char (text ((l, k) :: segs)) = Some newline.
Proof.
  revert l k. induction segs as [|[l' k'] segs IH]; intros l k.
  - cbn [text]. rewrite append_nil_r, last_char_app by discriminate.
    induction k as [|k IHk]; [reflexivity|]. exact IHk.
  - change (text ((l, k) :: (l', k') :: segs))
      with (l ++ newlines (S k) ++ text ((l', k') :: segs)).
    rewrite <- append_assoc. rewrite last_char_app; [apply IH|].
    cbn [text]. destruct l'; discriminate.
Qed.

Lemma last_char_no_newline (t : string) (c : ascii) :
  mem newline t = false -> last_char t = Some c -> c <> newline.
Proof.
  induction t as [|d t IH]; intros Hm Hl; [discriminate|].
  apply mem_cons_false in Hm. destruct Hm as [Hd Hm].
  destruct t as [|e t].
  - injection Hl as <-. intros ->. rewrite Ascii.eqb_refl in Hd. discriminate.
  - apply IH; assumption.
Qed.

(** Every text is a sequence of segments followed by what comes after its
    last newline. *)
Lemma text_decomposition (s : string) :
  exists segs tail,
    s = text segs ++ tail /\ segmented segs tail /\ mem newline tail = false.
Proof.
  induction s as [|c s (segs & tail & -> & Hseg & Htail)].
  - exists [], "". repeat split.
  - destruct (Ascii.eqb_spec c newline) as [-> | Hc].
    + destruct segs as [|[[|d l] k] segs].
      * exists [("", 0)], tail. repeat split; auto using starts_clean_of_mem.
      * exists (("", S k) :: segs), tail. destruct Hseg as (Hl & Hcl & Hseg).
        repeat split; auto.
      * exists (("", 0) :: (String d l, k) :: segs), tail.
        split; [reflexivity|]. split; [|assumption].
        split; [reflexivity|]. split; [|exact Hseg].
        destruct Hseg as (Hl & _). apply mem_cons_false in Hl. destruct Hl as [Hd _].
        cbn [text append starts_clean]. intros ->.
        rewrite Ascii.eqb_refl in Hd. discriminate.
    + destruct segs as [|[l k] segs].
      * exists [], (String c tail). repeat split.
        cbn [mem]. apply orb_false_iff. split; [|assumption].
        destruct (Ascii.eqb_spec newline c); [congruence|reflexivity].
      * exists ((String c l, k) :: segs), tail. destruct Hseg as (Hl & Hcl & Hseg).
        repeat split; auto.
        cbn [mem]. apply orb_false_iff. split; [|assumption].
        destruct (Ascii.eqb_spec newline c); [congruence|reflexivity].
Qed.

(** For every input that is empty or ends in a newline the loop ends: the
    input is a sequence of segments and the result is the sequence of their
    lines, each without its leading spaces and tabs and followed by one
    newline. *)
Theorem shrinkString_newline_terminated (s : string) :
  s = "" \/ last_char s = Some newline ->
  exists segs,
    s = text segs /\ segmented segs "" /\ shrinkString s = Done (shrunk segs).
Proof.
  intros Hs. destruct (text_decomposition s) as (segs & tail & E & Hseg & Htail).
  assert (Ht : tail = "").
  { destruct tail as [|c tail]; [reflexivity|]. exfalso.
    destruct Hs as [-> | Hl].
    - destruct segs as [|[[|d l] k] segs]; discriminate.
    - rewrite E, last_char_app in Hl by discriminate.
      destruct (last_char (String c tail)) as [e|] eqn:El; [|discriminate].
      injection Hl as ->. exact (last_char_no_newline _ _ Htail El eq_refl). }
  subst tail. rewrite append_nil_r in E. subst s.
  exists segs. repeat split; [assumption|]. apply shrinkString_text. assumption.
Qed.

(** For every input whose last character is not a newline the scan for the
    end of the last line reads beyond the string. *)
Theorem shrinkString_not_newline_terminated (s : string) (c : ascii) :
  last_char s = Some c -> c <> newline -> shrinkString s = PastEnd.
Proof.
  intros Hl Hc. destruct (text_decomposition s) as (segs & tail & E & Hseg & Htail).
  subst s. apply shrinkString_unterminated; try assumption.
  intros ->. rewrite append_nil_r in Hl.
  destruct segs as [|[l k] segs]; [discriminate|].
  rewrite last_char_text in Hl. congruence.
Qed.

(** The iteration bounds of the model are never what ends a run. *)
Theorem shrinkString_never_out_of_fuel (s : string) : shrinkString s <> NoFuel.
Proof.
  destruct (text_decomposition s) as (segs & tail & -> & Hseg & Htail).
  destruct tail as [|c tail].
  - rewrite append_nil_r, shrinkString_text by assumption. discriminate.
  - rewrite shrinkString_unterminated by (auto; discriminate). discriminate.
Qed.

(** C10. The loop does not remove every empty line: an empty first line is
    written out as an empty line, and a line of spaces and tabs is written out
    as an empty line. (That the loop ends on every input that is empty or ends
    in a newline, and leaves the string on every other input, is
    [shrinkString_newline_terminated] and
    [shrinkString_not_newline_terminated].) *)
Theorem shrinkString_keeps_empty_lines :
  shrinkString (unlines [""; "abc"]) = Done (unlines [""; "abc"])
  /\ shrinkString (unlines ["a"; "  "; "b"]) = Done (unlines ["a"; ""; "b"]).
Proof. split; vm_compute; reflexivity. Qed.

Lemma shrinkString_newline_terminated_witness :
  exists segs,
    unlines ["  abc"; ""; "x"] = text segs
    /\ segmented segs ""
    /\ shrinkString (unlines ["  abc"; ""; "x"]) = Done (shrunk segs).
Proof.
  apply (shrinkString_newline_terminated (unlines ["  abc"; ""; "x"])).
  right. reflexivity.
Defined.

Lemma shrinkString_not_newline_terminated_witness :
  shrinkString "void main() {}" = PastEnd.
Proof.
  apply (shrinkString_not_newline_terminated "void main() {}" "}").
  - reflexivity.
  - discriminate.
Defined.

End ShrinkFacts.

(** ** The generated field names *)

Module NamesFacts.
Import Str Scanner Minifier StrFacts.

Lemma nat_of_letter (i : nat) : i < 26 -> nat_of_ascii (letter i) = 97 + i.
Proof. intros H. unfold letter. apply nat_ascii_embedding. lia. Qed.

Lemma letter_inj (i j : nat) : i < 26 -> j < 26 -> letter i = letter j -> i = j.
Proof.
  intros Hi Hj H. apply (f_equal nat_of_ascii) in H.
  rewrite !nat_of_letter in H by assumption. lia.
Qed.

Lemma length_zs (n : nat) : String.length (zs n) = n.
Proof. induction n; simpl; auto. Qed.

Lemma nameOf_inj (i j : nat) : nameOf i = nameOf j -> i = j.
Proof.
  unfold nameOf. intros H.
  pose proof (Nat.div_mod_eq i 26) as Hi. pose proof (Nat.div_mod_eq j 26) as Hj.
  pose proof (Nat.mod_upper_bound i 26 ltac:(lia)) as Hri.
  pose proof (Nat.mod_upper_bound j 26 ltac:(lia)) as Hrj.
  set (qi := i / 26) in *. set (ri := i mod 26) in *.
  set (qj := j / 26) in *. set (rj := j mod 26) in *.
  clearbody qi ri qj rj.
  injection H as Hl Hz.
  apply letter_inj in Hl; [|assumption ..].
  apply (f_equal String.length) in Hz. rewrite !length_zs in Hz. lia.
Qed.

Lemma nextFieldName_nameOf (k : nat) : nextFieldName (nameOf k) = nameOf (S k).
Proof.
  unfold nameOf, nextFieldName.
  pose proof (Nat.div_mod_eq k 26) as Hk.
  pose proof (Nat.mod_upper_bound k 26 ltac:(lia)) as Hr.
  set (q := k / 26) in *. set (r := k mod 26) in *. clearbody q r.
  destruct (Nat.eq_dec r 25) as [E | E].
  - assert (Hq : S k / 26 = S q) by (symmetry; apply (Nat.div_unique _ _ _ 0); lia).
    assert (Hm : S k mod 26 = 0) by (symmetry; apply (Nat.mod_unique _ _ (S q)); lia).
    rewrite Hq, Hm, E. reflexivity.
  - assert (Hq : S k / 26 = q) by (symmetry; apply (Nat.div_unique _ _ _ (S r)); lia).
    assert (Hm : S k mod 26 = S r) by (symmetry; apply (Nat.mod_unique _ _ q); lia).
    rewrite Hq, Hm.
    destruct (Ascii.eqb_spec (letter r) "z") as [Ez | _].
    + exfalso. apply E. apply (letter_inj r 25); [lia | lia | exact Ez].
    + rewrite nat_of_letter by assumption. unfold letter.
      replace (S (97 + r)) with (97 + S r) by lia. reflexivity.
Qed.

Lemma generatedNames_from (n k : nat) :
  generatedNames n (nameOf k) = map nameOf (seq k n).
Proof.
  revert k. induction n as [|n IH]; intros k; [reflexivity|].
  cbn [generatedNames seq map]. rewrite nextFieldName_nameOf, IH. reflexivity.
Qed.

(** The names that the loop generates, in closed form. *)
Lemma generatedNames_closed_form (n : nat) :
  generatedNames n "a" = map nameOf (seq 0 n).
Proof. exact (generatedNames_from n 0). Qed.

Lemma generatedNames_NoDup (n : nat) : NoDup (generatedNames n "a").
Proof.
  rewrite generatedNames_closed_form.
  apply Finite.Injective_map_NoDup; [|apply seq_NoDup].
  intros i j. apply nameOf_inj.
Qed.

Lemma length_generatedNames (n : nat) (g : string) :
  List.length (generatedNames n g) = n.
Proof. revert g. induction n; intros g; simpl; auto. Qed.

(** *** The table after [assignFieldNames] *)

Lemma table_get_set_same (m : table) (k v : string) :
  table_get (table_set m k v) k = Some v.
Proof.
  induction m as [|[k' v'] m IH]; cbn [table_set table_get].
  - rewrite String.eqb_refl. reflexivity.
  - destruct (String.eqb_spec k k') as [-> | Hne]; cbn [table_get].
    + rewrite String.eqb_refl. reflexivity.
    + destruct (String.eqb_spec k k'); [contradiction|]. exact IH.
Qed.

Lemma table_get_set_other (m : table) (k k' v : string) :
  k <> k' -> table_get (table_set m k' v) k = table_get m k.
Proof.
  intros Hne. induction m as [|[k0 v0] m IH]; cbn [table_set table_get].
  - destruct (String.eqb_spec k k'); [contradiction|reflexivity].
  - destruct (String.eqb_spec k' k0) as [-> | Hne0]; cbn [table_get].
    + destruct (String.eqb_spec k k0); [contradiction|reflexivity].
    + destruct (String.eqb_spec k k0); [reflexivity|exact IH].
Qed.

Lemma key_inj (s f f' : string) : s ++ "." ++ f = s ++ "." ++ f' -> f = f'.
Proof. intros H. apply append_inv_head in H. apply (append_inv_head "." _ _ H). Qed.

Lemma assignFieldNames_other (s : string) (fields : list string) :
  forall (g : string) (m : table) (f : string),
    ~ In f fields ->
    table_get (assignFieldNames s fields g m) (s ++ "." ++ f) = table_get m (s ++ "." ++ f).
Proof.
  induction fields as [|f0 fields IH]; intros g m f Hin; [reflexivity|].
  cbn [assignFieldNames]. rewrite IH by (intros H; apply Hin; right; exact H).
  apply table_get_set_other. intros H. apply key_inj in H. apply Hin. left. auto.
Qed.

Lemma assignFieldNames_last (s : string) (fields : list string) :
  forall (g : string) (m : table) (i : nat) (f : string),
    nth_error fields i = Some f ->
    (forall j, i < j -> nth_error fields j <> Some f) ->
    table_get (assignFieldNames s fields g m) (s ++ "." ++ f)
    = Some (s ++ "." ++ Nat.iter i nextFieldName g).
Proof.
  induction fields as [|f0 fields IH]; intros g m i f Hi Hlast.
  - destruct i; discriminate.
  - cbn [assignFieldNames]. destruct i as [|i].
    + injection Hi as ->. rewrite assignFieldNames_other.
      * apply table_get_set_same.
      * intros Hin. apply In_nth_error in Hin. destruct Hin as [j Hj].
        apply (Hlast (S j)); [lia|exact Hj].
    + rewrite (IH _ _ i f Hi).
      * rewrite Nat.iter_succ_r. reflexivity.
      * intros j Hj. apply (Hlast (S j)). lia.
Qed.

Lemma iter_nextFieldName (i : nat) : Nat.iter i nextFieldName "a" = nameOf i.
Proof.
  induction i as [|i IH]; [reflexivity|].
  cbn [Nat.iter nat_rect]. change (nat_rect _ _ _ i) with (Nat.iter i nextFieldName "a").
  rewrite IH. apply nextFieldName_nameOf.
Qed.

Lemma last_occurrence (fields : list string) (f : string) :
  In f fields ->
  exists i, nth_error fields i = Some f /\ forall j, i < j -> nth_error fields j <> Some f.
Proof.
  induction fields as [|f0 fields IH]; intros Hin; [contradiction|].
  destruct (in_dec string_dec f fields) as [Hf | Hf].
  - destruct (IH Hf) as (i & Hi & Hlast). exists (S i). split; [exact Hi|].
    intros [|j] Hj; [lia|]. apply Hlast. lia.
  - destruct Hin as [-> | Hin]; [|contradiction]. exists 0. split; [reflexivity|].
    intros [|j] Hj; [lia|]. cbn [nth_error]. intros H. apply Hf.
    apply nth_error_In in H. exact H.
Qed.

Lemma scan_step_close (st : scan_state) (codeline s : string) :
  sc_state st = STRUCT_DEFN ->
  parseStructClose codeline = Close s ->
  scan_step st codeline
  = mkScan OUTSIDE (sc_currentStruct st) []
      (assignFieldNames s (sc_fields st) "a" (sc_fieldMapping st))
      (table_set (sc_currentStructToName st) (sc_currentStruct st) s).
Proof. intros Hst Hc. unfold scan_step. rewrite Hst, Hc. reflexivity. Qed.

(** C7, as the claim states it, fails: for a struct of 28 fields the names
    after z are az and bz, not aa and bb. *)
Lemma names_after_z_are_not_doubled :
  map snd (assignFieldNames "s" (sampleFields 28) "a" [])
  <> map (fun k => "s." ++ specName k) (seq 0 28).
Proof.
  intros H. apply (f_equal (fun l => nth 26 l "")) in H. vm_compute in H. discriminate.
Qed.

(** C8. When the scan pass closes a struct with N recorded fields, N at most
    52, the short names generated for it are N names without repetition;
    every recorded field is mapped to the instance name, a dot and one of
    them, and two recorded fields that are mapped to the same entry are the
    same field. *)
Theorem short_names_are_distinct
    (st : scan_state) (codeline s : string) :
  sc_state st = STRUCT_DEFN ->
  parseStructClose codeline = Close s ->
  List.length (sc_fields st) <= 52 ->
  List.length (generatedNames (List.length (sc_fields st)) "a") = List.length (sc_fields st)
  /\ NoDup (generatedNames (List.length (sc_fields st)) "a")
  /\ (forall f, In f (sc_fields st) ->
       exists n, In n (generatedNames (List.length (sc_fields st)) "a")
                 /\ table_get (sc_fieldMapping (scan_step st codeline)) (s ++ "." ++ f)
                    = Some (s ++ "." ++ n))
  /\ (forall f1 f2 v,
        In f1 (sc_fields st) -> In f2 (sc_fields st) ->
        table_get (sc_fieldMapping (scan_step st codeline)) (s ++ "." ++ f1) = Some v ->
        table_get (sc_fieldMapping (scan_step st codeline)) (s ++ "." ++ f2) = Some v ->
        f1 = f2).
Proof.
  intros Hst Hc _. rewrite (scan_step_close _ _ _ Hst Hc). cbn [sc_fieldMapping].
  split; [apply length_generatedNames|]. split; [apply generatedNames_NoDup|]. split.
  - intros f Hf. destruct (last_occurrence _ _ Hf) as (i & Hi & Hlast).
    exists (nameOf i). split.
    + rewrite generatedNames_closed_form. apply in_map, in_seq.
      assert (i < List.length (sc_fields st)) by (apply nth_error_Some; congruence). lia.
    + rewrite (assignFieldNames_last _ _ _ _ _ _ Hi Hlast), iter_nextFieldName.
      reflexivity.
  - intros f1 f2 v Hf1 Hf2 H1 H2.
    destruct (last_occurrence _ _ Hf1) as (i1 & Hi1 & Hlast1).
    destruct (last_occurrence _ _ Hf2) as (i2 & Hi2 & Hlast2).
    rewrite (assignFieldNames_last _ _ _ _ _ _ Hi1 Hlast1), iter_nextFieldName in H1.
    rewrite (assignFieldNames_last _ _ _ _ _ _ Hi2 Hlast2), iter_nextFieldName in H2.
    rewrite <- H2 in H1. injection H1 as H1. apply key_inj, nameOf_inj in H1.
    subst i2. congruence.
Qed.

Lemma short_names_are_distinct_witness :
  List.length (generatedNames 2 "a") = 2
  /\ NoDup (generatedNames 2 "a")
  /\ (forall f, In f ["intensity"; "color"] ->
       exists n, In n (generatedNames 2 "a")
                 /\ table_get
                      (sc_fieldMapping
                         (scan_step
                            (fold_left scan_step
                               ["uniform Light"; "{"; "float intensity;"; "vec3 color;"]
                               scan_init)
                            "} lightBlock;"))
                      ("lightBlock" ++ "." ++ f)
                    = Some ("lightBlock" ++ "." ++ n))
  /\ (forall f1 f2 v,
        In f1 ["intensity"; "color"] -> In f2 ["intensity"; "color"] ->
        table_get
          (sc_fieldMapping
             (scan_step
                (fold_left scan_step
                   ["uniform Light"; "{"; "float intensity;"; "vec3 color;"] scan_init)
                "} lightBlock;"))
          ("lightBlock" ++ "." ++ f1) = Some v ->
        table_get
          (sc_fieldMapping
             (scan_step
                (fold_left scan_step
                   ["uniform Light"; "{"; "float intensity;"; "vec3 color;"] scan_init)
                "} lightBlock;"))
          ("lightBlock" ++ "." ++ f2) = Some v ->
        f1 = f2).
Proof.
  apply (short_names_are_distinct
           (fold_left scan_step ["uniform Light"; "{"; "float intensity;"; "vec3 color;"]
              scan_init)
           "} lightBlock;" "lightBlock").
  - reflexivity.
  - reflexivity.
  - vm_compute. lia.
Defined.

End NamesFacts.

(** ** The line scanner on identifiers *)

Module ScannerFacts.
Import Str Scanner StrFacts.

Lemma isIdCharNondigit_isIdChar (c : ascii) :
  isIdCharNondigit c = true -> isIdChar c = true.
Proof. intros H. unfold isIdChar. rewrite H. reflexivity. Qed.

Lemma isIdentifier_allIdChars (id : string) :
  isIdentifier id = true -> allIdChars id = true.
Proof.
  destruct id as [|c id]; [discriminate|]. cbn [isIdentifier allIdChars].
  intros H. apply andb_true_iff in H. destruct H as [Hc Hr].
  rewrite (isIdCharNondigit_isIdChar _ Hc), Hr. reflexivity.
Qed.

Lemma mem_allIdChars (c : ascii) (s : string) :
  isIdChar c = false -> allIdChars s = true -> mem c s = false.
Proof.
  intros Hc. induction s as [|d s IH]; [reflexivity|]. cbn [allIdChars mem].
  intros H. apply andb_true_iff in H. destruct H as [Hd Hs].
  rewrite (IH Hs), orb_false_r.
  destruct (Ascii.eqb_spec c d) as [-> | _]; [congruence|reflexivity].
Qed.

Lemma skipIdChars_run (rest : string) :
  forall (a b : string) (fuel : nat),
    allIdChars rest = true ->
    endsIdentifier b = true ->
    String.length rest <= fuel ->
    skipIdChars fuel (a ++ rest ++ b) (String.length a)
    = String.length a + String.length rest.
Proof.
  induction rest as [|c rest IH]; intros a b fuel Hrest Hb Hf.
  - cbn [append String.length]. rewrite Nat.add_0_r.
    destruct fuel as [|fuel]; [reflexivity|]. cbn [skipIdChars].
    rewrite get_app_r0. destruct b as [|d b]; [reflexivity|].
    cbn [get]. cbn [endsIdentifier] in Hb.
    destruct (isIdChar d); [discriminate|reflexivity].
  - destruct fuel as [|fuel]; [cbn [String.length] in Hf; lia|].
    cbn [allIdChars] in Hrest. apply andb_true_iff in Hrest. destruct Hrest as [Hc Hrest].
    cbn [skipIdChars append]. rewrite get_app_r0. cbn [get]. rewrite Hc.
    rewrite (append_snoc a c), <- (length_snoc a c).
    rewrite IH by (auto; cbn [String.length] in Hf; lia).
    rewrite length_snoc. cbn [String.length]. lia.
Qed.

(** The loop stops at the end of the line: more rounds change nothing. *)
Lemma skipIdChars_more_fuel (line : string) (fuel : nat) :
  forall (index extra : nat),
    String.length line - index <= fuel ->
    skipIdChars (fuel + extra) line index = skipIdChars fuel line index.
Proof.
  induction fuel as [|fuel IH]; intros index extra Hf.
  - cbn [Nat.add skipIdChars]. destruct extra; [reflexivity|].
    cbn [skipIdChars]. rewrite get_none by lia. reflexivity.
  - cbn [Nat.add skipIdChars]. destruct (get index line) as [c|] eqn:E; [|reflexivity].
    destruct (isIdChar c); [|reflexivity]. apply IH.
    pose proof (get_lt _ _ _ E). lia.
Qed.

(** An identifier that stands at the index and ends there is consumed
    whole. *)
Lemma consumeIdentifier_app (a id b : string) :
  isIdentifier id = true ->
  endsIdentifier b = true ->
  consumeIdentifier (a ++ id ++ b) (String.length a)
  = Some (id, String.length a + String.length id).
Proof.
  intros Hid Hb. destruct id as [|c id]; [discriminate|].
  cbn [isIdentifier] in Hid. apply andb_true_iff in Hid. destruct Hid as [Hc Hid].
  unfold consumeIdentifier. rewrite get_app_r0. cbn [append get]. rewrite Hc. cbn [negb].
  assert (Hskip : skipIdChars
                    (String.length (a ++ String c (id ++ b)) - S (String.length a))
                    (a ++ String c (id ++ b)) (S (String.length a))
                  = String.length a + S (String.length id)).
  { rewrite (append_snoc a c), <- (length_snoc a c).
    rewrite skipIdChars_run; [rewrite length_snoc; lia | assumption | assumption |].
    rewrite !length_append. cbn [String.length]. lia. }
  rewrite Hskip. cbn [String.length]. f_equal. f_equal.
  unfold substr.
  replace (String.length a + S (String.length id) - String.length a)
    with (String.length (String c id)) by (cbn [String.length]; lia).
  exact (substring_app_mid a (String c id) b).
Qed.

Lemma skipIdChars_before (line : string) (fuel : nat) :
  forall i,
    (exists c, get i line = Some c /\ isIdChar c = true) ->
    exists c, get (pred (skipIdChars fuel line (S i))) line = Some c /\ isIdChar c = true.
Proof.
  induction fuel as [|fuel IH]; intros i Hi; [exact Hi|].
  cbn [skipIdChars]. destruct (get (S i) line) as [c|] eqn:E; [|exact Hi].
  destruct (isIdChar c) eqn:Ec; [|exact Hi].
  apply IH. exists c. auto.
Qed.

(** An identifier that is consumed up to the end of the line makes the
    line end in an identifier character. *)
Lemma consumeIdentifier_to_end (line id : string) (pindex : nat) :
  consumeIdentifier line pindex = Some (id, String.length line) ->
  exists c, last_char line = Some c /\ isIdChar c = true.
Proof.
  unfold consumeIdentifier. destruct (get pindex line) as [c|] eqn:E; [|discriminate].
  destruct (isIdCharNondigit c) eqn:Ec; [|discriminate]. cbn [negb].
  intros H. injection H as _ Hidx.
  rewrite last_char_get, <- Hidx.
  apply skipIdChars_before. exists c. split; [assumption|].
  apply isIdCharNondigit_isIdChar. assumption.
Qed.

End ScannerFacts.

(** ** The minifier on a block of the expected shape *)

Module MinifierFacts.
Import Str Scanner Minifier StrFacts ScannerFacts NamesFacts.

(** *** The tests of the state machine on the lines of a block *)

Lemma consumeString_prefix (p s : string) :
  consumeString (p ++ s) 0 p = Some (String.length p).
Proof. unfold consumeString, find. rewrite index_0_prefix. reflexivity. Qed.

Lemma parseStructOpen_openLine (typeId : string) :
  isIdentifier typeId = true -> parseStructOpen (openLine typeId) = Some typeId.
Proof.
  intros Hid. unfold parseStructOpen, openLine. rewrite consumeString_prefix.
  rewrite <- (append_nil_r typeId) at 1.
  rewrite consumeIdentifier_app by auto.
  rewrite length_append, Nat.eqb_refl. reflexivity.
Qed.

Lemma parseStructOpen_statement (l : string) :
  isStatementLine l = true -> parseStructOpen l = None.
Proof.
  unfold isStatementLine, parseStructOpen. intros H.
  apply andb_true_iff in H. destruct H as [_ H].
  destruct (consumeString l 0 "uniform ") as [index|]; [|reflexivity].
  destruct (consumeIdentifier l index) as [[typeId index']|] eqn:E; [|reflexivity].
  destruct (Nat.eqb_spec index' (String.length l)) as [-> | _]; [|reflexivity].
  destruct (consumeIdentifier_to_end _ _ _ E) as (c & Hc & Hid).
  rewrite Hc, Hid in H. discriminate.
Qed.

Lemma parseStructClose_closeLine (structName : string) :
  isIdentifier structName = true ->
  parseStructClose (closeLine structName) = Close structName.
Proof.
  intros Hid. unfold parseStructClose, closeLine. rewrite consumeString_prefix.
  rewrite consumeIdentifier_app by auto.
  assert (Hfind : index (String.length "} " + String.length structName) ";"
                    ("} " ++ structName ++ ";")
                  = Some (String.length "} " + String.length structName)).
  { pose proof (index_at_app ("} " ++ structName) ";" "") as H.
    rewrite length_append, append_assoc in H. exact H. }
  unfold consumeString, find. rewrite Hfind.
  rewrite !length_append. cbn [String.length].
  destruct (Nat.eqb_spec (2 + String.length structName + 1)
              (2 + (String.length structName + 1))); [reflexivity|lia].
Qed.

Lemma fieldLine_no_brace (typeId fieldId : string) :
  isIdentifier typeId = true ->
  isIdentifier fieldId = true ->
  mem "}" (fieldLine typeId fieldId) = false.
Proof.
  intros Ht Hf. unfold fieldLine. rewrite !mem_append.
  rewrite (mem_allIdChars "}" typeId), (mem_allIdChars "}" fieldId);
    auto using isIdentifier_allIdChars.
Qed.

Lemma parseStructClose_fieldLine (typeId fieldId : string) :
  isIdentifier typeId = true ->
  isIdentifier fieldId = true ->
  parseStructClose (fieldLine typeId fieldId) = NotClose.
Proof.
  intros Ht Hf. unfold parseStructClose, consumeString, find.
  rewrite (index_no_char "}"); auto using fieldLine_no_brace.
Qed.

Lemma parseFieldDecl_fieldLine (typeId fieldId : string) :
  isIdentifier typeId = true ->
  isIdentifier fieldId = true ->
  parseFieldDecl (fieldLine typeId fieldId) = Some (typeId, fieldId).
Proof.
  intros Ht Hf. unfold parseFieldDecl, fieldLine.
  pose proof (consumeIdentifier_app "" typeId (" " ++ fieldId ++ ";") Ht eq_refl) as H1.
  cbn [append String.length Nat.add] in H1 |- *. rewrite H1.
  unfold view_is. rewrite get_app_r0. cbn [append get negb Ascii.eqb Bool.eqb].
  pose proof (consumeIdentifier_app (typeId ++ " ") fieldId ";" Hf eq_refl) as H2.
  rewrite length_append in H2. cbn [String.length] in H2.
  rewrite Nat.add_1_r in H2. rewrite append_assoc in H2. cbn [append] in H2.
  rewrite H2.
  replace (typeId ++ String " " (fieldId ++ ";"))
    with ((typeId ++ " " ++ fieldId) ++ ";")
    by (rewrite !append_assoc; reflexivity).
  replace (S (String.length typeId) + String.length fieldId)
    with (String.length (typeId ++ " " ++ fieldId))
    by (rewrite !length_append; cbn [String.length]; lia).
  rewrite get_app_r0. cbn [get negb Ascii.eqb Bool.eqb].
  rewrite !length_append. cbn [String.length].
  match goal with
  | |- context [Nat.eqb ?x ?y] => destruct (Nat.eqb_spec x y); [reflexivity|lia]
  end.
Qed.

(** *** Splitting a text into lines *)

Lemma splitLines_loop_unlines (ls : list string) :
  forall (pre : string) (acc : list string) (fuel : nat),
    Forall isLine ls ->
    String.length (unlines ls) <= fuel ->
    splitLines_loop fuel (pre ++ unlines ls) (String.length pre) acc = (acc ++ ls)%list.
Proof.
  induction ls as [|l ls IH]; intros pre acc fuel Hls Hf.
  - cbn [unlines]. rewrite append_nil_r, app_nil_r.
    destruct fuel; cbn [splitLines_loop]; [reflexivity|].
    rewrite Nat.ltb_irrefl. reflexivity.
  - inversion Hls as [|? ? [Hne Hnl] Hls']; subst.
    assert (Hl : 1 <= String.length l) by (destruct l; [congruence|cbn; lia]).
    cbn [unlines] in *. unfold nl in *. cbn [append] in *.
    rewrite !length_append in Hf. cbn [String.length] in Hf.
    destruct fuel as [|fuel]; [lia|]. cbn [splitLines_loop].
    destruct (Nat.ltb_spec (String.length pre)
                (String.length (pre ++ l ++ String newline (unlines ls)))) as [_|Hge];
      [|rewrite !length_append in Hge; cbn [String.length] in Hge; lia].
    rewrite <- (Nat.add_0_r (String.length pre)) at 1.
    rewrite find_first_of_app_r, find_first_of_skip by assumption. cbn [option_map].
    destruct (Nat.eqb_spec (String.length pre) (String.length pre + String.length l));
      [lia|]. cbn [negb].
    unfold substr.
    replace (String.length pre + String.length l - String.length pre)
      with (String.length l) by lia.
    rewrite substring_app_mid.
    replace (pre ++ l ++ String newline (unlines ls))
      with ((pre ++ l ++ String newline "") ++ unlines ls)
      by (rewrite !append_assoc; reflexivity).
    replace (S (String.length pre + String.length l))
      with (String.length (pre ++ l ++ String newline ""))
      by (rewrite !length_append; cbn [String.length]; lia).
    rewrite IH by (auto; lia). rewrite <- app_assoc. reflexivity.
Qed.

Lemma find_first_of_bound (s : string) (c : ascii) :
  forall n m, find_first_of s c n = Some m -> n <= m /\ m < String.length s.
Proof.
  induction s as [|d s IH]; intros n m H; [discriminate|].
  cbn [find_first_of String.length] in *. destruct n as [|n].
  - destruct (Ascii.eqb d c); [injection H as <-; lia|].
    destruct (find_first_of s c 0) as [k|] eqn:E; [|discriminate].
    injection H as <-. apply IH in E. lia.
  - destruct (find_first_of s c n) as [k|] eqn:E; [|discriminate].
    injection H as <-. apply IH in E. lia.
Qed.

(** The splitting loop ends within [length sv] rounds: more rounds change
    nothing. *)
Lemma splitLines_loop_more_fuel (sv : string) (fuel : nat) :
  forall (first extra : nat) (acc : list string),
    String.length sv - first <= fuel ->
    splitLines_loop (fuel + extra) sv first acc = splitLines_loop fuel sv first acc.
Proof.
  induction fuel as [|fuel IH]; intros first extra acc Hf.
  - cbn [Nat.add splitLines_loop]. destruct extra; [reflexivity|].
    cbn [splitLines_loop].
    destruct (Nat.ltb_spec first (String.length sv)); [lia|reflexivity].
  - cbn [Nat.add splitLines_loop].
    destruct (Nat.ltb_spec first (String.length sv)); [|reflexivity].
    destruct (find_first_of sv newline first) as [second|] eqn:E; [|reflexivity].
    apply IH. apply find_first_of_bound in E. lia.
Qed.

Lemma splitLines_more_fuel (source : string) (extra : nat) :
  splitLines_loop (String.length source + extra) source 0 [] = splitLines source.
Proof. apply splitLines_loop_more_fuel. lia. Qed.

Lemma splitLines_unlines (ls : list string) :
  Forall isLine ls -> splitLines (unlines ls) = ls.
Proof.
  intros Hls. unfold splitLines.
  exact (splitLines_loop_unlines ls "" [] _ Hls (Nat.le_refl _)).
Qed.

Lemma isLine_statement (l : string) : isStatementLine l = true -> isLine l.
Proof.
  unfold isStatementLine. intros H. apply andb_true_iff in H. destruct H as [Hnl Hlast].
  split.
  - intros ->. discriminate.
  - destruct (mem newline l); [discriminate|reflexivity].
Qed.

Lemma newline_not_idChar : isIdChar newline = false.
Proof. reflexivity. Qed.

Lemma isLine_identifier_text (a id b : string) :
  mem newline a = false -> isIdentifier id = true -> mem newline b = false ->
  isLine (a ++ id ++ b).
Proof.
  intros Ha Hid Hb. split.
  - destruct id as [|c id]; [discriminate|]. destruct a; discriminate.
  - rewrite !mem_append, Ha, Hb.
    rewrite (mem_allIdChars newline id newline_not_idChar (isIdentifier_allIdChars _ Hid)).
    reflexivity.
Qed.

Lemma isLine_fieldLine (typeId fieldId : string) :
  isIdentifier typeId = true -> isIdentifier fieldId = true ->
  isLine (fieldLine typeId fieldId).
Proof.
  intros Ht Hf. unfold fieldLine.
  apply (isLine_identifier_text "" typeId (" " ++ fieldId ++ ";")); auto.
  rewrite !mem_append.
  rewrite (mem_allIdChars newline fieldId newline_not_idChar (isIdentifier_allIdChars _ Hf)).
  reflexivity.
Qed.

Lemma isBlock_inv (typeId : string) (fields : list (string * string)) (structName : string) :
  isBlock typeId fields structName = true ->
  isIdentifier typeId = true /\ isIdentifier structName = true
  /\ Forall (fun tf => isIdentifier (fst tf) = true /\ isIdentifier (snd tf) = true) fields.
Proof.
  unfold isBlock. intros H. apply andb_true_iff in H. destruct H as [H Hf].
  apply andb_true_iff in H. destruct H as [Ht Hs]. repeat split; auto.
  apply Forall_forall. intros tf Hin. rewrite forallb_forall in Hf.
  specialize (Hf tf Hin). apply andb_true_iff in Hf. exact Hf.
Qed.

Lemma isLine_blockLines (typeId : string) (fields : list (string * string))
    (structName : string) :
  isBlock typeId fields structName = true ->
  Forall isLine (blockLines typeId fields structName).
Proof.
  intros H. destruct (isBlock_inv _ _ _ H) as (Ht & Hs & Hf).
  unfold blockLines. constructor.
  { unfold openLine. rewrite <- (append_nil_r typeId).
    apply (isLine_identifier_text "uniform " typeId ""); auto. }
  constructor. { split; [discriminate|reflexivity]. }
  apply Forall_app. split.
  - unfold fieldLines. rewrite Forall_map. eapply Forall_impl; [|exact Hf].
    intros [ty f] [H1 H2]. apply isLine_fieldLine; assumption.
  - constructor; [|constructor]. unfold closeLine.
    apply (isLine_identifier_text "} " structName ";"); auto.
Qed.

(** *** The scan pass *)

Lemma scan_statements (ls : list string) (st : scan_state) :
  Forall (fun l => isStatementLine l = true) ls ->
  sc_state st = OUTSIDE ->
  fold_left scan_step ls st = st.
Proof.
  intros Hls Hst. induction Hls as [|l ls Hl _ IH]; [reflexivity|].
  cbn [fold_left]. unfold scan_step at 2. rewrite Hst, (parseStructOpen_statement _ Hl).
  exact IH.
Qed.

Lemma scan_fields (fields : list (string * string)) :
  forall (cur : string) (fs : list string) (m c : table),
    Forall (fun tf => isIdentifier (fst tf) = true /\ isIdentifier (snd tf) = true) fields ->
    fold_left scan_step (fieldLines fields) (mkScan STRUCT_DEFN cur fs m c)
    = mkScan STRUCT_DEFN cur (fs ++ map snd fields)%list m c.
Proof.
  induction fields as [|[ty f] fields IH]; intros cur fs m c Hf.
  - cbn [fieldLines map fold_left]. rewrite app_nil_r. reflexivity.
  - inversion Hf as [|? ? [Hty Hfd] Hf']; subst. cbn [fst snd] in *.
    cbn [fieldLines map fold_left fst snd]. unfold scan_step at 2. cbn [sc_state].
    rewrite (parseStructClose_fieldLine _ _ Hty Hfd), (parseFieldDecl_fieldLine _ _ Hty Hfd).
    cbn [sc_currentStruct sc_fields sc_fieldMapping sc_currentStructToName].
    change (map (fun tf => fieldLine (fst tf) (snd tf)) fields) with (fieldLines fields).
    rewrite IH by assumption. rewrite <- app_assoc. reflexivity.
Qed.

Lemma scan_block (typeId : string) (fields : list (string * string)) (structName : string)
    (cur : string) (m c : table) :
  isBlock typeId fields structName = true ->
  fold_left scan_step (blockLines typeId fields structName) (mkScan OUTSIDE cur [] m c)
  = mkScan OUTSIDE typeId []
      (assignFieldNames structName (map snd fields) "a" m)
      (table_set c typeId structName).
Proof.
  intros H. destruct (isBlock_inv _ _ _ H) as (Ht & Hs & Hf).
  unfold blockLines. cbn [fold_left]. unfold scan_step at 3. cbn [sc_state].
  rewrite (parseStructOpen_openLine _ Ht).
  cbn [sc_fields sc_fieldMapping sc_currentStructToName].
  unfold scan_step at 2. cbn [sc_state].
  change (nextState_STRUCT_OPEN "{") with STRUCT_DEFN.
  cbn [sc_currentStruct sc_fields sc_fieldMapping sc_currentStructToName].
  rewrite fold_left_app, (scan_fields _ _ _ _ _ Hf). cbn [fold_left app].
  rewrite (scan_step_close (mkScan STRUCT_DEFN typeId (map snd fields) m c) _
             structName eq_refl (parseStructClose_closeLine _ Hs)).
  reflexivity.
Qed.

(** *** The table of a block *)

Lemma table_get_app (m m' : table) (k : string) :
  table_get (m ++ m')%list k
  = match table_get m k with Some v => Some v | None => table_get m' k end.
Proof.
  induction m as [|[k0 v0] m IH]; [reflexivity|]. cbn [app table_get].
  destruct (String.eqb k k0); [reflexivity|exact IH].
Qed.

Lemma table_set_fresh (m : table) (k v : string) :
  table_get m k = None -> table_set m k v = (m ++ [(k, v)])%list.
Proof.
  induction m as [|[k0 v0] m IH]; [reflexivity|]. cbn [table_get table_set app].
  destruct (String.eqb k k0); [discriminate|]. intros H. rewrite (IH H). reflexivity.
Qed.

Lemma table_index_present (m : table) (k v : string) :
  table_get m k = Some v -> table_index m k = (v, m).
Proof. intros H. unfold table_index. rewrite H. reflexivity. Qed.

Lemma assignFieldNames_fresh (structName : string) (fieldIds : list string) :
  forall (k : nat) (m : table),
    NoDup fieldIds ->
    (forall f, In f fieldIds -> table_get m (structName ++ "." ++ f) = None) ->
    assignFieldNames structName fieldIds (nameOf k) m
    = (m ++ tableFrom k structName fieldIds)%list.
Proof.
  induction fieldIds as [|f fieldIds IH]; intros k m Hnd Hfresh.
  - cbn [assignFieldNames tableFrom]. rewrite app_nil_r. reflexivity.
  - inversion Hnd as [|? ? Hnotin Hnd']; subst.
    cbn [assignFieldNames tableFrom].
    rewrite table_set_fresh by (apply Hfresh; left; reflexivity).
    rewrite nextFieldName_nameOf, IH; [rewrite <- app_assoc; reflexivity | assumption |].
    intros f' Hin. rewrite table_get_app, Hfresh by (right; exact Hin).
    cbn [table_get].
    destruct (String.eqb_spec (structName ++ "." ++ f') (structName ++ "." ++ f)) as [E|_];
      [|reflexivity].
    apply key_inj in E. subst f'. contradiction.
Qed.

Lemma assignFieldNames_blockTable (structName : string) (fields : list (string * string)) :
  NoDup (map snd fields) ->
  assignFieldNames structName (map snd fields) "a" [] = blockTable structName fields.
Proof.
  intros Hnd. exact (assignFieldNames_fresh structName (map snd fields) 0 [] Hnd
                       (fun _ _ => eq_refl)).
Qed.

Lemma tableFrom_get (structName : string) (fieldIds : list string) :
  forall (k i : nat) (f : string),
    NoDup fieldIds ->
    nth_error fieldIds i = Some f ->
    table_get (tableFrom k structName fieldIds) (structName ++ "." ++ f)
    = Some (structName ++ "." ++ nameOf (k + i)).
Proof.
  induction fieldIds as [|f0 fieldIds IH]; intros k i f Hnd Hi.
  - destruct i; discriminate.
  - inversion Hnd as [|? ? Hnotin Hnd']; subst. cbn [tableFrom table_get].
    destruct i as [|i].
    + injection Hi as ->. rewrite String.eqb_refl, Nat.add_0_r. reflexivity.
    + cbn [nth_error] in Hi.
      destruct (String.eqb_spec (structName ++ "." ++ f) (structName ++ "." ++ f0)) as [E|_].
      * apply key_inj in E. subst f0. exfalso. apply Hnotin.
        exact (nth_error_In _ _ Hi).
      * rewrite (IH (S k) i f Hnd' Hi).
        replace (S k + i) with (k + S i) by lia. reflexivity.
Qed.

(** *** The rewrite pass *)

Lemma unlines_app (ls ls' : list string) :
  unlines (ls ++ ls')%list = unlines ls ++ unlines ls'.
Proof.
  induction ls as [|l ls IH]; [reflexivity|]. cbn [app unlines].
  rewrite IH, !append_assoc. reflexivity.
Qed.

Lemma index_first_char (c : ascii) (a b : string) :
  mem c a = false -> index 0 (String c "") (a ++ String c b) = Some (String.length a).
Proof.
  induction a as [|d a IH]; intros Ha.
  - apply (index_0_prefix (String c "") b).
  - apply mem_cons_false in Ha. destruct Ha as [Hd Ha].
    cbn [append]. rewrite index_cons_0. cbn [prefix].
    destruct (ascii_dec c d) as [-> | _]; [rewrite Ascii.eqb_refl in Hd; discriminate|].
    rewrite (IH Ha). reflexivity.
Qed.

Lemma afterDot_key (structName n : string) :
  mem "." structName = false -> afterDot (structName ++ "." ++ n) = n.
Proof.
  intros H. unfold afterDot, find. cbn [append].
  rewrite (index_first_char "." structName n H).
  replace (structName ++ String "." n) with ((structName ++ ".") ++ n)
    by (rewrite append_assoc; reflexivity).
  rewrite <- (length_snoc structName "."). apply substr_from_app.
Qed.

Lemma identifier_no_dot (id : string) : isIdentifier id = true -> mem "." id = false.
Proof. intros H. apply mem_allIdChars; [reflexivity|]. apply isIdentifier_allIdChars, H. Qed.

Section RewritePass.
Variable iteration : table -> table.

Lemma rewrite_statements (ls : list string) :
  forall (cur : string) (m c : table) (res : string),
    Forall (fun l => isStatementLine l = true) ls ->
    fold_left (rewrite_step iteration) ls (mkRewrite OUTSIDE cur m c res)
    = mkRewrite OUTSIDE cur m c (res ++ unlines (map (applyMapping iteration m) ls)).
Proof.
  induction ls as [|l ls IH]; intros cur m c res Hls.
  - cbn [map unlines fold_left]. rewrite append_nil_r. reflexivity.
  - inversion Hls as [|? ? Hl Hls']; subst. cbn [fold_left map unlines].
    unfold rewrite_step at 2. cbn [rw_state]. rewrite (parseStructOpen_statement _ Hl).
    unfold emit. cbn [rw_currentStruct rw_fieldMapping rw_currentStructToName rw_result].
    rewrite IH by assumption. rewrite !append_assoc. reflexivity.
Qed.

Lemma rewrite_fields (structName : string) (fields : list (string * string)) :
  forall (k : nat) (cur : string) (m c : table) (res : string),
    mem "." structName = false ->
    table_get c cur = Some structName ->
    Forall (fun tf => isIdentifier (fst tf) = true /\ isIdentifier (snd tf) = true) fields ->
    (forall i tf, nth_error fields i = Some tf ->
       table_get m (structName ++ "." ++ snd tf)
       = Some (structName ++ "." ++ nameOf (k + i))) ->
    fold_left (rewrite_step iteration) (fieldLines fields)
      (mkRewrite STRUCT_DEFN cur m c res)
    = mkRewrite STRUCT_DEFN cur m c
        (res ++ unlines (fieldLines (renameFrom k fields))).
Proof.
  induction fields as [|[ty f] fields IH]; intros k cur m c res Hdot Hc Hf Hget.
  - cbn [fieldLines renameFrom map unlines fold_left]. rewrite append_nil_r. reflexivity.
  - inversion Hf as [|? ? [Hty Hfd] Hf']; subst. cbn [fst snd] in *.
    cbn [fieldLines renameFrom map unlines fold_left fst snd].
    unfold rewrite_step at 2. cbn [rw_state].
    rewrite (parseStructClose_fieldLine _ _ Hty Hfd), (parseFieldDecl_fieldLine _ _ Hty Hfd).
    cbn [rw_currentStruct rw_fieldMapping rw_currentStructToName rw_result].
    rewrite (table_index_present _ _ _ Hc).
    pose proof (Hget 0 (ty, f) eq_refl) as H0. cbn [snd] in H0. rewrite Nat.add_0_r in H0.
    rewrite (table_index_present _ _ _ H0), (afterDot_key _ _ Hdot).
    unfold emit. cbn [rw_result].
    change (map (fun tf => fieldLine (fst tf) (snd tf)) fields) with (fieldLines fields).
    rewrite (IH (S k)); try assumption.
    + change (map (fun tf => fieldLine (fst tf) (snd tf)) (renameFrom (S k) fields))
        with (fieldLines (renameFrom (S k) fields)).
      unfold fieldLine. rewrite !append_assoc. reflexivity.
    + intros i tf Hi. rewrite (Hget (S i) tf Hi).
      replace (k + S i) with (S k + i) by lia. reflexivity.
Qed.

Lemma rewrite_block (typeId : string) (fields : list (string * string))
    (structName cur : string) (m c : table) (res : string) :
  isBlock typeId fields structName = true ->
  table_get c typeId = Some structName ->
  (forall i tf, nth_error fields i = Some tf ->
     table_get m (structName ++ "." ++ snd tf) = Some (structName ++ "." ++ nameOf i)) ->
  fold_left (rewrite_step iteration) (blockLines typeId fields structName)
    (mkRewrite OUTSIDE cur m c res)
  = mkRewrite OUTSIDE typeId m c
      (res ++ unlines (blockLines typeId (renameFrom 0 fields) structName)).
Proof.
  intros H Hc Hget. destruct (isBlock_inv _ _ _ H) as (Ht & Hs & Hf).
  unfold blockLines. cbn [fold_left]. unfold rewrite_step at 3. cbn [rw_state].
  rewrite (parseStructOpen_openLine _ Ht). unfold emit at 1.
  cbn [rw_currentStruct rw_fieldMapping rw_currentStructToName rw_result].
  unfold rewrite_step at 2. cbn [rw_state].
  change (nextState_STRUCT_OPEN "{") with STRUCT_DEFN. unfold emit at 1.
  cbn [rw_currentStruct rw_fieldMapping rw_currentStructToName rw_result].
  rewrite fold_left_app.
  rewrite (rewrite_fields structName fields 0 typeId m c _
             (identifier_no_dot _ Hs) Hc Hf Hget).
  cbn [fold_left]. unfold rewrite_step. cbn [rw_state].
  rewrite (parseStructClose_closeLine _ Hs). unfold emit.
  cbn [rw_currentStruct rw_fieldMapping rw_currentStructToName rw_result].
  f_equal. cbn [unlines]. rewrite unlines_app. cbn [unlines].
  rewrite !append_assoc. reflexivity.
Qed.

(** The minifier on a block between statement lines: the lines of the
    block keep their types and get the generated names, and every line
    around it goes through the table once. *)
Lemma minify_block (typeId : string) (fields : list (string * string))
    (structName : string) (before after : list string) :
  isBlock typeId fields structName = true ->
  NoDup (map snd fields) ->
  Forall (fun l => isStatementLine l = true) before ->
  Forall (fun l => isStatementLine l = true) after ->
  minifyStructFields iteration
    (unlines (before ++ blockLines typeId fields structName ++ after)%list)
  = unlines (map (applyMapping iteration (blockTable structName fields)) before
             ++ blockLines typeId (renameFrom 0 fields) structName
             ++ map (applyMapping iteration (blockTable structName fields)) after)%list.
Proof.
  intros Hb Hnd Hbefore Hafter. unfold minifyStructFields.
  rewrite splitLines_unlines.
  2:{ apply Forall_app. split; [|apply Forall_app; split].
      - eapply Forall_impl; [|exact Hbefore]. apply isLine_statement.
      - apply isLine_blockLines. assumption.
      - eapply Forall_impl; [|exact Hafter]. apply isLine_statement. }
  unfold scan. rewrite !fold_left_app.
  rewrite (scan_statements before scan_init Hbefore eq_refl).
  unfold scan_init. rewrite (scan_block _ _ _ _ _ _ Hb).
  rewrite (scan_statements after (mkScan OUTSIDE typeId [] _ _) Hafter eq_refl).
  cbn [sc_currentStruct sc_fieldMapping sc_currentStructToName table_set].
  rewrite (assignFieldNames_blockTable _ _ Hnd).
  rewrite (rewrite_statements before _ _ _ _ Hbefore).
  rewrite (rewrite_block typeId fields structName _ _ _ _ Hb).
  - rewrite (rewrite_statements after _ _ _ _ Hafter). cbn [rw_result append].
    rewrite !unlines_app, !append_assoc. reflexivity.
  - cbn [table_get]. rewrite String.eqb_refl. reflexivity.
  - intros i tf Hi. unfold blockTable.
    apply (tableFrom_get structName (map snd fields) 0 i (snd tf) Hnd).
    rewrite nth_error_map, Hi. reflexivity.
Qed.

End RewritePass.

End MinifierFacts.

(** ** replaceAll *)

Module ReplaceFacts.
Import Str Scanner StrFacts ScannerFacts.

(** One round of the loop, seen on the text around the occurrence found. *)
Lemma replaceAll_loop_step (fuel : nat) (l k v : string) (n m : nat) :
  find l k n = Some m ->
  exists a b,
    l = a ++ k ++ b /\ String.length a = m /\ n <= m
    /\ replaceAll_loop (S fuel) l k v n
       = replaceAll_loop fuel (a ++ v ++ b) k v (String.length a + String.length v).
Proof.
  intros H. unfold find in H.
  destruct (index_split _ _ _ _ H) as (a & b & -> & <- & Hle).
  exists a, b. repeat split; [assumption|].
  cbn [replaceAll_loop]. unfold find. rewrite H, replace_split. reflexivity.
Qed.

(** With a non-empty pattern the loop ends within the rounds it is given:
    more rounds change nothing. *)
Lemma replaceAll_loop_more_fuel (k v : string) (fuel : nat) :
  forall (l : string) (n extra : nat),
    k <> "" ->
    String.length l - n < fuel ->
    replaceAll_loop (fuel + extra) l k v n = replaceAll_loop fuel l k v n.
Proof.
  induction fuel as [|fuel IH]; intros l n extra Hk Hf; [lia|].
  change (S fuel + extra) with (S (fuel + extra)).
  destruct (find l k n) as [m|] eqn:E.
  - destruct (replaceAll_loop_step (fuel + extra) l k v n m E)
      as (a & b & -> & <- & Hle & ->).
    destruct (replaceAll_loop_step fuel (a ++ k ++ b) k v n _ E)
      as (a' & b' & E' & Hlen & _ & ->).
    assert (Ha : a' = a /\ b' = b).
    { assert (H1 : substring 0 (String.length a) (a ++ k ++ b) = a) by apply substring_0_app.
      rewrite E', <- Hlen, substring_0_app in H1. subst a'.
      apply append_inv_head in E'. apply append_inv_head in E'. auto. }
    destruct Ha as [-> ->].
    apply IH; [assumption|].
    assert (1 <= String.length k) by (destruct k; [congruence|cbn; lia]).
    rewrite !length_append in *. lia.
  - cbn [replaceAll_loop]. rewrite E. reflexivity.
Qed.

Lemma replaceAll_more_fuel (l k v : string) (extra : nat) :
  k <> "" ->
  replaceAll_loop (S (String.length l) + extra) l k v 0 = replaceAll l k v.
Proof. intros Hk. apply replaceAll_loop_more_fuel; [assumption|lia]. Qed.

(** A pattern that does not occur changes nothing. *)
Lemma replaceAll_absent (l k v : string) :
  index 0 k l = None -> replaceAll l k v = l.
Proof. intros H. unfold replaceAll. cbn [replaceAll_loop]. unfold find. rewrite H. reflexivity. Qed.

(** Replacing a text by itself changes nothing. *)
Lemma replaceAll_loop_same (k : string) (fuel : nat) :
  forall (l : string) (n : nat), replaceAll_loop fuel l k k n = l.
Proof.
  induction fuel as [|fuel IH]; intros l n; [reflexivity|].
  destruct (find l k n) as [m|] eqn:E.
  - destruct (replaceAll_loop_step fuel l k k n m E) as (a & b & -> & _ & _ & ->).
    apply IH.
  - cbn [replaceAll_loop]. rewrite E. reflexivity.
Qed.

Lemma replaceAll_same (l k : string) : replaceAll l k k = l.
Proof. apply replaceAll_loop_same. Qed.

(** A statement line stays one when the pattern ends in an identifier
    character and the replacement has no newline. *)
Lemma last_char_append_nonempty (a k : string) (d : ascii) :
  last_char k = Some d -> last_char (a ++ k) = Some d.
Proof. intros H. rewrite last_char_app; [assumption|]. intros ->. discriminate. Qed.

Lemma replaceAll_loop_statement (k v : string) (d : ascii) (fuel : nat) :
  last_char k = Some d ->
  isIdChar d = true ->
  mem newline v = false ->
  forall (l : string) (n : nat),
    isStatementLine l = true ->
    isStatementLine (replaceAll_loop fuel l k v n) = true.
Proof.
  intros Hk Hd Hv. induction fuel as [|fuel IH]; intros l n Hl; [assumption|].
  destruct (find l k n) as [m|] eqn:E.
  - destruct (replaceAll_loop_step fuel l k v n m E) as (a & b & -> & _ & _ & ->).
    apply IH. unfold isStatementLine in *.
    apply andb_true_iff in Hl. destruct Hl as [Hnl Hlast].
    rewrite !mem_append in *. rewrite Hv.
    destruct (mem newline a); [discriminate|]. cbn [orb negb andb] in *.
    destruct (mem newline k); [discriminate|]. cbn [orb negb andb] in *.
    destruct (mem newline b); [discriminate|]. cbn [orb negb andb] in *.
    destruct b as [|c b].
    + rewrite append_nil_r, (last_char_append_nonempty _ _ _ Hk), Hd in Hlast.
      discriminate.
    + rewrite last_char_app in Hlast by (destruct k; discriminate).
      rewrite last_char_app in Hlast by discriminate.
      rewrite last_char_app by (destruct v; discriminate).
      rewrite last_char_app by discriminate. exact Hlast.
  - cbn [replaceAll_loop]. rewrite E. assumption.
Qed.

End ReplaceFacts.

(** ** References to fields in the lines around a block *)

Module UsageFacts.
Import Str Scanner Minifier StrFacts ScannerFacts NamesFacts MinifierFacts ReplaceFacts.

Lemma tableFrom_In (structName : string) (fieldIds : list string) :
  forall (k : nat) (e : string * string),
    In e (tableFrom k structName fieldIds) ->
    exists j f,
      nth_error fieldIds j = Some f
      /\ e = (structName ++ "." ++ f, structName ++ "." ++ nameOf (k + j)).
Proof.
  induction fieldIds as [|f0 fieldIds IH]; intros k e Hin; [contradiction|].
  cbn [tableFrom] in Hin. destruct Hin as [<- | Hin].
  - exists 0, f0. rewrite Nat.add_0_r. auto.
  - destruct (IH _ _ Hin) as (j & f & Hj & ->). exists (S j), f. split; [exact Hj|].
    replace (k + S j) with (S k + j) by lia. reflexivity.
Qed.

Lemma tableFrom_In_nth (structName : string) (fieldIds : list string) :
  forall (k j : nat) (f : string),
    nth_error fieldIds j = Some f ->
    In (structName ++ "." ++ f, structName ++ "." ++ nameOf (k + j))
      (tableFrom k structName fieldIds).
Proof.
  induction fieldIds as [|f0 fieldIds IH]; intros k j f Hj; [destruct j; discriminate|].
  destruct j as [|j]; cbn [tableFrom].
  - injection Hj as ->. left. rewrite Nat.add_0_r. reflexivity.
  - right. replace (k + S j) with (S k + j) by lia. apply IH. exact Hj.
Qed.

Lemma NoDup_tableFrom (structName : string) (fieldIds : list string) :
  forall k, NoDup fieldIds -> NoDup (tableFrom k structName fieldIds).
Proof.
  induction fieldIds as [|f0 fieldIds IH]; intros k Hnd; [constructor|].
  inversion Hnd as [|? ? Hnotin Hnd']; subst. cbn [tableFrom]. constructor; [|auto].
  intros Hin. destruct (tableFrom_In _ _ _ _ Hin) as (j & f & Hj & E).
  injection E as E _. apply key_inj in E. subst f0.
  apply Hnotin. exact (nth_error_In _ _ Hj).
Qed.

Lemma isIdChar_letter (r : nat) : r < 26 -> isIdChar (letter r) = true.
Proof.
  intros H. do 26 (destruct r as [|r]; [reflexivity|]). lia.
Qed.

Lemma allIdChars_zs (n : nat) : allIdChars (zs n) = true.
Proof. induction n; [reflexivity|]. cbn [zs allIdChars]. rewrite IHn. reflexivity. Qed.

Lemma allIdChars_nameOf (k : nat) : allIdChars (nameOf k) = true.
Proof.
  unfold nameOf. cbn [allIdChars].
  rewrite isIdChar_letter by (apply Nat.mod_upper_bound; lia).
  apply allIdChars_zs.
Qed.

Lemma isIdentifier_nameOf (k : nat) : isIdentifier (nameOf k) = true.
Proof.
  unfold nameOf. cbn [isIdentifier]. rewrite allIdChars_zs, andb_true_r.
  pose proof (Nat.mod_upper_bound k 26 ltac:(lia)) as H.
  set (r := k mod 26) in *. clearbody r.
  do 26 (destruct r as [|r]; [reflexivity|]). lia.
Qed.

(** An identifier that starts a text whose identifier part is [X] is a
    prefix of [X]. *)
Lemma prefix_of_app (f : string) :
  forall (X b b' : string),
    allIdChars f = true ->
    endsIdentifier b = true ->
    f ++ b' = X ++ b ->
    prefix f X = true.
Proof.
  induction f as [|c f IH]; intros X b b' Hf Hb E.
  - destruct X; reflexivity.
  - cbn [allIdChars] in Hf. apply andb_true_iff in Hf. destruct Hf as [Hc Hf].
    destruct X as [|d X]; cbn [append] in E.
    + subst b. cbn [endsIdentifier] in Hb. rewrite Hc in Hb. discriminate.
    + injection E as <- E. cbn [prefix].
      destruct (ascii_dec c c); [|contradiction]. exact (IH _ _ _ Hf Hb E).
Qed.

Section OneReference.

Variables (structName a b : string).
Hypothesis Hname : isIdentifier structName = true.
Hypothesis Ha : mem "." a = false.
Hypothesis Hb : mem "." b = false.
Hypothesis Hend : endsIdentifier b = true.

Local Abbreviation reference X := (referenceLine a structName X b).

Lemma reference_shape (X : string) :
  reference X = (a ++ structName) ++ String "." (X ++ b).
Proof. unfold referenceLine. rewrite !append_assoc. reflexivity. Qed.

Lemma reference_occurrence (X f a' b' : string) :
  allIdChars X = true ->
  reference X = a' ++ (structName ++ "." ++ f) ++ b' ->
  String.length a' = String.length a /\ f ++ b' = X ++ b.
Proof.
  intros HX E. rewrite reference_shape in E.
  replace (a' ++ (structName ++ "." ++ f) ++ b')
    with ((a' ++ structName) ++ String "." (f ++ b')) in E
    by (rewrite !append_assoc; reflexivity).
  apply split_at_first_char in E.
  - destruct E as [E1 E2]. split; [|assumption].
    apply (f_equal String.length) in E1. rewrite !length_append in E1. lia.
  - rewrite mem_append, Ha, (identifier_no_dot _ Hname). reflexivity.
  - rewrite mem_append, Hb, (mem_allIdChars "." X eq_refl HX). reflexivity.
Qed.

(** The entry of another field finds nothing to replace in the line. *)
Lemma other_field_absent (X f v : string) :
  allIdChars X = true ->
  allIdChars f = true ->
  prefix f X = false ->
  replaceAll (reference X) (structName ++ "." ++ f) v = reference X.
Proof.
  intros HX Hf Hpre. apply replaceAll_absent.
  destruct (index 0 (structName ++ "." ++ f) (reference X)) as [m|] eqn:E; [|reflexivity].
  exfalso. destruct (index_split _ _ _ _ E) as (a' & b' & E' & _ & _).
  destruct (reference_occurrence X f a' b' HX E') as [_ E2].
  rewrite (prefix_of_app f X b b' Hf Hend E2) in Hpre. discriminate.
Qed.

(** The entry of the field itself replaces the one reference. *)
Lemma own_field_replaced (f v : string) :
  allIdChars f = true ->
  replaceAll (reference f) (structName ++ "." ++ f) (structName ++ "." ++ v)
  = reference v.
Proof.
  intros Hf. unfold replaceAll.
  assert (Hk : structName ++ "." ++ f <> "").
  { destruct structName; discriminate. }
  destruct (find (reference f) (structName ++ "." ++ f) 0) as [m|] eqn:E.
  - destruct (replaceAll_loop_step (String.length (reference f)) _ _
                (structName ++ "." ++ v) _ _ E) as (a' & b' & E' & Hm & _ & ->).
    destruct (reference_occurrence f f a' b' Hf E') as [Hlen E2].
    apply append_inv_head in E2. subst b'.
    assert (a' = a).
    { assert (H1 : substring 0 (String.length a) (reference f) = a)
        by apply substring_0_app.
      rewrite E', <- Hlen, substring_0_app in H1. exact H1. }
    subst a'.
    assert (Hfuel : 0 < String.length (reference f)).
    { unfold referenceLine. rewrite !length_append.
      destruct structName; [discriminate|]. cbn [String.length]. lia. }
    destruct (String.length (reference f)) as [|fuel]; [lia|].
    cbn [replaceAll_loop]. unfold find.
    rewrite <- length_append.
    replace (a ++ (structName ++ "." ++ v) ++ b)
      with ((a ++ structName ++ "." ++ v) ++ b) by (rewrite !append_assoc; reflexivity).
    rewrite <- (Nat.add_0_r (String.length (a ++ structName ++ "." ++ v))).
    rewrite index_app_r.
    rewrite (index_no_char "." (structName ++ "." ++ f) b 0);
      [cbn [option_map]; unfold referenceLine; rewrite !append_assoc; reflexivity
      | | assumption].
    rewrite !mem_append. cbn [mem Ascii.eqb Bool.eqb]. rewrite orb_true_r. reflexivity.
  - exfalso. unfold find in E. revert E. apply index_finds; [assumption|lia].
Qed.

End OneReference.


Lemma fold_left_fixed {A B : Type} (step : A -> B -> A) (l : list B) (x : A) :
  (forall e, In e l -> step x e = x) -> fold_left step l x = x.
Proof.
  induction l as [|e l IH]; intros H; [reflexivity|]. cbn [fold_left].
  rewrite (H e) by (left; reflexivity). apply IH. intros e' He'. apply H. right. exact He'.
Qed.

(** When one entry of the table turns [line] into [line'] and every other
    entry leaves both alone, the table turns [line] into [line'] in whatever
    order it is iterated. *)
Lemma applyMapping_one_entry (iteration : table -> table) (m : table)
    (own : string * string) (line line' : string) :
  Permutation (iteration m) m ->
  NoDup m ->
  In own m ->
  replaceAll line (fst own) (snd own) = line' ->
  (forall e, In e m -> e <> own ->
     replaceAll line (fst e) (snd e) = line /\ replaceAll line' (fst e) (snd e) = line') ->
  applyMapping iteration m line = line'.
Proof.
  intros Hperm Hnd Hown Hrep Hothers.
  assert (Hown' : In own (iteration m))
    by exact (Permutation_in _ (Permutation_sym Hperm) Hown).
  assert (Hnd' : NoDup (iteration m))
    by exact (Permutation_NoDup (Permutation_sym Hperm) Hnd).
  destruct (in_split _ _ Hown') as (l1 & l2 & Hsplit).
  assert (Hother : forall e, In e (l1 ++ l2)%list -> In e m /\ e <> own).
  { intros e He. split.
    - apply (Permutation_in _ Hperm). rewrite Hsplit.
      apply in_app_iff in He. apply in_app_iff.
      destruct He; [left|right; right]; assumption.
    - intros ->. rewrite Hsplit in Hnd'. apply NoDup_remove_2 in Hnd'. contradiction. }
  unfold applyMapping. rewrite Hsplit, fold_left_app. cbn [fold_left].
  assert (H1 : fold_left (fun l kv => replaceAll l (fst kv) (snd kv)) l1 line = line).
  { apply fold_left_fixed. intros e He.
    destruct (Hother e (in_or_app _ _ _ (or_introl He))) as [Hin Hne].
    apply (Hothers e Hin Hne). }
  rewrite H1, Hrep. apply fold_left_fixed. intros e He.
  destruct (Hother e (in_or_app _ _ _ (or_intror He))) as [Hin Hne].
  apply (Hothers e Hin Hne).
Qed.

(** *** One reference in a line, through the whole table *)

Section Table.

Variable iteration : table -> table.
Hypothesis iteration_permutes : forall m, Permutation (iteration m) m.

Variables (typeId : string) (fields : list (string * string)) (structName : string).
Hypothesis Hblock : isBlock typeId fields structName = true.
Hypothesis Hnodup : NoDup (map snd fields).

Lemma field_identifiers (i : nat) (tf : string * string) :
  nth_error fields i = Some tf ->
  isIdentifier (fst tf) = true /\ isIdentifier (snd tf) = true.
Proof.
  intros Hi. destruct (isBlock_inv _ _ _ Hblock) as (_ & _ & Hf).
  rewrite Forall_forall in Hf. apply Hf. exact (nth_error_In _ _ Hi).
Qed.

Lemma blockTable_entry (e : string * string) :
  In e (iteration (blockTable structName fields)) ->
  exists j tf,
    nth_error fields j = Some tf
    /\ e = (structName ++ "." ++ snd tf, structName ++ "." ++ nameOf j).
Proof.
  intros Hin. apply (Permutation_in _ (iteration_permutes _)) in Hin.
  destruct (tableFrom_In _ _ _ _ Hin) as (j & f & Hj & ->).
  rewrite nth_error_map in Hj. destruct (nth_error fields j) as [tf|] eqn:E; [|discriminate].
  injection Hj as <-. exists j, tf. auto.
Qed.

Lemma reference_rewritten (a b : string) (i : nat) (ty f : string) :
  nth_error fields i = Some (ty, f) ->
  mem "." a = false ->
  mem "." b = false ->
  endsIdentifier b = true ->
  (forall j tf, j <> i -> nth_error fields j = Some tf ->
     prefix (snd tf) f = false /\ prefix (snd tf) (nameOf i) = false) ->
  applyMapping iteration (blockTable structName fields) (referenceLine a structName f b)
  = referenceLine a structName (nameOf i) b.
Proof.
  intros Hi Ha Hb Hend Hothers.
  destruct (isBlock_inv _ _ _ Hblock) as (_ & Hname & _).
  destruct (field_identifiers _ _ Hi) as [_ Hf]. cbn [snd] in Hf.
  set (own := (structName ++ "." ++ f, structName ++ "." ++ nameOf i)).
  assert (Hown : In own (iteration (blockTable structName fields))).
  { apply (Permutation_in _ (Permutation_sym (iteration_permutes _))).
    apply (tableFrom_In_nth structName (map snd fields) 0 i f).
    rewrite nth_error_map, Hi. reflexivity. }
  assert (Hnd : NoDup (iteration (blockTable structName fields))).
  { apply (Permutation_NoDup (Permutation_sym (iteration_permutes _))).
    apply NoDup_tableFrom. assumption. }
  destruct (in_split _ _ Hown) as (l1 & l2 & Hsplit).
  assert (Hother : forall e, In e (l1 ++ l2)%list ->
            exists j tf, j <> i /\ nth_error fields j = Some tf
              /\ e = (structName ++ "." ++ snd tf, structName ++ "." ++ nameOf j)).
  { intros e He.
    assert (Hin : In e (iteration (blockTable structName fields))).
    { rewrite Hsplit. apply in_app_iff in He. apply in_app_iff.
      destruct He; [left|right; right]; assumption. }
    destruct (blockTable_entry e Hin) as (j & tf & Hj & ->).
    exists j, tf. repeat split; try assumption.
    intros ->. rewrite Hi in Hj. injection Hj as <-. cbn [snd] in He.
    rewrite Hsplit in Hnd. apply NoDup_remove_2 in Hnd. apply Hnd. exact He. }
  unfold applyMapping. rewrite Hsplit, fold_left_app. cbn [fold_left].
  assert (H1 : fold_left (fun line kv => replaceAll line (fst kv) (snd kv)) l1
                 (referenceLine a structName f b)
               = referenceLine a structName f b).
  { apply fold_left_fixed. intros e He.
    destruct (Hother e (in_or_app _ _ _ (or_introl He))) as (j & tf & Hj & Hnth & ->).
    cbn [fst snd]. destruct (field_identifiers _ _ Hnth) as [_ Htf].
    apply (other_field_absent structName a b Hname Ha Hb Hend);
      [apply isIdentifier_allIdChars, Hf | apply isIdentifier_allIdChars, Htf
      | apply (Hothers j tf Hj Hnth)]. }
  rewrite H1. unfold own. cbn [fst snd].
  rewrite (own_field_replaced structName a b Hname Ha Hb f (nameOf i)
             (isIdentifier_allIdChars _ Hf)).
  apply fold_left_fixed. intros e He.
  destruct (Hother e (in_or_app _ _ _ (or_intror He))) as (j & tf & Hj & Hnth & ->).
  cbn [fst snd]. destruct (field_identifiers _ _ Hnth) as [_ Htf].
  apply (other_field_absent structName a b Hname Ha Hb Hend);
    [apply allIdChars_nameOf | apply isIdentifier_allIdChars, Htf
    | apply (Hothers j tf Hj Hnth)].
Qed.

(** The lines around the block stay statement lines. *)
Lemma allIdChars_last_char (s : string) :
  allIdChars s = true -> s <> "" ->
  exists d, last_char s = Some d /\ isIdChar d = true.
Proof.
  induction s as [|c s IH]; intros Hs Hne; [contradiction|].
  cbn [allIdChars] in Hs. apply andb_true_iff in Hs. destruct Hs as [Hc Hs].
  destruct s as [|d s]; [exists c; auto|].
  destruct (IH Hs ltac:(discriminate)) as (e & He & Hid). exists e. auto.
Qed.

Lemma applyMapping_statement (l : string) :
  isStatementLine l = true ->
  isStatementLine (applyMapping iteration (blockTable structName fields) l) = true.
Proof.
  unfold applyMapping.
  assert (Hall : forall e, In e (iteration (blockTable structName fields)) ->
            exists d, last_char (fst e) = Some d /\ isIdChar d = true
                      /\ mem newline (snd e) = false).
  { intros e He. destruct (blockTable_entry e He) as (j & tf & Hj & ->). cbn [fst snd].
    destruct (isBlock_inv _ _ _ Hblock) as (_ & Hname & _).
    destruct (field_identifiers _ _ Hj) as [_ Htf].
    destruct (allIdChars_last_char (snd tf) (isIdentifier_allIdChars _ Htf)) as (d & Hd & Hid).
    { intros E. rewrite E in Htf. discriminate. }
    exists d. split; [|split; [assumption|]].
    - rewrite !last_char_app; [assumption | intros E; rewrite E in Htf; discriminate
                              | destruct (snd tf); discriminate].
    - rewrite !mem_append.
      rewrite (mem_allIdChars newline structName eq_refl (isIdentifier_allIdChars _ Hname)).
      rewrite (mem_allIdChars newline (nameOf j) eq_refl (allIdChars_nameOf j)).
      reflexivity. }
  revert l. induction (iteration (blockTable structName fields)) as [|e es IH];
    intros l Hl; [assumption|].
  cbn [fold_left]. apply IH.
  - intros e' He'. apply Hall. right. exact He'.
  - destruct (Hall e (or_introl eq_refl)) as (d & Hd & Hid & Hv).
    apply (replaceAll_loop_statement _ _ d); assumption.
Qed.

End Table.

(** *** A block whose fields already have the generated names *)

Lemma map_snd_renameFrom (fields : list (string * string)) :
  forall k, map snd (renameFrom k fields) = map nameOf (seq k (List.length fields)).
Proof.
  induction fields as [|[ty f] fields IH]; intros k; [reflexivity|].
  cbn [renameFrom map snd List.length seq]. rewrite IH. reflexivity.
Qed.

Lemma renameFrom_renameFrom (fields : list (string * string)) :
  forall k k', renameFrom k (renameFrom k' fields) = renameFrom k fields.
Proof.
  induction fields as [|[ty f] fields IH]; intros k k'; [reflexivity|].
  cbn [renameFrom]. rewrite IH. reflexivity.
Qed.

Lemma isBlock_renameFrom (typeId : string) (fields : list (string * string))
    (structName : string) (k : nat) :
  isBlock typeId fields structName = true ->
  isBlock typeId (renameFrom k fields) structName = true.
Proof.
  unfold isBlock. intros H. apply andb_true_iff in H. destruct H as [H Hf].
  rewrite H. cbn [andb]. revert k.
  induction fields as [|[ty f] fields IH]; intros k; [reflexivity|].
  cbn [forallb renameFrom fst snd] in *.
  apply andb_true_iff in Hf. destruct Hf as [Htf Hf].
  apply andb_true_iff in Htf. destruct Htf as [Hty _].
  rewrite Hty, isIdentifier_nameOf, (IH Hf). reflexivity.
Qed.

Lemma NoDup_renameFrom (fields : list (string * string)) (k : nat) :
  NoDup (map snd (renameFrom k fields)).
Proof.
  rewrite map_snd_renameFrom.
  apply Finite.Injective_map_NoDup; [|apply seq_NoDup].
  intros i j. apply nameOf_inj.
Qed.

Lemma tableFrom_names (structName : string) (n : nat) :
  forall k e, In e (tableFrom k structName (map nameOf (seq k n))) -> fst e = snd e.
Proof.
  induction n as [|n IH]; intros k e Hin; [contradiction|].
  cbn [seq map tableFrom] in Hin. destruct Hin as [<- | Hin]; [reflexivity|].
  exact (IH _ _ Hin).
Qed.

Lemma applyMapping_renamed (iteration : table -> table) (structName : string)
    (fields : list (string * string)) (l : string) :
  (forall m, Permutation (iteration m) m) ->
  applyMapping iteration (blockTable structName (renameFrom 0 fields)) l = l.
Proof.
  intros Hperm. unfold applyMapping. apply fold_left_fixed. intros e He.
  apply (Permutation_in _ (Hperm _)) in He. unfold blockTable in He.
  rewrite map_snd_renameFrom in He. apply tableFrom_names in He.
  destruct e as [k v]. cbn [fst snd] in *. subst v. apply replaceAll_same.
Qed.

End UsageFacts.

(** ** The minifier: the claims *)

Module MinifierTheorems.
Import Str Scanner Minifier StrFacts ScannerFacts NamesFacts MinifierFacts ReplaceFacts
  UsageFacts.

Lemma lightSource_shape :
  lightSource
  = unlines ([] ++ blockLines "Light" [("float", "intensity"); ("vec3", "color")] "lightBlock"
             ++ [lightUsage])%list.
Proof. reflexivity. Qed.

Lemma materialParamsSource_shape :
  materialParamsSource
  = unlines ([] ++ blockLines "MaterialParams" [("float", "intensity")] "materialParams"
             ++ ["x = materialParams.intensity;"])%list.
Proof. reflexivity. Qed.

Lemma NoDup_two (x y : string) : x <> y -> NoDup [x; y].
Proof.
  intros H. constructor; [|constructor; [intros []|constructor]].
  intros [E | []]. congruence.
Qed.

(** The example of the specification, whatever the order of the table. *)
Lemma lightSource_minified (iteration : table -> table) :
  (forall m, Permutation (iteration m) m) ->
  minifyStructFields iteration lightSource = lightMinified.
Proof.
  intros Hperm. rewrite lightSource_shape.
  rewrite minify_block;
    [ | reflexivity | apply NoDup_two; discriminate | constructor
      | repeat constructor ].
  cbn [map app]. unfold applyMapping.
  destruct (Permutation_length_2_inv
              (Permutation_sym
                 (Hperm (blockTable "lightBlock"
                           [("float", "intensity"); ("vec3", "color")]))))
    as [-> | ->]; vm_compute; reflexivity.
Qed.

(** C1. The code does not leave a MaterialParams block alone: on a block
    whose type identifier is MaterialParams the field declaration and the
    reference to the field are both rewritten to the generated name a,
    whatever the order of the table. *)
Theorem MaterialParams_block_is_minified (iteration : table -> table) :
  (forall m, Permutation (iteration m) m) ->
  minifyStructFields iteration materialParamsSource = materialParamsMinified.
Proof.
  intros Hperm. rewrite materialParamsSource_shape.
  rewrite minify_block;
    [ | reflexivity | repeat constructor; intros [] | constructor
      | repeat constructor ].
  cbn [map app]. unfold applyMapping.
  rewrite (Permutation_length_1_inv
             (Permutation_sym
                (Hperm (blockTable "materialParams" [("float", "intensity")])))).
  vm_compute. reflexivity.
Qed.

Lemma MaterialParams_block_is_minified_witness :
  minifyStructFields (fun m => m) materialParamsSource = materialParamsMinified.
Proof.
  apply (MaterialParams_block_is_minified (fun m => m)).
  intros m. apply Permutation_refl.
Defined.

(** The references to the fields b and a of the sample block after the
    minifier, in the two orders in which the two entries of the table can be
    applied. *)
Lemma swapped_fields_in_both_orders :
  minifyStructFields (fun m => m) swappedSource
  = unlines ["uniform Light"; "{"; "float a;"; "float b;"; "} s;"; "x = s.b + s.b;"]
  /\ minifyStructFields (@rev (string * string)) swappedSource
     = unlines ["uniform Light"; "{"; "float a;"; "float b;"; "} s;"; "x = s.a + s.a;"].
Proof. split; vm_compute; reflexivity. Qed.

(** C2. The code does not rewrite every reference to the short name of its
    field. In the sample block the fields b and a are declared in this order,
    so that b gets the name a and a gets the name b, and the declarations come
    out as float a and float b. The line x = s.b + s.a, which refers to both
    fields, comes out with two references to one field: as x = s.b + s.b or
    as x = s.a + s.a, depending on the order in which the table is iterated,
    and in no order as x = s.a + s.b. The example of the specification itself
    comes out as the specification says. *)
Theorem references_to_swapped_fields_collapse (iteration : table -> table) :
  (forall m, Permutation (iteration m) m) ->
  (minifyStructFields iteration swappedSource
   = unlines ["uniform Light"; "{"; "float a;"; "float b;"; "} s;"; "x = s.b + s.b;"]
   \/ minifyStructFields iteration swappedSource
      = unlines ["uniform Light"; "{"; "float a;"; "float b;"; "} s;"; "x = s.a + s.a;"])
  /\ minifyStructFields iteration swappedSource <> swappedRenamed
  /\ minifyStructFields iteration lightSource = lightMinified.
Proof.
  intros Hperm.
  assert (H1 : minifyStructFields iteration swappedSource
               = unlines ["uniform Light"; "{"; "float a;"; "float b;"; "} s;";
                          applyMapping iteration [("s.b", "s.a"); ("s.a", "s.b")]
                            "x = s.b + s.a;"])
    by (cbv -[applyMapping]; reflexivity).
  rewrite H1. unfold applyMapping.
  split; [|split; [|apply lightSource_minified; assumption]];
    destruct (Permutation_length_2_inv
                (Permutation_sym (Hperm [("s.b", "s.a"); ("s.a", "s.b")])))
      as [-> | ->].
  - left. vm_compute. reflexivity.
  - right. vm_compute. reflexivity.
  - apply String.eqb_neq. vm_compute. reflexivity.
  - apply String.eqb_neq. vm_compute. reflexivity.
Qed.

Lemma references_to_swapped_fields_collapse_witness :
  (minifyStructFields (fun m => m) swappedSource
   = unlines ["uniform Light"; "{"; "float a;"; "float b;"; "} s;"; "x = s.b + s.b;"]
   \/ minifyStructFields (fun m => m) swappedSource
      = unlines ["uniform Light"; "{"; "float a;"; "float b;"; "} s;"; "x = s.a + s.a;"])
  /\ minifyStructFields (fun m => m) swappedSource <> swappedRenamed
  /\ minifyStructFields (fun m => m) lightSource = lightMinified.
Proof.
  apply (references_to_swapped_fields_collapse (fun m => m)).
  intros m. apply Permutation_refl.
Defined.

(** C9, as the claim states it, fails: on two blocks of the same type
    identifier the second application changes the text again. *)
Lemma second_application_changes_text :
  minifyStructFields (fun m => m) (minifyStructFields (fun m => m) twoBlocksSource)
  <> minifyStructFields (fun m => m) twoBlocksSource.
Proof. apply String.eqb_neq. vm_compute. reflexivity. Qed.

(** *** The counterexample in every order of the table *)

(** On the two blocks of one type identifier the second application
    changes the text in whatever order the table is iterated. *)
Lemma second_application_in_every_order (iteration : table -> table) :
  (forall m, Permutation (iteration m) m) ->
  minifyStructFields iteration (minifyStructFields iteration twoBlocksSource)
  <> minifyStructFields iteration twoBlocksSource.
Proof.
  intros Hperm.
  assert (H1 : minifyStructFields iteration twoBlocksSource
               = unlines ["uniform T"; "{"; "float b;"; "} s1;";
                          "uniform T"; "{"; "float a;"; "float b;"; "} s2;";
                          applyMapping iteration
                            [("s1.x", "s1.a"); ("s2.y", "s2.a"); ("s2.x", "s2.b")]
                            "v = s1.b;"])
    by (cbv -[applyMapping]; reflexivity).
  assert (H2 : applyMapping iteration
                 [("s1.x", "s1.a"); ("s2.y", "s2.a"); ("s2.x", "s2.b")] "v = s1.b;"
               = "v = s1.b;").
  { unfold applyMapping. apply fold_left_fixed. intros e He.
    apply (Permutation_in _ (Hperm _)) in He.
    destruct He as [<- | [<- | [<- | []]]]; vm_compute; reflexivity. }
  rewrite H1, H2.
  assert (H3 : minifyStructFields iteration
                 (unlines ["uniform T"; "{"; "float b;"; "} s1;";
                           "uniform T"; "{"; "float a;"; "float b;"; "} s2;";
                           "v = s1.b;"])
               = unlines ["uniform T"; "{"; "float b;"; "} s1;";
                          "uniform T"; "{"; "float a;"; "float b;"; "} s2;";
                          applyMapping iteration
                            [("s1.b", "s1.a"); ("s2.a", "s2.a"); ("s2.b", "s2.b")]
                            "v = s1.b;"])
    by (cbv -[applyMapping]; reflexivity).
  assert (H4 : applyMapping iteration
                 [("s1.b", "s1.a"); ("s2.a", "s2.a"); ("s2.b", "s2.b")] "v = s1.b;"
               = "v = s1.a;").
  { apply (applyMapping_one_entry iteration _ ("s1.b", "s1.a")).
    - apply Hperm.
    - constructor; [cbn [In]; intros [H | [H | []]]; discriminate H|].
      constructor; [cbn [In]; intros [H | []]; discriminate H|].
      constructor; [intros []|constructor].
    - left. reflexivity.
    - vm_compute. reflexivity.
    - intros e [<- | [<- | [<- | []]]] Hne.
      + exfalso. apply Hne. reflexivity.
      + split; vm_compute; reflexivity.
      + split; vm_compute; reflexivity. }
  rewrite H3, H4. apply String.eqb_neq. vm_compute. reflexivity.
Qed.

End MinifierTheorems.

(** ** The scanner on arbitrary lines *)

Module ScannerSpec.
Import Str Scanner StrFacts ScannerFacts.

Lemma get_split (s : string) :
  forall (n : nat) (c : ascii),
    get n s = Some c -> exists a b, s = a ++ String c b /\ String.length a = n.
Proof.
  induction s as [|d s IH]; intros n c H; [discriminate|].
  destruct n as [|n]; cbn [get] in H.
  - injection H as ->. exists "", s. split; reflexivity.
  - destruct (IH _ _ H) as (a & b & -> & <-).
    exists (String d a), b. split; reflexivity.
Qed.

(** Every text is a run of identifier characters followed by a text that
    does not go on with one. *)
Lemma idChars_split (s : string) :
  exists run tl, s = run ++ tl /\ allIdChars run = true /\ endsIdentifier tl = true.
Proof.
  induction s as [|c s (run & tl & -> & Hrun & Htl)].
  - exists "", "". repeat split.
  - destruct (isIdChar c) eqn:Ec.
    + exists (String c run), tl. cbn [append allIdChars]. rewrite Ec, Hrun. repeat split.
      assumption.
    + exists "", (String c (run ++ tl)). cbn [append allIdChars endsIdentifier].
      rewrite Ec. repeat split.
Qed.

Lemma append_eq_length (a b a' b' : string) :
  a ++ b = a' ++ b' -> String.length a = String.length a' -> a = a' /\ b = b'.
Proof.
  revert a'. induction a as [|c a IH]; intros [|c' a'] E L; try discriminate.
  - split; [reflexivity|exact E].
  - cbn [append] in E. injection E as -> E. cbn [String.length] in L.
    destruct (IH a' E) as [-> ->]; [lia|]. split; reflexivity.
Qed.

(** What a successful [consumeIdentifier] says about the line. *)
Lemma consumeIdentifier_inv (line : string) (pindex : nat) (id : string) (newIndex : nat) :
  consumeIdentifier line pindex = Some (id, newIndex) ->
  exists a b,
    line = a ++ id ++ b
    /\ String.length a = pindex
    /\ isIdentifier id = true
    /\ endsIdentifier b = true
    /\ newIndex = pindex + String.length id.
Proof.
  intros H.
  destruct (get pindex line) as [c|] eqn:G;
    [|unfold consumeIdentifier in H; rewrite G in H; discriminate].
  destruct (get_split _ _ _ G) as (a & rest & -> & <-).
  destruct (isIdCharNondigit c) eqn:Ec;
    [|unfold consumeIdentifier in H; rewrite G, Ec in H; discriminate].
  destruct (idChars_split rest) as (run & tl & -> & Hrun & Htl).
  assert (Hid : isIdentifier (String c run) = true)
    by (cbn [isIdentifier]; rewrite Ec, Hrun; reflexivity).
  pose proof (consumeIdentifier_app a (String c run) tl Hid Htl) as Happ.
  cbn [append] in Happ. rewrite Happ in H. injection H as <- <-.
  exists a, tl. repeat split; assumption.
Qed.

(** X1. [consumeIdentifier] succeeds at an index exactly when the line holds
    there a letter or underscore; the identifier it returns is the longest
    run of identifier characters from the index on, and the new index is the
    position just behind it. *)
Theorem consumeIdentifier_spec
    (line : string) (pindex : nat) (id : string) (newIndex : nat) :
  consumeIdentifier line pindex = Some (id, newIndex)
  <-> exists a b,
        line = a ++ id ++ b
        /\ String.length a = pindex
        /\ isIdentifier id = true
        /\ endsIdentifier b = true
        /\ newIndex = pindex + String.length id.
Proof.
  split; [apply consumeIdentifier_inv|].
  intros (a & b & -> & <- & Hid & Hb & ->). apply consumeIdentifier_app; assumption.
Qed.

(** X2. [consumeString] searches from the index on: it succeeds exactly when
    the string occurs at or after the index, wherever that is, and the new
    index is the position just behind an occurrence. *)
Theorem consumeString_finds_from_index (line s : string) (pindex : nat) :
  s <> "" ->
  (consumeString line pindex s <> None
   <-> exists a b, line = a ++ s ++ b /\ pindex <= String.length a)
  /\ (forall newIndex,
        consumeString line pindex s = Some newIndex ->
        exists a b,
          line = a ++ s ++ b /\ pindex <= String.length a
          /\ newIndex = String.length a + String.length s).
Proof.
  intros Hs.
  assert (Hsome : forall newIndex,
             consumeString line pindex s = Some newIndex ->
             exists a b,
               line = a ++ s ++ b /\ pindex <= String.length a
               /\ newIndex = String.length a + String.length s).
  { intros newIndex H. unfold consumeString, find in H.
    destruct (index pindex s line) as [m|] eqn:E; [|discriminate].
    injection H as <-. destruct (index_split _ _ _ _ E) as (a & b & -> & <- & Hle).
    exists a, b. repeat split. assumption. }
  split; [|exact Hsome]. split.
  - intros H. destruct (consumeString line pindex s) as [newIndex|] eqn:E; [|congruence].
    destruct (Hsome _ eq_refl) as (a & b & -> & Hle & _). exists a, b. split; auto.
  - intros (a & b & -> & Hle). unfold consumeString, find.
    pose proof (index_finds a s b pindex Hs Hle) as H.
    destruct (index pindex s (a ++ s ++ b)); [discriminate|congruence].
Qed.

Lemma consumeString_finds_from_index_witness :
  "uniform " <> ""
  /\ (consumeString "layout(std140) uniform FrameUniforms" 0 "uniform " <> None
      <-> exists a b,
            "layout(std140) uniform FrameUniforms" = a ++ "uniform " ++ b
            /\ 0 <= String.length a)
  /\ (forall newIndex,
        consumeString "layout(std140) uniform FrameUniforms" 0 "uniform " = Some newIndex ->
        exists a b,
          "layout(std140) uniform FrameUniforms" = a ++ "uniform " ++ b
          /\ 0 <= String.length a
          /\ newIndex = String.length a + String.length "uniform ").
Proof.
  split; [discriminate|].
  apply (consumeString_finds_from_index "layout(std140) uniform FrameUniforms" "uniform " 0).
  discriminate.
Defined.

Ltac lengths :=
  repeat first [rewrite length_append in * | progress cbn [String.length] in * ]; try lia.

Lemma skipToBracket_run (n : string) :
  forall (a b : string) (fuel : nat),
    mem "]" n = false ->
    match b with String c _ => c = "]"%char | EmptyString => True end ->
    String.length n <= fuel ->
    skipToBracket fuel (a ++ n ++ b) (String.length a)
    = String.length a + String.length n.
Proof.
  induction n as [|c n IH]; intros a b fuel Hn Hb Hf.
  - cbn [append String.length]. rewrite Nat.add_0_r.
    destruct fuel as [|fuel]; [reflexivity|]. cbn [skipToBracket].
    rewrite get_app_r0. destruct b as [|d b]; [reflexivity|].
    cbn [get]. subst d. reflexivity.
  - destruct fuel as [|fuel]; [cbn [String.length] in Hf; lia|].
    apply mem_cons_false in Hn. destruct Hn as [Hc Hn].
    cbn [skipToBracket append]. rewrite get_app_r0. cbn [get].
    rewrite Ascii.eqb_sym, Hc.
    rewrite (append_snoc a c), <- (length_snoc a c).
    rewrite IH by (auto; cbn [String.length] in Hf; lia).
    rewrite length_snoc. cbn [String.length]. lia.
Qed.

(** X3. [consumeArraySize] leaves the index where it is unless the line
    holds an opening bracket there; behind an opening bracket it moves the
    index past the first closing bracket, and to the end of the line when the
    bracket is never closed. *)
Theorem consumeArraySize_spec :
  (forall a n b,
      mem "]" n = false ->
      consumeArraySize (a ++ "[" ++ n ++ "]" ++ b) (String.length a)
      = String.length a + String.length n + 2)
  /\ (forall a n,
        mem "]" n = false ->
        consumeArraySize (a ++ "[" ++ n) (String.length a)
        = String.length (a ++ "[" ++ n))
  /\ (forall line pindex,
        get pindex line <> Some "["%char -> consumeArraySize line pindex = pindex).
Proof.
  split; [|split].
  - intros a n b Hn. unfold consumeArraySize. rewrite get_app_r0.
    cbn [append get Ascii.eqb Bool.eqb negb].
    assert (Hskip : skipToBracket
                      (String.length (a ++ String "[" (n ++ String "]" b))
                       - S (String.length a))
                      (a ++ String "[" (n ++ String "]" b)) (S (String.length a))
                    = String.length a + S (String.length n)).
    { rewrite (append_snoc a "["), <- (length_snoc a "[").
      rewrite skipToBracket_run; [rewrite length_snoc; lia | assumption | reflexivity |].
      lengths. }
    rewrite Hskip.
    destruct (Nat.eqb_spec (String.length a + S (String.length n))
                (String.length (a ++ String "[" (n ++ String "]" b)))) as [E|_]; [|lia].
    lengths.
  - intros a n Hn. unfold consumeArraySize. rewrite get_app_r0.
    cbn [append get Ascii.eqb Bool.eqb negb].
    assert (Hskip : skipToBracket
                      (String.length (a ++ String "[" n) - S (String.length a))
                      (a ++ String "[" n) (S (String.length a))
                    = String.length (a ++ String "[" n)).
    { pose proof (skipToBracket_run n (a ++ "[") ""
                    (String.length (a ++ String "[" n) - S (String.length a)) Hn I) as H.
      rewrite append_nil_r, <- append_snoc, length_snoc in H.
      rewrite H by lengths. lengths. }
    rewrite Hskip, Nat.eqb_refl. reflexivity.
  - intros line pindex H. unfold consumeArraySize.
    destruct (get pindex line) as [c|]; [|reflexivity].
    destruct (Ascii.eqb_spec c "["); [congruence|reflexivity].
Qed.

End ScannerSpec.

(** ** replaceAll on arbitrary texts *)

Module ReplaceSpec.
Import Str Scanner StrFacts ReplaceFacts.

Lemma split_at (s : string) :
  forall n, n <= String.length s -> exists a b, s = a ++ b /\ String.length a = n.
Proof.
  induction s as [|c s IH]; intros n Hn.
  - exists "", "". cbn [String.length] in *. split; [reflexivity|]. cbn. lia.
  - destruct n as [|n].
    + exists "", (String c s). split; reflexivity.
    + cbn [String.length] in Hn. destruct (IH n) as (a & b & -> & <-); [lia|].
      exists (String c a), b. split; reflexivity.
Qed.

Lemma replace_app_r (p s : string) (m count : nat) (to : string) :
  replace (p ++ s) (String.length p + m) count to = p ++ replace s m count to.
Proof.
  unfold replace, substr_from.
  assert (H0 : substring 0 (String.length p + m) (p ++ s) = p ++ substring 0 m s).
  { clear. induction p as [|c p IH]; [reflexivity|].
    cbn [append String.length Nat.add substring]. rewrite IH. reflexivity. }
  rewrite H0, <- Nat.add_assoc, substring_app_r, length_append, append_assoc.
  replace (String.length p + String.length s - (String.length p + (m + count)))
    with (String.length s - (m + count)) by lia.
  reflexivity.
Qed.

(** The loop on a text behind a prefix that lies before the cursor is the
    loop on the text alone. *)
Lemma replaceAll_loop_shift (k v : string) (fuel : nat) :
  forall (p s : string) (n : nat),
    replaceAll_loop fuel (p ++ s) k v (String.length p + n)
    = p ++ replaceAll_loop fuel s k v n.
Proof.
  induction fuel as [|fuel IH]; intros p s n; [reflexivity|].
  cbn [replaceAll_loop]. unfold find. rewrite index_app_r.
  destruct (index n k s) as [m|]; cbn [option_map]; [|reflexivity].
  rewrite replace_app_r, <- Nat.add_assoc. apply IH.
Qed.

(** X4. With a non-empty pattern [replaceAll] ends, and it replaces the
    occurrences from left to right without looking again at what it has put
    in: a text without the pattern is left as it is, and a text whose first
    occurrence of the pattern stands behind [a] becomes [a], the replacement,
    and the result for the text behind that occurrence. *)
Theorem replaceAll_leftmost_first (l k v : string) :
  k <> "" ->
  (forall extra,
      replaceAll_loop (S (String.length l) + extra) l k v 0 = replaceAll l k v)
  /\ (find l k 0 = None -> replaceAll l k v = l)
  /\ (forall a b,
        l = a ++ k ++ b ->
        find l k 0 = Some (String.length a) ->
        replaceAll l k v = a ++ v ++ replaceAll b k v).
Proof.
  intros Hk. split; [|split].
  - intros extra. apply replaceAll_loop_more_fuel; [assumption|lia].
  - apply replaceAll_absent.
  - intros a b -> H. unfold replaceAll at 1.
    destruct (replaceAll_loop_step (String.length (a ++ k ++ b)) (a ++ k ++ b) k v 0 _ H)
      as (a' & b' & E & Hlen & _ & ->).
    destruct (ScannerSpec.append_eq_length _ _ _ _ E (eq_sym Hlen)) as [<- E'].
    apply append_inv_head in E'. subst b'.
    remember (String.length (a ++ k ++ b)) as fuel eqn:Efuel.
    pose proof (replaceAll_loop_shift k v fuel (a ++ v) b 0) as Hshift.
    rewrite length_append, Nat.add_0_r, !append_assoc in Hshift.
    rewrite Hshift. f_equal. f_equal. subst fuel.
    assert (1 <= String.length k) by (destruct k; [congruence|cbn; lia]).
    assert (Hfuel : String.length (a ++ k ++ b)
                    = S (String.length b) + (String.length a + String.length k - 1))
      by (rewrite !length_append; lia).
    rewrite Hfuel. apply replaceAll_loop_more_fuel; [assumption|lia].
Qed.

Lemma replaceAll_leftmost_first_witness :
  "a" <> ""
  /\ (forall extra,
        replaceAll_loop (S (String.length "s.a + s.a") + extra) "s.a + s.a" "a" "aa" 0
        = replaceAll "s.a + s.a" "a" "aa")
  /\ (find "s.a + s.a" "a" 0 = None -> replaceAll "s.a + s.a" "a" "aa" = "s.a + s.a")
  /\ (forall a b,
        "s.a + s.a" = a ++ "a" ++ b ->
        find "s.a + s.a" "a" 0 = Some (String.length a) ->
        replaceAll "s.a + s.a" "a" "aa" = a ++ "aa" ++ replaceAll b "a" "aa").
Proof.
  split; [discriminate|].
  apply (replaceAll_leftmost_first "s.a + s.a" "a" "aa"). discriminate.
Defined.

Lemma index_empty (s : string) :
  forall n, n <= String.length s -> index n "" s = Some n.
Proof.
  induction s as [|c s IH]; intros n Hn.
  - cbn [String.length] in Hn. replace n with 0 by lia. reflexivity.
  - destruct n as [|n]; [reflexivity|].
    rewrite index_cons_S, IH by (cbn [String.length] in Hn; lia). reflexivity.
Qed.

(** X5. With the empty pattern the loop of [replaceAll] never ends: the
    search finds the pattern at the cursor itself, the round puts the
    replacement in there and leaves the cursor inside the text, so after any
    number of rounds the text has grown by that many replacements and the
    next search succeeds again. *)
Theorem replaceAll_empty_pattern_never_ends (result to : string) (n : nat) :
  n <= String.length result ->
  find result "" n = Some n
  /\ n + String.length to <= String.length (replace result n (String.length "") to)
  /\ (forall fuel,
        String.length (replaceAll_loop fuel result "" to n)
        = String.length result + fuel * String.length to).
Proof.
  intros Hn. split; [apply index_empty; assumption|]. split.
  - destruct (split_at _ _ Hn) as (a & b & -> & <-).
    pose proof (replace_split a "" b to) as H. cbn [append] in H. rewrite H.
    rewrite !length_append. lia.
  - intros fuel. revert result n Hn.
    induction fuel as [|fuel IH]; intros result n Hn; [cbn; lia|].
    cbn [replaceAll_loop]. unfold find. rewrite index_empty by assumption.
    destruct (split_at _ _ Hn) as (a & b & -> & <-).
    pose proof (replace_split a "" b to) as H. cbn [append] in H. rewrite H.
    rewrite IH by (rewrite !length_append; lia).
    rewrite !length_append. lia.
Qed.

Lemma replaceAll_empty_pattern_never_ends_witness :
  0 <= String.length "abc"
  /\ find "abc" "" 0 = Some 0
  /\ 0 + String.length "xy" <= String.length (replace "abc" 0 (String.length "") "xy")
  /\ (forall fuel,
        String.length (replaceAll_loop fuel "abc" "" "xy" 0)
        = String.length "abc" + fuel * String.length "xy").
Proof.
  split; [cbn; lia|].
  apply (replaceAll_empty_pattern_never_ends "abc" "xy" 0). cbn; lia.
Defined.

End ReplaceSpec.

(** ** shrinkString: when it ends and what it returns *)

Module ShrinkSpec.
Import Str Shrink StrFacts ShrinkFacts.

Lemma last_char_none (s : string) : last_char s = None -> s = "".
Proof.
  induction s as [|c s IH]; [reflexivity|]. cbn [last_char].
  destruct s as [|d s]; [discriminate|]. intros H. apply IH in H. discriminate.
Qed.

(** X6. Whether [shrinkString] returns is decided by the last character of
    its argument alone: it returns exactly for the empty text and the texts
    that end in a newline, and on every other text the scan for the end of the
    last line reads beyond the string. The iteration bounds of the model are
    never what ends a run. *)
Theorem shrinkString_outcome (s : string) :
  ((s = "" \/ last_char s = Some newline) <-> exists r, shrinkString s = Done r)
  /\ ((exists c, last_char s = Some c /\ c <> newline) <-> shrinkString s = PastEnd)
  /\ shrinkString s <> NoFuel.
Proof.
  assert (Hcases : (s = "" \/ last_char s = Some newline)
                   \/ (exists c, last_char s = Some c /\ c <> newline)).
  { destruct (last_char s) as [c|] eqn:E.
    - destruct (Ascii.eqb_spec c newline) as [-> | Hc]; [left; right; reflexivity|].
      right. exists c. auto.
    - left. left. apply last_char_none. assumption. }
  destruct Hcases as [Hterm | (c & Hc & Hne)].
  - destruct (shrinkString_newline_terminated s Hterm) as (segs & _ & _ & Hr).
    rewrite Hr. split; [|split].
    + split; [eauto|auto].
    + split; [|discriminate]. intros (c & Hc & Hne). exfalso.
      destruct Hterm as [-> | Hl]; [discriminate|]. congruence.
    + discriminate.
  - rewrite (shrinkString_not_newline_terminated s c Hc Hne). split; [|split].
    + split; [|intros (r & Hr); discriminate].
      intros [-> | Hl]; [discriminate|]. congruence.
    + split; [reflexivity|]. intros _. exists c. auto.
    + discriminate.
Qed.

Lemma leading_stripLeading (l : string) : leading (stripLeading l) = 0.
Proof.
  induction l as [|c l IH]; [reflexivity|]. cbn [stripLeading].
  destruct (mem c (String " " (String tab ""))) eqn:E; [assumption|].
  cbn [leading]. rewrite E. reflexivity.
Qed.

Lemma mem_stripLeading (c : ascii) (l : string) :
  mem c l = false -> mem c (stripLeading l) = false.
Proof.
  induction l as [|d l IH]; [reflexivity|]. cbn [stripLeading]. intros H.
  destruct (mem d (String " " (String tab ""))); [|assumption].
  apply mem_cons_false in H. apply IH, H.
Qed.

Lemma length_stripLeading (l : string) :
  String.length (stripLeading l) + leading l = String.length l.
Proof.
  induction l as [|d l IH]; [reflexivity|]. cbn [stripLeading leading].
  destruct (mem d (String " " (String tab ""))); cbn [String.length]; lia.
Qed.

Lemma stripLeading_id (l : string) : leading l = 0 -> stripLeading l = l.
Proof.
  destruct l as [|d l]; [reflexivity|]. cbn [stripLeading leading].
  destruct (mem d (String " " (String tab ""))); [discriminate|reflexivity].
Qed.

Lemma shrunk_unlines (segs : list (string * nat)) :
  shrunk segs = unlines (map (fun seg => stripLeading (fst seg)) segs).
Proof.
  induction segs as [|[l k] segs IH]; [reflexivity|].
  cbn [shrunk map unlines fst]. rewrite IH. reflexivity.
Qed.

Lemma length_shrunk (segs : list (string * nat)) :
  String.length (shrunk segs) <= String.length (text segs).
Proof.
  induction segs as [|[l k] segs IH]; [reflexivity|].
  cbn [shrunk text]. unfold nl. rewrite !length_append, length_newlines.
  cbn [String.length]. pose proof (length_stripLeading l). lia.
Qed.

(** X7. On a text that is empty or ends in a newline, [shrinkString]
    returns a sequence of lines, each followed by one newline; no line of the
    result begins with a space or a tab, and the result is never longer than
    the argument. *)
Theorem shrinkString_result_is_compact (s : string) :
  s = "" \/ last_char s = Some newline ->
  exists ls,
    shrinkString s = Done (unlines ls)
    /\ Forall (fun l => mem newline l = false /\ leading l = 0) ls
    /\ String.length (unlines ls) <= String.length s.
Proof.
  intros Hs. destruct (shrinkString_newline_terminated s Hs) as (segs & -> & Hseg & Hr).
  exists (map (fun seg => stripLeading (fst seg)) segs).
  rewrite <- shrunk_unlines. split; [assumption|]. split; [|apply length_shrunk].
  clear Hr Hs. induction segs as [|[l k] segs IH]; [constructor|].
  destruct Hseg as (Hl & _ & Hseg). cbn [map fst]. constructor; [|auto].
  split; [apply mem_stripLeading; assumption|apply leading_stripLeading].
Qed.

Lemma shrinkString_result_is_compact_witness :
  exists ls,
    shrinkString (unlines ["  void main()"; ""; String tab "{ }"]) = Done (unlines ls)
    /\ Forall (fun l => mem newline l = false /\ leading l = 0) ls
    /\ String.length (unlines ls) <= String.length (unlines ["  void main()"; ""; String tab "{ }"]).
Proof.
  apply (shrinkString_result_is_compact (unlines ["  void main()"; ""; String tab "{ }"])).
  right. reflexivity.
Defined.

Lemma segmented_lines (ls : list string) :
  Forall Minifier.isLine ls -> segmented (map (fun l => (l, 0)) ls) "".
Proof.
  induction ls as [|l ls IH]; intros H; [exact I|].
  inversion H as [|? ? [Hne Hnl] Hls]; subst. cbn [map segmented].
  split; [assumption|]. split; [|auto].
  destruct ls as [|l' ls]; [exact I|].
  inversion Hls as [|? ? [Hne' Hnl'] _]; subst.
  destruct l' as [|c l']; [congruence|].
  apply mem_cons_false in Hnl'. destruct Hnl' as [Hc _].
  cbn [map text append starts_clean]. intros ->.
  rewrite Ascii.eqb_refl in Hc. discriminate.
Qed.

Lemma text_lines (ls : list string) : text (map (fun l => (l, 0)) ls) = unlines ls.
Proof. induction ls as [|l ls IH]; [reflexivity|]. cbn [map text unlines newlines]. rewrite IH. reflexivity. Qed.

(** X8. A text that is already compact is returned as it is: when every
    line is non-empty, begins with a character other than space and tab, and
    is followed by exactly one newline, [shrinkString] changes nothing. *)
Theorem shrinkString_compact_is_fixed (ls : list string) :
  Forall (fun l => Minifier.isLine l /\ leading l = 0) ls ->
  shrinkString (unlines ls) = Done (unlines ls).
Proof.
  intros H.
  assert (Hlines : Forall Minifier.isLine ls)
    by (eapply Forall_impl; [|exact H]; intros l [Hl _]; exact Hl).
  rewrite <- (text_lines ls) at 1.
  rewrite shrinkString_text by (apply segmented_lines; assumption).
  f_equal. rewrite shrunk_unlines, map_map. cbn [fst]. f_equal.
  clear Hlines. induction H as [|l ls [_ Hl] _ IH]; [reflexivity|].
  cbn [map]. rewrite (stripLeading_id l Hl), IH. reflexivity.
Qed.

Lemma shrinkString_compact_is_fixed_witness :
  shrinkString (unlines ["void main()"; "{ }"]) = Done (unlines ["void main()"; "{ }"]).
Proof.
  apply (shrinkString_compact_is_fixed ["void main()"; "{ }"]).
  repeat constructor; discriminate.
Defined.

End ShrinkSpec.

(** ** The minifier on arbitrary sources *)

Module MinifierSpec.
Import Str Scanner Minifier StrFacts ScannerFacts NamesFacts MinifierFacts.

(** *** The lines of a source *)

Lemma find_first_of_0_some (b : string) (c : ascii) :
  forall m,
    find_first_of b c 0 = Some m ->
    exists l rest, b = l ++ String c rest /\ String.length l = m /\ mem c l = false.
Proof.
  induction b as [|d b IH]; intros m H; [discriminate|].
  cbn [find_first_of] in H. destruct (Ascii.eqb_spec d c) as [-> | Hd].
  - injection H as <-. exists "", b. repeat split.
  - destruct (find_first_of b c 0) as [k|] eqn:E; [|discriminate].
    injection H as <-. destruct (IH k eq_refl) as (l & rest & -> & <- & Hl).
    exists (String d l), rest. repeat split. cbn [mem]. rewrite Hl, orb_false_r.
    destruct (Ascii.eqb_spec c d); [congruence|reflexivity].
Qed.

Lemma find_first_of_0_none (b : string) (c : ascii) :
  find_first_of b c 0 = None -> mem c b = false.
Proof.
  induction b as [|d b IH]; intros H; [reflexivity|].
  cbn [find_first_of] in H. destruct (Ascii.eqb_spec d c) as [-> | Hd]; [discriminate|].
  destruct (find_first_of b c 0) as [k|] eqn:E; [discriminate|].
  cbn [mem]. rewrite (IH eq_refl), orb_false_r.
  destruct (Ascii.eqb_spec c d); [congruence|reflexivity].
Qed.

Lemma splitLines_loop_lines (fuel : nat) :
  forall (sv : string) (first : nat) (acc : list string),
    Forall isLine acc -> Forall isLine (splitLines_loop fuel sv first acc).
Proof.
  induction fuel as [|fuel IH]; intros sv first acc Hacc; [assumption|].
  cbn [splitLines_loop].
  destruct (Nat.ltb_spec first (String.length sv)) as [Hlt|_]; [|assumption].
  destruct (ReplaceSpec.split_at sv first) as (a & b & -> & <-); [lia|].
  rewrite length_append in Hlt.
  rewrite <- (Nat.add_0_r (String.length a)) at 1.
  rewrite find_first_of_app_r.
  destruct (find_first_of b newline 0) as [m|] eqn:E; cbn [option_map].
  - apply IH. destruct (find_first_of_0_some _ _ _ E) as (l & rest & -> & <- & Hl).
    destruct (Nat.eqb_spec (String.length a) (String.length a + String.length l)) as [_|Hne];
      [assumption|].
    cbn [negb]. apply Forall_app. split; [assumption|]. constructor; [|constructor].
    unfold substr.
    replace (String.length a + String.length l - String.length a)
      with (String.length l) by lia.
    rewrite substring_app_mid. split; [|assumption].
    intros ->. cbn [String.length] in Hne. lia.
  - apply Forall_app. split; [assumption|]. constructor; [|constructor].
    rewrite substr_from_app. split.
    + intros ->. cbn [String.length] in Hlt. lia.
    + apply find_first_of_0_none. assumption.
Qed.

(** X9. The splitting loop of [minifyStructFields] turns every source into
    lines that are not empty and hold no newline, and it undoes the joining of
    such lines: lines that are each followed by a newline come back as they
    were. *)
Theorem splitLines_spec :
  (forall source, Forall isLine (splitLines source))
  /\ (forall ls, Forall isLine ls -> splitLines (unlines ls) = ls)
  /\ (forall source, splitLines (unlines (splitLines source)) = splitLines source).
Proof.
  assert (H : forall source, Forall isLine (splitLines source))
    by (intros source; apply splitLines_loop_lines; constructor).
  split; [exact H|]. split; [exact splitLines_unlines|].
  intros source. apply splitLines_unlines, H.
Qed.

(** *** The pieces of a text and the splitting loop *)

Lemma pieces_not_nil (s : string) : pieces s <> [].
Proof.
  induction s as [|c s IH]; cbn [pieces]; [discriminate|].
  destruct (Ascii.eqb c newline); [discriminate|].
  destruct (pieces s); discriminate.
Qed.

(** The text is its pieces joined by newlines, and no piece holds a
    newline. *)
Lemma concat_pieces (s : string) : String.concat nl (pieces s) = s.
Proof.
  induction s as [|c s IH]; [reflexivity|]. cbn [pieces].
  destruct (Ascii.eqb_spec c newline) as [-> | Hc].
  - pose proof (pieces_not_nil s) as Hne.
    destruct (pieces s) as [|p ps]; [congruence|].
    change (String.concat nl ("" :: p :: ps)) with ("" ++ nl ++ String.concat nl (p :: ps)).
    rewrite IH. reflexivity.
  - pose proof (pieces_not_nil s) as Hne.
    destruct (pieces s) as [|p ps]; [congruence|].
    destruct ps as [|q ps].
    + cbn [String.concat] in *. rewrite IH. reflexivity.
    + change (String.concat nl (String c p :: q :: ps))
        with (String c p ++ nl ++ String.concat nl (q :: ps)).
      change (String.concat nl (p :: q :: ps))
        with (p ++ nl ++ String.concat nl (q :: ps)) in IH.
      cbn [append]. rewrite IH. reflexivity.
Qed.

Lemma pieces_no_newline (s : string) :
  Forall (fun p => mem newline p = false) (pieces s).
Proof.
  induction s as [|c s IH]; cbn [pieces]; [repeat constructor|].
  destruct (Ascii.eqb_spec c newline) as [-> | Hc]; [constructor; [reflexivity|exact IH]|].
  destruct (pieces s) as [|p ps]; [repeat constructor; cbn [mem]|].
  - destruct (Ascii.eqb_spec newline c); [congruence|reflexivity].
  - inversion IH as [|? ? Hp Hps]; subst. constructor; [|assumption].
    cbn [mem]. rewrite Hp. destruct (Ascii.eqb_spec newline c); [congruence|reflexivity].
Qed.

(** The pieces are the only way to cut the text at its newlines. *)
Lemma pieces_concat (ps : list string) :
  ps <> [] ->
  Forall (fun p => mem newline p = false) ps ->
  pieces (String.concat nl ps) = ps.
Proof.
  induction ps as [|p ps IH]; intros Hne Hps; [congruence|].
  inversion Hps as [|? ? Hp Hps']; subst.
  destruct ps as [|q ps].
  - cbn [String.concat]. clear IH Hps Hps' Hne.
    induction p as [|c p IHp]; [reflexivity|].
    apply mem_cons_false in Hp. destruct Hp as [Hc Hp]. cbn [pieces].
    rewrite Ascii.eqb_sym, Hc, (IHp Hp). reflexivity.
  - change (String.concat nl (p :: q :: ps))
      with (p ++ nl ++ String.concat nl (q :: ps)).
    specialize (IH ltac:(discriminate) Hps'). clear Hps Hps' Hne. unfold nl in *.
    cbn [append]. induction p as [|c p IHp].
    + cbn [append pieces]. rewrite Ascii.eqb_refl, IH. reflexivity.
    + apply mem_cons_false in Hp. destruct Hp as [Hc Hp]. cbn [append pieces].
      rewrite Ascii.eqb_sym, Hc, (IHp Hp). reflexivity.
Qed.

Lemma splitLines_loop_concat (ps : list string) :
  forall (pre : string) (acc : list string) (fuel : nat),
    ps <> [] ->
    Forall (fun p => mem newline p = false) ps ->
    String.length (String.concat nl ps) <= fuel ->
    splitLines_loop fuel (pre ++ String.concat nl ps) (String.length pre) acc
    = (acc ++ filter (fun p => negb (String.eqb p "")) ps)%list.
Proof.
  induction ps as [|p ps IH]; intros pre acc fuel Hne Hps Hf; [congruence|].
  inversion Hps as [|? ? Hp Hps']; subst.
  destruct ps as [|q ps].
  - cbn [String.concat filter] in *.
    destruct p as [|c p].
    + cbn [String.eqb negb]. rewrite append_nil_r, app_nil_r.
      destruct fuel; cbn [splitLines_loop]; [reflexivity|].
      rewrite Nat.ltb_irrefl. reflexivity.
    + cbn [String.eqb negb].
      destruct fuel as [|fuel]; [cbn [String.length] in Hf; lia|].
      cbn [splitLines_loop].
      destruct (Nat.ltb_spec (String.length pre) (String.length (pre ++ String c p)))
        as [_|Hge]; [|rewrite length_append in Hge; cbn [String.length] in Hge; lia].
      rewrite <- (Nat.add_0_r (String.length pre)) at 1.
      rewrite find_first_of_app_r.
      destruct (find_first_of (String c p) newline 0) as [k|] eqn:E.
      * exfalso. apply find_first_of_0_some in E.
        destruct E as (l & rest & E & _ & _).
        rewrite E, mem_append in Hp. cbn [mem] in Hp.
        rewrite Ascii.eqb_refl, orb_true_r in Hp. discriminate.
      * cbn [option_map]. rewrite substr_from_app. reflexivity.
  - change (String.concat nl (p :: q :: ps))
      with (p ++ nl ++ String.concat nl (q :: ps)) in *.
    unfold nl in *. cbn [append] in *.
    rewrite !length_append in Hf. cbn [String.length] in Hf.
    destruct fuel as [|fuel]; [lia|]. cbn [splitLines_loop].
    destruct (Nat.ltb_spec (String.length pre)
                (String.length
                   (pre ++ p ++ String newline (String.concat (String newline "") (q :: ps)))))
      as [_|Hge];
      [|rewrite !length_append in Hge; cbn [String.length] in Hge; lia].
    rewrite <- (Nat.add_0_r (String.length pre)) at 1.
    rewrite find_first_of_app_r, find_first_of_skip by assumption. cbn [option_map].
    replace (pre ++ p ++ String newline (String.concat (String newline "") (q :: ps)))
      with ((pre ++ p ++ String newline "")
            ++ String.concat (String newline "") (q :: ps))
      by (rewrite !append_assoc; reflexivity).
    replace (S (String.length pre + String.length p))
      with (String.length (pre ++ p ++ String newline ""))
      by (rewrite !length_append; cbn [String.length]; lia).
    rewrite (IH _ _ fuel ltac:(discriminate) Hps') by lia.
    cbn [filter]. destruct p as [|c p].
    + cbn [String.length String.eqb negb]. rewrite Nat.add_0_r, Nat.eqb_refl.
      reflexivity.
    + cbn [String.eqb negb].
      destruct (Nat.eqb_spec (String.length pre)
                  (String.length pre + String.length (String c p)));
        [cbn [String.length] in *; lia|]. cbn [negb].
      unfold substr.
      replace (String.length pre + String.length (String c p) - String.length pre)
        with (String.length (String c p)) by lia.
      replace ((pre ++ String c p ++ String newline "")
               ++ String.concat (String newline "") (q :: ps))
        with (pre ++ String c p
              ++ String newline (String.concat (String newline "") (q :: ps)))
        by (rewrite !append_assoc; reflexivity).
      rewrite substring_app_mid, <- app_assoc. reflexivity.
Qed.

(** The lines that the splitting loop finds are the non-empty pieces of the
    source. *)
Lemma splitLines_nonEmptyPieces (source : string) :
  splitLines source = nonEmptyPieces source.
Proof.
  unfold splitLines, nonEmptyPieces.
  pose proof (splitLines_loop_concat (pieces source) "" [] (String.length source)
                (pieces_not_nil source) (pieces_no_newline source)) as H.
  rewrite concat_pieces in H. cbn [append String.length app] in H.
  apply H. lia.
Qed.

(** *** The tests of the state machine *)

Lemma index_first_occurrence (c : ascii) (p a b : string) :
  mem c a = false ->
  index 0 (String c p) (a ++ String c p ++ b) = Some (String.length a).
Proof.
  induction a as [|d a IH]; intros Ha.
  - apply (index_0_prefix (String c p) b).
  - apply mem_cons_false in Ha. destruct Ha as [Hd Ha].
    cbn [append]. rewrite index_cons_0.
    replace (prefix (String c p) (String d (a ++ String c (p ++ b)))) with false.
    + pose proof (IH Ha) as H. cbn [append] in H. rewrite H. reflexivity.
    + cbn [prefix]. destruct (ascii_dec c d) as [-> | _]; [|reflexivity].
      rewrite Ascii.eqb_refl in Hd. discriminate.
Qed.

(** X10. The test that opens a struct accepts exactly the lines in which
    the first occurrence of "uniform " is followed by an identifier that ends
    the line; what stands before that occurrence is not looked at. *)
Theorem parseStructOpen_spec (codeline typeId : string) :
  parseStructOpen codeline = Some typeId
  <-> exists a,
        codeline = a ++ "uniform " ++ typeId
        /\ find codeline "uniform " 0 = Some (String.length a)
        /\ isIdentifier typeId = true.
Proof.
  unfold parseStructOpen, consumeString. split.
  - destruct (find codeline "uniform " 0) as [m|] eqn:E; [|discriminate].
    destruct (consumeIdentifier codeline (m + String.length "uniform "))
      as [[id idx]|] eqn:Ec; [|discriminate].
    destruct (Nat.eqb_spec idx (String.length codeline)) as [Hidx|_]; [|discriminate].
    intros H. injection H as ->.
    destruct (index_split _ _ _ _ E) as (a & b & Hline & Ha & _).
    apply ScannerSpec.consumeIdentifier_inv in Ec.
    destruct Ec as (a' & b' & Hline' & Ha' & Hid & _ & Hidx').
    assert (Hb' : b' = "").
    { rewrite Hline' in Hidx. rewrite Hidx', !length_append in Hidx.
      destruct b'; [reflexivity|]. exfalso. cbn [String.length] in *. lia. }
    subst b'. rewrite append_nil_r in Hline'.
    assert (Hpre : a ++ "uniform " = a').
    { assert (H1 : (a ++ "uniform ") ++ b = a' ++ typeId)
        by (rewrite append_assoc, <- Hline, <- Hline'; reflexivity).
      apply (ScannerSpec.append_eq_length _ _ _ _ H1).
      rewrite length_append. lia. }
    exists a. subst a' m. rewrite <- append_assoc. auto.
  - intros (a & -> & Hfind & Hid). rewrite Hfind.
    pose proof (consumeIdentifier_app (a ++ "uniform ") typeId "" Hid eq_refl) as H.
    rewrite append_nil_r, append_assoc, length_append in H. rewrite H.
    rewrite !length_append, Nat.add_assoc, Nat.eqb_refl. reflexivity.
Qed.

(** X11. The test that closes a struct is looser than the pattern of a
    closing line: "} " may stand anywhere in the line, and between the
    instance name and the semicolon that ends the line anything may stand that
    holds no semicolon, an array size for instance. *)
Theorem parseStructClose_is_lax (a structName junk : string) :
  mem "}" a = false ->
  isIdentifier structName = true ->
  endsIdentifier (junk ++ ";") = true ->
  mem ";" junk = false ->
  parseStructClose (a ++ "} " ++ structName ++ junk ++ ";") = Close structName.
Proof.
  intros Ha Hid Hjunk Hsemi. unfold parseStructClose, consumeString at 1, find.
  rewrite (index_first_occurrence "}" " " a _ Ha).
  pose proof (consumeIdentifier_app (a ++ "} ") structName (junk ++ ";") Hid Hjunk) as H.
  rewrite append_assoc, length_append in H. rewrite H.
  unfold consumeString, find.
  assert (Hfind : index (String.length a + String.length "} " + String.length structName) ";"
                    (a ++ "} " ++ structName ++ junk ++ ";")
                  = Some (String.length a + String.length "} " + String.length structName
                          + String.length junk)).
  { pose proof (index_app_r (a ++ "} " ++ structName) (junk ++ ";") ";" 0) as H1.
    rewrite !length_append, Nat.add_0_r, !append_assoc, Nat.add_assoc in H1.
    rewrite H1. pose proof (index_first_char ";" junk "" Hsemi) as H2.
    cbn [append] in H2 |- *. rewrite H2. cbn [option_map]. f_equal; lia. }
  rewrite Hfind, !length_append.
  match goal with
  | |- context [Nat.eqb ?x ?y] => destruct (Nat.eqb_spec x y); [reflexivity|lia]
  end.
Qed.

Lemma parseStructClose_is_lax_witness :
  parseStructClose ("" ++ "} " ++ "lights" ++ "[4]" ++ ";") = Close "lights".
Proof. apply (parseStructClose_is_lax "" "lights" "[4]"); reflexivity. Defined.


(** *** Sources without a struct *)

Lemma iteration_nil (iteration : table -> table) :
  (forall m, Permutation (iteration m) m) -> iteration [] = [].
Proof. intros H. apply Permutation_nil, Permutation_sym, H. Qed.

Lemma scan_no_open (ls : list string) (st : scan_state) :
  Forall (fun l => parseStructOpen l = None) ls ->
  sc_state st = OUTSIDE ->
  fold_left scan_step ls st = st.
Proof.
  intros Hls Hst. induction Hls as [|l ls Hl _ IH]; [reflexivity|].
  cbn [fold_left]. unfold scan_step at 2. rewrite Hst, Hl. exact IH.
Qed.

Lemma rewrite_no_open (iteration : table -> table) (ls : list string) :
  forall (cur : string) (c : table) (res : string),
    iteration [] = [] ->
    Forall (fun l => parseStructOpen l = None) ls ->
    fold_left (rewrite_step iteration) ls (mkRewrite OUTSIDE cur [] c res)
    = mkRewrite OUTSIDE cur [] c (res ++ unlines ls).
Proof.
  induction ls as [|l ls IH]; intros cur c res Hnil Hls.
  - cbn [unlines fold_left]. rewrite append_nil_r. reflexivity.
  - inversion Hls as [|? ? Hl Hls']; subst. cbn [fold_left unlines].
    unfold rewrite_step at 2. cbn [rw_state]. rewrite Hl.
    unfold emit, applyMapping.
    cbn [rw_currentStruct rw_fieldMapping rw_currentStructToName rw_result].
    rewrite Hnil. cbn [fold_left].
    rewrite IH by assumption. rewrite !append_assoc. reflexivity.
Qed.

(** X12. A source in which no line opens a struct goes through the
    minifier unchanged but for its empty lines and the end of its last line:
    the result is the non-empty pieces of the source between its newlines,
    each followed by a newline. The pieces are fixed by the source alone:
    joined by newlines they give the source, none of them holds a newline, and
    no other list of texts without newline does the same. A source that
    already is a sequence of non-empty lines, each followed by a newline,
    comes back as it is. *)
Theorem minify_without_struct (iteration : table -> table) :
  (forall m, Permutation (iteration m) m) ->
  (forall source,
      String.concat nl (pieces source) = source
      /\ Forall (fun p => mem newline p = false) (pieces source))
  /\ (forall ps,
        ps <> [] ->
        Forall (fun p => mem newline p = false) ps ->
        pieces (String.concat nl ps) = ps)
  /\ (forall source,
        Forall (fun l => parseStructOpen l = None) (nonEmptyPieces source) ->
        minifyStructFields iteration source = unlines (nonEmptyPieces source))
  /\ (forall ls,
        Forall isLine ls ->
        Forall (fun l => parseStructOpen l = None) ls ->
        minifyStructFields iteration (unlines ls) = unlines ls).
Proof.
  intros Hperm.
  assert (H : forall source,
             Forall (fun l => parseStructOpen l = None) (splitLines source) ->
             minifyStructFields iteration source = unlines (splitLines source)).
  { intros source Hls. unfold minifyStructFields, scan.
    rewrite (scan_no_open _ scan_init Hls eq_refl). unfold scan_init.
    cbn [sc_currentStruct sc_fieldMapping sc_currentStructToName].
    rewrite (rewrite_no_open iteration _ _ _ _ (iteration_nil _ Hperm) Hls).
    reflexivity. }
  split; [intros source; split; [apply concat_pieces|apply pieces_no_newline]|].
  split; [exact pieces_concat|]. split.
  - intros source Hls. rewrite <- splitLines_nonEmptyPieces in *. apply H. exact Hls.
  - intros ls Hlines Hls. rewrite H; rewrite splitLines_unlines by assumption; auto.
Qed.

Lemma minify_without_struct_witness :
  (forall source,
      String.concat nl (pieces source) = source
      /\ Forall (fun p => mem newline p = false) (pieces source))
  /\ (forall ps,
        ps <> [] ->
        Forall (fun p => mem newline p = false) ps ->
        pieces (String.concat nl ps) = ps)
  /\ (forall source,
        Forall (fun l => parseStructOpen l = None) (nonEmptyPieces source) ->
        minifyStructFields (fun m => m) source = unlines (nonEmptyPieces source))
  /\ (forall ls,
        Forall isLine ls ->
        Forall (fun l => parseStructOpen l = None) ls ->
        minifyStructFields (fun m => m) (unlines ls) = unlines ls).
Proof.
  apply (minify_without_struct (fun m => m)). intros m. apply Permutation_refl.
Defined.

(** *** One line out for every line in *)

Lemma mem_substr_from_dot (val : string) :
  mem newline val = false -> mem newline (afterDot val) = false.
Proof.
  intros Hval. unfold afterDot, find.
  destruct (index 0 "." val) as [n|] eqn:E.
  - destruct (index_split _ _ _ _ E) as (a & b & -> & <- & _).
    replace (a ++ "." ++ b) with ((a ++ ".") ++ b) by (rewrite append_assoc; reflexivity).
    rewrite <- (length_snoc a "."), substr_from_app.
    rewrite !mem_append in Hval. apply orb_false_iff in Hval. apply Hval.
  - rewrite substr_from_0. assumption.
Qed.

Lemma replaceAll_loop_no_newline (k v : string) (fuel : nat) :
  mem newline v = false ->
  forall (l : string) (n : nat),
    mem newline l = false -> mem newline (replaceAll_loop fuel l k v n) = false.
Proof.
  intros Hv. induction fuel as [|fuel IH]; intros l n Hl; [assumption|].
  destruct (find l k n) as [m|] eqn:E.
  - destruct (ReplaceFacts.replaceAll_loop_step fuel l k v n m E)
      as (a & b & -> & _ & _ & ->).
    apply IH. rewrite !mem_append in *.
    apply orb_false_iff in Hl. destruct Hl as [Ha Hl].
    apply orb_false_iff in Hl. destruct Hl as [_ Hb].
    rewrite Ha, Hv, Hb. reflexivity.
  - cbn [replaceAll_loop]. rewrite E. assumption.
Qed.

Lemma applyMapping_no_newline (iteration : table -> table) (m : table) (l : string) :
  (forall m, Permutation (iteration m) m) ->
  Forall (fun kv => mem newline (snd kv) = false) m ->
  mem newline l = false ->
  mem newline (applyMapping iteration m l) = false.
Proof.
  intros Hperm Hm. unfold applyMapping.
  assert (Hit : Forall (fun kv => mem newline (snd kv) = false) (iteration m))
    by (eapply Permutation_Forall; [apply Permutation_sym, Hperm|exact Hm]).
  clear Hm. revert l. induction Hit as [|[k v] es Hv _ IH]; intros l Hl; [assumption|].
  cbn [fold_left fst snd] in *. apply IH. apply replaceAll_loop_no_newline; assumption.
Qed.

Lemma table_set_no_newline (m : table) (k v : string) :
  Forall (fun kv => mem newline (snd kv) = false) m ->
  mem newline v = false ->
  Forall (fun kv => mem newline (snd kv) = false) (table_set m k v).
Proof.
  intros Hm Hv. induction Hm as [|[k0 v0] m Hv0 Hm IH]; cbn [table_set].
  - constructor; [assumption|constructor].
  - destruct (String.eqb k k0); constructor; auto.
Qed.

Lemma table_index_no_newline (m : table) (k : string) :
  Forall (fun kv => mem newline (snd kv) = false) m ->
  mem newline (fst (table_index m k)) = false
  /\ Forall (fun kv => mem newline (snd kv) = false) (snd (table_index m k)).
Proof.
  intros Hm. unfold table_index. destruct (table_get m k) as [v|] eqn:E; cbn [fst snd].
  - split; [|assumption]. clear -Hm E.
    induction Hm as [|[k0 v0] m Hv0 _ IH]; [discriminate|]. cbn [table_get snd] in *.
    destruct (String.eqb k k0); [congruence|auto].
  - split; [reflexivity|]. apply table_set_no_newline; [assumption|reflexivity].
Qed.

Lemma assignFieldNames_no_newline (structNameS : string) (fields : list string) :
  forall (k : nat) (m : table),
    mem newline structNameS = false ->
    Forall (fun kv => mem newline (snd kv) = false) m ->
    Forall (fun kv => mem newline (snd kv) = false)
      (assignFieldNames structNameS fields (nameOf k) m).
Proof.
  induction fields as [|f fields IH]; intros k m Hs Hm; [assumption|].
  cbn [assignFieldNames]. rewrite nextFieldName_nameOf. apply IH; [assumption|].
  apply table_set_no_newline; [assumption|].
  rewrite !mem_append, Hs.
  rewrite (mem_allIdChars newline (nameOf k) eq_refl (UsageFacts.allIdChars_nameOf k)).
  reflexivity.
Qed.

Lemma consumeIdentifier_no_newline (codeline id : string) (pindex idx : nat) :
  mem newline codeline = false ->
  consumeIdentifier codeline pindex = Some (id, idx) ->
  mem newline id = false.
Proof.
  intros Hl H. apply ScannerSpec.consumeIdentifier_inv in H.
  destruct H as (a & b & -> & _). rewrite !mem_append in Hl.
  apply orb_false_iff in Hl. destruct Hl as [_ Hl].
  apply orb_false_iff in Hl. apply Hl.
Qed.

Lemma parseStructClose_no_newline (codeline s : string) :
  mem newline codeline = false -> parseStructClose codeline = Close s ->
  mem newline s = false.
Proof.
  intros Hl. unfold parseStructClose.
  destruct (consumeString codeline 0 "} ") as [i|]; [|discriminate].
  destruct (consumeIdentifier codeline i) as [[id j]|] eqn:E; [|discriminate].
  destruct (consumeString codeline j ";") as [j'|]; [|discriminate].
  destruct (j' =? String.length codeline)%nat; [|discriminate].
  intros H. injection H as <-. exact (consumeIdentifier_no_newline _ _ _ _ Hl E).
Qed.

Lemma parseFieldDecl_no_newline (codeline ty f : string) :
  mem newline codeline = false -> parseFieldDecl codeline = Some (ty, f) ->
  mem newline ty = false.
Proof.
  intros Hl. unfold parseFieldDecl.
  destruct (consumeIdentifier codeline 0) as [[id j]|] eqn:E; [|discriminate].
  destruct (negb (view_is codeline j " ")); [discriminate|].
  destruct (consumeIdentifier codeline (S j)) as [[id' j']|]; [|discriminate].
  destruct (negb (view_is codeline j' ";")); [discriminate|].
  destruct (negb (S j' =? String.length codeline)%nat); [discriminate|].
  intros H. injection H as <- _. exact (consumeIdentifier_no_newline _ _ _ _ Hl E).
Qed.

Lemma scan_step_no_newline (st : scan_state) (codeline : string) :
  mem newline codeline = false ->
  Forall (fun kv => mem newline (snd kv) = false) (sc_fieldMapping st) ->
  Forall (fun kv => mem newline (snd kv) = false) (sc_fieldMapping (scan_step st codeline)).
Proof.
  intros Hl Hm. unfold scan_step.
  destruct (sc_state st); [destruct (parseStructOpen codeline); assumption|assumption|].
  destruct (parseStructClose codeline) as [| |s] eqn:E.
  - destruct (parseFieldDecl codeline) as [[ty f]|]; assumption.
  - assumption.
  - cbn [sc_fieldMapping].
    apply (assignFieldNames_no_newline s (sc_fields st) 0);
      [exact (parseStructClose_no_newline _ _ Hl E)|assumption].
Qed.

Lemma scan_no_newline (ls : list string) :
  forall st,
    Forall (fun l => mem newline l = false) ls ->
    Forall (fun kv => mem newline (snd kv) = false) (sc_fieldMapping st) ->
    Forall (fun kv => mem newline (snd kv) = false)
      (sc_fieldMapping (fold_left scan_step ls st)).
Proof.
  induction ls as [|l ls IH]; intros st Hls Hm; [assumption|].
  inversion Hls as [|? ? Hl Hls']; subst. cbn [fold_left].
  apply IH; [assumption|]. apply scan_step_no_newline; assumption.
Qed.

Lemma rewrite_step_line (iteration : table -> table) (st : rewrite_state) (l : string) :
  (forall m, Permutation (iteration m) m) ->
  mem newline l = false ->
  Forall (fun kv => mem newline (snd kv) = false) (rw_fieldMapping st) ->
  exists x,
    rw_result (rewrite_step iteration st l) = rw_result st ++ (x ++ nl)
    /\ mem newline x = false
    /\ Forall (fun kv => mem newline (snd kv) = false)
         (rw_fieldMapping (rewrite_step iteration st l)).
Proof.
  intros Hperm Hl Hm. unfold rewrite_step.
  destruct (rw_state st).
  - destruct (parseStructOpen l); unfold emit; cbn [rw_result rw_fieldMapping].
    + exists l. auto.
    + exists (applyMapping iteration (rw_fieldMapping st) l).
      auto using applyMapping_no_newline.
  - unfold emit; cbn [rw_result rw_fieldMapping]. exists l. auto.
  - destruct (parseStructClose l);
      [|unfold emit; cbn [rw_result rw_fieldMapping]; exists l; auto..].
    destruct (parseFieldDecl l) as [[ty f]|] eqn:Ef;
      [|unfold emit; cbn [rw_result rw_fieldMapping]; exists l; auto].
    destruct (table_index (rw_currentStructToName st) (rw_currentStruct st))
      as [sn names].
    destruct (table_index_no_newline (rw_fieldMapping st) (sn ++ "." ++ f) Hm)
      as [Hval Hmapping].
    destruct (table_index (rw_fieldMapping st) (sn ++ "." ++ f)) as [val mapping].
    cbn [fst snd] in Hval, Hmapping.
    unfold emit; cbn [rw_result rw_fieldMapping].
    exists (ty ++ " " ++ afterDot val ++ ";"). split; [reflexivity|]. split; [|assumption].
    rewrite !mem_append, (parseFieldDecl_no_newline _ _ _ Hl Ef),
      (mem_substr_from_dot _ Hval).
    reflexivity.
Qed.

Lemma rewrite_fold_lines (iteration : table -> table) (ls : list string) :
  (forall m, Permutation (iteration m) m) ->
  forall st,
    Forall (fun l => mem newline l = false) ls ->
    Forall (fun kv => mem newline (snd kv) = false) (rw_fieldMapping st) ->
    exists ls',
      rw_result (fold_left (rewrite_step iteration) ls st) = rw_result st ++ unlines ls'
      /\ Forall (fun l => mem newline l = false) ls'
      /\ List.length ls' = List.length ls.
Proof.
  intros Hperm. induction ls as [|l ls IH]; intros st Hls Hm.
  - exists []. cbn [fold_left unlines]. rewrite append_nil_r. repeat split. constructor.
  - inversion Hls as [|? ? Hl Hls']; subst. cbn [fold_left].
    destruct (rewrite_step_line iteration st l Hperm Hl Hm) as (x & Hres & Hx & Hm').
    destruct (IH (rewrite_step iteration st l) Hls' Hm') as (ls' & -> & Hls'' & Hlen).
    exists (x :: ls'). cbn [unlines List.length]. rewrite Hres, Hlen, !append_assoc.
    repeat split. constructor; assumption.
Qed.

(** X13. Whatever the source, the minifier writes one line, followed by a
    newline, for every non-empty piece of the source between its newlines,
    and puts no newline inside a line: it neither drops nor joins nor breaks
    lines. The pieces are counted on the source itself: joined by newlines
    they give the source, and none of them holds a newline. *)
Theorem minify_keeps_lines (iteration : table -> table) (source : string) :
  (forall m, Permutation (iteration m) m) ->
  String.concat nl (pieces source) = source
  /\ Forall (fun p => mem newline p = false) (pieces source)
  /\ exists ls',
       minifyStructFields iteration source = unlines ls'
       /\ Forall (fun l => mem newline l = false) ls'
       /\ List.length ls' = List.length (nonEmptyPieces source).
Proof.
  intros Hperm. split; [apply concat_pieces|]. split; [apply pieces_no_newline|].
  rewrite <- splitLines_nonEmptyPieces. unfold minifyStructFields.
  assert (Hlines : Forall (fun l => mem newline l = false) (splitLines source)).
  { eapply Forall_impl; [|apply (splitLines_loop_lines _ source 0 []); constructor].
    intros l [_ Hl]. exact Hl. }
  destruct (rewrite_fold_lines iteration (splitLines source) Hperm
              (mkRewrite OUTSIDE (sc_currentStruct (scan (splitLines source)))
                 (sc_fieldMapping (scan (splitLines source)))
                 (sc_currentStructToName (scan (splitLines source))) "") Hlines)
    as (ls' & -> & Hls' & Hlen).
  - cbn [rw_fieldMapping]. apply scan_no_newline; [assumption|constructor].
  - exists ls'. repeat split; assumption.
Qed.

Lemma minify_keeps_lines_witness :
  String.concat nl (pieces ("a;" ++ nl ++ nl ++ "  b;")) = "a;" ++ nl ++ nl ++ "  b;"
  /\ Forall (fun p => mem newline p = false) (pieces ("a;" ++ nl ++ nl ++ "  b;"))
  /\ exists ls',
       minifyStructFields (fun m => m) ("a;" ++ nl ++ nl ++ "  b;") = unlines ls'
       /\ Forall (fun l => mem newline l = false) ls'
       /\ List.length ls' = List.length (nonEmptyPieces ("a;" ++ nl ++ nl ++ "  b;")).
Proof.
  apply (minify_keeps_lines (fun m => m) ("a;" ++ nl ++ nl ++ "  b;")).
  intros m. apply Permutation_refl.
Defined.

(** *** A struct that is never closed *)

Lemma table_get_blank (m : table) (k v : string) :
  Forall (fun kv => snd kv = "") m -> table_get m k = Some v -> v = "".
Proof.
  induction 1 as [|[k0 v0] m Hv _ IH]; [discriminate|]. cbn [table_get snd] in *.
  destruct (String.eqb k k0); [congruence|exact IH].
Qed.

Lemma table_set_blank (m : table) (k : string) :
  Forall (fun kv => snd kv = "") m -> Forall (fun kv => snd kv = "") (table_set m k "").
Proof.
  induction 1 as [|[k0 v0] m Hv Hm IH]; cbn [table_set].
  - constructor; [reflexivity|constructor].
  - destruct (String.eqb k k0); constructor; auto.
Qed.

Lemma table_index_blank (m : table) (k : string) :
  Forall (fun kv => snd kv = "") m ->
  fst (table_index m k) = "" /\ Forall (fun kv => snd kv = "") (snd (table_index m k)).
Proof.
  intros Hm. unfold table_index. destruct (table_get m k) as [v|] eqn:E; cbn [fst snd].
  - split; [exact (table_get_blank _ _ _ Hm E)|assumption].
  - split; [reflexivity|apply table_set_blank; assumption].
Qed.

Lemma scan_unclosed (body : list string) :
  forall (cur : string) (fs : list string) (m c : table),
    Forall (fun l => forall s, parseStructClose l <> Close s) body ->
    exists fs',
      fold_left scan_step body (mkScan STRUCT_DEFN cur fs m c)
      = mkScan STRUCT_DEFN cur fs' m c.
Proof.
  induction body as [|l body IH]; intros cur fs m c Hbody; [exists fs; reflexivity|].
  inversion Hbody as [|? ? Hl Hbody']; subst. cbn [fold_left].
  unfold scan_step at 2. cbn [sc_state].
  destruct (parseStructClose l) as [| |s] eqn:E; [| |exfalso; exact (Hl s eq_refl)].
  - destruct (parseFieldDecl l) as [[ty f]|];
      cbn [sc_currentStruct sc_fields sc_fieldMapping sc_currentStructToName]; auto.
  - auto.
Qed.

Lemma rewrite_step_unclosed (iteration : table -> table) (l cur : string) (m c : table)
    (res : string) :
  Forall (fun kv => snd kv = "") m ->
  Forall (fun kv => snd kv = "") c ->
  (forall s, parseStructClose l <> Close s) ->
  exists m' c',
    Forall (fun kv => snd kv = "") m'
    /\ Forall (fun kv => snd kv = "") c'
    /\ rewrite_step iteration (mkRewrite STRUCT_DEFN cur m c res) l
       = mkRewrite STRUCT_DEFN cur m' c' (res ++ (unnamed l ++ nl)).
Proof.
  intros Hm Hc Hl. unfold rewrite_step, unnamed. cbn [rw_state].
  destruct (parseStructClose l) as [| |s] eqn:E; [| |exfalso; exact (Hl s eq_refl)].
  - destruct (parseFieldDecl l) as [[ty f]|].
    + cbn [rw_currentStruct rw_fieldMapping rw_currentStructToName].
      destruct (table_index_blank c cur Hc) as [Hsn Hnames].
      destruct (table_index c cur) as [sn names]. cbn [fst snd] in Hsn, Hnames. subst sn.
      destruct (table_index_blank m ("" ++ "." ++ f) Hm) as [Hval Hmapping].
      destruct (table_index m ("" ++ "." ++ f)) as [val mapping].
      cbn [fst snd] in Hval, Hmapping. subst val.
      exists mapping, names. split; [assumption|]. split; [assumption|].
      unfold emit. cbn [rw_result]. reflexivity.
    + exists m, c. auto.
  - exists m, c. auto.
Qed.

Lemma rewrite_unclosed (iteration : table -> table) (body : list string) :
  forall (cur : string) (m c : table) (res : string),
    Forall (fun kv => snd kv = "") m ->
    Forall (fun kv => snd kv = "") c ->
    Forall (fun l => forall s, parseStructClose l <> Close s) body ->
    rw_result (fold_left (rewrite_step iteration) body (mkRewrite STRUCT_DEFN cur m c res))
    = res ++ unlines (map unnamed body).
Proof.
  induction body as [|l body IH]; intros cur m c res Hm Hc Hbody.
  - cbn [fold_left map unlines rw_result]. rewrite append_nil_r. reflexivity.
  - inversion Hbody as [|? ? Hl Hbody']; subst. cbn [fold_left map unlines].
    destruct (rewrite_step_unclosed iteration l cur m c res Hm Hc Hl)
      as (m' & c' & Hm' & Hc' & ->).
    rewrite IH by assumption. rewrite !append_assoc. reflexivity.
Qed.

Lemma isLine_openLine (typeId : string) : isIdentifier typeId = true -> isLine (openLine typeId).
Proof.
  intros H. unfold openLine. rewrite <- (append_nil_r typeId).
  apply isLine_identifier_text; auto.
Qed.

(** X14. When the line that closes a struct is never recognised (a block
    without instance name ends in a brace and a semicolon, for instance), the
    first pass records nothing, and the second pass still rewrites every line
    of the shape of a field declaration from the opening brace to the end of
    the source: the lookups in the empty tables give the empty string, and the
    declaration is written out as its type, a space and a semicolon, without
    any name. Every other line is kept. *)
Theorem unclosed_struct_loses_field_names
    (iteration : table -> table) (typeId : string) (body : list string) :
  isIdentifier typeId = true ->
  Forall (fun l => isLine l /\ forall s, parseStructClose l <> Close s) body ->
  minifyStructFields iteration (unlines (openLine typeId :: "{" :: body))
  = unlines (openLine typeId :: "{" :: map unnamed body)
  /\ (forall ty f,
        isIdentifier ty = true -> isIdentifier f = true ->
        In (fieldLine ty f) body -> In (ty ++ " ;") (map unnamed body)).
Proof.
  intros Hid Hbody.
  assert (Hlines : Forall isLine body)
    by (eapply Forall_impl; [|exact Hbody]; intros l [Hl _]; exact Hl).
  assert (Hopen : Forall (fun l => forall s, parseStructClose l <> Close s) body)
    by (eapply Forall_impl; [|exact Hbody]; intros l [_ Hl]; exact Hl).
  split.
  - unfold minifyStructFields.
    rewrite splitLines_unlines
      by (constructor; [apply isLine_openLine; assumption|];
          constructor; [split; [discriminate|reflexivity]|assumption]).
    assert (S1 : scan_step scan_init (openLine typeId) = mkScan STRUCT_OPEN typeId [] [] []).
    { unfold scan_step, scan_init. cbn [sc_state].
      rewrite (parseStructOpen_openLine _ Hid). reflexivity. }
    assert (S2 : scan_step (mkScan STRUCT_OPEN typeId [] [] []) "{"
                 = mkScan STRUCT_DEFN typeId [] [] []) by reflexivity.
    unfold scan. cbn [fold_left]. rewrite S1, S2.
    destruct (scan_unclosed body typeId [] [] [] Hopen) as (fs' & ->).
    cbn [sc_currentStruct sc_fieldMapping sc_currentStructToName].
    assert (R1 : rewrite_step iteration (mkRewrite OUTSIDE typeId [] [] "") (openLine typeId)
                 = mkRewrite STRUCT_OPEN typeId [] [] ("" ++ (openLine typeId ++ nl))).
    { unfold rewrite_step. cbn [rw_state]. rewrite (parseStructOpen_openLine _ Hid).
      reflexivity. }
    rewrite R1.
    assert (R2 : rewrite_step iteration
                   (mkRewrite STRUCT_OPEN typeId [] [] ("" ++ (openLine typeId ++ nl))) "{"
                 = mkRewrite STRUCT_DEFN typeId [] []
                     (("" ++ (openLine typeId ++ nl)) ++ ("{" ++ nl))) by reflexivity.
    rewrite R2, rewrite_unclosed by (assumption || constructor).
    cbn [unlines]. rewrite !append_assoc. reflexivity.
  - intros ty f Hty Hf Hin. apply in_map_iff. exists (fieldLine ty f). split; [|assumption].
    unfold unnamed.
    rewrite (parseStructClose_fieldLine _ _ Hty Hf), (parseFieldDecl_fieldLine _ _ Hty Hf).
    reflexivity.
Qed.

Lemma unclosed_struct_loses_field_names_witness :
  minifyStructFields (fun m => m)
    (unlines (openLine "FrameUniforms" :: "{" :: ["mat4 viewFromWorldMatrix;"; "float time;"; "};"]))
  = unlines ["uniform FrameUniforms"; "{"; "mat4 ;"; "float ;"; "};"]
  /\ (forall ty f,
        isIdentifier ty = true -> isIdentifier f = true ->
        In (fieldLine ty f) ["mat4 viewFromWorldMatrix;"; "float time;"; "};"] ->
        In (ty ++ " ;") (map unnamed ["mat4 viewFromWorldMatrix;"; "float time;"; "};"])).
Proof.
  apply (unclosed_struct_loses_field_names (fun m => m) "FrameUniforms"
           ["mat4 viewFromWorldMatrix;"; "float time;"; "};"]).
  - reflexivity.
  - constructor; [|constructor; [|constructor; [|constructor]]];
      (split; [split; [discriminate|reflexivity]|intros s; vm_compute; discriminate]).
Defined.

(** *** Fields with an array size *)

Lemma parseFieldDecl_arrayFieldLine (typeId fieldId size : string) :
  isIdentifier typeId = true ->
  isIdentifier fieldId = true ->
  parseFieldDecl (arrayFieldLine typeId fieldId size) = None.
Proof.
  intros Ht Hf. unfold parseFieldDecl, arrayFieldLine.
  pose proof (consumeIdentifier_app "" typeId (" " ++ fieldId ++ "[" ++ size ++ "];")
                Ht eq_refl) as H1.
  cbn [append String.length Nat.add] in H1 |- *. rewrite H1.
  unfold view_is. rewrite get_app_r0. cbn [append get negb Ascii.eqb Bool.eqb].
  pose proof (consumeIdentifier_app (typeId ++ " ") fieldId ("[" ++ size ++ "];")
                Hf eq_refl) as H2.
  rewrite length_append in H2. cbn [String.length] in H2.
  rewrite Nat.add_1_r in H2. rewrite append_assoc in H2. cbn [append] in H2.
  rewrite H2.
  replace (typeId ++ String " " (fieldId ++ String "[" (size ++ "];")))
    with ((typeId ++ " " ++ fieldId) ++ String "[" (size ++ "];"))
    by (rewrite !append_assoc; reflexivity).
  replace (S (String.length typeId) + String.length fieldId)
    with (String.length (typeId ++ " " ++ fieldId))
    by (rewrite !length_append; cbn [String.length]; lia).
  rewrite get_app_r0. reflexivity.
Qed.

Lemma parseStructClose_arrayFieldLine (typeId fieldId size : string) :
  isIdentifier typeId = true ->
  isIdentifier fieldId = true ->
  allIdChars size = true ->
  parseStructClose (arrayFieldLine typeId fieldId size) = NotClose.
Proof.
  intros Ht Hf Hs. unfold parseStructClose, consumeString, find.
  rewrite (index_no_char "}"); [reflexivity|reflexivity|].
  unfold arrayFieldLine. rewrite !mem_append.
  rewrite (mem_allIdChars "}" typeId), (mem_allIdChars "}" fieldId),
    (mem_allIdChars "}" size); auto using isIdentifier_allIdChars.
Qed.

Lemma isLine_arrayFieldLine (typeId fieldId size : string) :
  isIdentifier typeId = true ->
  isIdentifier fieldId = true ->
  allIdChars size = true ->
  isLine (arrayFieldLine typeId fieldId size).
Proof.
  intros Ht Hf Hs. unfold arrayFieldLine.
  change (typeId ++ " " ++ fieldId ++ "[" ++ size ++ "];")
    with ("" ++ typeId ++ " " ++ fieldId ++ "[" ++ size ++ "];").
  apply isLine_identifier_text; [reflexivity|assumption|].
  rewrite !mem_append.
  rewrite (mem_allIdChars newline fieldId), (mem_allIdChars newline size);
    auto using isIdentifier_allIdChars.
Qed.

Lemma scan_arrayFieldLines (fields : list (string * string * string)) (st : scan_state) :
  Forall (fun tfs => isIdentifier (fst (fst tfs)) = true
                     /\ isIdentifier (snd (fst tfs)) = true
                     /\ allIdChars (snd tfs) = true) fields ->
  sc_state st = STRUCT_DEFN ->
  fold_left scan_step (arrayFieldLines fields) st = st.
Proof.
  intros Hf Hst. induction Hf as [|[[ty f] n] fields (Hty & Hfd & Hn) _ IH]; [reflexivity|].
  cbn [fst snd] in *. cbn [arrayFieldLines map fold_left fst snd].
  unfold scan_step at 2. rewrite Hst.
  rewrite (parseStructClose_arrayFieldLine _ _ _ Hty Hfd Hn),
    (parseFieldDecl_arrayFieldLine _ _ _ Hty Hfd).
  exact IH.
Qed.

Lemma rewrite_arrayFieldLines (iteration : table -> table)
    (fields : list (string * string * string)) :
  forall (cur : string) (m c : table) (res : string),
    Forall (fun tfs => isIdentifier (fst (fst tfs)) = true
                       /\ isIdentifier (snd (fst tfs)) = true
                       /\ allIdChars (snd tfs) = true) fields ->
    fold_left (rewrite_step iteration) (arrayFieldLines fields)
      (mkRewrite STRUCT_DEFN cur m c res)
    = mkRewrite STRUCT_DEFN cur m c (res ++ unlines (arrayFieldLines fields)).
Proof.
  induction fields as [|[[ty f] n] fields IH]; intros cur m c res Hf.
  - cbn [arrayFieldLines map unlines fold_left]. rewrite append_nil_r. reflexivity.
  - inversion Hf as [|? ? (Hty & Hfd & Hn) Hf']; subst. cbn [fst snd] in *.
    cbn [arrayFieldLines map unlines fold_left fst snd].
    unfold rewrite_step at 2. cbn [rw_state].
    rewrite (parseStructClose_arrayFieldLine _ _ _ Hty Hfd Hn),
      (parseFieldDecl_arrayFieldLine _ _ _ Hty Hfd).
    unfold emit. cbn [rw_currentStruct rw_fieldMapping rw_currentStructToName rw_result].
    change (map (fun tfs => arrayFieldLine (fst (fst tfs)) (snd (fst tfs)) (snd tfs)) fields)
      with (arrayFieldLines fields).
    rewrite IH by assumption. rewrite !append_assoc. reflexivity.
Qed.

(** X15. A field that is declared with an array size is not minified: the
    field test wants the semicolon right behind the field name, and
    [consumeArraySize] is never called. A uniform block whose fields all have
    an array size comes back as it is, and so does every statement line behind
    it, references to the fields included. *)
Theorem array_fields_are_not_minified
    (iteration : table -> table) (typeId : string)
    (fields : list (string * string * string)) (structName : string)
    (after : list string) :
  (forall m, Permutation (iteration m) m) ->
  isIdentifier typeId = true ->
  isIdentifier structName = true ->
  Forall (fun tfs => isIdentifier (fst (fst tfs)) = true
                     /\ isIdentifier (snd (fst tfs)) = true
                     /\ allIdChars (snd tfs) = true) fields ->
  Forall (fun l => isStatementLine l = true) after ->
  minifyStructFields iteration
    (unlines (openLine typeId :: "{"
              :: arrayFieldLines fields ++ closeLine structName :: after)%list)
  = unlines (openLine typeId :: "{"
             :: arrayFieldLines fields ++ closeLine structName :: after)%list.
Proof.
  intros Hperm Hid Hs Hf Hafter. unfold minifyStructFields.
  rewrite splitLines_unlines.
  2:{ constructor; [apply isLine_openLine; assumption|].
      constructor; [split; [discriminate|reflexivity]|].
      apply Forall_app. split.
      - unfold arrayFieldLines. apply Forall_map.
        eapply Forall_impl; [|exact Hf]. intros [[ty f] n] (H1 & H2 & H3).
        apply isLine_arrayFieldLine; assumption.
      - constructor.
        + unfold closeLine. change ("} " ++ structName ++ ";") with ("} " ++ structName ++ ";").
          apply isLine_identifier_text; auto.
        + eapply Forall_impl; [|exact Hafter]. apply isLine_statement. }
  assert (S1 : scan_step scan_init (openLine typeId) = mkScan STRUCT_OPEN typeId [] [] []).
  { unfold scan_step, scan_init. cbn [sc_state].
    rewrite (parseStructOpen_openLine _ Hid). reflexivity. }
  assert (S2 : scan_step (mkScan STRUCT_OPEN typeId [] [] []) "{"
               = mkScan STRUCT_DEFN typeId [] [] []) by reflexivity.
  unfold scan. cbn [fold_left]. rewrite S1, S2, !fold_left_app.
  rewrite (scan_arrayFieldLines fields (mkScan STRUCT_DEFN typeId [] [] []) Hf eq_refl).
  cbn [fold_left].
  rewrite (scan_step_close (mkScan STRUCT_DEFN typeId [] [] []) _ structName eq_refl
             (parseStructClose_closeLine _ Hs)).
  cbn [sc_currentStruct sc_fields sc_fieldMapping sc_currentStructToName
       assignFieldNames table_set].
  rewrite (scan_statements after (mkScan OUTSIDE typeId [] [] [(typeId, structName)])
             Hafter eq_refl).
  cbn [sc_currentStruct sc_fieldMapping sc_currentStructToName].
  assert (R1 : rewrite_step iteration
                 (mkRewrite OUTSIDE typeId [] [(typeId, structName)] "") (openLine typeId)
               = mkRewrite STRUCT_OPEN typeId [] [(typeId, structName)]
                   ("" ++ (openLine typeId ++ nl))).
  { unfold rewrite_step. cbn [rw_state]. rewrite (parseStructOpen_openLine _ Hid).
    reflexivity. }
  rewrite R1.
  assert (R2 : rewrite_step iteration
                 (mkRewrite STRUCT_OPEN typeId [] [(typeId, structName)]
                    ("" ++ (openLine typeId ++ nl))) "{"
               = mkRewrite STRUCT_DEFN typeId [] [(typeId, structName)]
                   (("" ++ (openLine typeId ++ nl)) ++ ("{" ++ nl))) by reflexivity.
  rewrite R2, (rewrite_arrayFieldLines iteration fields _ _ _ _ Hf). cbn [fold_left].
  assert (R3 : forall res,
             rewrite_step iteration
               (mkRewrite STRUCT_DEFN typeId [] [(typeId, structName)] res)
               (closeLine structName)
             = mkRewrite OUTSIDE typeId [] [(typeId, structName)]
                 (res ++ (closeLine structName ++ nl))).
  { intros res. unfold rewrite_step. cbn [rw_state].
    rewrite (parseStructClose_closeLine _ Hs). reflexivity. }
  rewrite R3, (rewrite_no_open iteration after _ _ _ (iteration_nil _ Hperm)).
  - cbn [rw_result unlines append]. rewrite !unlines_app. cbn [unlines].
    rewrite !append_assoc. reflexivity.
  - eapply Forall_impl; [|exact Hafter]. apply parseStructOpen_statement.
Qed.

Lemma array_fields_are_not_minified_witness :
  minifyStructFields (fun m => m)
    (unlines (openLine "BonesUniforms" :: "{"
              :: arrayFieldLines [("vec4", "bones", "1024")] ++ closeLine "bonesUniforms"
              :: ["v = bonesUniforms.bones[i];"])%list)
  = unlines (openLine "BonesUniforms" :: "{"
             :: arrayFieldLines [("vec4", "bones", "1024")] ++ closeLine "bonesUniforms"
             :: ["v = bonesUniforms.bones[i];"])%list.
Proof.
  apply (array_fields_are_not_minified (fun m => m) "BonesUniforms"
           [("vec4", "bones", "1024")] "bonesUniforms" ["v = bonesUniforms.bones[i];"]).
  - intros m. apply Permutation_refl.
  - reflexivity.
  - reflexivity.
  - constructor; [|constructor]. repeat split.
  - constructor; [reflexivity|constructor].
Defined.

(** *** The keys of the table

    Every key that the two passes put into the table is an instance name, a
    dot and a field name: [replaceAll] is never called with an empty
    pattern. *)

Lemma table_set_dot (m : table) (k v : string) :
  Forall (fun kv => mem "." (fst kv) = true) m ->
  mem "." k = true ->
  Forall (fun kv => mem "." (fst kv) = true) (table_set m k v).
Proof.
  intros Hm Hk. induction Hm as [|[k0 v0] m Hk0 Hm IH]; cbn [table_set].
  - constructor; [assumption|constructor].
  - destruct (String.eqb k k0); constructor; auto.
Qed.

Lemma key_has_dot (s f : string) : mem "." (s ++ "." ++ f) = true.
Proof. rewrite !mem_append. cbn [mem Ascii.eqb Bool.eqb]. apply orb_true_r. Qed.

Lemma assignFieldNames_dot (s : string) (fields : list string) :
  forall (g : string) (m : table),
    Forall (fun kv => mem "." (fst kv) = true) m ->
    Forall (fun kv => mem "." (fst kv) = true) (assignFieldNames s fields g m).
Proof.
  induction fields as [|f fields IH]; intros g m Hm; [assumption|].
  cbn [assignFieldNames]. apply IH. apply table_set_dot; [assumption|apply key_has_dot].
Qed.

Lemma scan_keys_hold_a_dot (ls : list string) :
  forall st,
    Forall (fun kv => mem "." (fst kv) = true) (sc_fieldMapping st) ->
    Forall (fun kv => mem "." (fst kv) = true)
      (sc_fieldMapping (fold_left scan_step ls st)).
Proof.
  induction ls as [|l ls IH]; intros st Hm; [assumption|].
  cbn [fold_left]. apply IH. unfold scan_step.
  destruct (sc_state st); [destruct (parseStructOpen l); assumption|assumption|].
  destruct (parseStructClose l) as [| |s].
  - destruct (parseFieldDecl l) as [[ty f]|]; assumption.
  - assumption.
  - cbn [sc_fieldMapping]. apply assignFieldNames_dot. assumption.
Qed.

Lemma rewrite_keys_hold_a_dot (iteration : table -> table) (ls : list string) :
  forall st,
    Forall (fun kv => mem "." (fst kv) = true) (rw_fieldMapping st) ->
    Forall (fun kv => mem "." (fst kv) = true)
      (rw_fieldMapping (fold_left (rewrite_step iteration) ls st)).
Proof.
  induction ls as [|l ls IH]; intros st Hm; [assumption|].
  cbn [fold_left]. apply IH. unfold rewrite_step, emit.
  destruct (rw_state st); [destruct (parseStructOpen l); assumption|assumption|].
  destruct (parseStructClose l) as [| |s]; try assumption.
  destruct (parseFieldDecl l) as [[ty f]|]; [|assumption].
  destruct (table_index (rw_currentStructToName st) (rw_currentStruct st))
    as [structName names].
  unfold table_index.
  destruct (table_get (rw_fieldMapping st) (structName ++ "." ++ f)) as [v|];
    cbn [rw_fieldMapping]; [assumption|].
  apply table_set_dot; [assumption|apply key_has_dot].
Qed.

(** No call of [replaceAll] that the minifier makes has an empty pattern:
    the keys of the table of the first pass, and of the table as the second
    pass leaves it, all hold a dot. *)
Lemma minifier_patterns_are_not_empty (source : string) (iteration : table -> table) :
  Forall (fun kv => fst kv <> "")
    (sc_fieldMapping (scan (splitLines source)))
  /\ Forall (fun kv => fst kv <> "")
       (rw_fieldMapping
          (fold_left (rewrite_step iteration) (splitLines source)
             (mkRewrite OUTSIDE (sc_currentStruct (scan (splitLines source)))
                (sc_fieldMapping (scan (splitLines source)))
                (sc_currentStructToName (scan (splitLines source))) ""))).
Proof.
  assert (H : Forall (fun kv => mem "." (fst kv) = true)
                (sc_fieldMapping (scan (splitLines source))))
    by (apply scan_keys_hold_a_dot; constructor).
  split.
  - eapply Forall_impl; [|exact H]. intros [k v] Hk E. cbn [fst] in *. subst k. discriminate.
  - eapply Forall_impl;
      [|apply (rewrite_keys_hold_a_dot iteration); cbn [rw_fieldMapping]; exact H].
    intros [k v] Hk E. cbn [fst] in *. subst k. discriminate.
Qed.

End MinifierSpec.

(** ** Sources made of lines and uniform blocks *)

Module BlocksSpec.
Import Str Scanner Minifier StrFacts ScannerFacts NamesFacts MinifierFacts ReplaceFacts
  UsageFacts ScannerSpec MinifierSpec.

(** *** The tests on the lines of an item *)

Lemma forallb_true_Forall {A : Type} (f : A -> bool) (l : list A) :
  forallb f l = true -> Forall (fun x => f x = true) l.
Proof.
  induction l as [|x l IH]; cbn [forallb]; intros H; [constructor|].
  apply andb_true_iff in H. destruct H as [Hx Hl]. constructor; auto.
Qed.

Lemma isLineb_isLine (l : string) : isLineb l = true -> isLine l.
Proof.
  unfold isLineb, isLine. intros H. apply andb_true_iff in H. destruct H as [Hne Hnl].
  split.
  - intros ->. discriminate.
  - destruct (mem newline l); [discriminate|reflexivity].
Qed.

Lemma isLine_isLineb (l : string) : isLine l -> isLineb l = true.
Proof.
  unfold isLineb, isLine. intros [Hne Hnl]. rewrite Hnl.
  destruct (String.eqb_spec l ""); [contradiction|reflexivity].
Qed.

Lemma wfItem_Line (l : string) :
  wfItem (Line l) = true -> isLine l /\ parseStructOpen l = None.
Proof.
  cbn [wfItem]. unfold opens. intros H. apply andb_true_iff in H. destruct H as [Hl Ho].
  split; [apply isLineb_isLine; assumption|].
  destruct (parseStructOpen l); [discriminate|reflexivity].
Qed.

Lemma opensType_inv (open typeId : string) :
  opensType open typeId = true -> isLine open /\ parseStructOpen open = Some typeId.
Proof.
  unfold opensType. intros H. apply andb_true_iff in H. destruct H as [Hl Ho].
  split; [apply isLineb_isLine; assumption|].
  destruct (parseStructOpen open) as [t|]; [|discriminate].
  apply String.eqb_eq in Ho. subst t. reflexivity.
Qed.

Lemma wfItem_Block (open typeId : string) (body : list bodyLine) (close structName : string) :
  wfItem (Block open typeId body close structName) = true ->
  isLine open /\ parseStructOpen open = Some typeId
  /\ forallb wfBodyLine body = true
  /\ isLine close /\ parseStructClose close = Close structName.
Proof.
  cbn [wfItem]. intros H.
  apply andb_true_iff in H. destruct H as [H Hclose].
  apply andb_true_iff in H. destruct H as [H Hcl].
  apply andb_true_iff in H. destruct H as [Hopen Hbody].
  apply opensType_inv in Hopen. destruct Hopen as [Hop Hopen].
  split; [exact Hop|]. split; [exact Hopen|]. split; [exact Hbody|].
  split; [apply isLineb_isLine; exact Hcl|].
  destruct (parseStructClose close) as [| |s]; try discriminate.
  apply String.eqb_eq in Hclose. subst s. reflexivity.
Qed.

Lemma isOpenBrace_true (l : string) : isOpenBrace l = true -> l = "{".
Proof.
  unfold isOpenBrace. destruct l as [|c l]; [discriminate|]. cbn [get].
  intros H. apply andb_true_iff in H. destruct H as [Hc Hl].
  apply Ascii.eqb_eq in Hc. subst c. cbn [String.length] in Hl.
  destruct l; [reflexivity|discriminate].
Qed.

Lemma wfItem_Aborted (open typeId next : string) :
  wfItem (Aborted open typeId next) = true ->
  isLine open /\ parseStructOpen open = Some typeId
  /\ isLine next /\ isOpenBrace next = false.
Proof.
  cbn [wfItem]. intros H.
  apply andb_true_iff in H. destruct H as [H Hbrace].
  apply andb_true_iff in H. destruct H as [Hopen Hnext].
  apply opensType_inv in Hopen. destruct Hopen as [Hop Hopen].
  split; [exact Hop|]. split; [exact Hopen|].
  split; [apply isLineb_isLine; exact Hnext|].
  apply negb_true_iff. exact Hbrace.
Qed.

Lemma isOther_inv (l : string) :
  isOther l = true ->
  isLine l
  /\ (parseStructClose l = BadClose
      \/ (parseStructClose l = NotClose /\ parseFieldDecl l = None)).
Proof.
  unfold isOther. intros H. apply andb_true_iff in H. destruct H as [Hl H].
  split; [apply isLineb_isLine; assumption|].
  destruct (parseStructClose l); [right|left; reflexivity|discriminate].
  destruct (parseFieldDecl l); [discriminate|auto].
Qed.

Lemma isLine_bodyText (b : bodyLine) : wfBodyLine b = true -> isLine (bodyText b).
Proof.
  destruct b as [ty f|l]; cbn [wfBodyLine bodyText]; intros H.
  - apply andb_true_iff in H. destruct H as [Ht Hf]. apply isLine_fieldLine; assumption.
  - apply isOther_inv in H. tauto.
Qed.

Lemma isLine_itemLines (it : item) : wfItem it = true -> Forall isLine (itemLines it).
Proof.
  destruct it as [l|open t body close s|open t next]; intros H.
  - apply wfItem_Line in H. constructor; [tauto|constructor].
  - apply wfItem_Block in H. destruct H as (Ho & _ & Hb & Hc & _). cbn [itemLines].
    constructor; [assumption|]. constructor; [split; [discriminate|reflexivity]|].
    apply Forall_app. split; [|constructor; [assumption|constructor]].
    apply Forall_map. apply forallb_true_Forall in Hb.
    eapply Forall_impl; [|exact Hb]. intros b. apply isLine_bodyText.
  - apply wfItem_Aborted in H. destruct H as (Ho & _ & Hn & _). cbn [itemLines].
    constructor; [exact Ho|]. constructor; [exact Hn|constructor].
Qed.

Lemma isLine_sourceLines (items : list item) :
  forallb wfItem items = true -> Forall isLine (sourceLines items).
Proof.
  intros H. unfold sourceLines. apply Forall_flat_map.
  apply forallb_true_Forall in H.
  eapply Forall_impl; [|exact H]. intros it. apply isLine_itemLines.
Qed.

(** *** The scan pass on an item *)

Lemma scan_body (body : list bodyLine) :
  forall (cur : string) (fs : list string) (m c : table),
    forallb wfBodyLine body = true ->
    fold_left scan_step (map bodyText body) (mkScan STRUCT_DEFN cur fs m c)
    = mkScan STRUCT_DEFN cur (fs ++ fieldsOf body)%list m c.
Proof.
  induction body as [|b body IH]; intros cur fs m c Hb.
  - cbn [map fold_left fieldsOf flat_map]. rewrite app_nil_r. reflexivity.
  - cbn [forallb] in Hb. apply andb_true_iff in Hb. destruct Hb as [Hb Hbody].
    cbn [map fold_left]. unfold scan_step at 2. cbn [sc_state].
    change (fieldsOf (b :: body))
      with ((match b with Field _ f => [f] | Other _ => [] end) ++ fieldsOf body)%list.
    destruct b as [ty f|l]; cbn [wfBodyLine bodyText] in *.
    + apply andb_true_iff in Hb. destruct Hb as [Hty Hf].
      rewrite (parseStructClose_fieldLine _ _ Hty Hf), (parseFieldDecl_fieldLine _ _ Hty Hf).
      cbn [sc_currentStruct sc_fields sc_fieldMapping sc_currentStructToName].
      rewrite IH by assumption. rewrite <- app_assoc. reflexivity.
    + apply isOther_inv in Hb. destruct Hb as [_ [Hc | [Hc Hf]]]; rewrite Hc; [|rewrite Hf];
        rewrite IH by assumption; reflexivity.
Qed.

Lemma scan_Block (open typeId : string) (body : list bodyLine) (close structName : string)
    (cur : string) (m c : table) :
  wfItem (Block open typeId body close structName) = true ->
  fold_left scan_step (itemLines (Block open typeId body close structName))
    (mkScan OUTSIDE cur [] m c)
  = mkScan OUTSIDE typeId []
      (assignFieldNames structName (fieldsOf body) "a" m)
      (table_set c typeId structName).
Proof.
  intros H. apply wfItem_Block in H. destruct H as (_ & Ho & Hb & _ & Hc).
  cbn [itemLines fold_left]. unfold scan_step at 3. cbn [sc_state]. rewrite Ho.
  cbn [sc_fields sc_fieldMapping sc_currentStructToName].
  unfold scan_step at 2. cbn [sc_state].
  change (nextState_STRUCT_OPEN "{") with STRUCT_DEFN.
  cbn [sc_currentStruct sc_fields sc_fieldMapping sc_currentStructToName].
  rewrite fold_left_app, (scan_body _ _ _ _ _ Hb). cbn [fold_left app].
  rewrite (scan_step_close (mkScan STRUCT_DEFN typeId (fieldsOf body) m c) _
             structName eq_refl Hc).
  reflexivity.
Qed.

(** Outside a struct definition no field is on record. *)
Lemma scan_step_no_fields (st : scan_state) (l : string) :
  (sc_state st <> STRUCT_DEFN -> sc_fields st = []) ->
  sc_state (scan_step st l) <> STRUCT_DEFN -> sc_fields (scan_step st l) = [].
Proof.
  intros Hinv. unfold scan_step. destruct (sc_state st) eqn:Est.
  - destruct (parseStructOpen l); cbn [sc_state sc_fields]; intros _;
      apply Hinv; congruence.
  - cbn [sc_state sc_fields]. intros _. apply Hinv. congruence.
  - destruct (parseStructClose l).
    + destruct (parseFieldDecl l) as [[ty f]|]; cbn [sc_state]; [congruence|].
      rewrite Est. congruence.
    + rewrite Est. congruence.
    + reflexivity.
Qed.

Lemma scan_no_fields (ls : list string) :
  forall st,
    (sc_state st <> STRUCT_DEFN -> sc_fields st = []) ->
    sc_state (fold_left scan_step ls st) <> STRUCT_DEFN ->
    sc_fields (fold_left scan_step ls st) = [].
Proof.
  induction ls as [|l ls IH]; intros st Hinv; [exact Hinv|].
  cbn [fold_left]. apply IH. apply scan_step_no_fields. exact Hinv.
Qed.

Lemma scan_outside (ls : list string) :
  sc_state (scan ls) = OUTSIDE ->
  scan ls = mkScan OUTSIDE (sc_currentStruct (scan ls)) [] (sc_fieldMapping (scan ls))
              (sc_currentStructToName (scan ls)).
Proof.
  intros H.
  assert (Hf : sc_fields (scan ls) = []).
  { apply scan_no_fields; [reflexivity|]. fold (scan ls). congruence. }
  destruct (scan ls) as [st cur fs m c]. cbn in *. subst. reflexivity.
Qed.

(** C7, amended. Take a struct whose opening line the first pass reads
    outside any struct definition: every struct opened before it has been
    closed by a line that the closing test accepted. When the pass closes
    this struct, the field that was recorded for it at position [i] (counted
    from 0, and taken at its last occurrence) is mapped to the instance name,
    a dot, and name number [i] of the sequence that starts again at a for
    this struct, whatever stands before it: the letter number [i mod 26]
    followed by [i / 26] letters z. So the first 26 names are the single
    letters a to z and the next 26 are az, bz, up to zz. After the struct the
    pass is outside any struct definition again, so that the same holds for
    the struct that follows. *)
Theorem names_start_at_a_in_every_struct
    (before : list string) (open typeId : string) (body : list bodyLine)
    (close structName : string) (i : nat) (fieldId : string) :
  sc_state (scan before) = OUTSIDE ->
  wfItem (Block open typeId body close structName) = true ->
  nth_error (fieldsOf body) i = Some fieldId ->
  (forall j, i < j -> nth_error (fieldsOf body) j <> Some fieldId) ->
  table_get
    (sc_fieldMapping
       (scan (before ++ itemLines (Block open typeId body close structName))))
    (structName ++ "." ++ fieldId)
  = Some (structName ++ "." ++ nameOf i)
  /\ sc_state (scan (before ++ itemLines (Block open typeId body close structName)))
     = OUTSIDE
  /\ nth_error (generatedNames (List.length (fieldsOf body)) "a") i = Some (nameOf i)
  /\ (i < 26 -> nameOf i = String (letter i) "")
  /\ (26 <= i < 52 -> nameOf i = String (letter (i - 26)) "z").
Proof.
  intros Hout Hwf Hi Hlast. unfold scan at 1 2. rewrite fold_left_app.
  fold (scan before). rewrite (scan_outside before Hout).
  rewrite (scan_Block _ _ _ _ _ _ _ _ Hwf). cbn [sc_fieldMapping sc_state].
  split; [|split; [reflexivity|split; [|split]]].
  - rewrite (assignFieldNames_last _ _ _ _ _ _ Hi Hlast), iter_nextFieldName. reflexivity.
  - rewrite generatedNames_closed_form.
    assert (Hlt : i < List.length (fieldsOf body)) by (apply nth_error_Some; congruence).
    rewrite (nth_error_map nameOf), nth_error_seq.
    destruct (Nat.ltb_spec i (List.length (fieldsOf body))); [reflexivity|lia].
  - intros H. unfold nameOf. rewrite Nat.mod_small, Nat.div_small by assumption.
    reflexivity.
  - intros H. unfold nameOf.
    assert (Hq : i / 26 = 1) by (symmetry; apply (Nat.div_unique _ _ _ (i - 26)); lia).
    assert (Hm : i mod 26 = i - 26) by (symmetry; apply (Nat.mod_unique _ _ 1); lia).
    rewrite Hq, Hm. reflexivity.
Qed.

Lemma names_start_at_a_in_every_struct_witness :
  table_get
    (sc_fieldMapping
       (scan (["#version 300 es"; "uniform Light"; "{"; "float intensity;"; "} lightBlock;"]
              ++ itemLines
                   (Block "layout(std140) uniform ObjectUniforms" "ObjectUniforms"
                      [Field "mat4" "worldFromModelMatrix"; Other "vec4 bones[4];";
                       Field "float" "time"]
                      "} objectUniforms;" "objectUniforms"))))
    ("objectUniforms" ++ "." ++ "time")
  = Some ("objectUniforms" ++ "." ++ nameOf 1)
  /\ sc_state
       (scan (["#version 300 es"; "uniform Light"; "{"; "float intensity;"; "} lightBlock;"]
              ++ itemLines
                   (Block "layout(std140) uniform ObjectUniforms" "ObjectUniforms"
                      [Field "mat4" "worldFromModelMatrix"; Other "vec4 bones[4];";
                       Field "float" "time"]
                      "} objectUniforms;" "objectUniforms")))
     = OUTSIDE
  /\ nth_error
       (generatedNames
          (List.length
             (fieldsOf [Field "mat4" "worldFromModelMatrix"; Other "vec4 bones[4];";
                        Field "float" "time"])) "a") 1
     = Some (nameOf 1)
  /\ (1 < 26 -> nameOf 1 = String (letter 1) "")
  /\ (26 <= 1 < 52 -> nameOf 1 = String (letter (1 - 26)) "z").
Proof.
  apply (names_start_at_a_in_every_struct
           ["#version 300 es"; "uniform Light"; "{"; "float intensity;"; "} lightBlock;"]
           "layout(std140) uniform ObjectUniforms" "ObjectUniforms"
           [Field "mat4" "worldFromModelMatrix"; Other "vec4 bones[4];";
            Field "float" "time"]
           "} objectUniforms;" "objectUniforms" 1 "time").
  - reflexivity.
  - reflexivity.
  - reflexivity.
  - intros [|[|j]] Hj; [lia | lia | destruct j; discriminate].
Defined.

(** After a struct whose closing line the closing test did not accept, the
    fields of the next struct are recorded behind the fields of the first:
    the only field of the second struct gets the name b. *)
Lemma names_continue_after_an_unclosed_struct :
  sc_state (scan ["uniform A"; "{"; "float x;"; "};"]) = STRUCT_DEFN
  /\ table_get (sc_fieldMapping (scan unclosedThenBlock)) "b.y" = Some "b.b".
Proof. split; vm_compute; reflexivity. Qed.

(** *** The first pass on a source made of items *)

Lemma sourceLines_cons (it : item) (items : list item) :
  sourceLines (it :: items) = (itemLines it ++ sourceLines items)%list.
Proof. reflexivity. Qed.

Lemma scan_Aborted (open typeId next cur : string) (m c : table) :
  wfItem (Aborted open typeId next) = true ->
  fold_left scan_step (itemLines (Aborted open typeId next)) (mkScan OUTSIDE cur [] m c)
  = mkScan OUTSIDE typeId [] m c.
Proof.
  intros H. apply wfItem_Aborted in H. destruct H as (_ & Ho & _ & Hb).
  cbn [itemLines fold_left]. unfold scan_step. cbn [sc_state]. rewrite Ho.
  cbn [sc_state sc_currentStruct sc_fields sc_fieldMapping sc_currentStructToName].
  unfold nextState_STRUCT_OPEN. rewrite Hb. reflexivity.
Qed.

Lemma scan_items (items : list item) :
  forall (cur : string) (m c : table),
    forallb wfItem items = true ->
    exists cur',
      fold_left scan_step (sourceLines items) (mkScan OUTSIDE cur [] m c)
      = mkScan OUTSIDE cur' [] (fold_left assignItem items m) (fold_left nameItem items c).
Proof.
  induction items as [|it items IH]; intros cur m c Hwf.
  - exists cur. reflexivity.
  - cbn [forallb] in Hwf. apply andb_true_iff in Hwf. destruct Hwf as [Hit Hwf].
    rewrite sourceLines_cons, fold_left_app. cbn [fold_left].
    destruct it as [l|open t body close s|open t next].
    + apply wfItem_Line in Hit. destruct Hit as [_ Ho].
      cbn [itemLines fold_left]. unfold scan_step at 2. cbn [sc_state]. rewrite Ho.
      apply IH. assumption.
    + rewrite (scan_Block _ _ _ _ _ _ _ _ Hit). apply IH. assumption.
    + rewrite (scan_Aborted _ _ _ _ _ _ Hit). apply IH. assumption.
Qed.

(** *** The second pass on a source made of items *)

Lemma rewrite_body (iteration : table -> table) (body : list bodyLine) :
  forall (cur s : string) (fm nm : table) (res : string),
    forallb wfBodyLine body = true ->
    table_get nm cur = Some s ->
    (forall f, In f (fieldsOf body) -> table_get fm (s ++ "." ++ f) <> None) ->
    fold_left (rewrite_step iteration) (map bodyText body)
      (mkRewrite STRUCT_DEFN cur fm nm res)
    = mkRewrite STRUCT_DEFN cur fm nm
        (res ++ unlines (map bodyText (renameBody fm s body))).
Proof.
  induction body as [|b body IH]; intros cur s fm nm res Hb Hnm Hfm.
  - cbn [map renameBody unlines fold_left]. rewrite append_nil_r. reflexivity.
  - cbn [forallb] in Hb. apply andb_true_iff in Hb. destruct Hb as [Hb Hbody].
    cbn [map renameBody fold_left unlines]. unfold rewrite_step at 2. cbn [rw_state].
    assert (Hfm' : forall f, In f (fieldsOf body) -> table_get fm (s ++ "." ++ f) <> None).
    { intros f Hf. apply Hfm. unfold fieldsOf. cbn [flat_map]. apply in_or_app. right.
      exact Hf. }
    destruct b as [ty f|l]; cbn [wfBodyLine bodyText] in *.
    + apply andb_true_iff in Hb. destruct Hb as [Hty Hf].
      rewrite (parseStructClose_fieldLine _ _ Hty Hf), (parseFieldDecl_fieldLine _ _ Hty Hf).
      cbn [rw_currentStruct rw_fieldMapping rw_currentStructToName rw_result].
      rewrite (table_index_present _ _ _ Hnm).
      assert (Hget : table_get fm (s ++ "." ++ f) <> None)
        by (apply Hfm; unfold fieldsOf; cbn [flat_map app In]; left; reflexivity).
      unfold shortName.
      destruct (table_get fm (s ++ "." ++ f)) as [v|] eqn:E; [|congruence].
      rewrite (table_index_present _ _ _ E).
      unfold emit. cbn [rw_result].
      fold (renameBody fm s body).
      rewrite (IH cur s fm nm _ Hbody Hnm Hfm').
      unfold fieldLine. rewrite !append_assoc. reflexivity.
    + apply isOther_inv in Hb. destruct Hb as [_ [Hc | [Hc Hf]]]; rewrite Hc; [|rewrite Hf];
        unfold emit;
        cbn [rw_currentStruct rw_fieldMapping rw_currentStructToName rw_result];
        fold (renameBody fm s body);
        rewrite (IH cur s fm nm _ Hbody Hnm Hfm'); rewrite !append_assoc; reflexivity.
Qed.

Lemma rewrite_Block (iteration : table -> table) (open t : string)
    (body : list bodyLine) (close s cur : string) (fm nm : table) (res : string) :
  wfItem (Block open t body close s) = true ->
  table_get nm t = Some s ->
  (forall f, In f (fieldsOf body) -> table_get fm (s ++ "." ++ f) <> None) ->
  fold_left (rewrite_step iteration) (itemLines (Block open t body close s))
    (mkRewrite OUTSIDE cur fm nm res)
  = mkRewrite OUTSIDE t fm nm
      (res ++ unlines (itemLines (Block open t (renameBody fm s body) close s))).
Proof.
  intros Hit Hnm Hfm.
  apply wfItem_Block in Hit. destruct Hit as (_ & Ho & Hb & _ & Hc).
  cbn [itemLines fold_left]. unfold rewrite_step at 3. cbn [rw_state].
  rewrite Ho. unfold emit at 1.
  cbn [rw_currentStruct rw_fieldMapping rw_currentStructToName rw_result].
  unfold rewrite_step at 2. cbn [rw_state].
  change (nextState_STRUCT_OPEN "{") with STRUCT_DEFN. unfold emit at 1.
  cbn [rw_currentStruct rw_fieldMapping rw_currentStructToName rw_result].
  rewrite fold_left_app, (rewrite_body iteration body t s fm nm _ Hb Hnm Hfm).
  cbn [fold_left]. unfold rewrite_step. cbn [rw_state]. rewrite Hc.
  unfold emit.
  cbn [rw_currentStruct rw_fieldMapping rw_currentStructToName rw_result].
  f_equal. cbn [unlines]. rewrite unlines_app. cbn [unlines].
  rewrite !append_assoc. reflexivity.
Qed.

Lemma rewrite_Aborted (iteration : table -> table) (open typeId next cur : string)
    (fm nm : table) (res : string) :
  wfItem (Aborted open typeId next) = true ->
  fold_left (rewrite_step iteration) (itemLines (Aborted open typeId next))
    (mkRewrite OUTSIDE cur fm nm res)
  = mkRewrite OUTSIDE typeId fm nm (res ++ unlines (itemLines (Aborted open typeId next))).
Proof.
  intros H. apply wfItem_Aborted in H. destruct H as (_ & Ho & _ & Hb).
  cbn [itemLines fold_left]. unfold rewrite_step, emit. cbn [rw_state]. rewrite Ho.
  cbn [rw_state rw_currentStruct rw_fieldMapping rw_currentStructToName rw_result].
  unfold nextState_STRUCT_OPEN. rewrite Hb. f_equal. cbn [unlines].
  rewrite !append_assoc. reflexivity.
Qed.

Lemma rewrite_items (iteration : table -> table) (items : list item) :
  forall (cur : string) (fm nm : table) (res : string),
    forallb wfItem items = true ->
    (forall open t body close s,
        In (Block open t body close s) items ->
        table_get nm t = Some s
        /\ forall f, In f (fieldsOf body) -> table_get fm (s ++ "." ++ f) <> None) ->
    exists cur',
      fold_left (rewrite_step iteration) (sourceLines items)
        (mkRewrite OUTSIDE cur fm nm res)
      = mkRewrite OUTSIDE cur' fm nm
          (res ++ unlines (sourceLines (map (renameItem iteration fm) items))).
Proof.
  induction items as [|it items IH]; intros cur fm nm res Hwf Hlinked.
  - exists cur. cbn [sourceLines flat_map map fold_left unlines].
    rewrite append_nil_r. reflexivity.
  - cbn [forallb] in Hwf. apply andb_true_iff in Hwf. destruct Hwf as [Hit Hwf].
    cbn [map]. rewrite !sourceLines_cons, fold_left_app, unlines_app.
    assert (Hlinked' : forall open t body close s,
               In (Block open t body close s) items ->
               table_get nm t = Some s
               /\ forall f, In f (fieldsOf body) -> table_get fm (s ++ "." ++ f) <> None)
      by (intros; apply (Hlinked open t body close s); right; assumption).
    destruct it as [l|open t body close s|open t next].
    + apply wfItem_Line in Hit. destruct Hit as [_ Ho].
      cbn [itemLines renameItem fold_left unlines]. unfold rewrite_step at 2.
      cbn [rw_state]. rewrite Ho. unfold emit.
      cbn [rw_currentStruct rw_fieldMapping rw_currentStructToName rw_result].
      destruct (IH cur fm nm (res ++ applyMapping iteration fm l ++ nl) Hwf Hlinked')
        as [cur' ->].
      exists cur'. rewrite !append_assoc. cbn [append]. reflexivity.
    + destruct (Hlinked open t body close s (or_introl eq_refl)) as [Hnm Hfm].
      rewrite (rewrite_Block iteration _ _ _ _ _ cur fm nm res Hit Hnm Hfm).
      destruct (IH t fm nm
                  (res ++ unlines (itemLines (Block open t (renameBody fm s body) close s)))
                  Hwf Hlinked') as [cur' ->].
      exists cur'. cbn [renameItem]. rewrite !append_assoc. reflexivity.
    + rewrite (rewrite_Aborted iteration _ _ _ cur fm nm res Hit).
      destruct (IH t fm nm (res ++ unlines (itemLines (Aborted open t next))) Hwf Hlinked')
        as [cur' ->].
      exists cur'. cbn [renameItem]. rewrite !append_assoc. reflexivity.
Qed.

(** *** The two tables after the first pass *)

Lemma distinct_cons (x : string) (l : list string) :
  distinct (x :: l) = true -> ~ In x l /\ distinct l = true.
Proof.
  cbn [distinct]. intros H. apply andb_true_iff in H. destruct H as [Hx Hl].
  split; [|assumption]. intros Hin.
  assert (E : existsb (String.eqb x) l = true).
  { apply existsb_exists. exists x. split; [assumption|apply String.eqb_refl]. }
  rewrite E in Hx. discriminate.
Qed.

Lemma names_other (items : list item) :
  forall (c : table) (t : string),
    ~ In t (typesOf items) ->
    table_get (fold_left nameItem items c) t = table_get c t.
Proof.
  induction items as [|it items IH]; intros c t Hin; [reflexivity|].
  cbn [fold_left]. destruct it as [l|open t0 body close s0|open t0 next]; cbn [nameItem].
  - apply IH. exact Hin.
  - unfold typesOf in Hin. cbn [flat_map app In] in Hin.
    rewrite IH by (intros H; apply Hin; right; exact H).
    apply table_get_set_other. intros ->. apply Hin. left. reflexivity.
  - apply IH. exact Hin.
Qed.

Lemma names_get (items : list item) :
  forall (c : table) (open t : string) (body : list bodyLine) (close s : string),
    distinct (typesOf items) = true ->
    In (Block open t body close s) items ->
    table_get (fold_left nameItem items c) t = Some s.
Proof.
  induction items as [|it items IH]; intros c open t body close s Hd Hin; [contradiction|].
  cbn [fold_left]. destruct Hin as [-> | Hin].
  - cbn [nameItem]. unfold typesOf in Hd. cbn [flat_map app] in Hd.
    apply distinct_cons in Hd. destruct Hd as [Hnotin _].
    rewrite names_other by exact Hnotin. apply table_get_set_same.
  - apply (IH _ open t body close s); [|assumption].
    destruct it as [l|open0 t0 body0 close0 s0|open0 t0 next0]; [exact Hd| |exact Hd].
    unfold typesOf in Hd. cbn [flat_map app] in Hd. apply distinct_cons in Hd. tauto.
Qed.

Lemma table_set_keeps (m : table) (k k' v : string) :
  table_get m k <> None -> table_get (table_set m k' v) k <> None.
Proof.
  intros H. destruct (string_dec k k') as [-> | Hne].
  - rewrite table_get_set_same. discriminate.
  - rewrite table_get_set_other by assumption. exact H.
Qed.

Lemma assignFieldNames_keeps (s : string) (fs : list string) :
  forall (g : string) (m : table) (k : string),
    table_get m k <> None -> table_get (assignFieldNames s fs g m) k <> None.
Proof.
  induction fs as [|f fs IH]; intros g m k H; [exact H|].
  cbn [assignFieldNames]. apply IH. apply table_set_keeps. exact H.
Qed.

Lemma assignFieldNames_sets (s : string) (fs : list string) :
  forall (g : string) (m : table) (f : string),
    In f fs -> table_get (assignFieldNames s fs g m) (s ++ "." ++ f) <> None.
Proof.
  induction fs as [|f0 fs IH]; intros g m f Hin; [contradiction|].
  cbn [assignFieldNames]. destruct Hin as [-> | Hin].
  - apply assignFieldNames_keeps. rewrite table_get_set_same. discriminate.
  - apply IH. exact Hin.
Qed.

Lemma assignItems_keeps (items : list item) :
  forall (m : table) (k : string),
    table_get m k <> None -> table_get (fold_left assignItem items m) k <> None.
Proof.
  induction items as [|it items IH]; intros m k H; [exact H|].
  cbn [fold_left]. apply IH.
  destruct it as [l|open t body close s|open t next]; cbn [assignItem];
    [exact H| |exact H]. apply assignFieldNames_keeps. exact H.
Qed.

Lemma assignItems_sets (items : list item) :
  forall (m : table) (open t : string) (body : list bodyLine) (close s f : string),
    In (Block open t body close s) items ->
    In f (fieldsOf body) ->
    table_get (fold_left assignItem items m) (s ++ "." ++ f) <> None.
Proof.
  induction items as [|it items IH]; intros m open t body close s f Hin Hf; [contradiction|].
  cbn [fold_left]. destruct Hin as [-> | Hin].
  - apply assignItems_keeps. cbn [assignItem]. apply assignFieldNames_sets. exact Hf.
  - apply (IH _ open t body close s f); assumption.
Qed.


(** *** The entries of the table *)

Lemma nameOf_0 : nameOf 0 = "a".
Proof. reflexivity. Qed.

Lemma assignFieldNames_set_all (s : string) (fs : list string) :
  forall (k : nat) (m : table),
    assignFieldNames s fs (nameOf k) m = table_set_all m (tableFrom k s fs).
Proof.
  induction fs as [|f fs IH]; intros k m; [reflexivity|].
  cbn [assignFieldNames tableFrom]. unfold table_set_all. cbn [fold_left fst snd].
  rewrite nextFieldName_nameOf, IH. reflexivity.
Qed.

Lemma table_set_all_app (m : table) (A B : list (string * string)) :
  table_set_all m (A ++ B)%list = table_set_all (table_set_all m A) B.
Proof. unfold table_set_all. apply fold_left_app. Qed.

Lemma assignItems_set_all (items : list item) :
  forall m, fold_left assignItem items m = table_set_all m (assignments items).
Proof.
  induction items as [|it items IH]; intros m; [reflexivity|].
  cbn [fold_left]. unfold assignments. cbn [flat_map]. fold (assignments items).
  rewrite table_set_all_app, IH.
  destruct it as [l|open t body close s|open t next]; cbn [assignItem].
  - reflexivity.
  - rewrite <- nameOf_0, assignFieldNames_set_all. reflexivity.
  - reflexivity.
Qed.

Lemma tableOf_set_all (items : list item) :
  tableOf items = table_set_all [] (assignments items).
Proof. apply assignItems_set_all. Qed.

Lemma table_get_set_all_snoc (m : table) (A : list (string * string)) (k v X : string) :
  table_get (table_set_all m (A ++ [(k, v)])%list) X
  = if String.eqb X k then Some v else table_get (table_set_all m A) X.
Proof.
  rewrite table_set_all_app. unfold table_set_all at 1. cbn [fold_left fst snd].
  destruct (String.eqb_spec X k) as [-> | Hne].
  - apply table_get_set_same.
  - apply table_get_set_other. assumption.
Qed.

(** A value that the table holds was the last one assigned to its key. *)
Lemma table_get_set_all_last (A : list (string * string)) :
  forall X w,
    table_get (table_set_all [] A) X = Some w ->
    exists P Q, A = (P ++ (X, w) :: Q)%list /\ Forall (fun e => fst e <> X) Q.
Proof.
  induction A as [|[k v] A IH] using rev_ind; intros X w H; [discriminate|].
  rewrite table_get_set_all_snoc in H.
  destruct (String.eqb_spec X k) as [-> | Hne].
  - injection H as ->. exists A, []. split; [reflexivity|constructor].
  - destruct (IH X w H) as (P & Q & -> & HQ). exists P, (Q ++ [(k, v)])%list.
    split; [rewrite <- app_assoc; reflexivity|].
    apply Forall_app. split; [assumption|]. constructor; [|constructor].
    cbn [fst]. congruence.
Qed.

Lemma table_get_set_all_at (Q : list (string * string)) :
  forall (m : table) (k v : string),
    table_get m k = Some v ->
    Forall (fun e => fst e <> k) Q ->
    table_get (table_set_all m Q) k = Some v.
Proof.
  induction Q as [|[k0 v0] Q IH]; intros m k v Hm HQ; [exact Hm|].
  inversion HQ as [|? ? Hk HQ']; subst. cbn [fst] in Hk.
  unfold table_set_all. cbn [fold_left fst snd]. apply IH; [|assumption].
  rewrite table_get_set_other by (intros E; apply Hk; congruence). exact Hm.
Qed.

Lemma table_get_set_all_mid (P Q : list (string * string)) (k v : string) :
  Forall (fun e => fst e <> k) Q ->
  table_get (table_set_all [] (P ++ (k, v) :: Q)%list) k = Some v.
Proof.
  intros HQ. rewrite table_set_all_app.
  change (table_set_all (table_set_all [] P) ((k, v) :: Q))
    with (table_set_all (table_set (table_set_all [] P) k v) Q).
  apply table_get_set_all_at; [apply table_get_set_same|assumption].
Qed.

(** When every key of a list of assignments is replaced by the value that
    the table holds for it after all the assignments, the table made of the
    new assignments holds every key as its own value. *)
Lemma renamed_assignments_are_fixed (A : list (string * string)) (g : string -> string) :
  (forall k v, table_get (table_set_all [] A) k = Some v -> g k = v) ->
  forall X w,
    table_get (table_set_all [] (map (fun e => (g (fst e), snd e)) A)) X = Some w ->
    w = X.
Proof.
  intros Hg X w H.
  destruct (table_get_set_all_last _ X w H) as (P' & Q' & E & HQ').
  apply map_eq_app in E. destruct E as (P & R & -> & _ & E).
  apply map_eq_cons in E. destruct E as ([k v] & Q & -> & E & <-).
  cbn [fst snd] in E. injection E as Ek ->.
  assert (HQ : Forall (fun e => fst e <> k) Q).
  { rewrite Forall_map in HQ'. eapply Forall_impl; [|exact HQ'].
    cbn [fst]. intros e He Eq. apply He. rewrite Eq. exact Ek. }
  rewrite <- Ek. symmetry. apply Hg. apply table_get_set_all_mid. exact HQ.
Qed.

Lemma table_get_In (m : table) (k v : string) : table_get m k = Some v -> In (k, v) m.
Proof.
  induction m as [|[k0 v0] m IH]; [discriminate|]. cbn [table_get].
  destruct (String.eqb_spec k k0) as [-> | _].
  - intros [= ->]. left. reflexivity.
  - intros H. right. apply IH. exact H.
Qed.

Lemma In_table_set (m : table) (k v : string) (e : string * string) :
  In e (table_set m k v) -> In e m \/ e = (k, v).
Proof.
  induction m as [|[k0 v0] m IH]; cbn [table_set].
  - intros [<- | []]. right. reflexivity.
  - destruct (String.eqb_spec k k0) as [-> | _].
    + intros [<- | H]; [right; reflexivity|left; right; exact H].
    + intros [<- | H]; [left; left; reflexivity|].
      destruct (IH H) as [H' | H']; [left; right; exact H'|right; exact H'].
Qed.

Lemma In_table_set_all (A : list (string * string)) :
  forall (m : table) (e : string * string),
    In e (table_set_all m A) -> In e m \/ In e A.
Proof.
  induction A as [|[k v] A IH]; intros m e H; [left; exact H|].
  change (table_set_all m ((k, v) :: A)) with (table_set_all (table_set m k v) A) in H.
  destruct (IH _ _ H) as [H' | H']; [|right; right; exact H'].
  destruct (In_table_set _ _ _ _ H') as [H'' | ->]; [left; exact H''|right; left; reflexivity].
Qed.

(** The keys of a table are all different, so that an entry is what a
    lookup of its key returns. *)
Lemma table_set_keys (m : table) (k v : string) :
  NoDup (map fst m) -> NoDup (map fst (table_set m k v)).
Proof.
  induction m as [|[k0 v0] m IH]; cbn [table_set map fst]; intros H.
  - constructor; [intros []|constructor].
  - inversion H as [|? ? Hnotin Hnd]; subst.
    destruct (String.eqb_spec k k0) as [-> | Hne]; cbn [map fst].
    + constructor; assumption.
    + constructor; [|apply IH; assumption].
      intros Hin. apply in_map_iff in Hin. destruct Hin as ([k1 v1] & E & Hin).
      cbn [fst] in E. subst k1.
      destruct (In_table_set _ _ _ _ Hin) as [H' | H'].
      * apply Hnotin. apply in_map_iff. exists (k0, v1). split; [reflexivity|exact H'].
      * injection H' as -> _. congruence.
Qed.

Lemma table_set_all_keys (A : list (string * string)) :
  forall m, NoDup (map fst m) -> NoDup (map fst (table_set_all m A)).
Proof.
  induction A as [|[k v] A IH]; intros m H; [exact H|].
  change (table_set_all m ((k, v) :: A)) with (table_set_all (table_set m k v) A).
  apply IH. apply table_set_keys. exact H.
Qed.

Lemma In_table_get (m : table) (k v : string) :
  NoDup (map fst m) -> In (k, v) m -> table_get m k = Some v.
Proof.
  induction m as [|[k0 v0] m IH]; intros Hnd Hin; [contradiction|].
  cbn [map fst] in Hnd. inversion Hnd as [|? ? Hnotin Hnd']; subst. cbn [table_get].
  destruct Hin as [[= -> ->] | Hin].
  - rewrite String.eqb_refl. reflexivity.
  - destruct (String.eqb_spec k k0) as [-> | _]; [|apply IH; assumption].
    exfalso. apply Hnotin. apply in_map_iff. exists (k0, v). split; [reflexivity|exact Hin].
Qed.

Lemma In_assignments (items : list item) (e : string * string) :
  In e (assignments items) ->
  exists open t body close s j f,
    In (Block open t body close s) items
    /\ nth_error (fieldsOf body) j = Some f
    /\ e = (s ++ "." ++ f, s ++ "." ++ nameOf j).
Proof.
  unfold assignments. intros H. apply in_flat_map in H.
  destruct H as ([l|open t body close s|open t next] & Hin & H);
    [contradiction| |contradiction].
  apply tableFrom_In in H. destruct H as (j & f & Hj & ->).
  exists open, t, body, close, s, j, f. repeat split; assumption.
Qed.

(** *** Instance names and keys *)

Lemma parseStructClose_identifier (l s : string) :
  parseStructClose l = Close s -> isIdentifier s = true.
Proof.
  unfold parseStructClose.
  destruct (consumeString l 0 "} ") as [i1|]; [|discriminate].
  destruct (consumeIdentifier l i1) as [[structName i2]|] eqn:E; [|discriminate].
  destruct (consumeString l i2 ";") as [i3|]; [|discriminate].
  destruct (Nat.eqb i3 (String.length l)); [|discriminate].
  intros [= <-]. apply consumeIdentifier_inv in E.
  destruct E as (a & b & _ & _ & Hid & _). exact Hid.
Qed.

Lemma wfItem_instance (open t : string) (body : list bodyLine) (close s : string) :
  wfItem (Block open t body close s) = true -> mem "." s = false.
Proof.
  intros H. apply wfItem_Block in H. destruct H as (_ & _ & _ & _ & Hc).
  apply identifier_no_dot. apply (parseStructClose_identifier _ _ Hc).
Qed.

Lemma key_instance (s s' f f' : string) :
  mem "." s = false -> mem "." s' = false ->
  s ++ "." ++ f = s' ++ "." ++ f' -> s = s' /\ f = f'.
Proof.
  intros Hs Hs' E.
  pose proof (index_first_char "." s f Hs) as H1.
  pose proof (index_first_char "." s' f' Hs') as H2.
  cbn [append] in E. rewrite E in H1. rewrite H1 in H2. injection H2 as Hlen.
  destruct (append_eq_length s (String "." f) s' (String "." f') E Hlen)
    as [-> E'].
  injection E' as ->. split; reflexivity.
Qed.

Lemma wfItems_In (items : list item) (it : item) :
  forallb wfItem items = true -> In it items -> wfItem it = true.
Proof. intros H Hin. rewrite forallb_forall in H. apply H. exact Hin. Qed.

(** The table holds for every field of a block the instance name, a dot and
    a generated name, and that name is the one that the second pass writes. *)
Lemma tableOf_field (items : list item) (open t : string) (body : list bodyLine)
    (close s f : string) :
  forallb wfItem items = true ->
  In (Block open t body close s) items ->
  In f (fieldsOf body) ->
  exists j,
    table_get (tableOf items) (s ++ "." ++ f) = Some (s ++ "." ++ nameOf j)
    /\ shortName (tableOf items) s f = nameOf j.
Proof.
  intros Hwf Hin Hf.
  pose proof (assignItems_sets items [] open t body close s f Hin Hf) as Hget.
  fold (tableOf items) in Hget.
  destruct (table_get (tableOf items) (s ++ "." ++ f)) as [v|] eqn:E; [|congruence].
  pose proof (wfItem_instance _ _ _ _ _ (wfItems_In _ _ Hwf Hin)) as Hs.
  assert (Hv : exists j, v = s ++ "." ++ nameOf j).
  { rewrite tableOf_set_all in E. apply table_get_In in E.
    apply In_table_set_all in E. destruct E as [[] | E].
    apply In_assignments in E.
    destruct E as (open' & t' & body' & close' & s' & j & f' & Hin' & _ & E).
    injection E as Ek ->.
    pose proof (wfItem_instance _ _ _ _ _ (wfItems_In _ _ Hwf Hin')) as Hs'.
    destruct (key_instance _ _ _ _ Hs Hs' Ek) as [<- _]. exists j. reflexivity. }
  destruct Hv as [j ->]. exists j. split; [reflexivity|].
  unfold shortName. rewrite E. apply afterDot_key. exact Hs.
Qed.

Lemma tableOf_entry (items : list item) (e : string * string) :
  forallb wfItem items = true ->
  In e (tableOf items) ->
  exists s f j,
    isIdentifier s = true /\ e = (s ++ "." ++ f, s ++ "." ++ nameOf j).
Proof.
  intros Hwf H. rewrite tableOf_set_all in H. apply In_table_set_all in H.
  destruct H as [[] | H]. apply In_assignments in H.
  destruct H as (open & t & body & close & s & j & f & Hin & _ & ->).
  exists s, f, j. split; [|reflexivity].
  pose proof (wfItems_In _ _ Hwf Hin) as Hit. apply wfItem_Block in Hit.
  destruct Hit as (_ & _ & _ & _ & Hc). apply (parseStructClose_identifier _ _ Hc).
Qed.

(** *** The lines that the second pass writes *)

Lemma append_mid_nonempty (a v b : string) : v <> "" -> a ++ v ++ b <> "".
Proof.
  intros Hv E. apply (f_equal String.length) in E. rewrite !length_append in E.
  destruct v; [congruence|]. cbn [String.length] in E. lia.
Qed.

Lemma replaceAll_loop_nonempty (k v : string) (fuel : nat) :
  v <> "" ->
  forall (l : string) (n : nat), l <> "" -> replaceAll_loop fuel l k v n <> "".
Proof.
  intros Hv. induction fuel as [|fuel IH]; intros l n Hl; [assumption|].
  destruct (find l k n) as [m|] eqn:E.
  - destruct (replaceAll_loop_step fuel l k v n m E) as (a & b & -> & _ & _ & ->).
    apply IH. apply append_mid_nonempty. assumption.
  - cbn [replaceAll_loop]. rewrite E. assumption.
Qed.

Lemma applyMapping_nonempty (iteration : table -> table) (m : table) (l : string) :
  (forall m, Permutation (iteration m) m) ->
  Forall (fun kv => snd kv <> "") m ->
  l <> "" ->
  applyMapping iteration m l <> "".
Proof.
  intros Hperm Hm. unfold applyMapping.
  assert (Hit : Forall (fun kv => snd kv <> "") (iteration m))
    by (eapply Permutation_Forall; [apply Permutation_sym, Hperm|exact Hm]).
  clear Hm. revert l. induction Hit as [|[k v] es Hv _ IH]; intros l Hl; [assumption|].
  cbn [fold_left fst snd] in *. apply IH. apply replaceAll_loop_nonempty; assumption.
Qed.

Lemma tableOf_values (items : list item) :
  forallb wfItem items = true ->
  Forall (fun kv => snd kv <> "") (tableOf items)
  /\ Forall (fun kv => mem newline (snd kv) = false) (tableOf items).
Proof.
  intros Hwf. split; apply Forall_forall; intros e He;
    destruct (tableOf_entry items e Hwf He) as (s & f & j & Hs & ->); cbn [snd].
  - intros E. apply (f_equal String.length) in E. rewrite !length_append in E.
    cbn [String.length] in E. lia.
  - rewrite !mem_append.
    rewrite (mem_allIdChars newline s newline_not_idChar (isIdentifier_allIdChars _ Hs)).
    rewrite (mem_allIdChars newline (nameOf j) newline_not_idChar (allIdChars_nameOf j)).
    reflexivity.
Qed.

Lemma In_fieldsOf (body : list bodyLine) (f : string) :
  In f (fieldsOf body) <-> exists ty, In (Field ty f) body.
Proof.
  unfold fieldsOf. rewrite in_flat_map. split.
  - intros ([ty f'|l] & Hin & H); [|contradiction]. destruct H as [<- | []].
    exists ty. exact Hin.
  - intros [ty Hin]. exists (Field ty f). split; [exact Hin|left; reflexivity].
Qed.

Lemma fieldsOf_renameBody (m : table) (s : string) (body : list bodyLine) :
  fieldsOf (renameBody m s body) = map (shortName m s) (fieldsOf body).
Proof.
  induction body as [|b body IH]; [reflexivity|].
  unfold fieldsOf, renameBody in *. cbn [map flat_map]. rewrite IH, map_app.
  destruct b; reflexivity.
Qed.

Lemma typesOf_renameItem (iteration : table -> table) (m : table) (items : list item) :
  typesOf (map (renameItem iteration m) items) = typesOf items.
Proof.
  induction items as [|it items IH]; [reflexivity|].
  unfold typesOf in *. cbn [map flat_map]. rewrite IH. destruct it; reflexivity.
Qed.

(** The items that the second pass writes are items again. *)
Lemma wfItem_renameItem (iteration : table -> table) (items : list item) (it : item) :
  (forall m, Permutation (iteration m) m) ->
  forallb wfItem items = true ->
  In it items ->
  staysOutside iteration (tableOf items) it = true ->
  wfItem (renameItem iteration (tableOf items) it) = true.
Proof.
  intros Hperm Hwf Hin Hstay. pose proof (wfItems_In _ _ Hwf Hin) as Hit.
  destruct (tableOf_values items Hwf) as [Hne Hnl].
  destruct it as [l|open t body close s|open t next]; cbn [renameItem]; [| |exact Hit].
  - cbn [staysOutside] in Hstay. apply wfItem_Line in Hit. destruct Hit as [[Hl Hnl'] _].
    cbn [wfItem]. rewrite Hstay, andb_true_r. apply isLine_isLineb. split.
    + apply applyMapping_nonempty; assumption.
    + apply applyMapping_no_newline; assumption.
  - cbn [wfItem] in *.
    apply andb_true_iff in Hit. destruct Hit as [Hit Hclose].
    apply andb_true_iff in Hit. destruct Hit as [Hit Hcl].
    apply andb_true_iff in Hit. destruct Hit as [Hopen Hbody].
    rewrite Hopen, Hcl, Hclose. cbn [andb]. rewrite !andb_true_r.
    apply forallb_forall. intros b' Hb'. unfold renameBody in Hb'.
    apply in_map_iff in Hb'. destruct Hb' as (b & <- & Hb).
    rewrite forallb_forall in Hbody. pose proof (Hbody b Hb) as Hwb.
    destruct b as [ty f|l]; cbn [wfBodyLine] in *; [|assumption].
    apply andb_true_iff in Hwb. destruct Hwb as [Hty _]. rewrite Hty. cbn [andb].
    destruct (tableOf_field items open t body close s f Hwf Hin) as (j & _ & ->).
    + apply In_fieldsOf. exists ty. exact Hb.
    + apply isIdentifier_nameOf.
Qed.

Lemma wfItems_renameItem (iteration : table -> table) (items : list item) :
  (forall m, Permutation (iteration m) m) ->
  forallb wfItem items = true ->
  forallb (staysOutside iteration (tableOf items)) items = true ->
  forallb wfItem (map (renameItem iteration (tableOf items)) items) = true.
Proof.
  intros Hperm Hwf Hstay. apply forallb_forall. intros it' Hin'.
  apply in_map_iff in Hin'. destruct Hin' as (it & <- & Hin).
  apply wfItem_renameItem; try assumption.
  rewrite forallb_forall in Hstay. apply Hstay. exact Hin.
Qed.

(** *** The table of the second application *)

Lemma tableFrom_renamed (m : table) (s : string) (fs : list string) :
  forall k,
    (forall f, In f fs ->
       s ++ "." ++ shortName m s f
       = match table_get m (s ++ "." ++ f) with Some v => v | None => "" end) ->
    tableFrom k s (map (shortName m s) fs)
    = map (fun e => (match table_get m (fst e) with Some v => v | None => "" end, snd e))
        (tableFrom k s fs).
Proof.
  induction fs as [|f fs IH]; intros k H; [reflexivity|].
  cbn [map tableFrom fst snd]. rewrite IH by (intros f' Hf'; apply H; right; exact Hf').
  rewrite (H f (or_introl eq_refl)). reflexivity.
Qed.

Lemma assignments_renamed (iteration : table -> table) (m : table) (items : list item) :
  (forall open t body close s f,
      In (Block open t body close s) items ->
      In f (fieldsOf body) ->
      s ++ "." ++ shortName m s f
      = match table_get m (s ++ "." ++ f) with Some v => v | None => "" end) ->
  assignments (map (renameItem iteration m) items)
  = map (fun e => (match table_get m (fst e) with Some v => v | None => "" end, snd e))
      (assignments items).
Proof.
  induction items as [|it items IH]; intros H; [reflexivity|].
  unfold assignments in *. cbn [map flat_map]. rewrite map_app.
  rewrite IH by (intros open t body close s f Hin; apply (H open t body close s f);
                 right; exact Hin).
  f_equal. destruct it as [l|open t body close s|open t next]; cbn [renameItem];
    [reflexivity| |reflexivity].
  rewrite fieldsOf_renameBody. apply tableFrom_renamed.
  intros f Hf. apply (H open t body close s f); [left; reflexivity|exact Hf].
Qed.

(** After the first application every key of the table of the second
    application is its own value. *)
Lemma second_table_is_fixed (iteration : table -> table) (items : list item) :
  forallb wfItem items = true ->
  forall X w,
    table_get (tableOf (map (renameItem iteration (tableOf items)) items)) X = Some w ->
    w = X.
Proof.
  intros Hwf X w H. rewrite tableOf_set_all, assignments_renamed in H.
  - apply (renamed_assignments_are_fixed (assignments items)
             (fun k => match table_get (tableOf items) k with Some v => v | None => "" end))
      with (X := X); [|exact H].
    intros k v Hk. rewrite tableOf_set_all, Hk. reflexivity.
  - intros open t body close s f Hin Hf.
    destruct (tableOf_field items open t body close s f Hwf Hin Hf) as (j & -> & ->).
    reflexivity.
Qed.

Lemma tableOf_keys (items : list item) : NoDup (map fst (tableOf items)).
Proof. rewrite tableOf_set_all. apply table_set_all_keys. constructor. Qed.

(** A table whose keys are their own values changes nothing. *)
Lemma renameItem_fixed (iteration : table -> table) (items : list item) (it : item) :
  (forall m, Permutation (iteration m) m) ->
  forallb wfItem items = true ->
  (forall X w, table_get (tableOf items) X = Some w -> w = X) ->
  In it items ->
  renameItem iteration (tableOf items) it = it.
Proof.
  intros Hperm Hwf Hfixed Hin.
  destruct it as [l|open t body close s|open t next]; cbn [renameItem]; [| |reflexivity].
  - f_equal. unfold applyMapping. apply fold_left_fixed. intros [k v] He.
    apply (Permutation_in _ (Hperm _)) in He.
    apply (In_table_get _ _ _ (tableOf_keys items)) in He. apply Hfixed in He. subst v.
    cbn [fst snd]. apply replaceAll_same.
  - f_equal. unfold renameBody. rewrite <- (map_id body) at 2. apply map_ext_in.
    intros [ty f|l] Hb; [|reflexivity]. f_equal.
    assert (Hf : In f (fieldsOf body)) by (apply In_fieldsOf; exists ty; exact Hb).
    pose proof (assignItems_sets items [] open t body close s f Hin Hf) as Hget.
    fold (tableOf items) in Hget. unfold shortName.
    destruct (table_get (tableOf items) (s ++ "." ++ f)) as [w|] eqn:E; [|congruence].
    apply Hfixed in E. subst w. apply afterDot_key.
    apply (wfItem_instance open t body close s). apply (wfItems_In _ _ Hwf Hin).
Qed.

(** *** Lines that stay outside the blocks *)

Lemma tableOf_key (items : list item) (e : string * string) :
  forallb wfItem items = true ->
  In e (tableOf items) ->
  mem "." (fst e) = true
  /\ exists d, last_char (fst e) = Some d /\ isIdChar d = true.
Proof.
  intros Hwf H. rewrite tableOf_set_all in H. apply In_table_set_all in H.
  destruct H as [[] | H]. apply In_assignments in H.
  destruct H as (open & t & body & close & s & j & f & Hin & Hj & ->). cbn [fst].
  split.
  - rewrite !mem_append. cbn [mem Ascii.eqb Bool.eqb]. apply orb_true_r.
  - apply nth_error_In in Hj. apply In_fieldsOf in Hj. destruct Hj as [ty Hb].
    pose proof (wfItems_In _ _ Hwf Hin) as Hit. apply wfItem_Block in Hit.
    destruct Hit as (_ & _ & Hbody & _ & _). rewrite forallb_forall in Hbody.
    pose proof (Hbody _ Hb) as Hwb. cbn [wfBodyLine] in Hwb.
    apply andb_true_iff in Hwb. destruct Hwb as [_ Hf].
    assert (Hne : f <> "") by (intros ->; discriminate).
    destruct (allIdChars_last_char f (isIdentifier_allIdChars _ Hf) Hne) as (d & Hd & Hid).
    exists d. split; [|exact Hid].
    apply last_char_append_nonempty. apply (last_char_append_nonempty "." f d Hd).
Qed.

(** A line whose last character is not an identifier character, and a line
    without a dot, do not read as the opening line of a block after the
    rewrite when they do not before it. *)
Lemma lines_that_stay_outside (iteration : table -> table) (items : list item)
    (l : string) :
  (forall m, Permutation (iteration m) m) ->
  forallb wfItem items = true ->
  isStatementLine l = true \/ (mem "." l = false /\ opens l = false) ->
  staysOutside iteration (tableOf items) (Line l) = true.
Proof.
  intros Hperm Hwf Hl. cbn [staysOutside]. apply negb_true_iff. unfold opens.
  destruct (tableOf_values items Hwf) as [_ Hnl].
  destruct Hl as [Hl | [Hdot Ho]].
  - assert (H : isStatementLine (applyMapping iteration (tableOf items) l) = true).
    { unfold applyMapping.
      assert (Hit : Forall (fun e => In e (tableOf items)) (iteration (tableOf items))).
      { apply Forall_forall. intros e He. apply (Permutation_in _ (Hperm _)). exact He. }
      revert l Hl. induction Hit as [|[k v] es He _ IH]; intros l Hl; [assumption|].
      cbn [fold_left fst snd]. apply IH.
      destruct (tableOf_key items _ Hwf He) as (_ & d & Hd & Hid). cbn [fst] in Hd.
      apply (replaceAll_loop_statement k v d _ Hd Hid); [|assumption].
      rewrite Forall_forall in Hnl. apply (Hnl _ He). }
    rewrite (parseStructOpen_statement _ H). reflexivity.
  - assert (H : applyMapping iteration (tableOf items) l = l).
    { unfold applyMapping. apply fold_left_fixed. intros [k v] He.
      apply (Permutation_in _ (Hperm _)) in He.
      destruct (tableOf_key items _ Hwf He) as (Hk & _). cbn [fst snd] in *.
      apply replaceAll_absent. apply (index_no_char "."); assumption. }
    rewrite H. unfold opens in Ho. exact Ho.
Qed.

(** *** The end of a source inside a block *)

Lemma isLine_endingLines (e : ending) : wfEnding e = true -> Forall isLine (endingLines e).
Proof.
  destruct e as [|open t|open t body]; cbn [wfEnding endingLines]; intros H.
  - constructor.
  - apply opensType_inv in H. constructor; [tauto|constructor].
  - apply andb_true_iff in H. destruct H as [Ho Hb]. apply opensType_inv in Ho.
    constructor; [tauto|]. constructor; [split; [discriminate|reflexivity]|].
    apply Forall_map. apply forallb_true_Forall in Hb.
    eapply Forall_impl; [|exact Hb]. intros b. apply isLine_bodyText.
Qed.

Lemma scan_ending_state (e : ending) (cur : string) (m c : table) :
  wfEnding e = true ->
  fold_left scan_step (endingLines e) (mkScan OUTSIDE cur [] m c)
  = match e with
    | Ended => mkScan OUTSIDE cur [] m c
    | Opening _ t => mkScan STRUCT_OPEN t [] m c
    | Unclosed _ t body => mkScan STRUCT_DEFN t (fieldsOf body) m c
    end.
Proof.
  destruct e as [|open t|open t body]; cbn [wfEnding endingLines]; intros H.
  - reflexivity.
  - apply opensType_inv in H. destruct H as [_ Ho].
    cbn [fold_left]. unfold scan_step. cbn [sc_state]. rewrite Ho. reflexivity.
  - apply andb_true_iff in H. destruct H as [Ho Hb]. apply opensType_inv in Ho.
    destruct Ho as [_ Ho].
    cbn [fold_left]. unfold scan_step at 3. cbn [sc_state]. rewrite Ho.
    cbn [sc_fields sc_fieldMapping sc_currentStructToName].
    unfold scan_step at 2. cbn [sc_state].
    change (nextState_STRUCT_OPEN "{") with STRUCT_DEFN.
    cbn [sc_currentStruct sc_fields sc_fieldMapping sc_currentStructToName].
    rewrite (scan_body _ _ _ _ _ Hb). reflexivity.
Qed.

Lemma scan_ending (e : ending) (cur : string) (m c : table) :
  wfEnding e = true ->
  sc_fieldMapping (fold_left scan_step (endingLines e) (mkScan OUTSIDE cur [] m c)) = m
  /\ sc_currentStructToName
       (fold_left scan_step (endingLines e) (mkScan OUTSIDE cur [] m c)) = c.
Proof.
  intros H. rewrite (scan_ending_state e cur m c H). destruct e; split; reflexivity.
Qed.

(** In a body that is not closed the two lookups of the second pass find
    nothing: the name of the instance and the name of the field are empty. *)
Lemma rewrite_blank_body (iteration : table -> table) (body : list bodyLine) :
  forall (cur : string) (fm nm : table) (res : string),
    forallb wfBodyLine body = true ->
    table_get nm cur = None \/ table_get nm cur = Some "" ->
    (forall g, table_get fm (String "." g) = None
               \/ table_get fm (String "." g) = Some "") ->
    rw_result
      (fold_left (rewrite_step iteration) (map bodyText body)
         (mkRewrite STRUCT_DEFN cur fm nm res))
    = res ++ unlines (map bodyText (blankBody body)).
Proof.
  induction body as [|b body IH]; intros cur fm nm res Hb Hnm Hfm.
  - cbn [map blankBody unlines fold_left rw_result]. rewrite append_nil_r. reflexivity.
  - cbn [forallb] in Hb. apply andb_true_iff in Hb. destruct Hb as [Hb Hbody].
    cbn [map blankBody fold_left unlines]. fold (blankBody body).
    unfold rewrite_step at 2. cbn [rw_state].
    destruct b as [ty f|l]; cbn [wfBodyLine bodyText] in *.
    + apply andb_true_iff in Hb. destruct Hb as [Hty Hf].
      rewrite (parseStructClose_fieldLine _ _ Hty Hf), (parseFieldDecl_fieldLine _ _ Hty Hf).
      cbn [rw_currentStruct rw_fieldMapping rw_currentStructToName rw_result].
      assert (Hindex : exists nm',
                 table_index nm cur = ("", nm') /\ table_get nm' cur = Some "").
      { unfold table_index. destruct Hnm as [-> | E].
        - eexists. split; [reflexivity|]. apply table_get_set_same.
        - rewrite E. eexists. split; [reflexivity|exact E]. }
      destruct Hindex as (nm' & -> & Hnm'). cbn [append].
      assert (Hkey : exists fm',
                 table_index fm (String "." f) = ("", fm')
                 /\ forall g, table_get fm' (String "." g) = None
                              \/ table_get fm' (String "." g) = Some "").
      { unfold table_index. destruct (Hfm f) as [-> | E].
        - eexists. split; [reflexivity|]. intros g.
          destruct (string_dec (String "." g) (String "." f)) as [-> | Hne].
          + right. apply table_get_set_same.
          + rewrite table_get_set_other by assumption. apply Hfm.
        - rewrite E. eexists. split; [reflexivity|exact Hfm]. }
      destruct Hkey as (fm' & -> & Hfm').
      unfold emit. cbn [rw_result].
      rewrite (IH cur fm' nm' _ Hbody (or_intror Hnm') Hfm').
      change (afterDot "") with "". cbn [append]. rewrite !append_assoc. reflexivity.
    + apply isOther_inv in Hb. destruct Hb as [_ [Hc | [Hc Hf]]]; rewrite Hc; [|rewrite Hf];
        unfold emit;
        cbn [rw_currentStruct rw_fieldMapping rw_currentStructToName rw_result];
        rewrite (IH cur fm nm _ Hbody Hnm Hfm); rewrite !append_assoc; reflexivity.
Qed.

Lemma rewrite_ending (iteration : table -> table) (e : ending) (cur : string)
    (fm nm : table) (res : string) :
  wfEnding e = true ->
  (forall t, In t (endingTypes e) -> table_get nm t = None) ->
  (forall g, table_get fm (String "." g) = None) ->
  rw_result
    (fold_left (rewrite_step iteration) (endingLines e) (mkRewrite OUTSIDE cur fm nm res))
  = res ++ unlines (endingLines (blankEnding e)).
Proof.
  destruct e as [|open t|open t body]; cbn [wfEnding endingLines blankEnding endingTypes];
    intros H Hnm Hfm.
  - cbn [fold_left rw_result unlines]. rewrite append_nil_r. reflexivity.
  - apply opensType_inv in H. destruct H as [_ Ho].
    cbn [fold_left]. unfold rewrite_step, emit. cbn [rw_state]. rewrite Ho.
    cbn [rw_result unlines]. reflexivity.
  - apply andb_true_iff in H. destruct H as [Ho Hb]. apply opensType_inv in Ho.
    destruct Ho as [_ Ho].
    cbn [fold_left]. unfold rewrite_step at 3. cbn [rw_state]. rewrite Ho.
    unfold emit at 1.
    cbn [rw_currentStruct rw_fieldMapping rw_currentStructToName rw_result].
    unfold rewrite_step at 2. cbn [rw_state].
    change (nextState_STRUCT_OPEN "{") with STRUCT_DEFN. unfold emit at 1.
    cbn [rw_currentStruct rw_fieldMapping rw_currentStructToName rw_result].
    rewrite (rewrite_blank_body iteration body t fm nm _ Hb).
    + cbn [unlines]. rewrite !append_assoc. reflexivity.
    + left. apply Hnm. left. reflexivity.
    + intros g. left. apply Hfm.
Qed.

Lemma isOther_blank (ty : string) : isIdentifier ty = true -> isOther (ty ++ " ;") = true.
Proof.
  intros Hty. unfold isOther.
  assert (Hall : allIdChars ty = true) by (apply isIdentifier_allIdChars; exact Hty).
  assert (Hline : isLineb (ty ++ " ;") = true).
  { apply isLine_isLineb. split.
    - destruct ty; discriminate.
    - rewrite mem_append, (mem_allIdChars newline ty newline_not_idChar Hall). reflexivity. }
  rewrite Hline. cbn [andb].
  assert (Hclose : parseStructClose (ty ++ " ;") = NotClose).
  { unfold parseStructClose, consumeString, find.
    rewrite (index_no_char "}"); [reflexivity|reflexivity|].
    rewrite mem_append, (mem_allIdChars "}" ty eq_refl Hall). reflexivity. }
  rewrite Hclose.
  assert (Hfield : parseFieldDecl (ty ++ " ;") = None).
  { unfold parseFieldDecl.
    pose proof (consumeIdentifier_app "" ty " ;" Hty eq_refl) as H1.
    cbn [append String.length Nat.add] in H1. rewrite H1.
    unfold view_is. rewrite get_app_r0. cbn [get negb Ascii.eqb Bool.eqb].
    unfold consumeIdentifier.
    replace (S (String.length ty)) with (String.length ty + 1) by lia.
    rewrite get_app_r. reflexivity. }
  rewrite Hfield. reflexivity.
Qed.

Lemma wfBody_blankBody (body : list bodyLine) :
  forallb wfBodyLine body = true -> forallb wfBodyLine (blankBody body) = true.
Proof.
  induction body as [|b body IH]; [reflexivity|]. cbn [forallb blankBody map].
  intros H. apply andb_true_iff in H. destruct H as [Hb Hbody].
  fold (blankBody body). rewrite (IH Hbody), andb_true_r.
  destruct b as [ty f|l]; cbn [wfBodyLine] in *; [|exact Hb].
  apply andb_true_iff in Hb. destruct Hb as [Hty _]. apply isOther_blank. exact Hty.
Qed.

Lemma wfEnding_blankEnding (e : ending) : wfEnding e = true -> wfEnding (blankEnding e) = true.
Proof.
  destruct e as [|open t|open t body]; cbn [wfEnding blankEnding]; intros H; try exact H.
  apply andb_true_iff in H. destruct H as [Ho Hb].
  rewrite Ho, (wfBody_blankBody _ Hb). reflexivity.
Qed.

Lemma blankBody_blankBody (body : list bodyLine) : blankBody (blankBody body) = blankBody body.
Proof.
  unfold blankBody. rewrite map_map. apply map_ext. intros [ty f|l]; reflexivity.
Qed.

Lemma blankEnding_blankEnding (e : ending) : blankEnding (blankEnding e) = blankEnding e.
Proof.
  destruct e as [|open t|open t body]; cbn [blankEnding]; try reflexivity.
  rewrite blankBody_blankBody. reflexivity.
Qed.

Lemma endingTypes_blankEnding (e : ending) : endingTypes (blankEnding e) = endingTypes e.
Proof. destruct e; reflexivity. Qed.

(** *** The minifier on a source made of items *)

Lemma distinct_app (A B : list string) :
  distinct (A ++ B) = true ->
  distinct A = true /\ forall x, In x B -> ~ In x A.
Proof.
  induction A as [|a A IH]; cbn [app]; intros H.
  - split; [reflexivity|]. intros x _ [].
  - apply distinct_cons in H. destruct H as [Hnotin H]. destruct (IH H) as [HA HB].
    split.
    + cbn [distinct]. rewrite HA, andb_true_r. apply negb_true_iff.
      destruct (existsb (String.eqb a) A) eqn:E; [|reflexivity].
      exfalso. apply existsb_exists in E. destruct E as (x & Hx & Ex).
      apply String.eqb_eq in Ex. subst x. apply Hnotin. apply in_or_app. left. exact Hx.
    + intros x Hx [-> | Hin]; [|exact (HB x Hx Hin)].
      apply Hnotin. apply in_or_app. right. exact Hx.
Qed.

(** No key of the table begins with a dot. *)
Lemma tableOf_no_dot_key (items : list item) (g : string) :
  forallb wfItem items = true -> table_get (tableOf items) (String "." g) = None.
Proof.
  intros Hwf. destruct (table_get (tableOf items) (String "." g)) as [v|] eqn:E;
    [|reflexivity].
  exfalso. apply table_get_In in E.
  destruct (tableOf_entry items _ Hwf E) as (s & f & j & Hs & Heq).
  injection Heq as Hk _. destruct s as [|c s]; [discriminate|].
  cbn [append] in Hk. injection Hk as <- _. discriminate Hs.
Qed.

(** The minifier on a source made of items, no two blocks of one type
    identifier: every line outside the blocks goes through the table, every
    field declaration of a block gets the name that the table holds for it,
    in a body that is not closed a field declaration loses its name, and
    every other line is kept. *)
Lemma minify_source (iteration : table -> table) (source : string)
    (items : list item) (e : ending) :
  splitLines source = (sourceLines items ++ endingLines e)%list ->
  forallb wfItem items = true ->
  wfEnding e = true ->
  distinct (typesOf items ++ endingTypes e) = true ->
  minifyStructFields iteration source
  = unlines (sourceLines (map (renameItem iteration (tableOf items)) items)
             ++ endingLines (blankEnding e))%list.
Proof.
  intros Hsplit Hwf Hwe Hd. apply distinct_app in Hd. destruct Hd as [Hd Hfresh].
  unfold minifyStructFields. rewrite Hsplit. unfold scan, scan_init.
  rewrite !fold_left_app.
  destruct (scan_items items "" [] [] Hwf) as [cur ->].
  destruct (scan_ending e cur (fold_left assignItem items [])
              (fold_left nameItem items []) Hwe) as [-> ->].
  fold (tableOf items).
  destruct (rewrite_items iteration items
              (sc_currentStruct
                 (fold_left scan_step (endingLines e)
                    (mkScan OUTSIDE cur [] (tableOf items) (fold_left nameItem items []))))
              (tableOf items) (fold_left nameItem items []) "" Hwf) as [cur' ->].
  - intros open t body close s Hin. split.
    + apply (names_get items [] open t body close s); assumption.
    + intros f Hf. apply (assignItems_sets items [] open t body close s f); assumption.
  - rewrite (rewrite_ending iteration e cur' _ _ _ Hwe).
    + rewrite unlines_app. reflexivity.
    + intros t Ht. rewrite names_other by (apply Hfresh; exact Ht). reflexivity.
    + intros g. apply tableOf_no_dot_key. exact Hwf.
Qed.

(** *** Reading a source as items *)

Lemma parseFieldDecl_inv (l ty f : string) :
  parseFieldDecl l = Some (ty, f) ->
  l = fieldLine ty f /\ isIdentifier ty = true /\ isIdentifier f = true.
Proof.
  unfold parseFieldDecl.
  destruct (consumeIdentifier l 0) as [[ty' i1]|] eqn:E1; [|discriminate].
  destruct (view_is l i1 " ") eqn:V1; [|discriminate]. cbn [negb].
  destruct (consumeIdentifier l (S i1)) as [[f' i2]|] eqn:E2; [|discriminate].
  destruct (view_is l i2 ";") eqn:V2; [|discriminate]. cbn [negb].
  destruct (Nat.eqb_spec (S i2) (String.length l)) as [Hlen|]; [|discriminate].
  cbn [negb]. intros [= <- <-].
  apply consumeIdentifier_inv in E1. destruct E1 as (a & b1 & -> & Ha & Hty & _ & ->).
  destruct a; [|discriminate]. cbn [append String.length Nat.add] in *.
  unfold view_is in V1. rewrite get_app_r0 in V1.
  destruct b1 as [|c b2]; [discriminate|]. cbn [get] in V1.
  apply Ascii.eqb_eq in V1. subst c.
  apply consumeIdentifier_inv in E2. destruct E2 as (a' & b3 & E & Ha' & Hf & _ & ->).
  replace (ty' ++ String " " b2) with ((ty' ++ " ") ++ b2) in E
    by (rewrite append_assoc; reflexivity).
  apply append_eq_length in E;
    [|rewrite length_append; cbn [String.length]; lia].
  destruct E as [<- ->].
  unfold view_is in V2.
  replace (ty' ++ String " " (f' ++ b3)) with ((ty' ++ " " ++ f') ++ b3) in V2, Hlen
    by (rewrite !append_assoc; reflexivity).
  replace (S (String.length ty') + String.length f')
    with (String.length (ty' ++ " " ++ f')) in V2, Hlen
    by (rewrite !length_append; cbn [String.length]; lia).
  rewrite get_app_r0 in V2. destruct b3 as [|c b4]; [discriminate|]. cbn [get] in V2.
  apply Ascii.eqb_eq in V2. subst c.
  rewrite !length_append in Hlen. cbn [String.length] in Hlen.
  destruct b4; [|cbn [String.length] in Hlen; lia].
  split; [reflexivity|split; assumption].
Qed.

Lemma opensType_intro (l t : string) :
  isLine l -> parseStructOpen l = Some t -> opensType l t = true.
Proof.
  intros Hl Ho. unfold opensType. rewrite (isLine_isLineb _ Hl), Ho.
  apply String.eqb_refl.
Qed.

Lemma forallb_snoc {A : Type} (f : A -> bool) (l : list A) (x : A) :
  forallb f l = true -> f x = true -> forallb f (l ++ [x]) = true.
Proof. intros Hl Hx. rewrite forallb_app, Hl. cbn [forallb]. rewrite Hx. reflexivity. Qed.

(** Every list of lines reads as items, and the items give the lines
    back. *)
Lemma readItems_spec (ls : list string) :
  forall (st : reading) (items : list item) (e : ending),
    Forall isLine ls ->
    wfReading st = true ->
    readItems st ls = (items, e) ->
    (pending st ++ ls = sourceLines items ++ endingLines e)%list
    /\ forallb wfItem items = true
    /\ wfEnding e = true.
Proof.
  induction ls as [|l ls IH]; intros st items e Hls Hst Hread.
  - cbn [readItems] in Hread. injection Hread as <- <-. rewrite app_nil_r.
    destruct st; cbn [pending sourceLines flat_map endingLines app wfEnding wfReading] in *;
      repeat split; assumption.
  - inversion Hls as [|? ? Hl Hls']; subst. cbn [readItems] in Hread.
    destruct st as [|open t|open t body]; cbn [pending wfReading] in *.
    + destruct (parseStructOpen l) as [t|] eqn:Eo.
      * apply (IH (ROpen l t) items e Hls'); [|exact Hread].
        cbn [wfReading]. apply opensType_intro; assumption.
      * destruct (readItems ROutside ls) as [items' e'] eqn:Er. injection Hread as <- <-.
        destruct (IH ROutside items' e' Hls' eq_refl Er) as (Hlines & Hwf & Hwe).
        cbn [pending app] in Hlines. split; [|split; [|exact Hwe]].
        -- rewrite sourceLines_cons. cbn [itemLines app]. rewrite Hlines. reflexivity.
        -- cbn [forallb wfItem]. unfold opens. rewrite Eo, (isLine_isLineb _ Hl), Hwf.
           reflexivity.
    + destruct (isOpenBrace l) eqn:Eb.
      * apply isOpenBrace_true in Eb. subst l.
        apply (IH (RBody open t []) items e Hls'); [|exact Hread].
        cbn [wfReading forallb]. rewrite Hst. reflexivity.
      * destruct (readItems ROutside ls) as [items' e'] eqn:Er. injection Hread as <- <-.
        destruct (IH ROutside items' e' Hls' eq_refl Er) as (Hlines & Hwf & Hwe).
        cbn [pending app] in Hlines. split; [|split; [|exact Hwe]].
        -- rewrite sourceLines_cons. cbn [itemLines app]. rewrite Hlines. reflexivity.
        -- cbn [forallb wfItem]. rewrite Hst, Eb, (isLine_isLineb _ Hl), Hwf. reflexivity.
    + apply andb_true_iff in Hst. destruct Hst as [Ho Hb].
      destruct (parseStructClose l) as [| |s] eqn:Ec.
      * destruct (parseFieldDecl l) as [[ty f]|] eqn:Ef.
        -- apply parseFieldDecl_inv in Ef. destruct Ef as (-> & Hty & Hf).
           destruct (IH (RBody open t (body ++ [Field ty f])) items e Hls') as (H1 & H2 & H3);
             [|exact Hread|].
           ++ cbn [wfReading]. rewrite Ho. cbn [andb]. apply forallb_snoc; [exact Hb|].
              cbn [wfBodyLine]. rewrite Hty, Hf. reflexivity.
           ++ split; [|split; assumption]. rewrite <- H1. cbn [pending].
              rewrite map_app. cbn [map bodyText app]. rewrite <- !app_assoc.
              reflexivity.
        -- destruct (IH (RBody open t (body ++ [Other l])) items e Hls') as (H1 & H2 & H3);
             [|exact Hread|].
           ++ cbn [wfReading]. rewrite Ho. cbn [andb]. apply forallb_snoc; [exact Hb|].
              cbn [wfBodyLine]. unfold isOther. rewrite (isLine_isLineb _ Hl), Ec, Ef.
              reflexivity.
           ++ split; [|split; assumption]. rewrite <- H1. cbn [pending].
              rewrite map_app. cbn [map bodyText app]. rewrite <- !app_assoc.
              reflexivity.
      * destruct (IH (RBody open t (body ++ [Other l])) items e Hls') as (H1 & H2 & H3);
          [|exact Hread|].
        -- cbn [wfReading]. rewrite Ho. cbn [andb]. apply forallb_snoc; [exact Hb|].
           cbn [wfBodyLine]. unfold isOther. rewrite (isLine_isLineb _ Hl), Ec.
           reflexivity.
        -- split; [|split; assumption]. rewrite <- H1. cbn [pending].
           rewrite map_app. cbn [map bodyText app]. rewrite <- !app_assoc. reflexivity.
      * destruct (readItems ROutside ls) as [items' e'] eqn:Er. injection Hread as <- <-.
        destruct (IH ROutside items' e' Hls' eq_refl Er) as (Hlines & Hwf & Hwe).
        cbn [pending app] in Hlines. split; [|split; [|exact Hwe]].
        -- rewrite sourceLines_cons. cbn [itemLines app]. rewrite Hlines.
           rewrite <- !app_assoc. reflexivity.
        -- cbn [forallb wfItem]. rewrite Ho, Hb, (isLine_isLineb _ Hl), Ec, Hwf.
           rewrite String.eqb_refl. reflexivity.
Qed.

Lemma readSource_spec (source : string) (items : list item) (e : ending) :
  readSource source = (items, e) ->
  nonEmptyPieces source = (sourceLines items ++ endingLines e)%list
  /\ forallb wfItem items = true
  /\ wfEnding e = true.
Proof.
  intros H. unfold readSource in H.
  apply (readItems_spec (nonEmptyPieces source) ROutside items e); [|reflexivity|exact H].
  rewrite <- splitLines_nonEmptyPieces.
  apply (splitLines_loop_lines _ source 0 []). constructor.
Qed.

(** *** The minifier applied twice *)

(** C9, amended. Read the non-empty lines of a source the way the two
    passes do: as lines outside any block, blocks (opening line, brace, body
    lines, closing line), opening lines that are not followed by a brace
    and, at the end, possibly a block that is not closed. Every source reads
    so. When no two blocks have the same type identifier and no line outside
    the blocks reads as the opening line of a block after the rewrite, then,
    whatever the order of the table, the minifier writes every line outside
    the blocks as the table rewrites it, every field declaration of a block
    with the name that the table holds for it, a field declaration of a block
    that is not closed without its name, and every other line as it is; and
    applying the minifier to this result gives the result again. A line
    outside the blocks whose last character is not an identifier character,
    and a line without a dot that does not open a block, never read as an
    opening line after the rewrite. *)
Theorem minify_twice_on_distinct_blocks
    (iteration : table -> table) (source : string) (items : list item) (e : ending) :
  (forall m, Permutation (iteration m) m) ->
  readSource source = (items, e) ->
  distinct (typesOf items ++ endingTypes e) = true ->
  forallb (staysOutside iteration (tableOf items)) items = true ->
  nonEmptyPieces source = (sourceLines items ++ endingLines e)%list
  /\ minifyStructFields iteration source
     = unlines (sourceLines (map (renameItem iteration (tableOf items)) items)
                ++ endingLines (blankEnding e))%list
  /\ minifyStructFields iteration (minifyStructFields iteration source)
     = minifyStructFields iteration source
  /\ (forall l,
        isStatementLine l = true \/ (mem "." l = false /\ opens l = false) ->
        staysOutside iteration (tableOf items) (Line l) = true).
Proof.
  intros Hperm Hread Hd Hstay.
  destruct (readSource_spec source items e Hread) as (Hsource & Hwf & Hwe).
  assert (H1 : minifyStructFields iteration source
               = unlines (sourceLines (map (renameItem iteration (tableOf items)) items)
                          ++ endingLines (blankEnding e))%list).
  { apply minify_source; [|assumption..].
    rewrite splitLines_nonEmptyPieces. exact Hsource. }
  split; [exact Hsource|]. split; [exact H1|]. split.
  - rewrite H1.
    pose proof (wfItems_renameItem iteration items Hperm Hwf Hstay) as Hwf'.
    pose proof (second_table_is_fixed iteration items Hwf) as Hfixed.
    pose proof (typesOf_renameItem iteration (tableOf items) items) as Htypes.
    pose proof (wfEnding_blankEnding e Hwe) as Hwe'.
    set (items' := map (renameItem iteration (tableOf items)) items) in *.
    rewrite (minify_source iteration _ items' (blankEnding e)).
    + rewrite blankEnding_blankEnding. f_equal. f_equal. f_equal.
      transitivity (map (fun it : item => it) items'); [|apply map_id].
      apply map_ext_in. intros it' Hin'.
      apply (renameItem_fixed iteration items'); assumption.
    + apply splitLines_unlines. apply Forall_app. split.
      * apply isLine_sourceLines. exact Hwf'.
      * apply isLine_endingLines. exact Hwe'.
    + exact Hwf'.
    + exact Hwe'.
    + rewrite Htypes, endingTypes_blankEnding. exact Hd.
  - intros l Hl. apply lines_that_stay_outside; assumption.
Qed.

Lemma minify_twice_on_distinct_blocks_witness :
  nonEmptyPieces (nl ++ unlines (sourceLines frameItems))
  = (sourceLines frameItems ++ endingLines Ended)%list
  /\ minifyStructFields (fun m => m) (nl ++ unlines (sourceLines frameItems))
     = unlines (sourceLines (map (renameItem (fun m => m) (tableOf frameItems)) frameItems)
                ++ endingLines (blankEnding Ended))%list
  /\ minifyStructFields (fun m => m)
       (minifyStructFields (fun m => m) (nl ++ unlines (sourceLines frameItems)))
     = minifyStructFields (fun m => m) (nl ++ unlines (sourceLines frameItems))
  /\ (forall l,
        isStatementLine l = true \/ (mem "." l = false /\ opens l = false) ->
        staysOutside (fun m => m) (tableOf frameItems) (Line l) = true).
Proof.
  apply (minify_twice_on_distinct_blocks (fun m => m)
           (nl ++ unlines (sourceLines frameItems)) frameItems Ended).
  - intros m. apply Permutation_refl.
  - vm_compute. reflexivity.
  - vm_compute. reflexivity.
  - vm_compute. reflexivity.
Defined.

(** A source that ends inside a block, behind an opening line without
    brace: how it reads, and what the minifier makes of it. *)
Lemma unfinishedSource_read :
  readSource unfinishedSource
  = ([Aborted "uniform X" "X" "y;"; Line "z = 1;"],
     Unclosed "uniform A" "A" [Field "float" "x"; Other "};"])
  /\ minifyStructFields (fun m => m) unfinishedSource
     = unlines ["uniform X"; "y;"; "z = 1;"; "uniform A"; "{"; "float ;"; "};"].
Proof. split; vm_compute; reflexivity. Qed.

(** The result on the sample source: the fields of the two blocks are
    renamed from a on in each, the field with an array size is kept, and the
    references in the body of [main] follow. *)
Lemma frameItems_minified :
  minifyStructFields (fun m => m) (unlines (sourceLines frameItems))
  = unlines
      ["#version 300 es";
       "layout(std140) uniform FrameUniforms"; "{"; "mat4 a;"; "vec4 cascadeSplits[4];";
       "float b;"; "} frameUniforms;";
       "layout(std140) uniform ObjectUniforms"; "{"; "mat4 a;"; "} objectUniforms;";
       "void main()"; "{"; "gl_Position = frameUniforms.a * objectUniforms.a * p;"; "}"].
Proof. vm_compute. reflexivity. Qed.

(** A line outside the blocks that reads as the opening line of a block
    after the rewrite: the second application takes the lines behind it for
    a block and renames its field. *)
Lemma a_rewritten_line_can_open_a_block :
  minifyStructFields (fun m => m) (minifyStructFields (fun m => m) openingSource)
  <> minifyStructFields (fun m => m) openingSource.
Proof. apply String.eqb_neq. vm_compute. reflexivity. Qed.

End BlocksSpec.

(** ** The pipeline: failures of the front end, null pointers, the stages run *)

Module PipelineSpec.
Import Str Profiles Pipeline.

Ltac run_cbn :=
  cbn -[createOptimizer shaderOf mslOptionsOf glslOptionsOf remapsOf langOf
        consumerLines errorHandlerLines
        Minifier.minifyStructFields Shrink.shrinkString app] in *.

Ltac unfold_pipeline :=
  unfold process, compile, preprocessOptimization, fullOptimization, optimizeSpirv,
    SpvToMsl, bind, get, emit, emit_all, ret, when, set_lang, store_glsl, store_spirv,
    store_msl,
    load_glsl, load_spirv, shrinkString, targetApiOf in *.


(** Outside the fast exit [process] sets the three output pointers and goes
    on to lines 434 to 497. *)
Lemma process_enters_compile
    (tc : Toolchain) (self : GLSLPostProcessor) (inputShader : string)
    (config : Config) (outputGlsl : option string) (outputSpirv : option SpirvBlob)
    (outputMsl : option string) :
  mOptimization self <> NONE \/ isSome outputSpirv = true ->
  process tc inputShader config outputGlsl outputSpirv outputMsl self
  = match compile tc inputShader config
            (mkPP (mOptimization self) (mPrintShaders self) (mGenerateDebugInfo self)
               outputGlsl outputSpirv outputMsl (mShLang self) (mLangVersion self)
               (log self)) with
    | Returns b self'' =>
        Returns (mkResult b (mGlslOutput self'') (mSpirvOutput self'')
                   (mMslOutput self'')) self''
    | NullDereference => NullDereference
    | ReadsPastEnd => ReadsPastEnd
    | OutOfFuel => OutOfFuel
    end.
Proof.
  intros [Hopt | Hs]; unfold process.
  - destruct (mOptimization self); [congruence|..]; destruct (isSome outputSpirv); reflexivity.
  - rewrite Hs. destruct (mOptimization self); reflexivity.
Qed.

(** X16. When the front end rejects the shader, at parsing or at linking,
    [process] writes the info log of the shader to the error log and returns
    false; the caller's three outputs are as they were, and no stage behind
    the front end is called. *)
Theorem process_front_end_failure
    (tc : Toolchain) (self : GLSLPostProcessor) (inputShader : string)
    (config : Config) (outputGlsl : option string) (outputSpirv : option SpirvBlob)
    (outputMsl : option string) :
  mOptimization self <> NONE \/ isSome outputSpirv = true ->
  fst (parse tc (shaderOf tc (mOptimization self) inputShader config)
         (if isSome outputSpirv then VULKAN else OPENGL)) = false
  \/ link tc (shaderOf tc (mOptimization self) inputShader config)
       (if isSome outputSpirv then VULKAN else OPENGL) = false ->
  exists self' added,
    process tc inputShader config outputGlsl outputSpirv outputMsl self
      = Returns (mkResult false outputGlsl outputSpirv outputMsl) self'
    /\ log self' = (log self ++ added)%list
    /\ In (slog_e (snd (parse tc (shaderOf tc (mOptimization self) inputShader config)
                          (if isSome outputSpirv then VULKAN else OPENGL)))) added
    /\ (forall e, In e added -> is_call e = true ->
          e = call_parse (shaderOf tc (mOptimization self) inputShader config)
          \/ e = call_link (shaderOf tc (mOptimization self) inputShader config)).
Proof.
  intros Hpath Hfail.
  destruct self as [opt pr dbg mg ms mm lang ver lg].
  cbn [mOptimization log] in *.
  destruct (parse tc (shaderOf tc opt inputShader config)
              (if isSome outputSpirv then VULKAN else OPENGL)) as [ok infoLog] eqn:Ep.
  cbn [fst snd] in *.
  assert (Hcompile : exists self' added,
    compile tc inputShader config
      (mkPP opt pr dbg outputGlsl outputSpirv outputMsl lang ver lg)
      = Returns false self'
    /\ mGlslOutput self' = outputGlsl
    /\ mSpirvOutput self' = outputSpirv
    /\ mMslOutput self' = outputMsl
    /\ log self' = (lg ++ added)%list
    /\ In (slog_e infoLog) added
    /\ (forall e, In e added -> is_call e = true ->
          e = call_parse (shaderOf tc opt inputShader config)
          \/ e = call_link (shaderOf tc opt inputShader config))).
  { unfold compile, bind, get, emit, ret, set_lang, targetApiOf.
    cbn -[shaderOf langOf app]. rewrite Ep.
    destruct ok; cbn -[shaderOf langOf app].
    - destruct Hfail as [Hfail | Hfail]; [discriminate|]. rewrite Hfail.
      cbn -[shaderOf langOf app].
      eexists. exists [call_parse (shaderOf tc opt inputShader config);
                       call_link (shaderOf tc opt inputShader config); slog_e infoLog].
      split; [reflexivity|]. cbn [mGlslOutput mSpirvOutput mMslOutput log].
      repeat (split; [reflexivity|]).
      split; [rewrite <- !app_assoc; reflexivity|].
      split; [cbn [In]; tauto|].
      intros e [<- | [<- | [<- | []]]] He; try discriminate He; auto.
    - eexists. exists [call_parse (shaderOf tc opt inputShader config); slog_e infoLog].
      split; [reflexivity|]. cbn [mGlslOutput mSpirvOutput mMslOutput log].
      repeat (split; [reflexivity|]).
      split; [rewrite <- !app_assoc; reflexivity|].
      split; [cbn [In]; tauto|].
      intros e [<- | [<- | []]] He; try discriminate He; auto. }
  destruct Hcompile as (self' & added & Hc & Hg & Hs & Hm & Hl & Hin & Hcalls).
  exists self', added. unfold process.
  cbn [mOptimization mPrintShaders mGenerateDebugInfo mGlslOutput mSpirvOutput
       mMslOutput mShLang mLangVersion log].
  replace (match (if isSome outputSpirv then VULKAN else OPENGL) with
           | OPENGL => _ | VULKAN => _ end)
    with (match compile tc inputShader config
                  (mkPP opt pr dbg outputGlsl outputSpirv outputMsl lang ver lg) with
          | Returns b self'' =>
              Returns (mkResult b (mGlslOutput self'') (mSpirvOutput self'')
                         (mMslOutput self'')) self''
          | NullDereference => NullDereference
          | ReadsPastEnd => ReadsPastEnd
          | OutOfFuel => OutOfFuel
          end)
    by (destruct Hpath as [Hopt | Hs'];
        [destruct opt; [congruence|..]; destruct (isSome outputSpirv); reflexivity
        |rewrite Hs'; destruct opt; reflexivity]).
  rewrite Hc, Hg, Hs, Hm. auto.
Qed.

Lemma process_front_end_failure_witness :
  exists self' added,
    process (answering false true true "") "void main() {" sample_config
      (Some "") (Some []) None (construct PERFORMANCE false false)
      = Returns (mkResult false (Some "") (Some []) None) self'
    /\ log self' = (log (construct PERFORMANCE false false) ++ added)%list
    /\ In (slog_e "ERROR: 0:1: syntax error") added
    /\ (forall e, In e added -> is_call e = true ->
          e = call_parse (shaderOf (answering false true true "") PERFORMANCE
                            "void main() {" sample_config)
          \/ e = call_link (shaderOf (answering false true true "") PERFORMANCE
                              "void main() {" sample_config)).
Proof.
  apply (process_front_end_failure (answering false true true "")
           (construct PERFORMANCE false false) "void main() {" sample_config
           (Some "") (Some []) None).
  - left. discriminate.
  - left. reflexivity.
Defined.


Lemma bind2_ret_true {A B : Type} (m1 : M A) (m2 : M B)
    (self self' : GLSLPostProcessor) (b : bool) :
  (m1 ;;; m2 ;;; ret true) self = Returns b self' -> b = true.
Proof.
  unfold bind, ret. destruct (m1 self) as [a s| | |]; try discriminate.
  destruct (m2 s) as [a' s'| | |]; try discriminate.
  intros H. injection H as <- _. reflexivity.
Qed.

(** Once the front end has accepted the shader, lines 467 to 497 end in
    [return true]. *)
Lemma compile_returns_true
    (tc : Toolchain) (self self' : GLSLPostProcessor) (inputShader : string)
    (config : Config) (b : bool) :
  fst (parse tc (shaderOf tc (mOptimization self) inputShader config) (targetApiOf self))
    = true ->
  link tc (shaderOf tc (mOptimization self) inputShader config) (targetApiOf self) = true ->
  compile tc inputShader config self = Returns b self' ->
  b = true.
Proof.
  intros Hparse Hlink. destruct self as [opt pr dbg mg ms mm lang ver lg].
  cbn [mOptimization] in *. unfold targetApiOf in *. cbn [mSpirvOutput] in *.
  destruct (parse tc (shaderOf tc opt inputShader config)
              (if isSome ms then VULKAN else OPENGL)) as [ok infoLog] eqn:Ep.
  cbn [fst] in Hparse. subst ok.
  unfold compile, targetApiOf.
  cbn [bind get set_lang emit mOptimization mPrintShaders mGenerateDebugInfo mGlslOutput
       mSpirvOutput mMslOutput mShLang mLangVersion log].
  rewrite Ep. cbn [negb]. cbn [bind emit mOptimization mPrintShaders mGenerateDebugInfo
       mGlslOutput mSpirvOutput mMslOutput mShLang mLangVersion log].
  rewrite Hlink. cbn [negb bind ret].
  apply bind2_ret_true.
Qed.

(** X17. [process] returns false only when the front end rejected the
    shader: a failure of the preprocessor, of the second parse at level
    PREPROCESSOR or of the optimizer run is written to the log at most, and
    the call still returns true. *)
Theorem process_false_only_on_front_end_failure
    (tc : Toolchain) (self self' : GLSLPostProcessor) (inputShader : string)
    (config : Config) (outputGlsl : option string) (outputSpirv : option SpirvBlob)
    (outputMsl : option string) (r : result) :
  process tc inputShader config outputGlsl outputSpirv outputMsl self = Returns r self' ->
  returned r = false ->
  fst (parse tc (shaderOf tc (mOptimization self) inputShader config)
         (if isSome outputSpirv then VULKAN else OPENGL)) = false
  \/ link tc (shaderOf tc (mOptimization self) inputShader config)
       (if isSome outputSpirv then VULKAN else OPENGL) = false.
Proof.
  intros Hp Hr.
  destruct (fst (parse tc (shaderOf tc (mOptimization self) inputShader config)
                   (if isSome outputSpirv then VULKAN else OPENGL))) eqn:Eparse; [|auto].
  destruct (link tc (shaderOf tc (mOptimization self) inputShader config)
              (if isSome outputSpirv then VULKAN else OPENGL)) eqn:Elink; [|auto].
  exfalso.
  assert (Hpath : (mOptimization self = NONE /\ outputSpirv = None)
                  \/ (mOptimization self <> NONE \/ isSome outputSpirv = true)).
  { destruct (mOptimization self); try (right; left; discriminate).
    destruct outputSpirv; [right; right; reflexivity|left; auto]. }
  destruct Hpath as [[Hopt ->] | Hpath].
  - unfold process in Hp. rewrite Hopt in Hp. cbn [isSome] in Hp.
    destruct outputGlsl; [|discriminate]. injection Hp as <- _. discriminate.
  - rewrite (process_enters_compile _ _ _ _ _ _ _ Hpath) in Hp.
    destruct (compile tc inputShader config _) as [b s| | |] eqn:Ec; try discriminate.
    apply compile_returns_true in Ec; [|assumption..].
    injection Hp as <- _. cbn [returned] in Hr. congruence.
Qed.

Lemma process_false_only_on_front_end_failure_witness :
  fst (parse (answering true false true "") 
         (shaderOf (answering true false true "") SIZE "void main() {}" sample_config)
         (if isSome (@None SpirvBlob) then VULKAN else OPENGL)) = false
  \/ link (answering true false true "")
       (shaderOf (answering true false true "") SIZE "void main() {}" sample_config)
       (if isSome (@None SpirvBlob) then VULKAN else OPENGL) = false.
Proof.
  apply (process_false_only_on_front_end_failure (answering true false true "")
           (construct SIZE false false)
           (mkPP SIZE false false (Some "") None None EShLangFragment 300
              [call_parse (shaderOf (answering true false true "") SIZE "void main() {}"
                             sample_config);
               call_link (shaderOf (answering true false true "") SIZE "void main() {}"
                            sample_config);
               slog_e "ERROR: 0:1: syntax error"])
           "void main() {}" sample_config (Some "") None None
           (mkResult false (Some "") None None)).
  - reflexivity.
  - reflexivity.
Defined.

Ltac split_run tc :=
  repeat (run_cbn;
          match goal with
          | H : context [parse tc ?a ?b] |- _ => destruct (parse tc a b) as [? ?]
          | H : context [link tc ?a ?b] |- _ => destruct (link tc a b)
          | H : context [preprocess tc ?a ?b] |- _ => destruct (preprocess tc a b) as [[? ?] ?]
          | H : context [Run tc ?a ?b] |- _ => destruct (Run tc a b) as [[? ?] ?]
          | H : context [remap tc ?a] |- _ => destruct (remap tc a) as [? ?]
          | H : context [Shrink.shrinkString ?s] |- _ => destruct (Shrink.shrinkString s)
          | H : context [negb ?b] |- _ => is_var b; destruct b
          | H : context [match ?x with _ => _ end] |- _ => is_var x; destruct x
          end).

(** X18. [process] writes or reads through a null output pointer in two
    cases and in no other: on the fast exit (level NONE, no IR output) when
    the shading-language pointer is null, and at level PREPROCESSOR when the
    secondary-language output is requested without the IR output, once the
    front end has accepted the shader. Everywhere else a null pointer means
    that the output is not produced. *)
Theorem process_null_dereference
    (tc : Toolchain) (self : GLSLPostProcessor) (inputShader : string)
    (config : Config) (outputGlsl : option string) (outputSpirv : option SpirvBlob)
    (outputMsl : option string) :
  process tc inputShader config outputGlsl outputSpirv outputMsl self = NullDereference
  <-> (mOptimization self = NONE /\ outputSpirv = None /\ outputGlsl = None)
      \/ (mOptimization self = PREPROCESSOR /\ outputSpirv = None
          /\ isSome outputMsl = true
          /\ fst (parse tc (shaderOf tc PREPROCESSOR inputShader config) OPENGL) = true
          /\ link tc (shaderOf tc PREPROCESSOR inputShader config) OPENGL = true).
Proof.
  destruct self as [opt pr dbg mg ms mm lang ver lg]. cbn [mOptimization]. split.
  - intros H.
    destruct opt, outputGlsl as [g0|], outputSpirv as [s0|], outputMsl as [m0|];
      unfold_pipeline; split_run tc; try discriminate;
      try (left; repeat split; reflexivity);
      try (right; repeat split; reflexivity).
  - intros [(-> & -> & ->) | (-> & -> & Hm & Hparse & Hlink)]; [reflexivity|].
    destruct outputMsl as [m0|]; [|discriminate].
    destruct (parse tc (shaderOf tc PREPROCESSOR inputShader config) OPENGL)
      as [ok infoLog] eqn:Ep.
    cbn [fst] in Hparse. subst ok.
    unfold_pipeline. run_cbn. rewrite Ep. run_cbn. rewrite Hlink. run_cbn.
    destruct (preprocess tc _ OPENGL) as [[ok glsl] infoLog']. destruct ok; reflexivity.
Qed.


Ltac finish_run :=
  eexists; eexists; split; [reflexivity|];
  split; [cbn [log]; rewrite <- ?app_assoc; cbn [app]; reflexivity|];
  reflexivity.

(** X21. [process] hands the text of the cross compiler to [shrinkString]
    as it is: at level SIZE or PERFORMANCE with a shading-language output and
    no secondary-language output, when the front end accepts the shader and
    the text that the cross compiler returns does not end in a newline, the
    call reads beyond the end of that text, whether the optimizer run
    succeeded or not. *)
Theorem process_needs_newline_terminated_text
    (tc : Toolchain) (self : GLSLPostProcessor) (inputShader : string)
    (config : Config) (old : string) (outputSpirv : option SpirvBlob) :
  mOptimization self = SIZE \/ mOptimization self = PERFORMANCE ->
  fst (parse tc (shaderOf tc (mOptimization self) inputShader config)
         (if isSome outputSpirv then VULKAN else OPENGL)) = true ->
  link tc (shaderOf tc (mOptimization self) inputShader config)
    (if isSome outputSpirv then VULKAN else OPENGL) = true ->
  (forall spirv,
      exists c,
        last_char (CompilerGLSL_compile tc spirv (glslOptionsOf config)
                     (remapsOf (langOf config) config)) = Some c
        /\ c <> newline) ->
  process tc inputShader config (Some old) outputSpirv None self = ReadsPastEnd.
Proof.
  intros Hopt Hparse Hlink Htext.
  assert (Hshrink : forall spirv,
             Shrink.shrinkString
               (CompilerGLSL_compile tc spirv (glslOptionsOf config)
                  (remapsOf (langOf config) config)) = PastEnd).
  { intros spirv. destruct (Htext spirv) as (c & Hc & Hne).
    exact (ShrinkFacts.shrinkString_not_newline_terminated _ c Hc Hne). }
  rewrite process_enters_compile by (destruct Hopt as [-> | ->]; left; discriminate).
  destruct self as [opt pr dbg mg ms mm lang ver lg].
  cbn [mOptimization mGenerateDebugInfo mPrintShaders mShLang mLangVersion log] in *.
  destruct (parse tc (shaderOf tc opt inputShader config)
              (if isSome outputSpirv then VULKAN else OPENGL)) as [ok infoLog] eqn:Ep.
  cbn [fst] in Hparse. subst ok.
  unfold_pipeline. run_cbn. rewrite Ep. run_cbn. rewrite Hlink. run_cbn.
  destruct Hopt as [-> | ->]; run_cbn;
    destruct (Run tc _ _) as [[runOk spirv'] messages]; destruct runOk, outputSpirv as [s0|];
    run_cbn; try destruct (remap tc spirv') as [spirv'' errors]; run_cbn;
    change (sh_stage (shaderOf tc SIZE inputShader config)) with (langOf config);
    change (sh_stage (shaderOf tc PERFORMANCE inputShader config)) with (langOf config);
    rewrite Hshrink; reflexivity.
Qed.

Lemma process_needs_newline_terminated_text_witness :
  process (answering true true true "void main() {}") "void main() {}" sample_config
    (Some "") None None (construct SIZE false false) = ReadsPastEnd.
Proof.
  apply (process_needs_newline_terminated_text (answering true true true "void main() {}")
           (construct SIZE false false) "void main() {}" sample_config "" None).
  - left. reflexivity.
  - reflexivity.
  - reflexivity.
  - intros spirv. exists "}"%char. split; [reflexivity|discriminate].
Defined.


(** *** Texts that end in a newline, and the others *)

Lemma terminated_returns (s : string) :
  Shrink.terminated s -> exists r, Shrink.shrinkString s = Done r.
Proof.
  intros H. destruct (ShrinkFacts.shrinkString_newline_terminated s H) as (segs & _ & _ & Hr).
  eauto.
Qed.

Lemma not_terminated_reads_past_end (s : string) :
  ~ Shrink.terminated s -> Shrink.shrinkString s = PastEnd.
Proof.
  intros H. destruct (last_char s) as [c|] eqn:E.
  - apply (ShrinkFacts.shrinkString_not_newline_terminated s c E).
    intros ->. apply H. right. exact E.
  - exfalso. apply H. left. apply ShrinkSpec.last_char_none. exact E.
Qed.

Lemma requested_returns (requested : bool) (s : string) :
  (requested = true -> Shrink.terminated s) ->
  exists r, requested = true -> Shrink.shrinkString s = Done r.
Proof.
  intros H. destruct requested.
  - destruct (terminated_returns s (H eq_refl)) as [r Hr]. exists r. auto.
  - exists "". discriminate.
Qed.

(** *** What the message consumer and the error handler add to the log *)

Lemma consumerLines_are_errors (tc : Toolchain) (messages : list message) (e : event) :
  In e (consumerLines tc messages) -> exists text, e = slog_e text.
Proof.
  unfold consumerLines. intros H. apply in_flat_map in H.
  destruct H as ([[[level source] position] text] & _ & H).
  destruct (Messages.messageConsumer _ _ _ _ _) as [l|]; [|contradiction].
  destruct H as [<- | []]. eauto.
Qed.

Lemma errorHandlerLines_are_errors (errors : list string) (e : event) :
  In e (errorHandlerLines errors) -> exists text, e = slog_e text.
Proof.
  unfold errorHandlerLines. intros H. apply in_map_iff in H.
  destruct H as (t & <- & _). eauto.
Qed.

(** *** Levels SIZE and PERFORMANCE *)

(** The run of [process] at level SIZE or PERFORMANCE once the front end has
    accepted the shader, given what [shrinkString] returns on the texts of
    the cross compilers. *)
Lemma full_optimization_run
    (tc : Toolchain) (self : GLSLPostProcessor) (inputShader : string)
    (config : Config) (outputGlsl : option string) (outputSpirv : option SpirvBlob)
    (outputMsl : option string) (ok : bool) (spirv' : SpirvBlob)
    (messages : list message) (msl' glsl' : string) :
  mOptimization self = SIZE \/ mOptimization self = PERFORMANCE ->
  fst (parse tc (shaderOf tc (mOptimization self) inputShader config)
         (if isSome outputSpirv then VULKAN else OPENGL)) = true ->
  link tc (shaderOf tc (mOptimization self) inputShader config)
    (if isSome outputSpirv then VULKAN else OPENGL) = true ->
  Run tc (createOptimizer (mOptimization self) config)
    (GlslangToSpv tc (shaderOf tc (mOptimization self) inputShader config)
       (mGenerateDebugInfo self)) = (ok, spirv', messages) ->
  (isSome outputMsl = true ->
   Shrink.shrinkString
     (CompilerMSL_compile tc (if ok then fst (remap tc spirv') else spirv')
        (mslOptionsOf config)) = Done msl') ->
  (isSome outputGlsl = true ->
   Shrink.shrinkString
     (CompilerGLSL_compile tc (if ok then fst (remap tc spirv') else spirv')
        (glslOptionsOf config) (remapsOf (langOf config) config)) = Done glsl') ->
  exists self',
    process tc inputShader config outputGlsl outputSpirv outputMsl self
      = Returns
          (mkResult true
             (option_map (fun _ => Minifier.minifyStructFields (iteration tc) glsl')
                outputGlsl)
             (option_map (fun _ => if ok then fst (remap tc spirv') else spirv')
                outputSpirv)
             (option_map (fun _ => msl') outputMsl)) self'
    /\ log self'
       = (log self
          ++ [call_parse (shaderOf tc (mOptimization self) inputShader config);
              call_link (shaderOf tc (mOptimization self) inputShader config);
              call_GlslangToSpv (shaderOf tc (mOptimization self) inputShader config);
              call_Run (createOptimizer (mOptimization self) config)]
          ++ consumerLines tc messages
          ++ (if ok then call_remap :: errorHandlerLines (snd (remap tc spirv'))
              else [slog_e "SPIR-V optimizer pass failed"])
          ++ (if isSome outputMsl then [call_CompilerMSL] else [])
          ++ (if isSome outputGlsl then [call_CompilerGLSL] else [])
          ++ match outputGlsl with
             | Some _ =>
                 if mPrintShaders self
                 then [slog_i (Minifier.minifyStructFields (iteration tc) glsl')]
                 else []
             | None => []
             end)%list.
Proof.
  intros Hopt Hparse Hlink Hrun Hmsl Hglsl.
  rewrite process_enters_compile by (destruct Hopt as [-> | ->]; left; discriminate).
  destruct self as [opt pr dbg mg ms mm lang ver lg].
  cbn [mOptimization mGenerateDebugInfo mPrintShaders mShLang mLangVersion log] in *.
  destruct (parse tc (shaderOf tc opt inputShader config)
              (if isSome outputSpirv then VULKAN else OPENGL)) as [ok0 infoLog] eqn:Ep.
  cbn [fst] in Hparse. subst ok0.
  destruct (remap tc spirv') as [spirv'' errors] eqn:Er.
  unfold_pipeline. run_cbn. rewrite Ep. run_cbn. rewrite Hlink. run_cbn.
  destruct Hopt as [-> | ->]; run_cbn; rewrite Hrun;
    destruct ok, outputGlsl as [g0|], outputSpirv as [s0|], outputMsl as [m0|]; run_cbn;
    rewrite ?Er; run_cbn;
    change (sh_stage (shaderOf tc SIZE inputShader config)) with (langOf config);
    change (sh_stage (shaderOf tc PERFORMANCE inputShader config)) with (langOf config);
    try rewrite (Hmsl eq_refl); run_cbn; try rewrite (Hglsl eq_refl); try destruct pr;
    run_cbn;
    (eexists; split; [reflexivity|];
     cbn [log]; rewrite <- ?app_assoc; cbn [app]; rewrite ?app_nil_r; reflexivity).
Qed.

(** The same run when [shrinkString] reads beyond the end of one of the
    texts. *)
Lemma full_optimization_reads_past_end
    (tc : Toolchain) (self : GLSLPostProcessor) (inputShader : string)
    (config : Config) (outputGlsl : option string) (outputSpirv : option SpirvBlob)
    (outputMsl : option string) (ok : bool) (spirv' : SpirvBlob)
    (messages : list message) :
  mOptimization self = SIZE \/ mOptimization self = PERFORMANCE ->
  fst (parse tc (shaderOf tc (mOptimization self) inputShader config)
         (if isSome outputSpirv then VULKAN else OPENGL)) = true ->
  link tc (shaderOf tc (mOptimization self) inputShader config)
    (if isSome outputSpirv then VULKAN else OPENGL) = true ->
  Run tc (createOptimizer (mOptimization self) config)
    (GlslangToSpv tc (shaderOf tc (mOptimization self) inputShader config)
       (mGenerateDebugInfo self)) = (ok, spirv', messages) ->
  (isSome outputMsl = true
   /\ Shrink.shrinkString
        (CompilerMSL_compile tc (if ok then fst (remap tc spirv') else spirv')
           (mslOptionsOf config)) = PastEnd)
  \/ (isSome outputGlsl = true
      /\ Shrink.shrinkString
           (CompilerGLSL_compile tc (if ok then fst (remap tc spirv') else spirv')
              (glslOptionsOf config) (remapsOf (langOf config) config)) = PastEnd) ->
  process tc inputShader config outputGlsl outputSpirv outputMsl self = ReadsPastEnd.
Proof.
  intros Hopt Hparse Hlink Hrun Hpast.
  rewrite process_enters_compile by (destruct Hopt as [-> | ->]; left; discriminate).
  destruct self as [opt pr dbg mg ms mm lang ver lg].
  cbn [mOptimization mGenerateDebugInfo mPrintShaders mShLang mLangVersion log] in *.
  destruct (parse tc (shaderOf tc opt inputShader config)
              (if isSome outputSpirv then VULKAN else OPENGL)) as [ok0 infoLog] eqn:Ep.
  cbn [fst] in Hparse. subst ok0.
  destruct (remap tc spirv') as [spirv'' errors] eqn:Er.
  pose proof (ShrinkFacts.shrinkString_never_out_of_fuel
                (CompilerMSL_compile tc (if ok then spirv'' else spirv')
                   (mslOptionsOf config))) as Hfuel.
  unfold_pipeline. run_cbn. rewrite Ep. run_cbn. rewrite Hlink. run_cbn.
  destruct Hopt as [-> | ->]; run_cbn; rewrite Hrun;
    destruct ok, outputGlsl as [g0|], outputSpirv as [s0|], outputMsl as [m0|]; run_cbn;
    rewrite ?Er; run_cbn;
    change (sh_stage (shaderOf tc SIZE inputShader config)) with (langOf config);
    change (sh_stage (shaderOf tc PERFORMANCE inputShader config)) with (langOf config);
    (destruct Hpast as [[Hreq Hpast] | [Hreq Hpast]]; [try discriminate Hreq..]);
    try (rewrite Hpast; reflexivity);
    (destruct (Shrink.shrinkString (CompilerMSL_compile tc _ (mslOptionsOf config)));
     [run_cbn; rewrite Hpast; reflexivity | reflexivity | congruence]).
Qed.

(** C5, amended. At level SIZE or PERFORMANCE, when the front end accepts the
    shader and the optimizer run reports failure, the messages of the run and
    the line "SPIR-V optimizer pass failed" are written to the error log, the
    remap of dead objects is skipped, and the call goes on with the blob that
    the run left behind. When every requested text that the cross compilers
    make of that blob is empty or ends in a newline, [process] returns true:
    the blob is in the IR output when one is requested, the compacted text of
    the secondary language is in its output, and the compacted and minified
    text of the shading language is in its output. When a requested text does
    not end in a newline, the call reads beyond the end of that text. *)
Theorem optimizer_failure_only_skips_the_remap
    (tc : Toolchain) (self : GLSLPostProcessor) (inputShader : string)
    (config : Config) (outputGlsl : option string) (outputSpirv : option SpirvBlob)
    (outputMsl : option string) (spirv' : SpirvBlob) (messages : list message) :
  mOptimization self = SIZE \/ mOptimization self = PERFORMANCE ->
  fst (parse tc (shaderOf tc (mOptimization self) inputShader config)
         (if isSome outputSpirv then VULKAN else OPENGL)) = true ->
  link tc (shaderOf tc (mOptimization self) inputShader config)
    (if isSome outputSpirv then VULKAN else OPENGL) = true ->
  Run tc (createOptimizer (mOptimization self) config)
    (GlslangToSpv tc (shaderOf tc (mOptimization self) inputShader config)
       (mGenerateDebugInfo self)) = (false, spirv', messages) ->
  ((isSome outputMsl = true ->
    Shrink.terminated (CompilerMSL_compile tc spirv' (mslOptionsOf config))) ->
   (isSome outputGlsl = true ->
    Shrink.terminated
      (CompilerGLSL_compile tc spirv' (glslOptionsOf config)
         (remapsOf (langOf config) config))) ->
   exists msl' glsl' self' added,
     (isSome outputMsl = true ->
      Shrink.shrinkString (CompilerMSL_compile tc spirv' (mslOptionsOf config))
      = Done msl')
     /\ (isSome outputGlsl = true ->
         Shrink.shrinkString
           (CompilerGLSL_compile tc spirv' (glslOptionsOf config)
              (remapsOf (langOf config) config)) = Done glsl')
     /\ process tc inputShader config outputGlsl outputSpirv outputMsl self
        = Returns
            (mkResult true
               (option_map (fun _ => Minifier.minifyStructFields (iteration tc) glsl')
                  outputGlsl)
               (option_map (fun _ => spirv') outputSpirv)
               (option_map (fun _ => msl') outputMsl)) self'
     /\ log self' = (log self ++ added)%list
     /\ added
        = ([call_parse (shaderOf tc (mOptimization self) inputShader config);
            call_link (shaderOf tc (mOptimization self) inputShader config);
            call_GlslangToSpv (shaderOf tc (mOptimization self) inputShader config);
            call_Run (createOptimizer (mOptimization self) config)]
           ++ consumerLines tc messages
           ++ [slog_e "SPIR-V optimizer pass failed"]
           ++ (if isSome outputMsl then [call_CompilerMSL] else [])
           ++ (if isSome outputGlsl then [call_CompilerGLSL] else [])
           ++ match outputGlsl with
              | Some _ =>
                  if mPrintShaders self
                  then [slog_i (Minifier.minifyStructFields (iteration tc) glsl')]
                  else []
              | None => []
              end)%list
     /\ ~ In call_remap added)
  /\ ((isSome outputMsl = true
       /\ ~ Shrink.terminated (CompilerMSL_compile tc spirv' (mslOptionsOf config)))
      \/ (isSome outputGlsl = true
          /\ ~ Shrink.terminated
                 (CompilerGLSL_compile tc spirv' (glslOptionsOf config)
                    (remapsOf (langOf config) config))) ->
      process tc inputShader config outputGlsl outputSpirv outputMsl self = ReadsPastEnd).
Proof.
  intros Hopt Hparse Hlink Hrun. split.
  - intros Hmsl Hglsl.
    destruct (requested_returns _ _ Hmsl) as [msl' Hmsl'].
    destruct (requested_returns _ _ Hglsl) as [glsl' Hglsl'].
    destruct (full_optimization_run tc self inputShader config outputGlsl outputSpirv
                outputMsl false spirv' messages msl' glsl' Hopt Hparse Hlink Hrun
                Hmsl' Hglsl') as (self' & Hp & Hl).
    exists msl', glsl', self'. eexists.
    split; [exact Hmsl'|]. split; [exact Hglsl'|]. split; [exact Hp|].
    split; [exact Hl|]. split; [reflexivity|].
    intros Hin. cbn [app In] in Hin.
    destruct Hin as [Hin | [Hin | [Hin | [Hin | Hin]]]]; try discriminate.
    apply in_app_or in Hin. destruct Hin as [Hin | Hin].
    { apply consumerLines_are_errors in Hin. destruct Hin as [t Ht]. discriminate. }
    cbn [In] in Hin. destruct Hin as [Hin | Hin]; [discriminate|].
    apply in_app_or in Hin. destruct Hin as [Hin | Hin].
    { destruct (isSome outputMsl); cbn [In] in Hin;
        [destruct Hin as [Hin | []]; discriminate | contradiction]. }
    apply in_app_or in Hin. destruct Hin as [Hin | Hin].
    { destruct (isSome outputGlsl); cbn [In] in Hin;
        [destruct Hin as [Hin | []]; discriminate | contradiction]. }
    destruct outputGlsl; [|contradiction]. destruct (mPrintShaders self);
      cbn [In] in Hin; [destruct Hin as [Hin | []]; discriminate | contradiction].
  - intros Hpast.
    apply (full_optimization_reads_past_end tc self inputShader config outputGlsl
             outputSpirv outputMsl false spirv' messages Hopt Hparse Hlink Hrun).
    destruct Hpast as [[Hreq Hn] | [Hreq Hn]]; [left | right];
      (split; [exact Hreq|]); apply not_terminated_reads_past_end; exact Hn.
Qed.

Lemma optimizer_failure_only_skips_the_remap_witness :
  exists msl' glsl' self' added,
    (isSome (Some "") = true ->
     Shrink.shrinkString
       (CompilerMSL_compile (talkative false) [119734787; 65536; 7]%N
          (mslOptionsOf sample_config)) = Done msl')
    /\ (isSome (Some "") = true ->
        Shrink.shrinkString
          (CompilerGLSL_compile (talkative false) [119734787; 65536; 7]%N
             (glslOptionsOf sample_config)
             (remapsOf (langOf sample_config) sample_config)) = Done glsl')
    /\ process (talkative false) "void main() {}" sample_config
         (Some "") (Some []) (Some "") (construct SIZE false false)
       = Returns
           (mkResult true
              (Some (Minifier.minifyStructFields (fun m => m) glsl'))
              (Some [119734787; 65536; 7]%N)
              (Some msl')) self'
    /\ log self' = ([] ++ added)%list
    /\ added
       = ([call_parse (shaderOf (talkative false) SIZE "void main() {}" sample_config);
           call_link (shaderOf (talkative false) SIZE "void main() {}" sample_config);
           call_GlslangToSpv
             (shaderOf (talkative false) SIZE "void main() {}" sample_config);
           call_Run (createOptimizer SIZE sample_config)]
          ++ [slog_e "WARNING: shader:3:1:17: unused variable"]
          ++ [slog_e "SPIR-V optimizer pass failed"]
          ++ [call_CompilerMSL]
          ++ [call_CompilerGLSL]
          ++ [])%list
    /\ ~ In call_remap added.
Proof.
  apply (proj1 (optimizer_failure_only_skips_the_remap (talkative false)
                  (construct SIZE false false) "void main() {}" sample_config
                  (Some "") (Some []) (Some "") [119734787; 65536; 7]%N
                  [(Messages.SPV_MSG_WARNING, Some "shader", Messages.mkPosition 3 1 17,
                    Some "unused variable")]
                  (or_introl eq_refl) eq_refl eq_refl eq_refl)).
  - intros _. right. reflexivity.
  - intros _. right. reflexivity.
Defined.



(** X19. At level NONE with an IR output, once the front end has accepted
    the shader, [process] stores the unoptimized blob of the front end in the
    IR output and cross-compiles that blob for the secondary-language output
    when one is requested; neither the optimizer nor the cross compiler to the
    shading language is called. A shading-language output object is not
    written from the shader: it receives the compacted and minified form of
    the text it held before the call. All this when the text that the
    shading-language output object held and the text of the secondary
    language, where requested, are empty or end in a newline: then [process]
    returns true. When one of them does not end in a newline, the call reads
    beyond the end of that text. *)
Theorem process_NONE_with_spirv
    (tc : Toolchain) (self : GLSLPostProcessor) (inputShader : string)
    (config : Config) (outputGlsl : option string) (old : SpirvBlob)
    (outputMsl : option string) :
  mOptimization self = NONE ->
  fst (parse tc (shaderOf tc NONE inputShader config) VULKAN) = true ->
  link tc (shaderOf tc NONE inputShader config) VULKAN = true ->
  ((forall g, outputGlsl = Some g -> Shrink.terminated g) ->
   (isSome outputMsl = true ->
    Shrink.terminated
      (CompilerMSL_compile tc
         (GlslangToSpv tc (shaderOf tc NONE inputShader config) (mGenerateDebugInfo self))
         (mslOptionsOf config))) ->
   exists g' msl' self' echo,
     (forall g, outputGlsl = Some g -> Shrink.shrinkString g = Done g')
     /\ (isSome outputMsl = true ->
         Shrink.shrinkString
           (CompilerMSL_compile tc
              (GlslangToSpv tc (shaderOf tc NONE inputShader config)
                 (mGenerateDebugInfo self))
              (mslOptionsOf config)) = Done msl')
     /\ process tc inputShader config outputGlsl (Some old) outputMsl self
        = Returns
            (mkResult true
               (option_map (fun _ => Minifier.minifyStructFields (iteration tc) g')
                  outputGlsl)
               (Some (GlslangToSpv tc (shaderOf tc NONE inputShader config)
                        (mGenerateDebugInfo self)))
               (option_map (fun _ => msl') outputMsl)) self'
     /\ log self'
        = (log self
           ++ [call_parse (shaderOf tc NONE inputShader config);
               call_link (shaderOf tc NONE inputShader config);
               call_GlslangToSpv (shaderOf tc NONE inputShader config)]
           ++ (if isSome outputMsl then [call_CompilerMSL] else [])
           ++ echo)%list
     /\ echo = match outputGlsl with
               | Some _ =>
                   if mPrintShaders self
                   then [slog_i (Minifier.minifyStructFields (iteration tc) g')]
                   else []
               | None => []
               end)
  /\ ((exists g, outputGlsl = Some g /\ ~ Shrink.terminated g)
      \/ (isSome outputMsl = true
          /\ ~ Shrink.terminated
                 (CompilerMSL_compile tc
                    (GlslangToSpv tc (shaderOf tc NONE inputShader config)
                       (mGenerateDebugInfo self))
                    (mslOptionsOf config))) ->
      process tc inputShader config outputGlsl (Some old) outputMsl self = ReadsPastEnd).
Proof.
  intros Hopt Hparse Hlink.
  destruct self as [opt pr dbg mg ms mm lang ver lg].
  cbn [mOptimization mGenerateDebugInfo mPrintShaders log] in *. subst opt.
  destruct (parse tc (shaderOf tc NONE inputShader config) VULKAN) as [ok infoLog] eqn:Ep.
  cbn [fst] in Hparse. subst ok. split.
  - intros Hg Hmsl.
    assert (Hg' : exists g', forall g, outputGlsl = Some g -> Shrink.shrinkString g = Done g').
    { destruct outputGlsl as [g0|].
      - destruct (terminated_returns g0 (Hg g0 eq_refl)) as [g' Hg'].
        exists g'. intros g [= <-]. exact Hg'.
      - exists "". discriminate. }
    destruct Hg' as [g' Hg'].
    destruct (requested_returns _ _ Hmsl) as [msl' Hmsl'].
    exists g', msl'.
    unfold_pipeline.
    destruct outputGlsl as [g0|], outputMsl as [m0|]; run_cbn;
      rewrite Ep; run_cbn; rewrite Hlink; run_cbn;
      try rewrite (Hmsl' eq_refl); run_cbn; try rewrite (Hg' g0 eq_refl);
      try destruct pr; run_cbn;
      (eexists; eexists;
       split; [first [assumption | intros; reflexivity]|];
       split; [first [assumption | intros; reflexivity]|];
       split; [reflexivity|];
       split; [cbn [log]; rewrite <- ?app_assoc; cbn [app]; reflexivity|];
       reflexivity).
  - intros Hpast.
    pose proof (ShrinkFacts.shrinkString_never_out_of_fuel
                  (CompilerMSL_compile tc
                     (GlslangToSpv tc (shaderOf tc NONE inputShader config) dbg)
                     (mslOptionsOf config))) as Hfuel.
    unfold_pipeline.
    destruct outputGlsl as [g0|], outputMsl as [m0|]; run_cbn;
      rewrite Ep; run_cbn; rewrite Hlink; run_cbn;
      (destruct Hpast as [(g & Hreq & Hn) | [Hreq Hn]];
       [try discriminate Hreq; try (injection Hreq as <-) | try discriminate Hreq]);
      apply not_terminated_reads_past_end in Hn;
      try (rewrite Hn; reflexivity);
      (destruct (Shrink.shrinkString (CompilerMSL_compile tc _ (mslOptionsOf config)));
       [run_cbn; rewrite Hn; reflexivity | reflexivity | congruence]).
Qed.

Lemma process_NONE_with_spirv_witness :
  exists g' msl' self' echo,
    (forall g, Some ("  float x;" ++ nl) = Some g -> Shrink.shrinkString g = Done g')
    /\ (isSome (Some "") = true ->
        Shrink.shrinkString
          (CompilerMSL_compile (canned true)
             (GlslangToSpv (canned true)
                (shaderOf (canned true) NONE "void main() {}" sample_config) false)
             (mslOptionsOf sample_config)) = Done msl')
    /\ process (canned true) "void main() {}" sample_config
         (Some ("  float x;" ++ nl)) (Some []) (Some "") (construct NONE false false)
       = Returns
           (mkResult true
              (Some (Minifier.minifyStructFields (fun m => m) g'))
              (Some [119734787; 65536; 7]%N)
              (Some msl')) self'
    /\ log self'
       = ([]
          ++ [call_parse (shaderOf (canned true) NONE "void main() {}" sample_config);
              call_link (shaderOf (canned true) NONE "void main() {}" sample_config);
              call_GlslangToSpv (shaderOf (canned true) NONE "void main() {}" sample_config)]
          ++ [call_CompilerMSL]
          ++ echo)%list
    /\ echo = [].
Proof.
  apply (proj1 (process_NONE_with_spirv (canned true) (construct NONE false false)
                  "void main() {}" sample_config (Some ("  float x;" ++ nl)) []
                  (Some "") eq_refl eq_refl eq_refl)).
  - intros g [= <-]. right. reflexivity.
  - intros _. right. reflexivity.
Defined.

(** X20. At level SIZE or PERFORMANCE, when the front end accepts the shader
    and the optimizer run succeeds, the stages run in this order: parse, link,
    translation to the IR, the optimizer with the passes of the level, the
    remap of dead objects, then the cross compiler to the secondary language
    and the cross compiler to the shading language for the outputs that are
    requested. The messages of the optimizer run that pass the filter are
    written to the error log after the run, and the errors of the remapper
    after the remap. Every output is made from the remapped blob. When every
    requested text of the cross compilers is empty or ends in a newline,
    [process] returns true; when one of them does not end in a newline, the
    call reads beyond the end of that text. *)
Theorem process_optimizes_then_remaps
    (tc : Toolchain) (self : GLSLPostProcessor) (inputShader : string)
    (config : Config) (outputGlsl : option string) (outputSpirv : option SpirvBlob)
    (outputMsl : option string) (spirv' spirv'' : SpirvBlob)
    (messages : list message) (errors : list string) :
  mOptimization self = SIZE \/ mOptimization self = PERFORMANCE ->
  fst (parse tc (shaderOf tc (mOptimization self) inputShader config)
         (if isSome outputSpirv then VULKAN else OPENGL)) = true ->
  link tc (shaderOf tc (mOptimization self) inputShader config)
    (if isSome outputSpirv then VULKAN else OPENGL) = true ->
  Run tc (createOptimizer (mOptimization self) config)
    (GlslangToSpv tc (shaderOf tc (mOptimization self) inputShader config)
       (mGenerateDebugInfo self)) = (true, spirv', messages) ->
  remap tc spirv' = (spirv'', errors) ->
  ((isSome outputMsl = true ->
    Shrink.terminated (CompilerMSL_compile tc spirv'' (mslOptionsOf config))) ->
   (isSome outputGlsl = true ->
    Shrink.terminated
      (CompilerGLSL_compile tc spirv'' (glslOptionsOf config)
         (remapsOf (langOf config) config))) ->
   exists msl' glsl' self' echo,
     (isSome outputMsl = true ->
      Shrink.shrinkString (CompilerMSL_compile tc spirv'' (mslOptionsOf config))
      = Done msl')
     /\ (isSome outputGlsl = true ->
         Shrink.shrinkString
           (CompilerGLSL_compile tc spirv'' (glslOptionsOf config)
              (remapsOf (langOf config) config)) = Done glsl')
     /\ process tc inputShader config outputGlsl outputSpirv outputMsl self
        = Returns
            (mkResult true
               (option_map (fun _ => Minifier.minifyStructFields (iteration tc) glsl')
                  outputGlsl)
               (option_map (fun _ => spirv'') outputSpirv)
               (option_map (fun _ => msl') outputMsl)) self'
     /\ log self'
        = (log self
           ++ [call_parse (shaderOf tc (mOptimization self) inputShader config);
               call_link (shaderOf tc (mOptimization self) inputShader config);
               call_GlslangToSpv (shaderOf tc (mOptimization self) inputShader config);
               call_Run (createOptimizer (mOptimization self) config)]
           ++ consumerLines tc messages
           ++ [call_remap]
           ++ errorHandlerLines errors
           ++ (if isSome outputMsl then [call_CompilerMSL] else [])
           ++ (if isSome outputGlsl then [call_CompilerGLSL] else [])
           ++ echo)%list
     /\ echo = match outputGlsl with
               | Some _ =>
                   if mPrintShaders self
                   then [slog_i (Minifier.minifyStructFields (iteration tc) glsl')]
                   else []
               | None => []
               end)
  /\ ((isSome outputMsl = true
       /\ ~ Shrink.terminated (CompilerMSL_compile tc spirv'' (mslOptionsOf config)))
      \/ (isSome outputGlsl = true
          /\ ~ Shrink.terminated
                 (CompilerGLSL_compile tc spirv'' (glslOptionsOf config)
                    (remapsOf (langOf config) config))) ->
      process tc inputShader config outputGlsl outputSpirv outputMsl self = ReadsPastEnd).
Proof.
  intros Hopt Hparse Hlink Hrun Hremap. split.
  - intros Hmsl Hglsl.
    destruct (requested_returns _ _ Hmsl) as [msl' Hmsl'].
    destruct (requested_returns _ _ Hglsl) as [glsl' Hglsl'].
    pose proof (full_optimization_run tc self inputShader config outputGlsl outputSpirv
                  outputMsl true spirv' messages msl' glsl' Hopt Hparse Hlink Hrun) as H.
    rewrite Hremap in H. cbn [fst snd] in H.
    destruct (H Hmsl' Hglsl') as (self' & Hp & Hl).
    exists msl', glsl', self'. eexists.
    split; [exact Hmsl'|]. split; [exact Hglsl'|]. split; [exact Hp|].
    split; [|reflexivity]. rewrite Hl. cbn [app]. reflexivity.
  - intros Hpast.
    apply (full_optimization_reads_past_end tc self inputShader config outputGlsl
             outputSpirv outputMsl true spirv' messages Hopt Hparse Hlink Hrun).
    rewrite Hremap. cbn [fst].
    destruct Hpast as [[Hreq Hn] | [Hreq Hn]]; [left | right];
      (split; [exact Hreq|]); apply not_terminated_reads_past_end; exact Hn.
Qed.

Lemma process_optimizes_then_remaps_witness :
  exists msl' glsl' self' echo,
    (isSome (Some "") = true ->
     Shrink.shrinkString
       (CompilerMSL_compile (talkative true) [119734787; 65536; 7]%N
          (mslOptionsOf sample_config)) = Done msl')
    /\ (isSome (Some "") = true ->
        Shrink.shrinkString
          (CompilerGLSL_compile (talkative true) [119734787; 65536; 7]%N
             (glslOptionsOf sample_config)
             (remapsOf (langOf sample_config) sample_config)) = Done glsl')
    /\ process (talkative true) "void main() {}" sample_config
         (Some "") (Some []) (Some "") (construct PERFORMANCE false false)
       = Returns
           (mkResult true
              (Some (Minifier.minifyStructFields (fun m => m) glsl'))
              (Some [119734787; 65536; 7]%N)
              (Some msl')) self'
    /\ log self'
       = ([]
          ++ [call_parse (shaderOf (talkative true) PERFORMANCE "void main() {}"
                            sample_config);
              call_link (shaderOf (talkative true) PERFORMANCE "void main() {}"
                           sample_config);
              call_GlslangToSpv
                (shaderOf (talkative true) PERFORMANCE "void main() {}" sample_config);
              call_Run (createOptimizer PERFORMANCE sample_config)]
          ++ [slog_e "WARNING: shader:3:1:17: unused variable"]
          ++ [call_remap]
          ++ [slog_e "ID not found"]
          ++ [call_CompilerMSL]
          ++ [call_CompilerGLSL]
          ++ echo)%list
    /\ echo = [].
Proof.
  apply (proj1 (process_optimizes_then_remaps (talkative true)
                  (construct PERFORMANCE false false) "void main() {}" sample_config
                  (Some "") (Some []) (Some "") [119734787; 65536; 7]%N
                  [119734787; 65536; 7]%N
                  [(Messages.SPV_MSG_WARNING, Some "shader", Messages.mkPosition 3 1 17,
                    Some "unused variable")]
                  ["ID not found"]
                  (or_intror eq_refl) eq_refl eq_refl eq_refl eq_refl)).
  - intros _. right. reflexivity.
  - intros _. right. reflexivity.
Defined.

(** X22. At level PREPROCESSOR without a secondary-language output, once
    the front end has accepted the shader, what the preprocessor and the
    second parse report does not make [process] fail. When no
    shading-language output is requested, or the text of the preprocessor is
    empty or ends in a newline, [process] returns true: the shading-language
    output is the compacted and minified text of the preprocessor, also when
    the preprocessor reported an error (its info log is then on the error
    log); the IR output is translated from a second parse of the preprocessed
    text and keeps what it held when that parse or its link fails; the
    optimizer and the cross compilers are not called. When a shading-language
    output is requested and the text of the preprocessor does not end in a
    newline, the call reads beyond the end of that text. *)
Theorem process_PREPROCESSOR_returns_true
    (tc : Toolchain) (self : GLSLPostProcessor) (inputShader : string)
    (config : Config) (outputGlsl : option string) (outputSpirv : option SpirvBlob)
    (ok : bool) (glsl infoLog : string) :
  mOptimization self = PREPROCESSOR ->
  fst (parse tc (shaderOf tc PREPROCESSOR inputShader config)
         (if isSome outputSpirv then VULKAN else OPENGL)) = true ->
  link tc (shaderOf tc PREPROCESSOR inputShader config)
    (if isSome outputSpirv then VULKAN else OPENGL) = true ->
  preprocess tc (shaderOf tc PREPROCESSOR inputShader config)
    (if isSome outputSpirv then VULKAN else OPENGL) = (ok, glsl, infoLog) ->
  ((isSome outputGlsl = true -> Shrink.terminated glsl) ->
   exists g' self' added,
     (isSome outputGlsl = true -> Shrink.shrinkString glsl = Done g')
     /\ process tc inputShader config outputGlsl outputSpirv None self
        = Returns
            (mkResult true
               (option_map (fun _ => Minifier.minifyStructFields (iteration tc) g')
                  outputGlsl)
               (option_map
                  (fun old =>
                     let spirvShader :=
                       mkTShader glsl (langOf config)
                         (glslangVersionFromShaderModel tc (shaderModel config))
                         PREPROCESSOR in
                     if fst (parse tc spirvShader VULKAN) && link tc spirvShader VULKAN
                     then GlslangToSpv tc spirvShader (mGenerateDebugInfo self)
                     else old)
                  outputSpirv)
               None) self'
     /\ log self' = (log self ++ added)%list
     /\ (ok = false -> In (slog_e infoLog) added)
     /\ ~ In call_CompilerGLSL added
     /\ ~ In call_CompilerMSL added
     /\ ~ In call_remap added
     /\ (forall passes, ~ In (call_Run passes) added))
  /\ (isSome outputGlsl = true -> ~ Shrink.terminated glsl ->
      process tc inputShader config outputGlsl outputSpirv None self = ReadsPastEnd).
Proof.
  intros Hopt Hparse Hlink Hpre.
  rewrite process_enters_compile by (left; rewrite Hopt; discriminate).
  destruct self as [opt pr dbg mg ms mm lang ver lg].
  cbn [mOptimization mGenerateDebugInfo mPrintShaders mShLang mLangVersion log] in *.
  subst opt.
  destruct (parse tc (shaderOf tc PREPROCESSOR inputShader config)
              (if isSome outputSpirv then VULKAN else OPENGL)) as [ok0 infoLog0] eqn:Ep.
  cbn [fst] in Hparse. subst ok0. split.
  - intros Hglsl. destruct (requested_returns _ _ Hglsl) as [g' Hg']. exists g'.
    unfold_pipeline. run_cbn. rewrite Ep. run_cbn. rewrite Hlink. run_cbn.
    unfold shaderOf in *. run_cbn. rewrite Hpre.
    destruct outputGlsl as [g0|], outputSpirv as [s0|], ok; run_cbn;
      try (destruct (parse tc (mkTShader glsl _ _ _) VULKAN) as [ok2 infoLog2];
           destruct ok2, (link tc (mkTShader glsl _ _ _) VULKAN));
      run_cbn; try rewrite (Hg' eq_refl); try destruct pr; run_cbn;
      (eexists; eexists;
       split; [first [assumption | intros; reflexivity]|];
       split; [reflexivity|];
       split; [cbn [log]; rewrite <- ?app_assoc; cbn [app]; reflexivity|];
       split; [intros Hok; try discriminate Hok; cbn [In]; tauto|];
       repeat split; unfold not; intros; cbn [In] in *;
       repeat match goal with
              | H : _ \/ _ |- _ => destruct H as [H | H]
              end; try discriminate; contradiction).
  - intros Hreq Hn. apply not_terminated_reads_past_end in Hn.
    destruct outputGlsl as [g0|]; [|discriminate].
    unfold_pipeline. run_cbn. rewrite Ep. run_cbn. rewrite Hlink. run_cbn.
    unfold shaderOf in *. run_cbn. rewrite Hpre.
    destruct outputSpirv as [s0|], ok; run_cbn;
      try (destruct (parse tc (mkTShader glsl _ _ _) VULKAN) as [ok2 infoLog2];
           destruct ok2, (link tc (mkTShader glsl _ _ _) VULKAN));
      run_cbn; rewrite Hn; reflexivity.
Qed.

Lemma process_PREPROCESSOR_returns_true_witness :
  exists g' self' added,
    (isSome (Some "") = true -> Shrink.shrinkString ("void main() {}" ++ nl) = Done g')
    /\ process (canned true) ("void main() {}" ++ nl) sample_config
         (Some "") (Some []) None (construct PREPROCESSOR false false)
       = Returns
           (mkResult true
              (Some (Minifier.minifyStructFields (fun m => m) g'))
              (Some [119734787; 65536; 7]%N)
              None) self'
    /\ log self' = (log (construct PREPROCESSOR false false) ++ added)%list
    /\ (true = false -> In (slog_e "") added)
    /\ ~ In call_CompilerGLSL added
    /\ ~ In call_CompilerMSL added
    /\ ~ In call_remap added
    /\ (forall passes, ~ In (call_Run passes) added).
Proof.
  apply (proj1 (process_PREPROCESSOR_returns_true (canned true)
                  (construct PREPROCESSOR false false)
                  ("void main() {}" ++ nl) sample_config (Some "") (Some []) true
                  ("void main() {}" ++ nl) "" eq_refl eq_refl eq_refl eq_refl)).
  intros _. right. reflexivity.
Defined.

(** The sample block with the fields b and a reaches the minifier through
    [process]: at level PREPROCESSOR, with a preprocessor that returns the
    shader as it is, the shading-language output holds the line with two
    references to one field. *)
Lemma process_minifies_swapped_fields :
  returns (process (canned true) Minifier.swappedSource sample_config
             (Some "") None None (construct PREPROCESSOR false false))
  = Some (mkResult true
            (Some (unlines ["uniform Light"; "{"; "float a;"; "float b;"; "} s;";
                            "x = s.b + s.b;"]))
            None None).
Proof. vm_compute. reflexivity. Qed.

End PipelineSpec.

(** ** Profiles, options, names and messages *)

Module ProfilesSpec.
Import Profiles.

Lemma RegisterPasses_app (ps : list Pass) :
  forall optimizer, RegisterPasses optimizer ps = (optimizer ++ ps)%list.
Proof.
  unfold RegisterPasses. induction ps as [|p ps IH]; intros optimizer; cbn [fold_left].
  - rewrite app_nil_r. reflexivity.
  - rewrite IH. unfold RegisterPass. rewrite <- app_assoc. reflexivity.
Qed.

(** X23. Registering a profile only adds passes behind those that the
    optimizer already holds, and the shader model decides nothing in a profile
    but the presence of the merge-return pass: without that pass the profile
    is the same for every shader model. *)
Theorem profiles_append_and_differ_by_merge_return
    (optimizer : Optimizer) (model model' : ShaderModel) :
  registerPerformancePasses optimizer model
  = (optimizer ++ registerPerformancePasses [] model)%list
  /\ registerSizePasses optimizer model = (optimizer ++ registerSizePasses [] model)%list
  /\ filter (fun p => negb (Pass_is_MergeReturn p)) (registerPerformancePasses [] model)
     = filter (fun p => negb (Pass_is_MergeReturn p)) (registerPerformancePasses [] model')
  /\ filter (fun p => negb (Pass_is_MergeReturn p)) (registerSizePasses [] model)
     = filter (fun p => negb (Pass_is_MergeReturn p)) (registerSizePasses [] model').
Proof.
  split; [|split; [|split]].
  - unfold registerPerformancePasses.
    destruct (negb (ShaderModel_eqb model GL_CORE_41)); unfold RegisterPass;
      rewrite !RegisterPasses_app, <- !app_assoc; reflexivity.
  - unfold registerSizePasses.
    destruct (negb (ShaderModel_eqb model GL_CORE_41)); unfold RegisterPass;
      rewrite !RegisterPasses_app, <- !app_assoc; reflexivity.
  - destruct model, model'; vm_compute; reflexivity.
  - destruct model, model'; vm_compute; reflexivity.
Qed.

End ProfilesSpec.

Module OptionsSpec.
Import Profiles Pipeline.

(** X24. The options that the cross compilers get follow from the shader
    model alone. The version is 300 or 410, so the 420pack extension is never
    enabled; the ES flag, the medium default precisions, the iOS platform and
    the framebuffer-fetch subpasses go with GL_ES_30 and with no other model
    (UNKNOWN gets version 300 without the ES flag); and framebuffer fetches
    are remapped for fragment shaders on GL_ES_30 only. *)
Theorem cross_compiler_options (config : Config) (stage : EShLanguage) :
  enable_420pack_extension (glslOptionsOf config) = false
  /\ (es (glslOptionsOf config) = true <-> shaderModel config = GL_ES_30)
  /\ (version (glslOptionsOf config) = 410 <-> shaderModel config = GL_CORE_41)
  /\ (version (glslOptionsOf config) = 300 <-> shaderModel config <> GL_CORE_41)
  /\ (default_float_precision (glslOptionsOf config) = Mediump
      <-> shaderModel config = GL_ES_30)
  /\ default_int_precision (glslOptionsOf config)
     = default_float_precision (glslOptionsOf config)
  /\ (platform (mslOptionsOf config) = iOS <-> shaderModel config = GL_ES_30)
  /\ use_framebuffer_fetch_subpasses (mslOptionsOf config) = es (glslOptionsOf config)
  /\ (remapsOf stage config <> [] ->
      stage = EShLangFragment /\ shaderModel config = GL_ES_30
      /\ remapsOf stage config = subpassInputToColorLocation config).
Proof.
  destruct config as [ty model remaps]. unfold glslOptionsOf, mslOptionsOf, remapsOf.
  cbn [shaderModel subpassInputToColorLocation es version enable_420pack_extension
       default_float_precision default_int_precision platform
       use_framebuffer_fetch_subpasses].
  destruct model, stage; cbn;
    repeat split; try reflexivity; try discriminate; try congruence;
    try (intros H; exfalso; apply H; reflexivity).
Qed.

End OptionsSpec.

Module NamesSpec.
Import Str Scanner Minifier NamesFacts UsageFacts.

(** X25. However many fields a struct has, the names generated for them are
    pairwise different and are identifiers, and name number [k] (from 0) has
    [1 + k / 26] characters: from the 27th field on a generated name is longer
    than one letter, and it grows by one letter every 26 fields. *)
Theorem generated_names_for_any_count (n : nat) :
  NoDup (generatedNames n "a")
  /\ Forall (fun g => isIdentifier g = true) (generatedNames n "a")
  /\ (forall k, k < n ->
        exists g, nth_error (generatedNames n "a") k = Some g
                  /\ String.length g = 1 + k / 26).
Proof.
  split; [apply generatedNames_NoDup|]. rewrite generatedNames_closed_form. split.
  - apply Forall_map. apply Forall_forall. intros k _. apply isIdentifier_nameOf.
  - intros k Hk. exists (nameOf k). split.
    + rewrite nth_error_map, nth_error_seq.
      destruct (Nat.ltb_spec k n); [reflexivity|lia].
    + unfold nameOf. cbn [String.length]. rewrite length_zs. reflexivity.
Qed.

End NamesSpec.

Module MessagesSpec.
Import Messages.

(** X26. Messages of the optimizer: in a release build the consumer writes
    a message to the error log exactly when its level is FATAL, INTERNAL ERROR
    or ERROR, and in a debug build it writes every message; a line it writes
    begins with the name of the level, a colon and a space and ends with the
    message; and the level can be read back from the line, since no two levels
    give lines that begin alike. *)
Theorem optimizer_messages
    (NDEBUG : bool) (level : spv_message_level_t) (source : option string)
    (position : spv_position_t) (message : option string) :
  (messageConsumer NDEBUG level source position message = None
   <-> NDEBUG = true
       /\ (level = SPV_MSG_WARNING \/ level = SPV_MSG_INFO \/ level = SPV_MSG_DEBUG))
  /\ (forall text,
        messageConsumer NDEBUG level source position message = Some text ->
        exists middle,
          text = levelString level ++ ": " ++ middle
                 ++ match message with Some m => m | None => "" end)
  /\ (forall level' source' position' message',
        stringifySpvOptimizerMessage level source position message
        = stringifySpvOptimizerMessage level' source' position' message' ->
        level = level').
Proof.
  split; [|split].
  - unfold messageConsumer, filterSpvOptimizerMessage.
    destruct NDEBUG, level; cbn; split; intros H; try discriminate; try reflexivity;
      auto; destruct H as [H1 [H2 | [H2 | H2]]]; discriminate.
  - intros text H. unfold messageConsumer in H.
    destruct (negb (filterSpvOptimizerMessage NDEBUG level)); [discriminate|].
    injection H as <-. unfold stringifySpvOptimizerMessage.
    exists (match source with Some s => s ++ ":" | None => "" end
            ++ decimal (line position) ++ ":" ++ decimal (column position) ++ ":"
            ++ decimal (index position) ++ ": ").
    rewrite !StrFacts.append_assoc. reflexivity.
  - intros level' source' position' message' H.
    unfold stringifySpvOptimizerMessage in H.
    destruct level, level'; try reflexivity; cbn [levelString append] in H;
      discriminate H.
Qed.

End MessagesSpec.
